(* ===== verification/_CoqProject ===== *)
-Q . S2P
Prelude.v
GoStd.v
GoChan.v
Core.v
AuctionState.v
AuctionRun.v
AuctionSpec.v
AuctionProps.v
Signer.v
NonceQueue.v
Executor.v
OpStack.v
Bindings.v
Events.v
Hub.v
HubProps.v
Handler.v
Relayer.v
Trace.v
Config.v
Main.v
Progress.v
Simulate.v
