(* ===== verification/Prelude.v ===== *)
(** * VynX relayer: verification development

    The relayer settles swap intents.  A user posts an intent (REST handler),
    connected solvers see it and bid (WebSocket hub), an auction per intent
    picks the best bid after a fixed window (auction engine), and an executor
    signs and sends one claim transaction per winning bid (signer, nonce
    queue, executor).  The packages do not call each other: [main] wires them
    with buffered channels and dispatcher goroutines (the Event Bus).  A
    generated binding gives access to the settlement contract, and a
    simulation driver plays the user and a solver against a running relayer.

    ** Files, in dependency order

    - Prelude: bytes, outcomes (a value or a Go panic), results (a value or a
      Go error), machine integers with wrap-around, tactics, shared lemmas.
    - GoStd: what the code uses of strings, encoding/hex, math/big and time.
    - GoChan: buffered channels; the relayer only uses non-blocking sends.
    - Core: Intent, Bid and Voucher (internal/core).
    - AuctionState: the engine's state and operations, one definition per Go
      function and per critical section (internal/auction/state.go and
      matcher.go), and the declarative winner [is_winner].
    - AuctionRun: the same engine as a transition system, one step per
      critical section of any goroutine, with its invariant.
    - AuctionSpec: the abstract auction book and the simulation.
    - AuctionProps: theorems about the engine.
    - Signer: claim digest, EIP-712 hashing, key vault (internal/signer).
    - NonceQueue: the atomic counter (internal/txmanager/nonce_queue.go).
    - Executor: [execute], the event loop [Run] and the transaction signer
      (internal/txmanager/executor.go).
    - OpStack: the OP Stack client: constructor, gas estimation in float64,
      tip and L1 fee queries (internal/txmanager/opstack_client.go).
    - Bindings: the contract's ABI, the constructors, sessions, view calls
      and transactions of the binding (bindings/vynx_settlement.go).
    - Events: its event structs, parsers, filters, iterators and watchers.
    - Hub, HubProps: solver connections, broadcast, both pumps and shutdown as
      interleaved steps (internal/ingress/mempool_ws.go), and theorems.
    - Handler: validation and hand-off of intents
      (internal/ingress/handler.go).
    - Relayer: the composition of all components with the dispatchers of
      cmd/relayer/main.go; whole-process theorems.
    - Trace: histories of the process; every claim goes back to a decided
      auction.
    - Config: .env file and configuration of cmd/relayer/main.go.
    - Main: startup of cmd/relayer/main.go from the constructors of the
      components, the node as the executor sees it through the binding, the
      routes and the shutdown.
    - Progress: the whole process can always empty its pipeline.
    - Simulate: the end-to-end driver (cmd/simulate/main.go) as a computation
      that ends in a value or a fatal error, with the trace of its actions;
      the interleaving of its solver goroutine with its request is an argument.

    ** How code becomes definitions

    A function that can panic returns [outcome], one that can fail returns
    [result].  Mutable objects that are shared through pointers live in
    stores: auction entries in [entries], client connections in [conns]; the
    registry maps hold locations.  A goroutine is a program counter
    ([AuctionRun.pc], [Hub.bcast], the pump flags of [Hub.conn], the flags
    [Relayer.alive]); [step], [hub_step] and [relayer_step] execute one
    critical section and return [None] when it is not enabled.  Operations
    are also given as the sequential composition the Go function makes
    ([runAuction], [BroadcastIntent], [SubmitIntent], [Run]); theorems relate
    the two views ([auction_lifecycle], [broadcast_delivery]).  Go's map
    iteration order is an argument constrained to be a permutation, clock
    readings are arguments, int64 and uint64 arithmetic wraps explicitly.

    Code that is not in the repository is a parameter: Keccak, secp256k1 and
    ABI packing ([Crypto], [Abi], with their documented behaviour as
    [CryptoLaws] (signatures are R || S || V with a low S and V in {0, 1}),
    [AbiLaws], and the contract's check as [OnChain]: OpenZeppelin's recovery,
    which refuses a high S, a V outside {27, 28} and the zero address),
    go-ethereum's transaction type ([EthTypes]), the node ([World],
    [TxWorld]), its contract library ([BindLib], [BindLaws]), the gas oracle
    ([OracleLib], [OracleLaws]) and its hex and padding helpers ([EthCommon],
    [EthCommonLaws]; plain arguments where only one is used).  Modules [Toy],
    [ToyChain], [ToyBind], [ToyOracle] and [ToySim] are concrete instances
    that satisfy all laws; the witnesses use them.

    The three events of the binding have textually identical iterators and
    watchers; Events gives them once over a type of logs and events and
    instantiates them ([FundsClaimed_Next] and so on).

    ** What the theorems show

    - Whole process (Relayer): no goroutine panics under any interleaving;
      there are never more claims than accepted intents; every claim goes back
      to a scan in the process's history, of an accepted intent, and pays the
      winner among all the bids of that moment with a signature the contract
      accepts (Trace); queued intents, auctions and vouchers can always be
      worked off (Progress).
    - From configuration to contract (Main): startup yields an initial state
      of the process or the error of the first step that failed, the steps
      before it having succeeded; a
      successful settlement is one claimFunds transaction of the configured
      contract that the contract accepts; after the signal all goroutines can
      return and nothing more is claimed.
    - Auction: refinement of an atomic auction book under concurrency,
      correctness and uniqueness of the winner, exactness of the registry, at
      most one voucher per auction, and that every auction can finish.
    - Settlement: [execute] and [Run] on every branch, signatures that the
      contract accepts, nonces handed out without gap or repetition, and what
      a resync may break; claim and EIP-712 digests bind what they sign, unless
      the very messages hashed for two of them are a collision of the hash.
    - Ingress: the status code of every request, exact delivery of broadcasts
      with disconnection of slow clients, in-order frames, no send on a closed
      channel, only valid bids forwarded, draining at shutdown.
    - Configuration: precedence of the environment over the .env file, ranges
      of parsed values.
    - Binding: view calls decode the outputs the ABI declares without panic;
      iterators yield the found events in order and end; watchers forward in
      order and unsubscribe.
    - OP Stack client: the float64 gas buffer is exact integer arithmetic, and
      the L1 fee query on every branch.
    - Driver: it contacts the relayer only after the escrow of its intent is
      locked by mined transactions, whatever the order of its request and its
      bid; its calldata is the ABI encoding, the
      relayer accepts its request and its bid, and runs do not share escrows.
    - Behaviours worth knowing, each with a proof: a bid accepted between the
      scan and the cleanup of its auction is lost; MinAmountOut is not
      enforced; UUIDs collide on chain when their first 32 characters agree; an
      empty variable
      is overwritten by the .env file; a huge auction window wraps.

    ** Fuel

    [Big.print_nat] recurses at most log2 n times (each step divides by ten;
    [SetString_String] shows nothing is lost), [Config.Text.trim] and
    [Config.Text.lines] drop at least one byte per round and get the length of
    the text.  [Next] of an event iterator calls itself at most once, so its
    fuel of two is enough ([Next_terminates] for any larger fuel as well);
    [Big_Bytes] divides by 256 and gets log2 z + 1 rounds ([Big_Bytes_pad]).
    [drain] is given the number of calls it may make, and [iteration_ends]
    says how many suffice.  Everything else is structural.

    ** Not modelled

    JSON encoding and decoding (decoded structs are inputs), logging and
    printing, server timeouts and the redirects of the HTTP multiplexer, the
    WebSocket protocol (results of its calls are inputs), delivery of signals
    and the tests.  Time is not quantified: a timer step may happen at any
    moment.  What a failed [UnpackLog] leaves in the fields of an event is
    not modelled (the event counts as fresh), nor is the exponent range of
    float64 (the gas buffer's theorem is about a range that stays inside it).
    The logs channel of an iterator is never closed, as go-ethereum never
    closes it. *)

From stdpp Require Export prelude gmap strings list vector.
From Stdlib Require Export Lia ZArith.
From Stdlib Require Import Init.Byte Strings.Byte.

#[global] Set Default Goal Selector "!".

(** ** Bytes

    Go's [byte] is the 256-element type of the standard library; slices of
    bytes are lists and the fixed-size arrays [[20]byte] and [[32]byte] are
    length-indexed vectors. *)

Abbreviation byte := Byte.byte.
Abbreviation bytes := (list Byte.byte).

#[global] Instance byte_eq_decision : EqDecision byte := Byte.byte_eq_dec.

Definition byte_val (b : byte) : Z := Z.of_N (Byte.to_N b).

Definition byte_of_Z (z : Z) : byte := default x00 (Byte.of_N (Z.to_N (z `mod` 256))).

(** [copy(dst[:], src)] into a zeroed array: the first [n] bytes of [src],
    padded with zeros on the right. *)
Fixpoint copy_array (n : nat) (src : bytes) : vec byte n :=
  match n with
  | O => [#]
  | S n => default x00 (head src) ::: copy_array n (tail src)
  end.

(** ** Go control flow

    [outcome A] is a computation that returns normally or panics (nil
    dereference, index out of range, send on a closed channel, close of a
    closed channel).  [result E A] is Go's [(A, error)] pair, of which the
    callers only ever look at one half. *)

Inductive outcome (A : Type) : Type :=
| Ret (a : A)
| Panic.
Arguments Ret {A} a.
Arguments Panic {A}.

Inductive result (E A : Type) : Type :=
| Ok (a : A)
| Err (e : E).
Arguments Ok {E A} a.
Arguments Err {E A} e.

#[global] Instance outcome_ret : MRet outcome := fun A a => Ret a.
#[global] Instance outcome_bind : MBind outcome := fun A B f m =>
  match m with Ret a => f a | Panic => Panic end.

#[global] Instance result_ret {E} : MRet (result E) := fun A a => Ok a.
#[global] Instance result_bind {E} : MBind (result E) := fun A B f m =>
  match m with Ok a => f a | Err e => Err e end.

(** Wrapping an error, as [fmt.Errorf("...: %w", err)] does. *)
Definition map_err {E F A : Type} (f : E → F) (r : result E A) : result F A :=
  match r with Ok a => Ok a | Err e => Err (f e) end.

Definition is_ok {E A : Type} (r : result E A) : bool :=
  match r with Ok _ => true | Err _ => false end.

(** ** Machine integers

    [uint64] values are integers in [[0, 2^64)], [int64] values integers in
    [[-2^63, 2^63)]; arithmetic wraps. *)

Definition wrap_u64 (z : Z) : Z := z `mod` 2 ^ 64.

Definition wrap_i64 (z : Z) : Z := (z + 2 ^ 63) `mod` 2 ^ 64 - 2 ^ 63.

Definition is_u64 (z : Z) : Prop := (0 ≤ z < 2 ^ 64)%Z.

Definition is_i64 (z : Z) : Prop := (- 2 ^ 63 ≤ z < 2 ^ 63)%Z.

(** ** Automation *)

Create HintDb vynx.

(** Case analysis on every [match] scrutinee of the goal or of a hypothesis,
    keeping the equations. *)
Ltac split_match :=
  repeat match goal with
  | |- context [match ?x with _ => _ end] => destruct x eqn:?
  | H : context [match ?x with _ => _ end] |- _ => destruct x eqn:?
  end.

(** The same for one hypothesis, with injection and contradiction after each
    split. *)
Ltac inv_match H :=
  repeat (match type of H with
          | context [match ?x with _ => _ end] => destruct x eqn:?
          end; simplify_eq/=).

(** ** Lemmas on integers *)

Lemma byte_val_range b : (0 ≤ byte_val b < 256)%Z.
Proof. unfold byte_val. pose proof (Byte.to_N_bounded b). lia. Qed.

Lemma byte_of_Z_val b : byte_of_Z (byte_val b) = b.
Proof.
  unfold byte_of_Z. rewrite Z.mod_small by apply byte_val_range.
  unfold byte_val. rewrite N2Z.id. by rewrite Byte.of_to_N.
Qed.

Lemma byte_val_of_Z z : byte_val (byte_of_Z z) = (z `mod` 256)%Z.
Proof.
  unfold byte_of_Z, byte_val.
  assert (0 ≤ z `mod` 256 < 256)%Z as Hr by (apply Z.mod_pos_bound; lia).
  destruct (Byte.of_N (Z.to_N (z `mod` 256))) as [b|] eqn:E; simpl.
  - apply Byte.to_of_N in E. rewrite E. lia.
  - apply Byte.of_N_None_iff in E. lia.
Qed.

Lemma byte_val_inj a b : byte_val a = byte_val b → a = b.
Proof. intros H. by rewrite <- (byte_of_Z_val a), H, byte_of_Z_val. Qed.

Lemma wrap_u64_range z : is_u64 (wrap_u64 z).
Proof. unfold is_u64, wrap_u64. apply Z.mod_pos_bound. lia. Qed.

Lemma wrap_u64_id z : is_u64 z → wrap_u64 z = z.
Proof. unfold is_u64, wrap_u64. intros. by apply Z.mod_small. Qed.

Lemma wrap_i64_range z : is_i64 (wrap_i64 z).
Proof.
  unfold is_i64, wrap_i64.
  pose proof (Z.mod_pos_bound (z + 2 ^ 63) (2 ^ 64)). lia.
Qed.

Lemma wrap_i64_id z : is_i64 z → wrap_i64 z = z.
Proof. unfold is_i64, wrap_i64. intros. rewrite Z.mod_small; lia. Qed.

Lemma wrap_u64_add_l a b : wrap_u64 (wrap_u64 a + b) = wrap_u64 (a + b).
Proof. unfold wrap_u64. by rewrite Zplus_mod_idemp_l. Qed.

Lemma wrap_i64_add_l a b : wrap_i64 (wrap_i64 a + b) = wrap_i64 (a + b).
Proof.
  unfold wrap_i64.
  replace ((a + 2 ^ 63) `mod` 2 ^ 64 - 2 ^ 63 + b + 2 ^ 63)%Z
    with ((a + 2 ^ 63) `mod` 2 ^ 64 + b)%Z by lia.
  rewrite Zplus_mod_idemp_l. do 2 f_equal. lia.
Qed.

#[export] Hint Resolve wrap_u64_range wrap_i64_range byte_val_range : vynx.

(** ** Lemmas on lists *)

Lemma prefix_snoc_r {A} (l k : list A) x : l `prefix_of` k → l `prefix_of` k ++ [x].
Proof. intros [r ->]. exists (r ++ [x]). by rewrite (assoc_L (++)). Qed.

Lemma prefix_elem_of {A} (l k : list A) x : l `prefix_of` k → x ∈ l → x ∈ k.
Proof. intros [r ->] H. apply elem_of_app. by left. Qed.

(** [copy_array] keeps the first [n] bytes and pads with zeros. *)
Lemma copy_array_list n src :
  vec_to_list (copy_array n src) = take n src ++ replicate (n - length src) x00.
Proof.
  revert src. induction n as [|n IH]; intros src; [done|].
  destruct src as [|b src]; simpl; rewrite IH; [|done].
  by rewrite take_nil, Nat.sub_0_r.
Qed.

Lemma copy_array_vec {n} (v : vec byte n) : copy_array n (vec_to_list v) = v.
Proof. induction v as [|b n v IH]; simpl; [done|]. by rewrite IH. Qed.

#[export] Hint Resolve prefix_snoc_r prefix_elem_of : vynx.
