(* ===== verification/GoStd.v ===== *)
(** * The parts of Go's standard library the relayer calls

    Go strings are byte strings; they are modelled by [string], whose
    characters are bytes.  The file holds [strings] (ToLower, Contains,
    HasPrefix, TrimPrefix), [encoding/hex] (DecodeString, EncodeToString),
    [math/big] (SetString in base 10, String, Cmp, Sign) and [time] (Unix,
    After), with the lemmas the components need: search soundness and
    completeness, and the print/parse round trips. *)

From S2P Require Import Prelude.
From Stdlib Require Import Ascii String.
From Stdlib Require Import Init.Byte.

#[local] Open Scope string_scope.
#[local] Open Scope Z_scope.

#[local] Arguments String.append _ _ : simpl nomatch.

(** ** Package strings *)

Module Strings.

Definition is_ascii_char (c : ascii) : bool := (Ascii.N_of_ascii c <? 128)%N.

Fixpoint is_ascii (s : string) : bool :=
  match s with
  | EmptyString => true
  | String c s => is_ascii_char c && is_ascii s
  end.

Definition lower_char (c : ascii) : ascii :=
  let n := Ascii.N_of_ascii c in
  if ((65 <=? n) && (n <=? 90))%N then Ascii.ascii_of_N (n + 32) else c.

Fixpoint map_string (f : ascii → ascii) (s : string) : string :=
  match s with
  | EmptyString => EmptyString
  | String c s => String (f c) (map_string f s)
  end.

(** [strings.ToLower]: the ASCII fast path is a byte-wise map; on any other
    string the standard library maps [unicode.ToLower] over the runes, and
    that table is the argument [slow]. *)
Definition ToLower (slow : string → string) (s : string) : string :=
  if is_ascii s then map_string lower_char s else slow s.

Fixpoint HasPrefix (s pre : string) {struct pre} : bool :=
  match pre, s with
  | EmptyString, _ => true
  | String _ _, EmptyString => false
  | String p pre, String c s => Ascii.eqb p c && HasPrefix s pre
  end.

Fixpoint Contains (s sub : string) : bool :=
  HasPrefix s sub ||
  match s with
  | EmptyString => false
  | String _ s => Contains s sub
  end.

(** Drop the first [n] bytes. *)
Fixpoint drop_string (n : nat) (s : string) : string :=
  match n, s with
  | S n, String _ s => drop_string n s
  | _, _ => s
  end.

Definition TrimPrefix (s pre : string) : string :=
  if HasPrefix s pre then drop_string (String.length pre) s else s.

End Strings.

(** ** Package encoding/hex *)

Module Hex.

Definition from_hex_char (c : ascii) : option Z :=
  let n := Z.of_N (Ascii.N_of_ascii c) in
  if (48 <=? n) && (n <=? 57) then Some (n - 48)
  else if (97 <=? n) && (n <=? 102) then Some (n - 97 + 10)
  else if (65 <=? n) && (n <=? 70) then Some (n - 65 + 10)
  else None.

(** [hex.DecodeString]: the bytes decoded before the first error, and whether
    there was none (odd length and a byte that is not a hex digit are errors;
    the callers only test for an error). *)
Fixpoint Decode (s : string) : bytes * bool :=
  match s with
  | EmptyString => ([], true)
  | String _ EmptyString => ([], false)
  | String p (String q s) =>
      match from_hex_char p, from_hex_char q with
      | Some a, Some b =>
          let '(bs, ok) := Decode s in (byte_of_Z (a * 16 + b) :: bs, ok)
      | _, _ => ([], false)
      end
  end.

Definition DecodeString (s : string) : option bytes :=
  let '(bs, ok) := Decode s in if ok then Some bs else None.

Definition hex_digit (d : Z) : ascii :=
  Ascii.ascii_of_N (Z.to_N (if d <? 10 then 48 + d else 87 + d)).

Fixpoint EncodeToString (bs : bytes) : string :=
  match bs with
  | [] => EmptyString
  | b :: bs =>
      String (hex_digit (byte_val b / 16))
        (String (hex_digit (byte_val b `mod` 16)) (EncodeToString bs))
  end.

End Hex.

(** ** Package math/big

    A [*big.Int] is [None] when the pointer is nil. *)

Module Big.

Abbreviation Int := (option Z).

Definition digit_val (c : ascii) : option Z :=
  let n := Z.of_N (Ascii.N_of_ascii c) in
  if (48 <=? n) && (n <=? 57) then Some (n - 48) else None.

(** The digit loop of [nat.scan] in base 10: every character must be a
    digit. *)
Fixpoint scan_digits (acc : Z) (s : string) : option Z :=
  match s with
  | EmptyString => Some acc
  | String c s => d ← digit_val c; scan_digits (acc * 10 + d) s
  end.

(** At least one digit is required ([errNoDigits]). *)
Definition scan_nat (s : string) : option Z :=
  match s with
  | EmptyString => None
  | _ => scan_digits 0 s
  end.

(** [new(big.Int).SetString(s, 10)]: an optional sign, then digits only. *)
Definition SetString (s : string) : option Z :=
  match s with
  | String "-" s' => Z.opp <$> scan_nat s'
  | String "+" s' => scan_nat s'
  | _ => scan_nat s
  end.

Definition digit_char (d : Z) : ascii := Ascii.ascii_of_N (Z.to_N (48 + d)).

Fixpoint print_digits (fuel : nat) (n : Z) : string :=
  let last := String (digit_char (n `mod` 10)) EmptyString in
  match fuel with
  | O => last
  | S fuel => if n <? 10 then last else (print_digits fuel (n / 10) ++ last)%string
  end.

(** Each step divides by ten, so the binary size of [n] bounds the number of
    steps. *)
Definition print_nat (n : Z) : string := print_digits (Z.to_nat (Z.log2 n)) n.

Definition String (x : Int) : string :=
  match x with
  | None => "<nil>"
  | Some z => if z <? 0 then ("-" ++ print_nat (- z))%string else print_nat z
  end.

(** [x.Cmp(y)]: equal pointers compare equal without a dereference, so two
    nil pointers do; one nil pointer panics. *)
Definition Cmp (x y : Int) : outcome comparison :=
  match x, y with
  | Some a, Some b => Ret (a ?= b)
  | None, None => Ret Eq
  | _, _ => Panic
  end.

End Big.

(** ** Package time

    [t_sec] is the 64-bit count of seconds since the internal epoch (year 1),
    [t_nsec] the nanoseconds within the second. *)

Record Time := mkTime { t_sec : Z; t_nsec : Z }.

#[global] Instance Time_eq_dec : EqDecision Time.
Proof. solve_decision. Defined.

Module GoTime.

Definition unixToInternal : Z := 62135596800.

(** [time.Unix(sec, 0)]: the addition of the epoch offset wraps. *)
Definition Unix (sec : Z) : Time := mkTime (wrap_i64 (sec + unixToInternal)) 0.

(** The method [t.Unix()]. *)
Definition toUnix (t : Time) : Z := wrap_i64 (t_sec t - unixToInternal).

Definition After (t u : Time) : bool :=
  (t_sec u <? t_sec t) || ((t_sec u =? t_sec t) && (t_nsec u <? t_nsec t)).

End GoTime.

(** ** Lemmas: strings *)

Section strings_lemmas.

Lemma string_app_assoc (a b c : string) : ((a ++ b) ++ c = a ++ (b ++ c))%string.
Proof. induction a; simpl; congruence. Qed.

Lemma HasPrefix_spec s pre : Strings.HasPrefix s pre = true ↔ ∃ r, s = (pre ++ r)%string.
Proof.
  revert s. induction pre as [|p pre IH]; intros s; simpl.
  - split; [|done]. by exists s.
  - destruct s as [|c s]; simpl.
    + split; [done|]. by intros [r Hr].
    + rewrite andb_true_iff, Ascii.eqb_eq, IH. split.
      * intros [-> [r ->]]. by exists r.
      * intros [r [= -> ->]]. eauto.
Qed.

Lemma Contains_unfold s sub :
  Strings.Contains s sub =
  Strings.HasPrefix s sub ||
  match s with EmptyString => false | String.String _ s' => Strings.Contains s' sub end.
Proof. by destruct s. Qed.

(** [Contains] finds a substring exactly when there is one. *)
Lemma Contains_spec s sub :
  Strings.Contains s sub = true ↔ ∃ a b, s = (a ++ sub ++ b)%string.
Proof.
  induction s as [|c s IH]; rewrite Contains_unfold, orb_true_iff, HasPrefix_spec.
  - split; [intros [[r Hr]|]; [by exists "", r|done]|].
    intros (a & b & H). left. exists b. by destruct a; simplify_eq/=.
  - rewrite IH. split.
    + intros [[r Hr]|(a & b & ->)]; [by exists "", r|].
      by exists (String.String c a), b.
    + intros (a & b & H). destruct a as [|c' a]; simplify_eq/=; [left|right]; eauto.
Qed.

Lemma TrimPrefix_app pre s : Strings.TrimPrefix (pre ++ s) pre = s.
Proof.
  unfold Strings.TrimPrefix.
  assert (Strings.HasPrefix (pre ++ s) pre = true) as -> by (apply HasPrefix_spec; eauto).
  by induction pre; simpl.
Qed.

Lemma TrimPrefix_no s pre : Strings.HasPrefix s pre = false → Strings.TrimPrefix s pre = s.
Proof. unfold Strings.TrimPrefix. by intros ->. Qed.

Lemma map_string_app f a b :
  Strings.map_string f (a ++ b) = (Strings.map_string f a ++ Strings.map_string f b)%string.
Proof. induction a; simpl; congruence. Qed.

Lemma is_ascii_app a b :
  Strings.is_ascii (a ++ b) = Strings.is_ascii a && Strings.is_ascii b.
Proof. induction a as [|c a IH]; simpl; [done|]. by rewrite IH, andb_assoc. Qed.

Lemma map_string_split f s a b :
  Strings.map_string f s = (a ++ b)%string →
  ∃ a' b', s = (a' ++ b')%string ∧ Strings.map_string f a' = a ∧ Strings.map_string f b' = b.
Proof.
  revert s. induction a as [|c a IH]; intros s H; simpl in *.
  - by exists "", s.
  - destruct s as [|c' s]; simplify_eq/=.
    match goal with H' : Strings.map_string f s = _ |- _ => apply IH in H' as (a' & b' & -> & <- & <-) end.
    by exists (String.String c' a'), b'.
Qed.

End strings_lemmas.

(** ** Lemmas: hex *)

Section hex_lemmas.

Lemma from_hex_digit d : 0 ≤ d < 16 → Hex.from_hex_char (Hex.hex_digit d) = Some d.
Proof.
  intros H. assert (d ∈ seqZ 0 16) as Hin by (apply elem_of_seqZ; lia).
  revert d H Hin. refine (λ d _ Hin, _).
  repeat (apply elem_of_cons in Hin as [->|Hin]; [reflexivity|]).
  by apply elem_of_nil in Hin.
Qed.

Lemma hex_nibbles b : byte_val b / 16 * 16 + byte_val b `mod` 16 = byte_val b.
Proof. pose proof (Z.div_mod (byte_val b) 16). lia. Qed.

Lemma decode_encode bs : Hex.Decode (Hex.EncodeToString bs) = (bs, true).
Proof.
  induction bs as [|b bs IH]; [done|]. cbn [Hex.EncodeToString Hex.Decode].
  pose proof (byte_val_range b).
  rewrite !from_hex_digit, IH.
  - by rewrite hex_nibbles, byte_of_Z_val.
  - apply Z.mod_pos_bound. lia.
  - split; [apply Z.div_pos; lia|]. apply Z.div_lt_upper_bound; lia.
Qed.

(** Decoding what was encoded gives the bytes back. *)
Lemma hex_decode_encode bs : Hex.DecodeString (Hex.EncodeToString bs) = Some bs.
Proof. unfold Hex.DecodeString. by rewrite decode_encode. Qed.

End hex_lemmas.

(** ** Lemmas: big integers *)

Section big_lemmas.

Lemma digit_val_char d : 0 ≤ d < 10 → Big.digit_val (Big.digit_char d) = Some d.
Proof.
  intros H. assert (d ∈ seqZ 0 10) as Hin by (apply elem_of_seqZ; lia).
  revert d H Hin. refine (λ d _ Hin, _).
  repeat (apply elem_of_cons in Hin as [->|Hin]; [reflexivity|]).
  by apply elem_of_nil in Hin.
Qed.

Lemma digit_val_bound c d : Big.digit_val c = Some d → 0 ≤ d < 10.
Proof. unfold Big.digit_val. intros H. inv_match H. lia. Qed.

Lemma scan_digits_app acc a b v :
  Big.scan_digits acc a = Some v → Big.scan_digits acc (a ++ b) = Big.scan_digits v b.
Proof.
  revert acc. induction a as [|c a IH]; intros acc H; simpl in *; [congruence|].
  destruct (Big.digit_val c); simpl in *; [by apply IH|done].
Qed.

Lemma scan_digits_nonneg acc s v : 0 ≤ acc → Big.scan_digits acc s = Some v → 0 ≤ v.
Proof.
  revert acc. induction s as [|c s IH]; intros acc Ha H; simpl in *; [congruence|].
  destruct (Big.digit_val c) as [d|] eqn:E; [|done]. apply digit_val_bound in E.
  eapply IH; [|exact H]. lia.
Qed.

Lemma scan_digits_single n : Big.scan_digits 0 (String.String (Big.digit_char (n `mod` 10)) "")
  = Some (n `mod` 10).
Proof.
  assert (0 ≤ n `mod` 10 < 10) by (apply Z.mod_pos_bound; lia).
  cbn [Big.scan_digits]. by rewrite digit_val_char.
Qed.

Lemma scan_print_digits fuel n :
  0 ≤ n < 2 ^ (Z.of_nat fuel + 1) → Big.scan_digits 0 (Big.print_digits fuel n) = Some n.
Proof.
  revert n. induction fuel as [|fuel IH]; intros n Hn; cbn [Big.print_digits].
  - rewrite scan_digits_single. f_equal. apply Z.mod_small. simpl in Hn. lia.
  - destruct (Z.ltb_spec n 10) as [Hlt|Hge].
    + rewrite scan_digits_single. f_equal. apply Z.mod_small. lia.
    + rewrite (scan_digits_app _ _ _ (n / 10)).
      * assert (0 ≤ n `mod` 10 < 10) by (apply Z.mod_pos_bound; lia).
        cbn [Big.scan_digits]. rewrite digit_val_char by done. simpl. f_equal.
        pose proof (Z.div_mod n 10). lia.
      * apply IH. split; [apply Z.div_pos; lia|]. apply Z.div_lt_upper_bound; [lia|].
        rewrite Nat2Z.inj_succ in Hn. replace (Z.succ (Z.of_nat fuel) + 1)
          with (Z.succ (Z.of_nat fuel + 1)) in Hn by lia.
        rewrite Z.pow_succ_r in Hn by lia. lia.
Qed.

Lemma scan_print_nat n : 0 ≤ n → Big.scan_digits 0 (Big.print_nat n) = Some n.
Proof.
  intros Hn. apply scan_print_digits. split; [done|].
  rewrite Z2Nat.id by apply Z.log2_nonneg.
  destruct (decide (n = 0)) as [->|]; [done|].
  apply Z.log2_spec. lia.
Qed.

(** The first character of a printed number is a digit, never a sign. *)
Lemma print_digits_head fuel n :
  0 ≤ n → ∃ d r, 0 ≤ d < 10 ∧ Big.print_digits fuel n = String.String (Big.digit_char d) r.
Proof.
  revert n. induction fuel as [|fuel IH]; intros n Hn; cbn [Big.print_digits].
  - exists (n `mod` 10), "". split; [apply Z.mod_pos_bound; lia|done].
  - destruct (n <? 10).
    + exists (n `mod` 10), "". split; [apply Z.mod_pos_bound; lia|done].
    + destruct (IH (n / 10)) as (d & r & ? & ->); [apply Z.div_pos; lia|].
      simpl. eauto.
Qed.

Lemma SetString_digit d r :
  0 ≤ d < 10 →
  Big.SetString (String.String (Big.digit_char d) r) = Big.scan_nat (String.String (Big.digit_char d) r).
Proof.
  intros H. assert (d ∈ seqZ 0 10) as Hin by (apply elem_of_seqZ; lia).
  revert Hin. clear H. intros Hin.
  repeat (apply elem_of_cons in Hin as [->|Hin]; [reflexivity|]).
  by apply elem_of_nil in Hin.
Qed.

Lemma scan_nat_print n : 0 ≤ n → Big.scan_nat (Big.print_nat n) = Some n.
Proof.
  intros Hn. pose proof (scan_print_nat n Hn) as H.
  destruct (print_digits_head (Z.to_nat (Z.log2 n)) n Hn) as (d & r & _ & E).
  unfold Big.print_nat in *. by rewrite E in *.
Qed.

(** Parsing what was printed gives the number back, for every sign. *)
Lemma SetString_String z : Big.SetString (Big.String (Some z)) = Some z.
Proof.
  unfold Big.String. destruct (Z.ltb_spec z 0).
  - cbn [String.append Big.SetString].
    change (Z.opp <$> Big.scan_nat (Big.print_nat (- z)) = Some z).
    rewrite scan_nat_print by lia. simpl. f_equal. lia.
  - pose proof (scan_nat_print z ltac:(done)) as H'. unfold Big.print_nat in *.
    destruct (print_digits_head (Z.to_nat (Z.log2 z)) z ltac:(done)) as (d & r & Hd & E).
    rewrite E in *. by rewrite SetString_digit.
Qed.

End big_lemmas.

(** ** Lemmas: time *)

Section time_lemmas.

(** [time.Unix(s, 0).Unix()] is [s] for every [int64], although the internal
    addition may wrap. *)
Lemma toUnix_Unix s : is_i64 s → GoTime.toUnix (GoTime.Unix s) = s.
Proof.
  intros Hs. unfold GoTime.toUnix, GoTime.Unix. simpl.
  replace (wrap_i64 (s + GoTime.unixToInternal) - GoTime.unixToInternal)
    with (wrap_i64 (s + GoTime.unixToInternal) + - GoTime.unixToInternal) by lia.
  rewrite wrap_i64_add_l.
  replace (s + GoTime.unixToInternal + - GoTime.unixToInternal) with s by lia.
  by apply wrap_i64_id.
Qed.

Lemma After_irrefl t : GoTime.After t t = false.
Proof. unfold GoTime.After. rewrite !Z.ltb_irrefl. by rewrite andb_false_r. Qed.

Lemma After_spec t u :
  GoTime.After t u = true ↔
  t_sec u < t_sec t ∨ (t_sec u = t_sec t ∧ t_nsec u < t_nsec t).
Proof. unfold GoTime.After. rewrite orb_true_iff, andb_true_iff. lia. Qed.

End time_lemmas.
