(* ===== verification/GoChan.v ===== *)
(** * Buffered Go channels

    A channel is a bounded FIFO buffer with a closed flag.  The relayer only
    sends with [select { case ch <- x: ... default: ... }], which never
    blocks: it either enqueues or takes the default branch.  Sending on a
    closed channel and closing a closed channel panic.  [cap_ok] (the buffer
    never exceeds its capacity) is the invariant every operation keeps. *)

From S2P Require Import Prelude.

Record chan (A : Type) := mkChan { cap : nat; buf : list A; closed : bool }.
Arguments mkChan {A} cap buf closed.
Arguments cap {A} c.
Arguments buf {A} c.
Arguments closed {A} c.

(** [make(chan T, n)] *)
Definition make {A} (n : nat) : chan A := mkChan n [] false.

Inductive send_result (A : Type) : Type :=
| Sent (c : chan A)
| Full
| SendPanic.
Arguments Sent {A} c.
Arguments Full {A}.
Arguments SendPanic {A}.

(** [select { case c <- x: ... default: ... }] *)
Definition try_send {A} (c : chan A) (x : A) : send_result A :=
  if closed c then SendPanic
  else if length (buf c) <? cap c then Sent (mkChan (cap c) (buf c ++ [x]) false)
  else Full.

Inductive recv_result (A : Type) : Type :=
| Got (x : A) (c : chan A)
| Closed
| Blocked.
Arguments Got {A} x c.
Arguments Closed {A}.
Arguments Blocked {A}.

(** [x, ok := <-c]: buffered values are delivered before the close. *)
Definition recv {A} (c : chan A) : recv_result A :=
  match buf c with
  | x :: r => Got x (mkChan (cap c) r (closed c))
  | [] => if closed c then Closed else Blocked
  end.

Definition close {A} (c : chan A) : outcome (chan A) :=
  if closed c then Panic else Ret (mkChan (cap c) (buf c) true).

(** ** The capacity invariant *)

Definition cap_ok {A} (c : chan A) : Prop := length (buf c) ≤ cap c.

Section chan_lemmas.
Context {A : Type}.
Implicit Types (c : chan A) (x : A).

Lemma make_cap_ok n : cap_ok (@make A n).
Proof. unfold cap_ok. simpl. lia. Qed.

(** The four ways a non-blocking send can go. *)
Lemma try_send_Sent c x c' :
  try_send c x = Sent c' ↔
  closed c = false ∧ length (buf c) < cap c ∧ c' = mkChan (cap c) (buf c ++ [x]) false.
Proof.
  unfold try_send. destruct (closed c); [naive_solver|].
  destruct (Nat.ltb_spec (length (buf c)) (cap c)); naive_solver lia.
Qed.

Lemma try_send_Full c x :
  try_send c x = Full ↔ closed c = false ∧ cap c ≤ length (buf c).
Proof.
  unfold try_send. destruct (closed c); [naive_solver|].
  destruct (Nat.ltb_spec (length (buf c)) (cap c)); naive_solver lia.
Qed.

Lemma try_send_panic c x : try_send c x = SendPanic ↔ closed c = true.
Proof. unfold try_send. split_match; naive_solver. Qed.

Lemma try_send_cap_ok c x c' : try_send c x = Sent c' → cap_ok c'.
Proof.
  intros (_ & H & ->)%try_send_Sent. unfold cap_ok. simpl. rewrite length_app. simpl. lia.
Qed.

Lemma recv_Got c x c' :
  recv c = Got x c' ↔ ∃ r, buf c = x :: r ∧ c' = mkChan (cap c) r (closed c).
Proof. unfold recv. split_match; naive_solver. Qed.

Lemma recv_cap_ok c x c' : cap_ok c → recv c = Got x c' → cap_ok c'.
Proof. intros H (r & E & ->)%recv_Got. unfold cap_ok in *. rewrite E in H. simpl in *. lia. Qed.

(** FIFO: what a non-empty channel delivers next does not depend on later
    sends. *)
Lemma send_recv_fifo c x c1 y c2 :
  try_send c x = Sent c1 → recv c = Got y c2 → ∃ c3, recv c1 = Got y c3 ∧ try_send c2 x = Sent c3.
Proof.
  intros (Hc & Hl & ->)%try_send_Sent (r & E & ->)%recv_Got.
  rewrite E in *. simpl in *. eexists. split.
  - apply recv_Got. simpl. eauto.
  - apply try_send_Sent. simpl. rewrite Hc. split_and!; [done|lia|done].
Qed.

End chan_lemmas.

#[export] Hint Resolve make_cap_ok try_send_cap_ok recv_cap_ok : vynx.
