(* ===== verification/Core.v ===== *)
(** * Domain types (internal/core)

    [Intent], [Bid] and [Voucher] with the fields of the Go structs.  A
    [*big.Int] field is [Big.Int] ([None] for a nil pointer) and a struct
    pointer held in a struct field is an [option].  No code of the repository
    writes to an [Intent], a [Bid] or a [Voucher] after it is built, so the
    pointers shared between goroutines are modelled by the values they point
    to; mutable shared objects (auction entries, channels, the client set) are
    modelled by explicit stores in their own files. *)

From S2P Require Import Prelude GoStd.

(** [core.IntentID] is a named string type. *)
Abbreviation IntentID := string.

(** go-ethereum's [common.Address] is [[20]byte], [common.Hash] is
    [[32]byte]. *)
Abbreviation Address := (vec byte 20).
Abbreviation Bytes32 := (vec byte 32).

Record Intent := mkIntent {
  Intent_ID : IntentID;
  Intent_Sender : Address;
  Intent_TokenIn : Address;
  Intent_TokenOut : Address;
  Intent_AmountIn : Big.Int;
  Intent_MinAmountOut : Big.Int;
  Intent_Deadline : Time;
  Intent_Nonce : Z;
  Intent_Signature : bytes;
  Intent_ReceivedAt : Time
}.

Record Bid := mkBid {
  Bid_IntentID : IntentID;
  Bid_Solver : Address;
  Bid_AmountOut : Big.Int;
  Bid_GasPrice : Big.Int;
  Bid_ReceivedAt : Time;
  Bid_Signature : bytes
}.

Record Voucher := mkVoucher {
  Voucher_IntentID : IntentID;
  Voucher_WinningSolver : Address;
  Voucher_AmountOut : Big.Int;
  Voucher_Intent : option Intent;
  Voucher_WinningBid : option Bid;
  Voucher_CreatedAt : Time
}.

#[global] Instance Intent_eq_dec : EqDecision Intent.
Proof. solve_decision. Defined.

#[global] Instance Bid_eq_dec : EqDecision Bid.
Proof. solve_decision. Defined.

#[global] Instance Voucher_eq_dec : EqDecision Voucher.
Proof. solve_decision. Defined.

(** The zero value of [common.Address]. *)
Definition zeroAddress : Address := vreplicate 20 Byte.x00.
