(* ===== verification/AuctionState.v ===== *)
(** * Auction engine: state and operations (internal/auction)

    [Engine] is the registry of state.go.  An [auctionEntry] is a mutable heap
    object shared between the registry map and the goroutines that looked it
    up, so entries live in the store [entries] and the map holds locations
    (indices into the store).  Every definition below is one critical section
    or the sequential composition of critical sections the Go function makes;
    the interleavings are the subject of AuctionRun.v.

    Winner selection is specified declaratively by [is_winner]: the winner is
    the earliest received among the bids that are maximal for the
    lexicographic order on (AmountOut, GasPrice). *)

From S2P Require Import Prelude GoStd GoChan Core.

(** ** Data *)

Abbreviation loc := nat (only parsing).

Record auctionEntry := mkEntry {
  entry_bids : list Bid;
  entry_intent : Intent;
  entry_startedAt : Time
}.

Record Engine := mkEngine {
  auctions : gmap IntentID loc;
  entries : list auctionEntry;
  voucherCh : chan Voucher;
  timeout : Z
}.

Inductive StartError :=
| AuctionAlreadyActive (id : IntentID).

Inductive SubmitError :=
| AmountOutNil (id : IntentID)
| GasPriceNil (id : IntentID)
| AuctionNotFound (id : IntentID).

(** ** Operations *)

Definition NewEngine (voucherBufSize : nat) (auctionTimeout : Z) : Engine :=
  mkEngine ∅ [] (make voucherBufSize) auctionTimeout.

(** Receiving from [Vouchers()]. *)
Definition Vouchers (e : Engine) : recv_result Voucher := recv (voucherCh e).

(** [StartAuction]: the whole check-and-register section runs under the write
    lock.  The new entry is allocated at the end of the store; the caller
    spawns the goroutine [runAuction]. *)
Definition StartAuction (e : Engine) (intent : Intent) (now : Time) : result StartError Engine :=
  match auctions e !! Intent_ID intent with
  | Some _ => Err (AuctionAlreadyActive (Intent_ID intent))
  | None =>
      let entry := mkEntry [] intent now in
      Ok (mkEngine (<[Intent_ID intent := length (entries e)]> (auctions e))
                   (entries e ++ [entry]) (voucherCh e) (timeout e))
  end.

(** First section of [submitBidLocked] and of [selectWinner]: the pointer
    lookup under the read lock. *)
Definition lookupEntry (e : Engine) (id : IntentID) : option loc := auctions e !! id.

Definition add_bid (bid : Bid) (en : auctionEntry) : auctionEntry :=
  mkEntry (entry_bids en ++ [bid]) (entry_intent en) (entry_startedAt en).

(** Second section of [submitBidLocked]: the append under the entry's own
    mutex, through the pointer obtained before. *)
Definition appendBid (e : Engine) (l : loc) (bid : Bid) : Engine :=
  mkEngine (auctions e) (alter (add_bid bid) l (entries e)) (voucherCh e) (timeout e).

Definition submitBidLocked (e : Engine) (bid : Bid) : bool * Engine :=
  match lookupEntry e (Bid_IntentID bid) with
  | None => (false, e)
  | Some l => (true, appendBid e l bid)
  end.

(** The nil guards of [SubmitBid]. *)
Definition checkBid (bid : Bid) : result SubmitError unit :=
  match Bid_AmountOut bid with
  | None => Err (AmountOutNil (Bid_IntentID bid))
  | Some _ =>
      match Bid_GasPrice bid with
      | None => Err (GasPriceNil (Bid_IntentID bid))
      | Some _ => Ok tt
      end
  end.

Definition SubmitBid (e : Engine) (bid : Bid) : result SubmitError Engine :=
  match checkBid bid with
  | Err err => Err err
  | Ok _ =>
      match submitBidLocked e bid with
      | (false, _) => Err (AuctionNotFound (Bid_IntentID bid))
      | (true, e') => Ok e'
      end
  end.

(** The replacement test of the scan loop:
    [cmp > 0 || (cmp == 0 && bid.GasPrice.Cmp(winner.GasPrice) > 0)]. *)
Definition replaces (bid winner : Bid) : outcome bool :=
  match Big.Cmp (Bid_AmountOut bid) (Bid_AmountOut winner) with
  | Panic => Panic
  | Ret Gt => Ret true
  | Ret Lt => Ret false
  | Ret Eq =>
      match Big.Cmp (Bid_GasPrice bid) (Bid_GasPrice winner) with
      | Panic => Panic
      | Ret Gt => Ret true
      | Ret _ => Ret false
      end
  end.

(** The loop of [selectWinner] over [entry.bids]. *)
Fixpoint scanBids (winner : option Bid) (bids : list Bid) : outcome (option Bid) :=
  match bids with
  | [] => Ret winner
  | bid :: rest =>
      match winner with
      | None => scanBids (Some bid) rest
      | Some w =>
          match replaces bid w with
          | Panic => Panic
          | Ret true => scanBids (Some bid) rest
          | Ret false => scanBids (Some w) rest
          end
      end
  end.

(** Second section of [selectWinner]: the scan under the entry's mutex. *)
Definition scanEntry (e : Engine) (l : option loc) : outcome (option Bid) :=
  match l with
  | None => Ret None
  | Some l =>
      match entries e !! l with
      | None => Panic
      | Some en => scanBids None (entry_bids en)
      end
  end.

Definition selectWinner (e : Engine) (id : IntentID) : outcome (option Bid) :=
  scanEntry e (lookupEntry e id).

Definition Cleanup (e : Engine) (id : IntentID) : Engine :=
  mkEngine (delete id (auctions e)) (entries e) (voucherCh e) (timeout e).

Definition winnerVoucher (intent : Intent) (winner : Bid) (now : Time) : Voucher :=
  mkVoucher (Intent_ID intent) (Bid_Solver winner) (Bid_AmountOut winner)
    (Some intent) (Some winner) now.

(** The non-blocking send at the end of [runAuction]; a full channel drops
    the voucher. *)
Definition emitVoucher (e : Engine) (v : Voucher) : outcome Engine :=
  match try_send (voucherCh e) v with
  | Sent ch => Ret (mkEngine (auctions e) (entries e) ch (timeout e))
  | Full => Ret e
  | SendPanic => Panic
  end.

(** [runAuction] from the moment its timer fires, when nothing interleaves:
    select, emit, and the deferred [Cleanup] on both exits. *)
Definition runAuction (e : Engine) (intent : Intent) (now : Time) : outcome Engine :=
  match selectWinner e (Intent_ID intent) with
  | Panic => Panic
  | Ret None => Ret (Cleanup e (Intent_ID intent))
  | Ret (Some w) =>
      match emitVoucher e (winnerVoucher intent w now) with
      | Panic => Panic
      | Ret e' => Ret (Cleanup e' (Intent_ID intent))
      end
  end.

(** ** Specification of winner selection *)

(** Both amounts are set: what [SubmitBid] guarantees of a stored bid. *)
Definition priced (b : Bid) : Prop := is_Some (Bid_AmountOut b) ∧ is_Some (Bid_GasPrice b).

(** The key bids are ranked by. *)
Definition bid_key (b : Bid) : Z * Z := (default 0%Z (Bid_AmountOut b), default 0%Z (Bid_GasPrice b)).

Definition key_lt (a b : Z * Z) : Prop := (a.1 < b.1 ∨ (a.1 = b.1 ∧ a.2 < b.2))%Z.

(** [outranks a b]: [a] strictly beats [b]. *)
Definition outranks (a b : Bid) : Prop := key_lt (bid_key b) (bid_key a).

Definition is_winner (w : Bid) (bids : list Bid) : Prop :=
  ∃ before after,
    bids = before ++ w :: after ∧
    (∀ b, b ∈ before → outranks w b) ∧
    (∀ b, b ∈ after → ¬ outranks b w).

(** ** Lemmas: ranking *)

Section ranking.

#[global] Instance key_lt_dec a b : Decision (key_lt a b).
Proof. unfold key_lt. apply _. Defined.

Lemma key_lt_trans a b c : key_lt a b → key_lt b c → key_lt a c.
Proof. unfold key_lt. lia. Qed.

Lemma key_lt_irrefl a : ¬ key_lt a a.
Proof. unfold key_lt. lia. Qed.

Lemma key_lt_total a b : key_lt a b ∨ a = b ∨ key_lt b a.
Proof. destruct a, b. unfold key_lt. simpl. destruct (decide (z = z1)), (decide (z0 = z2)); subst; auto; lia. Qed.

Lemma key_lt_le_trans a b c : key_lt a b → ¬ key_lt c b → key_lt a c.
Proof. destruct a, b, c. unfold key_lt. simpl. lia. Qed.

Lemma key_le_lt_trans a b c : ¬ key_lt b a → key_lt b c → key_lt a c.
Proof. destruct a, b, c. unfold key_lt. simpl. lia. Qed.

(** On priced bids the Go test never panics and decides [outranks]. *)
Lemma replaces_spec b w :
  priced b → priced w → replaces b w = Ret (bool_decide (outranks b w)).
Proof.
  intros [[ab Eab] [gb Egb]] [[aw Eaw] [gw Egw]].
  unfold replaces, outranks, bid_key, key_lt, Big.Cmp.
  rewrite Eab, Egb, Eaw, Egw. simpl.
  destruct (Z.compare_spec ab aw); [destruct (Z.compare_spec gb gw)|..];
    case_bool_decide; try done; exfalso; lia.
Qed.

End ranking.

(** ** Lemmas: the scan loop *)

Section scan.

(** The loop invariant: when the prefix [seen] has been scanned the current
    winner is the winner of [seen]. *)
Lemma is_winner_snoc w seen b :
  is_winner w seen →
  is_winner (if bool_decide (outranks b w) then b else w) (seen ++ [b]).
Proof.
  intros (pre & post & -> & Hpre & Hpost). case_bool_decide as Hb.
  - exists (pre ++ w :: post), []. split_and!; [done| |set_solver].
    intros x [Hx|[->|Hx]%elem_of_cons]%elem_of_app; [|done|].
    + eapply key_lt_trans; [by apply Hpre|done].
    + eapply key_le_lt_trans; [by apply Hpost|done].
  - exists pre, (post ++ [b]). split_and!; [by rewrite <- (assoc_L (++))|done|].
    intros x [Hx| ->%list_elem_of_singleton]%elem_of_app; [by apply Hpost|done].
Qed.

Lemma is_winner_single b : is_winner b [b].
Proof. exists [], []. set_solver. Qed.

Lemma is_winner_elem w bids : is_winner w bids → w ∈ bids.
Proof. intros (pre & post & -> & _). set_solver. Qed.

Lemma is_winner_max w bids b : is_winner w bids → b ∈ bids → ¬ outranks b w.
Proof.
  intros (pre & post & -> & Hpre & Hpost) [Hb|[->|Hb]%elem_of_cons]%elem_of_app.
  - intros H. eapply key_lt_irrefl, key_lt_trans; [by apply Hpre|exact H].
  - apply key_lt_irrefl.
  - by apply Hpost.
Qed.

Lemma scanBids_some w seen bids :
  is_winner w seen → Forall priced (seen ++ bids) →
  ∃ w', scanBids (Some w) bids = Ret (Some w') ∧ is_winner w' (seen ++ bids).
Proof.
  revert w seen. induction bids as [|b bids IH]; intros w seen Hw Hp.
  - exists w. by rewrite app_nil_r.
  - cbn [scanBids].
    assert (priced b) by (eapply Forall_forall; [exact Hp|set_solver]).
    assert (priced w).
    { eapply Forall_forall; [exact Hp|]. apply elem_of_app. left. by apply is_winner_elem. }
    rewrite replaces_spec by done.
    pose proof (is_winner_snoc w seen b Hw) as Hs.
    replace (seen ++ b :: bids) with ((seen ++ [b]) ++ bids) in * by by rewrite <- (assoc_L (++)).
    destruct (bool_decide (outranks b w)); by apply IH.
Qed.

(** The scan of priced bids returns, and returns the winner. *)
Lemma scanBids_winner bids :
  Forall priced bids →
  match bids with
  | [] => scanBids None bids = Ret None
  | _ => ∃ w, scanBids None bids = Ret (Some w) ∧ is_winner w bids
  end.
Proof.
  intros Hp. destruct bids as [|b bids]; [done|].
  apply (scanBids_some b [b]); [apply is_winner_single|done].
Qed.

Lemma scanBids_Some_inv bids w :
  Forall priced bids → scanBids None bids = Ret (Some w) → is_winner w bids.
Proof.
  intros Hp Hs. apply scanBids_winner in Hp. destruct bids; [naive_solver|].
  destruct Hp as (w' & E & ?). congruence.
Qed.

Lemma scanBids_no_panic bids : Forall priced bids → scanBids None bids ≠ Panic.
Proof. intros Hp%scanBids_winner. destruct bids; naive_solver congruence. Qed.

Lemma app_cons_compare {A} (p1 p2 q1 q2 : list A) (x y : A) :
  p1 ++ x :: q1 = p2 ++ y :: q2 →
  (p1 = p2 ∧ x = y) ∨ (x ∈ p2 ∧ y ∈ q1) ∨ (y ∈ p1 ∧ x ∈ q2).
Proof.
  revert p2. induction p1 as [|a p1 IH]; intros [|c p2] H; simplify_eq/=.
  - by left.
  - right. left. set_solver.
  - right. right. set_solver.
  - match goal with E : _ ++ _ = _ ++ _ |- _ => apply IH in E as [[-> ->]|[[??]|[??]]] end;
      [by left|right; left|right; right]; set_solver.
Qed.

(** There is at most one winner, so [is_winner] determines the result. *)
Lemma is_winner_unique w w' bids : is_winner w bids → is_winner w' bids → w = w'.
Proof.
  intros (p1 & q1 & -> & Hp1 & Hq1) (p2 & q2 & E & Hp2 & Hq2).
  apply app_cons_compare in E as [[_ ->]|[[Hx Hy]|[Hy Hx]]]; [done|..]; exfalso.
  - apply (Hq1 w' Hy). by apply Hp2.
  - apply (Hq2 w Hx). by apply Hp1.
Qed.

(** The winning key does not depend on the order of arrival. *)
Lemma is_winner_key_perm w w' bids bids' :
  bids ≡ₚ bids' → is_winner w bids → is_winner w' bids' → bid_key w = bid_key w'.
Proof.
  intros Hperm Hw Hw'.
  assert (¬ outranks w' w) as H1.
  { eapply is_winner_max; [done|]. rewrite Hperm. by apply is_winner_elem. }
  assert (¬ outranks w w') as H2.
  { eapply is_winner_max; [done|]. rewrite <- Hperm. by apply is_winner_elem. }
  unfold outranks in *. by destruct (key_lt_total (bid_key w) (bid_key w')) as [?|[?|?]].
Qed.

End scan.

#[export] Hint Resolve is_winner_elem is_winner_max is_winner_single : vynx.
