(* ===== verification/AuctionRun.v ===== *)
(** * Auction engine: concurrent execution

    The engine is used by many goroutines at once: callers of [StartAuction],
    callers of [SubmitBid] and one [runAuction] goroutine per auction.  [sys]
    is the engine together with the program counters of those goroutines, and
    [step] executes one critical section of one of them.  Between the pointer
    lookup and the append of a [SubmitBid] (and between lookup and scan of a
    [selectWinner]) any other goroutine may run.

    A [runAuction] goroutine is identified by the location of the entry that
    was registered when it was spawned.  [step] is [None] when the event is
    not enabled and [Some Panic] when the goroutine would panic (which in Go
    kills the process). *)

From S2P Require Import Prelude GoStd GoChan Core AuctionState.

(** ** State and steps *)

(** Program counter of [runAuction]. *)
Inductive pc :=
| PTimer                    (* blocked on [<-timer.C] *)
| PSelect                   (* about to look up its entry *)
| PScan (l : option loc)    (* holds the looked-up pointer *)
| PEmit (w : Bid)           (* winner chosen, about to send *)
| PCleanup.                 (* about to run the deferred Cleanup *)

Record goroutine := mkG { g_intent : Intent; g_pc : pc }.

Record sys := mkSys {
  eng : Engine;
  gor : gmap loc goroutine;
  (* [SubmitBid] calls between lookup and append *)
  pend : list (loc * Bid)
}.

Inductive event :=
| EStart (i : Intent) (now : Time)
| EBid (b : Bid)
| EAppend (k : nat)
| ETimer (l : loc)
| ELookup (l : loc)
| EScan (l : loc)
| EEmit (l : loc) (now : Time)
| ECleanup (l : loc)
| ERecv.

Definition init_sys (voucherBufSize : nat) (auctionTimeout : Z) : sys :=
  mkSys (NewEngine voucherBufSize auctionTimeout) ∅ [].

Definition set_pc (s : sys) (l : loc) (i : Intent) (p : pc) : sys :=
  mkSys (eng s) (<[l := mkG i p]> (gor s)) (pend s).

(** [StartAuction] and the spawn of its goroutine. *)
Definition step_start (s : sys) (i : Intent) (now : Time) : sys :=
  match StartAuction (eng s) i now with
  | Err _ => s
  | Ok e => mkSys e (<[length (entries (eng s)) := mkG i PTimer]> (gor s)) (pend s)
  end.

(** [SubmitBid] up to the pointer lookup. *)
Definition step_bid (s : sys) (b : Bid) : sys :=
  match checkBid b with
  | Err _ => s
  | Ok _ =>
      match lookupEntry (eng s) (Bid_IntentID b) with
      | None => s
      | Some l => mkSys (eng s) (gor s) (pend s ++ [(l, b)])
      end
  end.

(** The rest of a pending [SubmitBid]. *)
Definition step_append (s : sys) (k : nat) : option sys :=
  match pend s !! k with
  | None => None
  | Some (l, b) => Some (mkSys (appendBid (eng s) l b) (gor s) (delete k (pend s)))
  end.

Definition step (ev : event) (s : sys) : option (outcome sys) :=
  match ev with
  | EStart i now => Some (Ret (step_start s i now))
  | EBid b => Some (Ret (step_bid s b))
  | EAppend k => Ret <$> step_append s k
  | ETimer l =>
      match gor s !! l with
      | Some (mkG i PTimer) => Some (Ret (set_pc s l i PSelect))
      | _ => None
      end
  | ELookup l =>
      match gor s !! l with
      | Some (mkG i PSelect) =>
          Some (Ret (set_pc s l i (PScan (lookupEntry (eng s) (Intent_ID i)))))
      | _ => None
      end
  | EScan l =>
      match gor s !! l with
      | Some (mkG i (PScan p)) =>
          match scanEntry (eng s) p with
          | Panic => Some Panic
          | Ret None => Some (Ret (set_pc s l i PCleanup))
          | Ret (Some w) => Some (Ret (set_pc s l i (PEmit w)))
          end
      | _ => None
      end
  | EEmit l now =>
      match gor s !! l with
      | Some (mkG i (PEmit w)) =>
          match emitVoucher (eng s) (winnerVoucher i w now) with
          | Panic => Some Panic
          | Ret e => Some (Ret (mkSys e (<[l := mkG i PCleanup]> (gor s)) (pend s)))
          end
      | _ => None
      end
  | ECleanup l =>
      match gor s !! l with
      | Some (mkG i PCleanup) =>
          Some (Ret (mkSys (Cleanup (eng s) (Intent_ID i)) (delete l (gor s)) (pend s)))
      | _ => None
      end
  | ERecv =>
      match Vouchers (eng s) with
      | Got _ ch =>
          Some (Ret (mkSys (mkEngine (auctions (eng s)) (entries (eng s)) ch (timeout (eng s)))
                           (gor s) (pend s)))
      | _ => None
      end
  end.

Inductive reachable (n : nat) (t : Z) : sys → Prop :=
| reach_init : reachable n t (init_sys n t)
| reach_step s ev s' :
    reachable n t s → step ev s = Some (Ret s') → reachable n t s'.

(** Execution of a schedule. *)
Fixpoint run (evs : list event) (s : sys) : option (outcome sys) :=
  match evs with
  | [] => Some (Ret s)
  | ev :: evs =>
      match step ev s with
      | Some (Ret s') => run evs s'
      | r => r
      end
  end.

(** ** The invariant *)

(** What [SubmitBid] promises of a bid stored under [id]. *)
Definition bid_for (id : IntentID) (b : Bid) : Prop := Bid_IntentID b = id ∧ priced b.

(** A voucher for the auction entry [en]: it names the intent, and its
    winning bid wins among the bids the entry held when it was scanned. *)
Definition voucher_for (en : auctionEntry) (v : Voucher) : Prop :=
  ∃ w seen,
    seen `prefix_of` entry_bids en ∧ is_winner w seen ∧
    Voucher_IntentID v = Intent_ID (entry_intent en) ∧
    Voucher_Intent v = Some (entry_intent en) ∧
    Voucher_WinningBid v = Some w ∧
    Voucher_WinningSolver v = Bid_Solver w ∧
    Voucher_AmountOut v = Bid_AmountOut w.

Definition voucher_ok (ens : list auctionEntry) (v : Voucher) : Prop :=
  ∃ l en, ens !! l = Some en ∧ voucher_for en v.

Definition pc_ok (l : loc) (en : auctionEntry) (p : pc) : Prop :=
  match p with
  | PScan ol => ol = Some l
  | PEmit w => ∃ seen, seen `prefix_of` entry_bids en ∧ is_winner w seen
  | _ => True
  end.

Definition gor_ok (s : sys) (l : loc) (g : goroutine) : Prop :=
  auctions (eng s) !! Intent_ID (g_intent g) = Some l ∧
  ∃ en, entries (eng s) !! l = Some en ∧ entry_intent en = g_intent g ∧ pc_ok l en (g_pc g).

Record inv (s : sys) : Prop := {
  inv_gor : ∀ l g, gor s !! l = Some g → gor_ok s l g;
  inv_map : ∀ id l, auctions (eng s) !! id = Some l →
    ∃ g, gor s !! l = Some g ∧ Intent_ID (g_intent g) = id;
  inv_bids : ∀ l en, entries (eng s) !! l = Some en →
    Forall (bid_for (Intent_ID (entry_intent en))) (entry_bids en);
  inv_pend : ∀ l b, (l, b) ∈ pend s →
    ∃ en, entries (eng s) !! l = Some en ∧ bid_for (Intent_ID (entry_intent en)) b;
  inv_chan : cap_ok (voucherCh (eng s)) ∧ closed (voucherCh (eng s)) = false;
  inv_vouchers : Forall (voucher_ok (entries (eng s))) (buf (voucherCh (eng s)))
}.

(** ** The store only grows *)

(** [en'] is a later version of the entry [en]. *)
Definition entry_le (en en' : auctionEntry) : Prop :=
  entry_intent en' = entry_intent en ∧ entry_bids en `prefix_of` entry_bids en'.

Definition store_le (ens ens' : list auctionEntry) : Prop :=
  ∀ l en, ens !! l = Some en → ∃ en', ens' !! l = Some en' ∧ entry_le en en'.

Section store.

#[global] Instance entry_le_refl : Reflexive entry_le.
Proof. intros en. split; [done|]. reflexivity. Qed.

#[global] Instance entry_le_trans : Transitive entry_le.
Proof. intros a b c [H1 H2] [H3 H4]. split; [congruence|]. by etrans. Qed.

#[global] Instance store_le_refl : Reflexive store_le.
Proof. intros ens l en H. exists en. by split. Qed.

#[global] Instance store_le_trans : Transitive store_le.
Proof.
  intros a b c H1 H2 l en H. apply H1 in H as (en' & H & ?).
  apply H2 in H as (en'' & H & ?). exists en''. split; [done|]. by etrans.
Qed.

Lemma store_le_app ens ens' : store_le ens (ens ++ ens').
Proof. intros l en H. exists en. split; [|done]. by apply lookup_app_l_Some. Qed.

Lemma store_le_append ens l b : store_le ens (alter (add_bid b) l ens).
Proof.
  intros l' en H. destruct (decide (l = l')) as [->|Hne].
  - exists (add_bid b en). rewrite list_lookup_alter_eq, H. split; [done|].
    split; [done|]. simpl. by apply prefix_app_r.
  - exists en. by rewrite list_lookup_alter_ne.
Qed.

Lemma voucher_for_le en en' v : entry_le en en' → voucher_for en v → voucher_for en' v.
Proof.
  intros [Hi Hb] (w & seen & Hp & Hw & H1 & H2 & H3 & H4 & H5). exists w, seen.
  rewrite Hi. split_and!; try done. by etrans.
Qed.

Lemma voucher_ok_le ens ens' v : store_le ens ens' → voucher_ok ens v → voucher_ok ens' v.
Proof.
  intros Hle (l & en & H & Hv). apply Hle in H as (en' & H' & He).
  exists l, en'. split; [done|]. by eapply voucher_for_le.
Qed.

Lemma pc_ok_le l en en' p : entry_le en en' → pc_ok l en p → pc_ok l en' p.
Proof.
  intros [_ Hb]. destruct p; simpl; try done.
  intros (seen & ? & ?). exists seen. split; [by etrans|done].
Qed.

Lemma bid_for_le en en' b :
  entry_le en en' → bid_for (Intent_ID (entry_intent en)) b → bid_for (Intent_ID (entry_intent en')) b.
Proof. by intros [-> _]. Qed.

End store.

#[export] Hint Resolve store_le_app store_le_append voucher_ok_le : vynx.

(** ** Preservation of the invariant, one lemma per kind of step *)

Section preservation.

Lemma inv_init n t : inv (init_sys n t).
Proof.
  split; simpl.
  - intros l g H. by rewrite lookup_empty in H.
  - intros id l H. by rewrite lookup_empty in H.
  - intros l en H. by rewrite lookup_nil in H.
  - set_solver.
  - split; [apply make_cap_ok|done].
  - constructor.
Qed.

Lemma inv_gor_lt s l g : inv s → gor s !! l = Some g → l < length (entries (eng s)).
Proof. intros Hi Hg. destruct (inv_gor s Hi l g Hg) as (_ & en & He & _). by eapply lookup_lt_Some. Qed.

Lemma inv_set_pc s l i p p' :
  inv s → gor s !! l = Some (mkG i p) →
  (∀ en, entries (eng s) !! l = Some en → pc_ok l en p → pc_ok l en p') →
  inv (set_pc s l i p').
Proof.
  intros Hi Hg Hpc. destruct (inv_gor s Hi l _ Hg) as (Ha & en & He & Hin & Hok).
  split; simpl; try apply Hi.
  - intros l' g' H. destruct (decide (l = l')) as [<-|Hne].
    + rewrite lookup_insert_eq in H. simplify_eq/=. split; [done|].
      exists en. simpl in *. auto.
    + rewrite lookup_insert_ne in H by done. by apply (inv_gor s Hi).
  - intros id l' H. destruct (inv_map s Hi id l' H) as (g' & Hg' & <-).
    destruct (decide (l = l')) as [<-|Hne].
    + exists (mkG i p'). rewrite lookup_insert_eq. by simplify_eq/=.
    + exists g'. by rewrite lookup_insert_ne.
Qed.

Lemma inv_start s i now : inv s → inv (step_start s i now).
Proof.
  intros Hi. unfold step_start, StartAuction.
  destruct (auctions (eng s) !! Intent_ID i) eqn:Ea; [done|].
  split; simpl.
  - intros l g H. rewrite lookup_insert in H. case_decide; simplify_eq/=.
    + split; simpl; [by rewrite lookup_insert_eq|].
      eexists. split; [by apply list_lookup_middle|done].
    + destruct (inv_gor s Hi l g H) as (Ha & en & He & Hin & Hok). split; simpl.
      * rewrite lookup_insert_ne; [done|]. congruence.
      * exists en. split; [|done]. by apply lookup_app_l_Some.
  - intros id l H. rewrite lookup_insert in H. case_decide; simplify_eq/=.
    + eexists. by rewrite lookup_insert_eq.
    + destruct (inv_map s Hi id l H) as (g & Hg & <-). exists g. split; [|done].
      pose proof (inv_gor_lt s l g Hi Hg). rewrite lookup_insert_ne; [done|]. lia.
  - intros l en [H|[_ H]]%lookup_app_Some; [by apply (inv_bids s Hi l)|].
    apply list_lookup_singleton_Some in H as [_ <-]. constructor.
  - intros l b H. destruct (inv_pend s Hi l b H) as (en & He & ?).
    exists en. split; [by apply lookup_app_l_Some|done].
  - apply Hi.
  - eapply Forall_impl; [apply Hi|]. intros v. apply voucher_ok_le, store_le_app.
Qed.

Lemma checkBid_Ok b : checkBid b = Ok tt ↔ priced b.
Proof.
  unfold checkBid, priced. destruct (Bid_AmountOut b), (Bid_GasPrice b); split;
    intros H; try done; destruct H as [[??] [??]]; done.
Qed.

Lemma inv_entry s id l :
  inv s → auctions (eng s) !! id = Some l →
  ∃ en, entries (eng s) !! l = Some en ∧ Intent_ID (entry_intent en) = id.
Proof.
  intros Hi H. destruct (inv_map s Hi id l H) as (g & Hg & <-).
  destruct (inv_gor s Hi l g Hg) as (_ & en & He & Hin & _). exists en. by rewrite Hin.
Qed.

Lemma inv_bid s b : inv s → inv (step_bid s b).
Proof.
  intros Hi. unfold step_bid, lookupEntry.
  destruct (checkBid b) as [[]|] eqn:Ec; [|done].
  apply checkBid_Ok in Ec.
  destruct (auctions (eng s) !! Bid_IntentID b) as [l|] eqn:Ea; [|done].
  split; simpl; try apply Hi.
  intros l' b' [H|[= -> ->]%list_elem_of_singleton]%elem_of_app; [by apply (inv_pend s Hi)|].
  destruct (inv_entry s _ l Hi Ea) as (en & He & Hid). exists en. split; [done|].
  split; [done|]. done.
Qed.

(** Every part of the invariant but [inv_bids] survives a larger store. *)
Lemma inv_append s l b k :
  inv s → (l, b) ∈ pend s →
  inv (mkSys (appendBid (eng s) l b) (gor s) (delete k (pend s))).
Proof.
  intros Hi Hb. pose proof (store_le_append (entries (eng s)) l b) as Hle.
  split; simpl; try apply Hi.
  - intros l' g H. destruct (inv_gor s Hi l' g H) as (Ha & en & He & Hin & Hok).
    split; [done|]. apply Hle in He as (en' & He' & Hle'). exists en'.
    split_and!; [done| |by eapply pc_ok_le]. destruct Hle' as [-> _]. done.
  - intros l' en H. destruct (decide (l = l')) as [->|Hne].
    + rewrite list_lookup_alter_eq in H.
      destruct (entries (eng s) !! l') as [en0|] eqn:E; simplify_eq/=.
      apply Forall_app. split; [by apply (inv_bids s Hi l')|].
      apply Forall_singleton. destruct (inv_pend s Hi l' b Hb) as (en1 & He1 & Hf).
      by simplify_eq.
    + rewrite list_lookup_alter_ne in H by done. by apply (inv_bids s Hi l').
  - intros l' b' H. assert ((l', b') ∈ pend s) as H'.
    { by eapply list_elem_of_delete_inv. }
    destruct (inv_pend s Hi l' b' H') as (en & He & Hf).
    apply Hle in He as (en' & He' & Hle'). exists en'. split; [done|]. by eapply bid_for_le.
  - eapply Forall_impl; [apply Hi|]. intros v. by apply voucher_ok_le.
Qed.

(** A scan of the goroutine's own entry never panics and picks the winner. *)
Lemma inv_scan s l i p :
  inv s → gor s !! l = Some (mkG i (PScan p)) →
  ∃ en, entries (eng s) !! l = Some en ∧
    scanEntry (eng s) p = scanBids None (entry_bids en) ∧
    Forall priced (entry_bids en).
Proof.
  intros Hi Hg. destruct (inv_gor s Hi l _ Hg) as (Ha & en & He & Hin & Hok).
  simpl in *. subst p. exists en. split; [done|]. simpl. rewrite He. split; [done|].
  eapply Forall_impl; [by apply (inv_bids s Hi l)|]. by intros b [_ ?].
Qed.

Lemma emitVoucher_cases e v :
  closed (voucherCh e) = false →
  (emitVoucher e v = Ret e ∧ cap (voucherCh e) ≤ length (buf (voucherCh e))) ∨
  (∃ ch, try_send (voucherCh e) v = Sent ch ∧
         emitVoucher e v = Ret (mkEngine (auctions e) (entries e) ch (timeout e))).
Proof.
  intros Hc. unfold emitVoucher. destruct (try_send (voucherCh e) v) eqn:E.
  - right. eauto.
  - left. split; [done|]. by apply try_send_Full in E as [_ ?].
  - apply try_send_panic in E. congruence.
Qed.

Lemma winnerVoucher_for en i w now seen :
  entry_intent en = i → seen `prefix_of` entry_bids en → is_winner w seen →
  voucher_for en (winnerVoucher i w now).
Proof. intros <- ? ?. by exists w, seen. Qed.

Lemma inv_with_chan s ch :
  inv s → cap_ok ch → closed ch = false →
  Forall (voucher_ok (entries (eng s))) (buf ch) →
  inv (mkSys (mkEngine (auctions (eng s)) (entries (eng s)) ch (timeout (eng s))) (gor s) (pend s)).
Proof. intros Hi Hc Hcl Hv. split; simpl; try apply Hi; done. Qed.

Lemma inv_emit s l i w now e :
  inv s → gor s !! l = Some (mkG i (PEmit w)) →
  emitVoucher (eng s) (winnerVoucher i w now) = Ret e →
  inv (mkSys e (gor s) (pend s)).
Proof.
  intros Hi Hg He. destruct (inv_gor s Hi l _ Hg) as (Ha & en & Hl & Hin & seen & Hp & Hw).
  destruct (inv_chan s Hi) as [Hcap Hcl].
  destruct (emitVoucher_cases (eng s) (winnerVoucher i w now) Hcl) as [[E _]|(ch & Hs & E)];
    rewrite E in He; simplify_eq; [by destruct s|].
  apply inv_with_chan; [done|by eapply try_send_cap_ok|..].
  - by apply try_send_Sent in Hs as (_ & _ & ->).
  - apply try_send_Sent in Hs as (_ & _ & ->). simpl. apply Forall_app. split; [apply Hi|].
    apply Forall_singleton. exists l, en. split; [done|]. by eapply winnerVoucher_for.
Qed.

Lemma inv_cleanup s l i :
  inv s → gor s !! l = Some (mkG i PCleanup) →
  inv (mkSys (Cleanup (eng s) (Intent_ID i)) (delete l (gor s)) (pend s)).
Proof.
  intros Hi Hg. destruct (inv_gor s Hi l _ Hg) as (Ha & _). simpl in Ha.
  split; simpl; try apply Hi.
  - intros l' g H. apply lookup_delete_Some in H as [Hne H].
    destruct (inv_gor s Hi l' g H) as (Ha' & en & He & Hin & Hok). split; [|by exists en].
    simpl. rewrite lookup_delete_ne; [done|]. congruence.
  - intros id l' H. apply lookup_delete_Some in H as [Hne H].
    destruct (inv_map s Hi id l' H) as (g & Hg' & <-). exists g. split; [|done].
    rewrite lookup_delete_ne; [done|]. intros ->. by simplify_eq/=.
Qed.

End preservation.

(** ** Every step of every goroutine *)

Section steps.

Lemma step_Some_inv ev s o : inv s → step ev s = Some o → ∃ s', o = Ret s' ∧ inv s'.
Proof.
  intros Hi Hs. destruct ev; simpl in Hs.
  - simplify_eq. eauto using inv_start.
  - simplify_eq. eauto using inv_bid.
  - apply fmap_Some in Hs as (s' & Hs & ->). exists s'. split; [done|].
    unfold step_append in Hs. destruct (pend s !! k) as [[l b]|] eqn:E; simplify_eq.
    eapply inv_append; [done|]. by eapply list_elem_of_lookup_2.
  - destruct (gor s !! l) as [[i []]|] eqn:E; simplify_eq. eauto using inv_set_pc.
  - destruct (gor s !! l) as [[i []]|] eqn:E; simplify_eq.
    eexists. split; [done|]. eapply inv_set_pc; [done..|]. intros en _ _. simpl.
    by destruct (inv_gor s Hi l _ E).
  - destruct (gor s !! l) as [[i []]|] eqn:E; simplify_eq.
    destruct (inv_scan s l i _ Hi E) as (en & He & Hscan & Hp). rewrite Hscan in Hs.
    destruct (scanBids None (entry_bids en)) as [[w|]|] eqn:Eb; simplify_eq.
    + eexists. split; [done|]. eapply inv_set_pc; [done..|]. intros en' He' _.
      assert (en' = en) as -> by congruence.
      exists (entry_bids en). split; [done|]. by apply scanBids_Some_inv.
    + eexists. split; [done|]. by eapply inv_set_pc.
    + by apply scanBids_no_panic in Eb.
  - destruct (gor s !! l) as [[i []]|] eqn:E; simplify_eq.
    destruct (emitVoucher _ _) as [e|] eqn:Em; simplify_eq.
    + eexists. split; [done|].
      pose proof (inv_emit s l i w now e Hi E Em) as Hi'.
      apply (inv_set_pc _ l i _ PCleanup Hi' E). done.
    + destruct (inv_chan s Hi) as [_ Hc].
      destruct (emitVoucher_cases _ (winnerVoucher i w now) Hc) as [[? _]|(?&_&?)]; congruence.
  - destruct (gor s !! l) as [[i []]|] eqn:E; simplify_eq. eauto using inv_cleanup.
  - unfold Vouchers in Hs. destruct (recv _) as [x ch| |] eqn:E; simplify_eq.
    eexists. split; [done|]. destruct (inv_chan s Hi) as [Hc Hcl].
    apply recv_Got in E as (r & Eb & ->).
    pose proof (inv_vouchers s Hi) as Hv. rewrite Eb in Hv. apply Forall_cons in Hv as [_ Hv].
    apply inv_with_chan; simpl; try done.
    unfold cap_ok in *. rewrite Eb in Hc. simpl in *. lia.
Qed.

Lemma reachable_inv n t s : reachable n t s → inv s.
Proof.
  induction 1 as [|s ev s' _ IH Hs]; [apply inv_init|].
  destruct (step_Some_inv ev s _ IH Hs) as (s'' & [= <-] & ?). done.
Qed.

Lemma run_inv evs s o : inv s → run evs s = Some o → ∃ s', o = Ret s' ∧ inv s'.
Proof.
  revert s. induction evs as [|ev evs IH]; intros s Hi Hr; simpl in *; [simplify_eq; eauto|].
  destruct (step ev s) as [o'|] eqn:Es; [|done].
  destruct (step_Some_inv ev s o' Hi Es) as (s' & -> & Hi'). by eapply IH.
Qed.

Lemma run_reachable n t evs s s' :
  reachable n t s → run evs s = Some (Ret s') → reachable n t s'.
Proof.
  revert s. induction evs as [|ev evs IH]; intros s Hs Hr; simpl in *; [by simplify_eq|].
  destruct (step ev s) as [[s1|]|] eqn:Es; simplify_eq.
  eapply IH; [|done]. by eapply reach_step.
Qed.

Lemma run_app evs1 evs2 s s1 :
  run evs1 s = Some (Ret s1) → run (evs1 ++ evs2) s = run evs2 s1.
Proof.
  revert s. induction evs1 as [|ev evs IH]; intros s Hr; simpl in *; [by simplify_eq|].
  destruct (step ev s) as [[s2|]|]; simplify_eq. by apply IH.
Qed.

End steps.

(** ** Progress: how far a goroutine is from its end *)

Definition pc_rank (p : pc) : nat :=
  match p with
  | PTimer => 5 | PSelect => 4 | PScan _ => 3 | PEmit _ => 2 | PCleanup => 1
  end.

Definition rank (s : sys) (l : loc) : nat := from_option (pc_rank ∘ g_pc) 0 (gor s !! l).

(** The event that runs goroutine [l] next. *)
Definition next_event (s : sys) (l : loc) (now : Time) : option event :=
  match gor s !! l with
  | None => None
  | Some g =>
      Some match g_pc g with
           | PTimer => ETimer l
           | PSelect => ELookup l
           | PScan _ => EScan l
           | PEmit _ => EEmit l now
           | PCleanup => ECleanup l
           end
  end.

Section progress.

Lemma gor_set_pc s l i p l' :
  gor (set_pc s l i p) !! l' = if decide (l = l') then Some (mkG i p) else gor s !! l'.
Proof. simpl. apply lookup_insert. Qed.

(** A live goroutine is never blocked: its next event is enabled, does not
    panic, brings it closer to its end and leaves the other goroutines where
    they are. *)
Lemma goroutine_progress s l g now :
  inv s → gor s !! l = Some g →
  ∃ ev s', next_event s l now = Some ev ∧ step ev s = Some (Ret s') ∧
    rank s' l < rank s l ∧ delete l (gor s') = delete l (gor s).
Proof.
  intros Hi Hg. unfold next_event. rewrite Hg.
  assert (∃ ev o, Some match g_pc g with
           | PTimer => ETimer l | PSelect => ELookup l | PScan _ => EScan l
           | PEmit _ => EEmit l now | PCleanup => ECleanup l end = Some ev ∧
         step ev s = Some o ∧ ∀ s', o = Ret s' →
           rank s' l < rank s l ∧ delete l (gor s') = delete l (gor s)) as (ev & o & E & Hs & Hr).
  { unfold rank. rewrite Hg. destruct g as [i p]. simpl.
    destruct p as [| |p|w|]; [exists (ETimer l)|exists (ELookup l)|exists (EScan l)
      |exists (EEmit l now)|exists (ECleanup l)]; simpl; rewrite Hg;
      try destruct (scanEntry (eng s) p) as [[]|]; try destruct (emitVoucher _ _);
      (eexists; split_and!; [done..|]); intros s' [= <-]; simpl;
      rewrite ?lookup_insert_eq, ?lookup_delete_eq, ?delete_insert_eq, ?delete_delete_eq; simpl;
      split; try lia; done. }
  destruct (step_Some_inv ev s o Hi Hs) as (s' & -> & Hi'). exists ev, s'. split_and!; [done|done|by apply Hr|by apply Hr].
Qed.

(** No step of any goroutine moves a spawned goroutine backwards. *)
Lemma rank_mono ev s s' l :
  inv s → l < length (entries (eng s)) → step ev s = Some (Ret s') →
  rank s' l ≤ rank s l ∧ l < length (entries (eng s')).
Proof.
  intros Hi Hl Hs. unfold rank. destruct ev; simpl in Hs.
  - simplify_eq. unfold step_start, StartAuction.
    destruct (auctions (eng s) !! Intent_ID i); [done|]. simpl.
    rewrite lookup_insert_ne by lia. rewrite length_app. simpl. lia.
  - simplify_eq. unfold step_bid. destruct (checkBid b); [|done].
    destruct (lookupEntry _ _); done.
  - apply fmap_Some in Hs as (s'' & Hs & [= <-]). unfold step_append in Hs.
    inv_match Hs. by rewrite length_alter.
  - destruct (gor s !! l0) as [[i []]|] eqn:E; simplify_eq. rewrite gor_set_pc.
    case_decide; [subst; rewrite E; simpl; lia|done].
  - destruct (gor s !! l0) as [[i []]|] eqn:E; simplify_eq. rewrite gor_set_pc.
    case_decide; [subst; rewrite E; simpl; lia|done].
  - destruct (gor s !! l0) as [[i []]|] eqn:E; simplify_eq.
    destruct (scanEntry _ _) as [[]|]; simplify_eq; rewrite gor_set_pc;
      (case_decide; [subst; rewrite E; simpl; lia|done]).
  - destruct (gor s !! l0) as [[i []]|] eqn:E; simplify_eq.
    destruct (emitVoucher _ _) as [e|] eqn:Em; simplify_eq. simpl.
    unfold emitVoucher in Em. inv_match Em; rewrite lookup_insert;
      (case_decide; [subst; rewrite E; simpl; lia|done]).
  - destruct (gor s !! l0) as [[i []]|] eqn:E; simplify_eq. simpl.
    rewrite lookup_delete. case_decide; [subst; rewrite E; simpl; lia|done].
  - destruct (Vouchers _); simplify_eq. done.
Qed.

Lemma rank_mono_run evs s s' l :
  inv s → l < length (entries (eng s)) → run evs s = Some (Ret s') → rank s' l ≤ rank s l.
Proof.
  revert s. induction evs as [|ev evs IH]; intros s Hi Hl Hr; simpl in *; [by simplify_eq|].
  destruct (step ev s) as [[s1|]|] eqn:Es; simplify_eq.
  destruct (rank_mono ev s s1 l Hi Hl Es).
  destruct (step_Some_inv ev s _ Hi Es) as (? & [= <-] & ?).
  etrans; [by eapply IH|done].
Qed.

(** A step of some auction goroutine. *)
Definition goroutine_event (ev : event) : Prop := ∃ s l now, next_event s l now = Some ev.

(** Driving one goroutine to its end. *)
Lemma goroutine_finishes s l (now : Time) :
  inv s → ∃ evs s', length evs ≤ rank s l ∧ Forall goroutine_event evs ∧ run evs s = Some (Ret s') ∧ inv s' ∧
    gor s' = delete l (gor s).
Proof.
  remember (rank s l) as r eqn:Hr. revert s Hr.
  induction (lt_wf r) as [r _ IH]. intros s -> Hi.
  destruct (gor s !! l) as [g|] eqn:Hg.
  - destruct (goroutine_progress s l g now Hi Hg) as (ev & s1 & Hev & Hs & Hlt & Hd).
    destruct (step_Some_inv ev s _ Hi Hs) as (? & [= <-] & Hi1).
    destruct (IH _ Hlt s1 eq_refl Hi1) as (evs & s2 & Hlen & Hevs & Hrun & Hi2 & Hd2).
    exists (ev :: evs), s2. split_and!; [simpl; lia|constructor; [by eexists _, _, _|done]| |done|congruence].
    simpl. by rewrite Hs.
  - exists [], s. split_and!; [simpl; lia|done|done|done|]. by rewrite delete_id.
Qed.

(** Driving all of them. *)
Lemma all_finish s (now : Time) :
  inv s → ∃ evs s', Forall goroutine_event evs ∧ run evs s = Some (Ret s') ∧ inv s' ∧ gor s' = ∅.
Proof.
  remember (size (gor s)) as n eqn:Hn. revert s Hn.
  induction n as [|n IH]; intros s Hn Hi.
  - exists [], s. split_and!; [done|done|done|]. by apply map_size_empty_inv.
  - destruct (map_choose (gor s)) as (l & g & Hg).
    { intros E. rewrite E, map_size_empty in Hn. done. }
    destruct (goroutine_finishes s l now Hi) as (evs & s1 & _ & Hev & Hrun & Hi1 & Hd).
    destruct (IH s1) as (evs2 & s2 & Hev2 & Hrun2 & Hi2 & He); [|done|].
    { rewrite Hd, map_size_delete_Some by eauto. lia. }
    exists (evs ++ evs2), s2. split_and!; [by apply Forall_app| |done|done]. by rewrite (run_app _ _ _ s1).
Qed.

(** The registry holds exactly the intents of the live goroutines. *)
Lemma registry_live s id l :
  inv s →
  auctions (eng s) !! id = Some l ↔ ∃ g, gor s !! l = Some g ∧ Intent_ID (g_intent g) = id.
Proof.
  intros Hi. split; [apply (inv_map s Hi)|].
  intros (g & Hg & <-). by destruct (inv_gor s Hi l g Hg).
Qed.

Lemma registry_empty s : inv s → gor s = ∅ → auctions (eng s) = ∅.
Proof.
  intros Hi Hg. apply map_empty. intros id. apply eq_None_not_Some. intros [l Hl].
  apply (registry_live s id l Hi) in Hl as (g & H & _). by rewrite Hg, lookup_empty in H.
Qed.

End progress.
