(* ===== verification/AuctionSpec.v ===== *)
(** * Auction engine: abstract specification and refinement

    The promise of the engine, without pointers, locks or goroutines: a book
    of auctions, each open for bids or decided, and an outbox of vouchers of
    bounded size.  [abs] reads the abstract state off a concrete one and
    [engine_refines] shows that every critical section of every goroutine is
    one abstract step or invisible.  The invisible ones include the append of
    a bid whose pointer was looked up before, and which lands after, the
    decision of its auction. *)

From S2P Require Import Prelude GoStd GoChan Core AuctionState AuctionRun.

(** ** Specification *)

Inductive status :=
| Open (bids : list Bid)
| Decided (w : option Bid).   (* the winner still to be published, if any *)

Record auction := mkAuction { a_intent : Intent; a_status : status }.

Record spec := mkSpec { book : gmap IntentID auction; outbox : list Voucher }.

Definition decision (bids : list Bid) (w : option Bid) : Prop :=
  match w with
  | None => bids = []
  | Some w => is_winner w bids
  end.

Inductive spec_step (n : nat) : spec → spec → Prop :=
| SOpen b o i :
    b !! Intent_ID i = None →
    spec_step n (mkSpec b o) (mkSpec (<[Intent_ID i := mkAuction i (Open [])]> b) o)
| SBid b o id i bids bid :
    b !! id = Some (mkAuction i (Open bids)) → bid_for id bid →
    spec_step n (mkSpec b o) (mkSpec (<[id := mkAuction i (Open (bids ++ [bid]))]> b) o)
| SDecide b o id i bids w :
    b !! id = Some (mkAuction i (Open bids)) → decision bids w →
    spec_step n (mkSpec b o) (mkSpec (<[id := mkAuction i (Decided w)]> b) o)
| SPublish b o id i w now :
    b !! id = Some (mkAuction i (Decided (Some w))) → length o < n →
    spec_step n (mkSpec b o)
      (mkSpec (<[id := mkAuction i (Decided None)]> b) (o ++ [winnerVoucher i w now]))
| SDrop b o id i w :
    b !! id = Some (mkAuction i (Decided (Some w))) → n ≤ length o →
    spec_step n (mkSpec b o) (mkSpec (<[id := mkAuction i (Decided None)]> b) o)
| SClose b o id i :
    b !! id = Some (mkAuction i (Decided None)) →
    spec_step n (mkSpec b o) (mkSpec (delete id b) o)
| STake b o v :
    spec_step n (mkSpec b (v :: o)) (mkSpec b o).

Definition spec_init : spec := mkSpec ∅ [].

(** ** Abstraction *)

Definition abs_pc (bids : list Bid) (p : pc) : status :=
  match p with
  | PTimer | PSelect | PScan _ => Open bids
  | PEmit w => Decided (Some w)
  | PCleanup => Decided None
  end.

Definition abs_auction (s : sys) (l : loc) : option auction :=
  match gor s !! l, entries (eng s) !! l with
  | Some g, Some en => Some (mkAuction (entry_intent en) (abs_pc (entry_bids en) (g_pc g)))
  | _, _ => None
  end.

Definition abs_book (s : sys) : gmap IntentID auction := omap (abs_auction s) (auctions (eng s)).

Definition abs (s : sys) : spec := mkSpec (abs_book s) (buf (voucherCh (eng s))).

(** ** Refinement *)

Section refinement.

Lemma abs_book_lookup s id : abs_book s !! id = auctions (eng s) !! id ≫= abs_auction s.
Proof. apply lookup_omap. Qed.

(** The registry is injective: a location belongs to one intent. *)
Lemma auctions_inj s id id' l :
  inv s → auctions (eng s) !! id = Some l → auctions (eng s) !! id' = Some l → id = id'.
Proof.
  intros Hi (g & Hg & <-)%(inv_map s Hi) (g' & Hg' & <-)%(inv_map s Hi). congruence.
Qed.

Lemma abs_gor s l i p :
  inv s → gor s !! l = Some (mkG i p) →
  ∃ en, entries (eng s) !! l = Some en ∧ entry_intent en = i ∧ pc_ok l en p ∧
    auctions (eng s) !! Intent_ID i = Some l ∧
    abs_book s !! Intent_ID i = Some (mkAuction i (abs_pc (entry_bids en) p)).
Proof.
  intros Hi Hg. destruct (inv_gor s Hi l _ Hg) as (Ha & en & He & Hin & Hok). simpl in *.
  exists en. split_and!; try done. rewrite abs_book_lookup, Ha. simpl.
  unfold abs_auction. by rewrite Hg, He, Hin.
Qed.

(** Changing the view of one location changes one auction of the book. *)
Lemma abs_book_update s s' id l a :
  inv s → auctions (eng s') = auctions (eng s) → auctions (eng s) !! id = Some l →
  abs_auction s' l = Some a → (∀ l', l' ≠ l → abs_auction s' l' = abs_auction s l') →
  abs_book s' = <[id := a]> (abs_book s).
Proof.
  intros Hi Ha Hl Hs Hne. apply map_eq. intros id'.
  rewrite lookup_insert, !abs_book_lookup, Ha. case_decide as Hd; [subst; by rewrite Hl|].
  destruct (auctions (eng s) !! id') as [l'|] eqn:E; [|done]. simpl.
  apply Hne. intros ->. by eapply Hd, auctions_inj.
Qed.

Lemma abs_set_pc s l i p p' en :
  inv s → gor s !! l = Some (mkG i p) → entries (eng s) !! l = Some en →
  abs_book (set_pc s l i p') =
  <[Intent_ID i := mkAuction i (abs_pc (entry_bids en) p')]> (abs_book s).
Proof.
  intros Hi Hg He. destruct (abs_gor s l i p Hi Hg) as (en' & ? & Hin & _ & Ha & _).
  simplify_eq. eapply abs_book_update; [done|done|done|..].
  - unfold abs_auction. rewrite gor_set_pc, decide_True by done. simpl. by rewrite He.
  - intros l' Hne. unfold abs_auction. by rewrite gor_set_pc, decide_False by done.
Qed.

Lemma abs_book_id s id a : abs_book s !! id = Some a → <[id := a]> (abs_book s) = abs_book s.
Proof. apply insert_id. Qed.

Lemma abs_start s i now :
  inv s → auctions (eng s) !! Intent_ID i = None →
  abs_book (step_start s i now) = <[Intent_ID i := mkAuction i (Open [])]> (abs_book s).
Proof.
  intros Hi Ha. unfold step_start, StartAuction. rewrite Ha. apply map_eq. intros id.
  rewrite lookup_insert, !abs_book_lookup. simpl. rewrite lookup_insert.
  case_decide; simpl.
  - unfold abs_auction. simpl. by rewrite lookup_insert_eq, list_lookup_middle.
  - destruct (auctions (eng s) !! id) as [l|] eqn:E; [|done]. simpl.
    destruct (inv_map s Hi id l E) as (g & Hg & _). pose proof (inv_gor_lt s l g Hi Hg).
    unfold abs_auction. simpl. rewrite lookup_insert_ne by lia.
    by rewrite lookup_app_l by done.
Qed.

(** What the append does to the view of its location. *)
Lemma abs_append_auction s l b k l' :
  abs_auction (mkSys (appendBid (eng s) l b) (gor s) (delete k (pend s))) l' =
  if decide (l = l') then
    match gor s !! l', entries (eng s) !! l' with
    | Some g, Some en => Some (mkAuction (entry_intent en) (abs_pc (entry_bids en ++ [b]) (g_pc g)))
    | _, _ => None
    end
  else abs_auction s l'.
Proof.
  unfold abs_auction. simpl. case_decide as Hd.
  - subst. rewrite list_lookup_alter_eq. destruct (gor s !! l'); [|done].
    by destruct (entries (eng s) !! l').
  - by rewrite list_lookup_alter_ne.
Qed.

Lemma abs_append n s l b k :
  inv s → (l, b) ∈ pend s →
  let s' := mkSys (appendBid (eng s) l b) (gor s) (delete k (pend s)) in
  spec_step n (abs s) (abs s') ∨ abs s' = abs s.
Proof.
  intros Hi Hb s'. destruct (inv_pend s Hi l b Hb) as (en & He & Hf).
  destruct (gor s !! l) as [[i p]|] eqn:Hg.
  - destruct (abs_gor s l i p Hi Hg) as (en' & He' & Hin & _ & Ha & Hbook).
    assert (en' = en) as -> by congruence. rewrite Hin in Hf.
    assert (abs_book s' = <[Intent_ID i :=
      mkAuction i (abs_pc (entry_bids en ++ [b]) p)]> (abs_book s)) as Hs.
    { eapply abs_book_update; [done|done|done|..].
      - unfold s'. rewrite abs_append_auction, decide_True by done. by rewrite Hg, He, Hin.
      - intros l' Hne. unfold s'. by rewrite abs_append_auction, decide_False by done. }
    unfold abs. rewrite Hs. destruct p; simpl in *.
    1-3: left; by eapply SBid.
    1-2: right; f_equal; by apply insert_id.
  - right. unfold abs. f_equal. apply map_eq. intros id. rewrite !abs_book_lookup. simpl.
    destruct (auctions (eng s) !! id) as [l'|] eqn:E; [|done]. simpl.
    unfold s'. rewrite abs_append_auction, decide_False; [done|]. intros <-.
    destruct (inv_map s Hi id l E) as (g & ? & _). congruence.
Qed.

Lemma abs_scan n s l i p s' :
  inv s → gor s !! l = Some (mkG i (PScan p)) → step (EScan l) s = Some (Ret s') →
  spec_step n (abs s) (abs s').
Proof.
  intros Hi Hg Hs. simpl in Hs. rewrite Hg in Hs.
  destruct (inv_scan s l i p Hi Hg) as (en & He & Hscan & Hp). rewrite Hscan in Hs.
  destruct (abs_gor s l i _ Hi Hg) as (en' & He' & _ & _ & Ha & Hbook).
  assert (en' = en) as -> by congruence.
  destruct (scanBids None (entry_bids en)) as [[w|]|] eqn:Eb; simplify_eq;
    unfold abs; erewrite abs_set_pc by done; simpl; (eapply SDecide; [done|]); simpl.
  - by apply scanBids_Some_inv.
  - apply scanBids_winner in Hp. destruct (entry_bids en); [done|].
    destruct Hp as (w & Hw & _). congruence.
Qed.

Lemma abs_emit n s l i w now s' :
  inv s → cap (voucherCh (eng s)) = n → gor s !! l = Some (mkG i (PEmit w)) →
  step (EEmit l now) s = Some (Ret s') → spec_step n (abs s) (abs s').
Proof.
  intros Hi Hn Hg Hs. simpl in Hs. rewrite Hg in Hs.
  destruct (abs_gor s l i _ Hi Hg) as (en & He & _ & _ & Ha & Hbook).
  destruct (inv_chan s Hi) as [_ Hc].
  pose proof (abs_set_pc s l i _ PCleanup en Hi Hg He) as Hset. simpl in *.
  destruct (emitVoucher_cases (eng s) (winnerVoucher i w now) Hc) as [[E Hfull]|(ch & Hsend & E)];
    rewrite E in Hs; simplify_eq.
  - unfold abs. simpl.
    change (abs_book _) with (abs_book (set_pc s l i PCleanup)) at 2. rewrite Hset.
    by eapply SDrop.
  - apply try_send_Sent in Hsend as (_ & Hlt & ->). unfold abs. simpl.
    change (abs_book _) with (abs_book (set_pc s l i PCleanup)) at 2. rewrite Hset.
    by eapply SPublish.
Qed.

Lemma abs_cleanup n s l i :
  inv s → gor s !! l = Some (mkG i PCleanup) →
  spec_step n (abs s)
    (abs (mkSys (Cleanup (eng s) (Intent_ID i)) (delete l (gor s)) (pend s))).
Proof.
  intros Hi Hg. destruct (abs_gor s l i _ Hi Hg) as (en & He & _ & _ & Ha & Hbook).
  assert (abs_book (mkSys (Cleanup (eng s) (Intent_ID i)) (delete l (gor s)) (pend s))
          = delete (Intent_ID i) (abs_book s)) as Hd.
  { apply map_eq. intros id. rewrite lookup_delete, !abs_book_lookup. simpl.
    rewrite lookup_delete. case_decide as Hne; [done|].
    destruct (auctions (eng s) !! id) as [l'|] eqn:E; [|done]. simpl.
    unfold abs_auction. simpl. rewrite lookup_delete_ne; [done|].
    intros <-. by eapply Hne, auctions_inj. }
  unfold abs. rewrite Hd. by eapply SClose.
Qed.

(** A step that only moves a program counter before the decision. *)
Lemma abs_silent s l i p p' :
  inv s → gor s !! l = Some (mkG i p) → (∀ bids, abs_pc bids p' = abs_pc bids p) →
  abs (set_pc s l i p') = abs s.
Proof.
  intros Hi Hg Hp. destruct (abs_gor s l i p Hi Hg) as (en & He & _ & _ & _ & Hbook).
  unfold abs. erewrite abs_set_pc by done. simpl. rewrite Hp. f_equal. by apply insert_id.
Qed.

Lemma step_refines ev s s' :
  inv s → step ev s = Some (Ret s') →
  spec_step (cap (voucherCh (eng s))) (abs s) (abs s') ∨ abs s' = abs s.
Proof.
  intros Hi Hs. destruct ev; simpl in Hs.
  - simplify_eq. destruct (auctions (eng s) !! Intent_ID i) as [l|] eqn:E.
    + right. unfold step_start, StartAuction. by rewrite E.
    + left. unfold abs. rewrite abs_start by done.
      unfold step_start, StartAuction. rewrite E. simpl. apply SOpen.
      by rewrite abs_book_lookup, E.
  - right. simplify_eq. unfold step_bid. destruct (checkBid b); [|done]. by destruct (lookupEntry _ _).
  - apply fmap_Some in Hs as (s'' & Hs & [= <-]). unfold step_append in Hs.
    destruct (pend s !! k) as [[l b]|] eqn:E; simplify_eq.
    apply abs_append; [done|]. by eapply list_elem_of_lookup_2.
  - destruct (gor s !! l) as [[i []]|] eqn:E; simplify_eq. right. by eapply abs_silent.
  - destruct (gor s !! l) as [[i []]|] eqn:E; simplify_eq. right. by eapply abs_silent.
  - left. destruct (gor s !! l) as [[i []]|] eqn:E; simplify_eq. eapply abs_scan; [done..|].
    simpl. by rewrite E.
  - left. destruct (gor s !! l) as [[i []]|] eqn:E; simplify_eq. eapply abs_emit; [done..|].
    simpl. rewrite E. exact Hs.
  - left. destruct (gor s !! l) as [[i []]|] eqn:E; simplify_eq. by apply abs_cleanup.
  - left. unfold Vouchers in Hs. destruct (recv _) as [v ch| |] eqn:E; simplify_eq.
    apply recv_Got in E as (r & Eb & ->). unfold abs. rewrite Eb. simpl. apply STake.
Qed.

Lemma step_cap ev s s' :
  step ev s = Some (Ret s') → cap (voucherCh (eng s')) = cap (voucherCh (eng s)).
Proof.
  destruct ev; simpl; intros Hs.
  - simplify_eq. unfold step_start, StartAuction. by destruct (auctions (eng s) !! _).
  - simplify_eq. unfold step_bid. destruct (checkBid b); [|done]. by destruct (lookupEntry _ _).
  - apply fmap_Some in Hs as (? & Hs & [= <-]). unfold step_append in Hs. by inv_match Hs.
  - by inv_match Hs.
  - by inv_match Hs.
  - by inv_match Hs.
  - destruct (gor s !! l) as [[i []]|]; simplify_eq.
    unfold emitVoucher in Hs. destruct (try_send _ _) as [ch| |] eqn:E; simplify_eq; [|done].
    by apply try_send_Sent in E as (_ & _ & ->).
  - by inv_match Hs.
  - unfold Vouchers in Hs. destruct (recv _) as [v ch| |] eqn:E; simplify_eq.
    by apply recv_Got in E as (r & _ & ->).
Qed.

Lemma reachable_cap n t s : reachable n t s → cap (voucherCh (eng s)) = n.
Proof. induction 1 as [|s ev s' _ IH Hs]; [done|]. by rewrite (step_cap ev s s' Hs). Qed.

End refinement.
