(* ===== verification/AuctionProps.v ===== *)
(** * Auction engine: properties

    The theorems about internal/auction, over all reachable states of
    AuctionRun.v (any number of concurrent callers and auctions, any
    interleaving of their critical sections), and the sequential behaviour of
    the exported methods. *)

From S2P Require Import Prelude GoStd GoChan Core AuctionState AuctionRun AuctionSpec.

#[local] Open Scope string_scope.
#[local] Open Scope list_scope.
#[local] Open Scope nat_scope.

(** ** Sample data for the witnesses *)

Module Sample.

Definition t0 : Time := mkTime 63000000000 0.

Definition intent (id : IntentID) (minOut : Z) : Intent :=
  mkIntent id zeroAddress zeroAddress zeroAddress (Some 1000%Z) (Some minOut)
    (mkTime 63000003600 0) 1 [] t0.

Definition solver (b : byte) : Address := vreplicate 20 b.

Definition bid (id : IntentID) (b : byte) (amountOut gasPrice : Z) : Bid :=
  mkBid id (solver b) (Some amountOut) (Some gasPrice) t0 [].

(** One auction, two bids, run to the point where the voucher is in the
    channel and the goroutine is gone. *)
Definition schedule : list event :=
  [EStart (intent "i1" 900) t0; EBid (bid "i1" Byte.x01 950 1); EAppend 0;
   EBid (bid "i1" Byte.x02 980 1); EAppend 0;
   ETimer 0; ELookup 0; EScan 0; EEmit 0 t0; ECleanup 0].

(** A bid whose pointer lookup precedes, and whose append follows, the scan. *)
Definition late_schedule : list event :=
  [EStart (intent "i1" 900) t0; EBid (bid "i1" Byte.x01 950 1); EAppend 0;
   ETimer 0; ELookup 0; EScan 0; EBid (bid "i1" Byte.x02 980 1); EAppend 0; EEmit 0 t0].

Definition state_after (evs : list event) : sys :=
  match run evs (init_sys 256 200000000) with
  | Some (Ret s) => s
  | _ => init_sys 256 200000000
  end.

End Sample.

Lemma sample_reachable evs : reachable 256 200000000 (Sample.state_after evs).
Proof.
  unfold Sample.state_after. destruct (run evs _) as [[s|]|] eqn:E; try constructor.
  eapply run_reachable; [constructor|done].
Qed.

(** Submitting a list of bids one after the other. *)
Fixpoint SubmitAll (e : Engine) (bids : list Bid) : result SubmitError Engine :=
  match bids with
  | [] => Ok e
  | b :: bids =>
      match SubmitBid e b with
      | Ok e' => SubmitAll e' bids
      | Err err => Err err
      end
  end.

(** What [runAuction] leaves in the voucher channel for the scanned bids:
    nothing new without bids or without room. *)
Definition published (ch : chan Voucher) (intent : Intent) (now : Time) (w : option Bid)
    : chan Voucher :=
  match w with
  | None => ch
  | Some w =>
      match try_send ch (winnerVoucher intent w now) with
      | Sent ch' => ch'
      | _ => ch
      end
  end.

Section sequential_lemmas.

Lemma SubmitAll_live e id l ens en bids :
  auctions e !! id = Some l → entries e = ens ++ [en] → l = length ens →
  Forall (bid_for id) bids →
  SubmitAll e bids = Ok (mkEngine (auctions e)
    (ens ++ [mkEntry (entry_bids en ++ bids) (entry_intent en) (entry_startedAt en)])
    (voucherCh e) (timeout e)).
Proof.
  intros Ha He -> Hb. revert e en Ha He.
  induction Hb as [|b bids [Hid Hp] _ IH]; intros e en Ha He.
  - simpl. rewrite app_nil_r. destruct e, en. simpl in *. by subst.
  - cbn [SubmitAll]. unfold SubmitBid. rewrite (proj2 (checkBid_Ok b) Hp).
    unfold submitBidLocked, lookupEntry. rewrite Hid, Ha.
    rewrite (IH _ (add_bid b en)); simpl; [|done|].
    + do 5 f_equal. by rewrite <- (assoc_L (++)).
    + rewrite He, alter_app_r_alt, Nat.sub_diag by lia. done.
Qed.

End sequential_lemmas.

(** ** Properties *)

(** C2 (refinement).  Every state the concurrent engine can reach is an
    implementation of the abstract auction book: its abstraction is reachable
    by abstract steps from the empty book, and every further critical section
    of any goroutine is one abstract step or leaves the abstraction
    unchanged. *)
Theorem engine_refines n t s :
  reachable n t s →
  rtc (spec_step n) spec_init (abs s) ∧
  ∀ ev s', step ev s = Some (Ret s') → spec_step n (abs s) (abs s') ∨ abs s' = abs s.
Proof.
  intros Hr. split.
  - induction Hr as [|s ev s' Hr IH Hs].
    + replace (abs (init_sys n t)) with spec_init; [done|].
      unfold abs, abs_book. simpl. by rewrite omap_empty.
    + pose proof (step_refines ev s s' (reachable_inv _ _ _ Hr) Hs) as H.
      rewrite (reachable_cap _ _ _ Hr) in H.
      destruct H as [H| ->]; [|done]. by eapply rtc_r.
  - intros ev s' Hs. rewrite <- (reachable_cap _ _ _ Hr).
    eapply step_refines; [by eapply reachable_inv|done].
Qed.

Lemma engine_refines_witness :
  rtc (spec_step 256) spec_init (abs (Sample.state_after Sample.schedule)).
Proof. apply (engine_refines 256 200000000). apply sample_reachable. Defined.

(** No interleaving makes a goroutine of the engine panic: the
    nil guards of [SubmitBid] reach every stored bid, so [selectWinner] never
    compares a nil amount, never follows a dangling entry pointer, and the
    voucher channel is never closed under a sender. *)
Theorem engine_never_panics n t s ev : reachable n t s → step ev s ≠ Some Panic.
Proof.
  intros Hr Hs. destruct (step_Some_inv ev s _ (reachable_inv _ _ _ Hr) Hs) as (s' & H & _).
  done.
Qed.

Lemma engine_never_panics_witness :
  step (EScan 0) (Sample.state_after (take 7 Sample.schedule)) ≠ Some Panic.
Proof. apply (engine_never_panics 256 200000000). apply sample_reachable. Defined.

(** C3 (functional).  In every reachable state [selectWinner] returns: nothing
    when the intent has no live auction or no bid, and otherwise a stored bid
    for that intent that no stored bid beats on (AmountOut, GasPrice) and that
    beats every bid received before it. *)
Theorem selectWinner_correct n t s id :
  reachable n t s →
  match auctions (eng s) !! id with
  | None => selectWinner (eng s) id = Ret None
  | Some l =>
      ∃ en, entries (eng s) !! l = Some en ∧ Intent_ID (entry_intent en) = id ∧
      match entry_bids en with
      | [] => selectWinner (eng s) id = Ret None
      | _ =>
          ∃ w before after, selectWinner (eng s) id = Ret (Some w) ∧
            entry_bids en = before ++ w :: after ∧ Bid_IntentID w = id ∧
            (∀ b, b ∈ entry_bids en → ¬ outranks b w) ∧ (∀ b, b ∈ before → outranks w b)
      end
  end.
Proof.
  intros Hi%reachable_inv. unfold selectWinner, lookupEntry.
  destruct (auctions (eng s) !! id) as [l|] eqn:Ea; [|done].
  destruct (inv_entry s id l Hi Ea) as (en & He & Hid). exists en. split_and!; [done..|].
  pose proof (inv_bids s Hi l en He) as Hb. rewrite Hid in Hb.
  assert (Forall priced (entry_bids en)) as Hp by (eapply Forall_impl; [exact Hb|]; by intros ? []).
  apply scanBids_winner in Hp. simpl. rewrite He.
  destruct (entry_bids en) as [|b bs]; [done|]. destruct Hp as (w & Hs & Hw).
  pose proof (is_winner_elem _ _ Hw) as Hin. rewrite Forall_forall in Hb.
  destruct (Hb w Hin) as [Hwid _].
  pose proof Hw as (before & after & Eb & Hbef & _).
  exists w, before, after. split_and!; try done. intros b'. by apply is_winner_max.
Qed.

Lemma selectWinner_correct_witness :
  selectWinner (eng (Sample.state_after (take 5 Sample.schedule))) "i1"
    = Ret (Some (Sample.bid "i1" Byte.x02 980 1)) ∧
  ∃ en, entries (eng (Sample.state_after (take 5 Sample.schedule))) !! 0 = Some en ∧
        Intent_ID (entry_intent en) = "i1".
Proof.
  split; [by vm_compute|].
  pose proof (selectWinner_correct 256 200000000
    (Sample.state_after (take 5 Sample.schedule)) "i1"
    ltac:(apply sample_reachable)) as H.
  replace (auctions _ !! "i1") with (Some 0) in H by by vm_compute.
  destruct H as (en & ? & ? & _). by exists en.
Defined.

(** The winning price does not depend on the order in
    which the same bids were appended: scanning a permutation returns a winner
    with the same AmountOut and GasPrice. *)
Theorem winner_order_independent bids bids' w :
  Forall priced bids → bids ≡ₚ bids' → scanBids None bids = Ret (Some w) →
  ∃ w', scanBids None bids' = Ret (Some w') ∧ bid_key w' = bid_key w.
Proof.
  intros Hp Hperm Hs. pose proof (scanBids_Some_inv _ _ Hp Hs) as Hw.
  assert (Forall priced bids') as Hp' by by rewrite <- Hperm.
  apply scanBids_winner in Hp'. destruct bids' as [|b bs].
  - apply Permutation_nil_r in Hperm as ->. done.
  - destruct Hp' as (w' & Hs' & Hw'). exists w'. split; [done|].
    symmetry. by eapply is_winner_key_perm.
Qed.

Lemma winner_order_independent_witness :
  ∃ w', scanBids None [Sample.bid "i1" Byte.x02 980 1; Sample.bid "i1" Byte.x01 950 1]
          = Ret (Some w') ∧ bid_key w' = bid_key (Sample.bid "i1" Byte.x02 980 1).
Proof.
  apply (winner_order_independent
    [Sample.bid "i1" Byte.x01 950 1; Sample.bid "i1" Byte.x02 980 1]).
  - repeat constructor; by eexists.
  - apply perm_swap.
  - by vm_compute.
Defined.

(** Every voucher a consumer can receive is the record of one
    auction: it carries that auction's intent and id, its solver and amount
    are those of its winning bid, and the winning bid was submitted for that
    very intent, has both prices set, and wins among the bids the auction held
    when it was scanned. *)
Theorem voucher_sound n t s v ch :
  reachable n t s → Vouchers (eng s) = Got v ch →
  ∃ l en w seen,
    entries (eng s) !! l = Some en ∧ seen `prefix_of` entry_bids en ∧ is_winner w seen ∧
    bid_for (Voucher_IntentID v) w ∧
    v = winnerVoucher (entry_intent en) w (Voucher_CreatedAt v).
Proof.
  intros Hi%reachable_inv (r & Eb & ->)%recv_Got.
  pose proof (inv_vouchers s Hi) as Hv. rewrite Eb in Hv.
  apply Forall_cons in Hv as [(l & en & He & w & seen & Hp & Hw & H1 & H2 & H3 & H4 & H5) _].
  exists l, en, w, seen. split_and!; try done.
  - rewrite H1. pose proof (inv_bids s Hi l en He) as Hb. rewrite Forall_forall in Hb.
    apply Hb. eapply prefix_elem_of; [done|]. by apply is_winner_elem.
  - destruct v. simpl in *. unfold winnerVoucher. by subst.
Qed.

Lemma voucher_sound_witness :
  ∃ v ch, Vouchers (eng (Sample.state_after Sample.schedule)) = Got v ch ∧
    Voucher_WinningBid v = Some (Sample.bid "i1" Byte.x02 980 1) ∧
    ∃ w, bid_for (Voucher_IntentID v) w.
Proof.
  eexists _, _. split; [by vm_compute|]. split; [by vm_compute|].
  destruct (voucher_sound 256 200000000 (Sample.state_after Sample.schedule) _ _
    ltac:(apply sample_reachable) ltac:(by vm_compute))
    as (_ & _ & w & _ & _ & _ & _ & H & _). exists w. exact H.
Defined.

(** C16 (invariant).  The auctions map is exact: an intent is registered
    precisely while its own goroutine is running, two running goroutines never
    serve the same intent, the channel never exceeds its buffer, and when no
    goroutine runs the map is empty (no leak). *)
Theorem registry_exact n t s :
  reachable n t s →
  (∀ id l, auctions (eng s) !! id = Some l ↔
    ∃ g, gor s !! l = Some g ∧ Intent_ID (g_intent g) = id) ∧
  (∀ l l' g g', gor s !! l = Some g → gor s !! l' = Some g' →
    Intent_ID (g_intent g) = Intent_ID (g_intent g') → l = l') ∧
  length (buf (voucherCh (eng s))) ≤ n ∧
  (gor s = ∅ → auctions (eng s) = ∅).
Proof.
  intros Hr. pose proof (reachable_inv _ _ _ Hr) as Hi. split_and!.
  - intros id l. by apply registry_live.
  - intros l l' g g' Hg Hg' Hid.
    destruct (inv_gor s Hi l g Hg) as [Ha _], (inv_gor s Hi l' g' Hg') as [Ha' _]. congruence.
  - destruct (inv_chan s Hi) as [Hc _]. unfold cap_ok in Hc. by rewrite (reachable_cap _ _ _ Hr) in Hc.
  - by apply registry_empty.
Qed.

Lemma registry_exact_witness :
  auctions (eng (Sample.state_after Sample.schedule)) = ∅.
Proof.
  apply (registry_exact 256 200000000); [apply sample_reachable|by vm_compute].
Defined.

(** From every reachable state every live auction can be run
    to its end: its goroutine is never blocked or stuck, at most five of its
    own critical sections remain, they end with the goroutine gone and its
    intent free for a new auction, and letting all goroutines finish empties
    the map. *)
Theorem auctions_finish n t s (now : Time) :
  reachable n t s →
  (∀ l g, gor s !! l = Some g → ∃ evs s', length evs ≤ 5 ∧ run evs s = Some (Ret s') ∧
    gor s' = delete l (gor s) ∧ auctions (eng s') !! Intent_ID (g_intent g) = None) ∧
  (∃ evs s', run evs s = Some (Ret s') ∧ auctions (eng s') = ∅).
Proof.
  intros Hr. pose proof (reachable_inv _ _ _ Hr) as Hi. split.
  - intros l g Hg. destruct (goroutine_finishes s l now Hi) as (evs & s' & Hlen & _ & Hrun & Hi' & Hd).
    exists evs, s'. split_and!; [|done|done|].
    + etrans; [done|]. unfold rank. rewrite Hg. destruct g as [i []]; simpl; lia.
    + apply eq_None_not_Some. intros [l' Hl'].
      apply (registry_live s' _ _ Hi') in Hl' as (g' & Hg' & Hid).
      rewrite Hd in Hg'. apply lookup_delete_Some in Hg' as [Hne Hg'].
      destruct (inv_gor s Hi l g Hg) as [Ha _], (inv_gor s Hi l' g' Hg') as [Ha' _]. congruence.
  - destruct (all_finish s now Hi) as (evs & s' & _ & Hrun & Hi' & He).
    exists evs, s'. split; [done|]. by apply registry_empty.
Qed.

Lemma auctions_finish_witness :
  ∃ evs s', run evs (Sample.state_after (take 5 Sample.schedule)) = Some (Ret s') ∧
    auctions (eng s') = ∅.
Proof.
  apply (auctions_finish 256 200000000 _ Sample.t0). apply sample_reachable.
Defined.

(** An auction publishes at most once: after the goroutine of an
    entry has sent (or dropped) its voucher, no later schedule can make the
    same goroutine send again. *)
Theorem emit_at_most_once n t s l now s1 evs s2 now' :
  reachable n t s → step (EEmit l now) s = Some (Ret s1) → run evs s1 = Some (Ret s2) →
  step (EEmit l now') s2 = None.
Proof.
  intros Hi%reachable_inv Hs Hrun.
  assert (l < length (entries (eng s))) as Hl.
  { simpl in Hs. destruct (gor s !! l) as [g|] eqn:Hg; [|done]. by eapply inv_gor_lt. }
  destruct (step_Some_inv _ _ _ Hi Hs) as (? & [= <-] & Hi1).
  destruct (rank_mono _ _ _ _ Hi Hl Hs) as [_ Hl1].
  pose proof (rank_mono_run evs s1 s2 l Hi1 Hl1 Hrun) as Hle.
  assert (rank s1 l = 1) as H1.
  { simpl in Hs. destruct (gor s !! l) as [[i []]|]; simplify_eq.
    destruct (emitVoucher _ _); simplify_eq. unfold rank. simpl. by rewrite lookup_insert_eq. }
  rewrite H1 in Hle. unfold rank in Hle. simpl.
  destruct (gor s2 !! l) as [[i []]|]; simpl in Hle; (done || lia).
Qed.

Lemma emit_at_most_once_witness :
  step (EEmit 0 Sample.t0) (Sample.state_after Sample.schedule) = None.
Proof.
  apply (emit_at_most_once 256 200000000 (Sample.state_after (take 8 Sample.schedule)) 0 Sample.t0
    (Sample.state_after (take 9 Sample.schedule)) [ECleanup 0]).
  - apply sample_reachable.
  - by vm_compute.
  - by vm_compute.
Defined.

(** C17 (functional).  The life of one auction when nothing interleaves:
    [StartAuction] on a free id, any number of accepted [SubmitBid]s, then
    [runAuction] at the timer.  The map is as it was before the auction, the
    entry holds the bids in order of arrival, and the channel gained the
    voucher of the winner exactly when there was a bid and room for it. *)
Theorem auction_lifecycle e intent now now' bids :
  auctions e !! Intent_ID intent = None → closed (voucherCh e) = false →
  Forall (bid_for (Intent_ID intent)) bids →
  ∃ e1 e2 w,
    StartAuction e intent now = Ok e1 ∧ SubmitAll e1 bids = Ok e2 ∧ decision bids w ∧
    runAuction e2 intent now' =
      Ret (mkEngine (auctions e) (entries e ++ [mkEntry bids intent now])
             (published (voucherCh e) intent now' w) (timeout e)).
Proof.
  intros Ha Hc Hb. unfold StartAuction. rewrite Ha. eexists _, _.
  assert (Forall priced bids) as Hp by (eapply Forall_impl; [exact Hb|]; by intros ? []).
  apply scanBids_winner in Hp.
  assert (∃ w, scanBids None bids = Ret w ∧ decision bids w) as (w & Hs & Hd).
  { destruct bids as [|b bs]; [by exists None|]. destruct Hp as (w & Hs & Hw). by exists (Some w). }
  exists w. split; [done|]. split.
  { eapply SubmitAll_live; [apply lookup_insert_eq|done|done|done]. }
  split; [done|]. unfold runAuction, selectWinner, lookupEntry. simpl.
  rewrite lookup_insert_eq. simpl. rewrite list_lookup_middle by done. simpl. rewrite Hs.
  unfold published. destruct w as [w|].
  - unfold emitVoucher. simpl. destruct (try_send (voucherCh e) _) eqn:E.
    + unfold Cleanup. simpl. by rewrite delete_insert_id.
    + unfold Cleanup. simpl. by rewrite delete_insert_id.
    + apply try_send_panic in E. congruence.
  - unfold Cleanup. simpl. by rewrite delete_insert_id.
Qed.

Lemma auction_lifecycle_witness :
  ∃ e1 e2 w,
    StartAuction (NewEngine 1 0) (Sample.intent "i1" 900) Sample.t0 = Ok e1 ∧
    SubmitAll e1 [Sample.bid "i1" Byte.x01 950 1; Sample.bid "i1" Byte.x02 980 1] = Ok e2 ∧
    decision [Sample.bid "i1" Byte.x01 950 1; Sample.bid "i1" Byte.x02 980 1] w ∧
    runAuction e2 (Sample.intent "i1" 900) Sample.t0 =
      Ret (mkEngine ∅ [mkEntry [Sample.bid "i1" Byte.x01 950 1; Sample.bid "i1" Byte.x02 980 1]
                          (Sample.intent "i1" 900) Sample.t0]
             (published (make 1) (Sample.intent "i1" 900) Sample.t0 w) 0).
Proof.
  apply (auction_lifecycle (NewEngine 1 0)).
  - by vm_compute.
  - by vm_compute.
  - repeat constructor; by eexists.
Defined.

(** The error contract of the exported methods: [StartAuction]
    fails exactly when the id is registered; [SubmitBid] succeeds exactly when
    both prices are set and the intent is registered, and then appends the bid
    to that entry and changes nothing else of the engine. *)
Theorem engine_error_contract e intent now bid :
  (StartAuction e intent now = Err (AuctionAlreadyActive (Intent_ID intent)) ↔
    is_Some (auctions e !! Intent_ID intent)) ∧
  (is_ok (SubmitBid e bid) = true ↔ priced bid ∧ is_Some (auctions e !! Bid_IntentID bid)) ∧
  (∀ e', SubmitBid e bid = Ok e' →
    ∃ l, auctions e !! Bid_IntentID bid = Some l ∧
      auctions e' = auctions e ∧ voucherCh e' = voucherCh e ∧ timeout e' = timeout e ∧
      entries e' !! l = add_bid bid <$> entries e !! l ∧
      ∀ l', l' ≠ l → entries e' !! l' = entries e !! l').
Proof.
  split_and!.
  - unfold StartAuction. by destruct (auctions e !! Intent_ID intent).
  - unfold SubmitBid, submitBidLocked, lookupEntry. rewrite <- checkBid_Ok.
    destruct (checkBid bid) as [[]|]; [|naive_solver].
    destruct (auctions e !! Bid_IntentID bid); simpl; [by eauto|].
    split; [done|]. by intros [_ []].
  - intros e' H. unfold SubmitBid, submitBidLocked, lookupEntry in H.
    destruct (checkBid bid); [|done].
    destruct (auctions e !! Bid_IntentID bid) as [l|]; simplify_eq. exists l. simpl.
    split_and!; try done; [apply list_lookup_alter_eq|].
    intros l' Hne. by apply list_lookup_alter_ne.
Qed.

Lemma engine_error_contract_witness :
  is_ok (SubmitBid (eng (Sample.state_after (take 1 Sample.schedule)))
           (Sample.bid "i1" Byte.x01 950 1)) = true ∧
  ∃ l, auctions (eng (Sample.state_after (take 1 Sample.schedule))) !! "i1" = Some l.
Proof.
  split; [by vm_compute|].
  destruct (engine_error_contract (eng (Sample.state_after (take 1 Sample.schedule)))
    (Sample.intent "i1" 900) Sample.t0 (Sample.bid "i1" Byte.x01 950 1)) as (_ & _ & H).
  edestruct H as (l & Hl & _); [by vm_compute|]. exists l. exact Hl.
Defined.

(** C38 (safety).  A behaviour the engine does have: there is a schedule in
    which [SubmitBid] accepts a bid for a still registered auction, the bid
    beats the winning bid of the voucher that auction then emits, and the bid
    is nevertheless lost, because its append came after the scan. *)
Theorem accepted_bid_can_be_lost :
  ∃ evs s v ch l en w b,
    run evs (init_sys 256 200000000) = Some (Ret s) ∧ Vouchers (eng s) = Got v ch ∧
    auctions (eng s) !! Voucher_IntentID v = Some l ∧ entries (eng s) !! l = Some en ∧
    Voucher_WinningBid v = Some w ∧ b ∈ entry_bids en ∧ outranks b w.
Proof.
  exists Sample.late_schedule, (Sample.state_after Sample.late_schedule).
  eexists _, _, 0, _, _, (Sample.bid "i1" Byte.x02 980 1).
  do 5 (split; [by vm_compute|]). split; [|by left].
  simpl. right. left.
Qed.

(** C39 (safety).  A behaviour the engine does have: the intent's MinAmountOut
    plays no part in winner selection, so a voucher can be emitted whose
    AmountOut is below the MinAmountOut of the intent it settles. *)
Theorem voucher_below_min_amount_out :
  ∃ evs s v ch intent out minOut,
    run evs (init_sys 256 200000000) = Some (Ret s) ∧ Vouchers (eng s) = Got v ch ∧
    Voucher_Intent v = Some intent ∧ Voucher_AmountOut v = Some out ∧
    Intent_MinAmountOut intent = Some minOut ∧ (out < minOut)%Z.
Proof.
  eexists [EStart (Sample.intent "i1" 900) Sample.t0; EBid (Sample.bid "i1" Byte.x01 1 1);
           EAppend 0; ETimer 0; ELookup 0; EScan 0; EEmit 0 Sample.t0].
  eexists _, _, _, _, _, _. do 5 (split; [by vm_compute|]). lia.
Qed.
