(* ===== verification/Signer.v ===== *)
(** * Signatures and digests (internal/signer)

    [ClaimDigest] (claim.go), the EIP-712 digest of an intent
    ([DomainSeparator], [intentStructHash], [HashIntent], [RecoverSigner],
    eip712.go) and [KeyVault] (key_vault.go).

    The code under go-ethereum is not part of the repository: the hash and the
    curve operations are the operations of the class [Crypto], the ABI encoder
    those of [Abi].  What the relayer relies on is stated by [CryptoLaws]
    (signatures are 65 bytes with S in the lower half of the group's order and V
    in {0, 1}, and recover to the signer's key)
    and [AbiLaws] (the ABI specification of static arguments: one 32-byte word
    each).  [Toy] at the end is an instance of all four classes. *)

From S2P Require Import Prelude GoStd Core.

#[local] Open Scope string_scope.
#[local] Open Scope list_scope.
#[local] Open Scope nat_scope.

(** ** Interfaces *)

Class Crypto := {
  PrivateKey : Type;
  PublicKey : Type;
  publicKey : PrivateKey → PublicKey;
  Keccak256Hash : bytes → Bytes32;
  ToECDSA : bytes → result string PrivateKey;
  crypto_Sign : Bytes32 → PrivateKey → result string bytes;
  SigToPub : Bytes32 → bytes → result string PublicKey;
  PubkeyToAddress : PublicKey → Address
}.

(** V is 0 or 1. *)
Definition raw_v (v : byte) : Prop := byte_val v = 0%Z ∨ byte_val v = 1%Z.

(** Big-endian encoding on [n] bytes. *)
Fixpoint be_bytes (n : nat) (z : Z) : bytes :=
  match n with
  | O => []
  | S n => be_bytes n (z / 256) ++ [byte_of_Z z]
  end.

Definition be_val (bs : bytes) : Z := foldl (λ acc b, (acc * 256 + byte_val b)%Z) 0%Z bs.

(** The order of secp256k1's group. *)
Definition secp256k1_n : Z := 0xFFFFFFFFFFFFFFFFFFFFFFFFFFFFFFFEBAAEDCE6AF48A03BBFD25E8CD0364141.

(** S, the second word of R || S, is in the lower half of the group's order. *)
Definition low_s (rs : bytes) : Prop := (be_val (drop 32 rs) ≤ secp256k1_n / 2)%Z.

(** [crypto.Sign] produces the canonical signature of libsecp256k1: R || S || V
    with S in the lower half and V in {0, 1}. *)
Class CryptoLaws `{Crypto} : Prop := {
  sign_format d k sig :
    crypto_Sign d k = Ok sig → ∃ rs v, length rs = 64 ∧ sig = rs ++ [v] ∧ raw_v v ∧ low_s rs;
  sign_recover d k sig :
    crypto_Sign d k = Ok sig → SigToPub d sig = Ok (publicKey k)
}.

(** The arguments the relayer packs. *)
Inductive AbiValue :=
| AbiBytes32 (b : Bytes32)
| AbiUint (x : Big.Int)
| AbiAddress (a : Address).

Class Abi := {
  AbiType : Type;
  NewType : string → result string AbiType;
  Pack : list AbiType → list AbiValue → result string bytes
}.

(** The ABI word of a static value. *)
Definition abi_word (v : AbiValue) : option bytes :=
  match v with
  | AbiBytes32 b => Some (vec_to_list b)
  | AbiUint (Some z) => if decide (0 ≤ z < 2 ^ 256)%Z then Some (be_bytes 32 z) else None
  | AbiUint None => None
  | AbiAddress a => Some (replicate 12 Byte.x00 ++ vec_to_list a)
  end.

Definition abi_type_name (v : AbiValue) : string :=
  match v with
  | AbiBytes32 _ => "bytes32"
  | AbiUint _ => "uint256"
  | AbiAddress _ => "address"
  end.

Class AbiLaws `{Abi} : Prop := {
  new_type_ok v : ∃ ty, NewType (abi_type_name v) = Ok ty;
  pack_words tys vals ws :
    Forall2 (λ ty v, NewType (abi_type_name v) = Ok ty) tys vals →
    mapM abi_word vals = Some ws →
    Pack tys vals = Ok (concat ws)
}.

(** ** Errors *)

Inductive SignerError :=
| AbiTypeError (name err : string)
| PackDomainError (err : string)
| PackIntentError (err : string)
| DomainSeparatorError (id : IntentID) (e : SignerError)
| StructHashError (id : IntentID) (e : SignerError)
| SignatureLength (got : nat)
| RecoverError (err : string)
| SignDigestError (err : string)
| KeyHexError
| KeyParseError (err : string).

(** ** Definitions *)

Section signer.
Context `{Crypto}.

Definition str_bytes (s : string) : bytes := String.list_byte_of_string s.

(** *** claim.go *)

(** The EIP-191 prefix "\x19Ethereum Signed Message:\n32". *)
Definition eip191_prefix : bytes :=
  Byte.x19 :: str_bytes "Ethereum Signed Message:" ++ Byte.x0a :: str_bytes "32".

Definition ClaimDigest (intentID : Bytes32) (solver : Address) : Bytes32 :=
  let packed := [] ++ vec_to_list intentID ++ vec_to_list solver in
  let messageHash := Keccak256Hash packed in
  let prefixed := [] ++ eip191_prefix ++ vec_to_list messageHash in
  Keccak256Hash prefixed.

(** *** eip712.go *)

Definition domainTypeString : string :=
  "EIP712Domain(string name,string version,uint256 chainId,address verifyingContract)".

Definition intentTypeString : string :=
  "Intent(address sender,address tokenIn,address tokenOut,uint256 amountIn,uint256 minAmountOut,uint256 deadline,uint256 nonce)".

Definition domainTypeHash : Bytes32 := Keccak256Hash (str_bytes domainTypeString).

Definition intentTypeHash : Bytes32 := Keccak256Hash (str_bytes intentTypeString).

Record Domain := mkDomain {
  Domain_Name : string;
  Domain_Version : string;
  Domain_ChainID : Z;
  Domain_VerifyingContract : Address
}.

Context `{Abi}.

Definition newType (name : string) : result SignerError AbiType :=
  map_err (AbiTypeError name) (NewType name).

Definition domain_values (domain : Domain) : list AbiValue :=
  [AbiBytes32 domainTypeHash;
   AbiBytes32 (Keccak256Hash (str_bytes (Domain_Name domain)));
   AbiBytes32 (Keccak256Hash (str_bytes (Domain_Version domain)));
   AbiUint (Some (Domain_ChainID domain));
   AbiAddress (Domain_VerifyingContract domain)].

Definition DomainSeparator (domain : Domain) : result SignerError Bytes32 :=
  bytes32Type ← newType "bytes32";
  uint256Type ← newType "uint256";
  addressType ← newType "address";
  let args := [bytes32Type; bytes32Type; bytes32Type; uint256Type; addressType] in
  encoded ← map_err PackDomainError (Pack args (domain_values domain));
  mret (Keccak256Hash encoded).

Definition intent_values (intent : Intent) : list AbiValue :=
  [AbiBytes32 intentTypeHash;
   AbiAddress (Intent_Sender intent);
   AbiAddress (Intent_TokenIn intent);
   AbiAddress (Intent_TokenOut intent);
   AbiUint (Intent_AmountIn intent);
   AbiUint (Intent_MinAmountOut intent);
   AbiUint (Some (GoTime.toUnix (Intent_Deadline intent)));
   AbiUint (Some (Intent_Nonce intent))].

Definition intentStructHash (intent : Intent) : result SignerError Bytes32 :=
  bytes32Type ← newType "bytes32";
  addressType ← newType "address";
  uint256Type ← newType "uint256";
  let args := [bytes32Type; addressType; addressType; addressType;
               uint256Type; uint256Type; uint256Type; uint256Type] in
  encoded ← map_err PackIntentError (Pack args (intent_values intent));
  mret (Keccak256Hash encoded).

Definition HashIntent (domain : Domain) (intent : Intent) : result SignerError Bytes32 :=
  domSep ← map_err (DomainSeparatorError (Intent_ID intent)) (DomainSeparator domain);
  structHash ← map_err (StructHashError (Intent_ID intent)) (intentStructHash intent);
  mret (Keccak256Hash ([Byte.x19; Byte.x01] ++ vec_to_list domSep ++ vec_to_list structHash)).

Definition RecoverSigner (hash : Bytes32) (sig : bytes) : result SignerError Address :=
  if negb (length sig =? 65) then Err (SignatureLength (length sig))
  else
    match SigToPub hash sig with
    | Err e => Err (RecoverError e)
    | Ok pubKey => Ok (PubkeyToAddress pubKey)
    end.

(** *** key_vault.go *)

Record KeyVault := mkKeyVault { vault_priv : PrivateKey; vault_addr : Address }.

(** The builtin [clear] on a byte slice. *)
Definition clear (b : bytes) : bytes := (λ _, Byte.x00) <$> b.

(** The result, and what the slice [b] of decoded key bytes holds when the
    function returns. *)
Definition NewKeyVaultFromHex (hexKey : string) : result SignerError KeyVault * bytes :=
  let '(b, ok) := Hex.Decode hexKey in
  if negb ok then (Err KeyHexError, b)
  else
    let r := ToECDSA b in
    let b := clear b in
    match r with
    | Err e => (Err (KeyParseError e), b)
    | Ok priv => (Ok (mkKeyVault priv (PubkeyToAddress (publicKey priv))), b)
    end.

Definition vault_Address (v : KeyVault) : Address := vault_addr v.

Definition vault_Sign (v : KeyVault) (digest : Bytes32) : result SignerError bytes :=
  map_err SignDigestError (crypto_Sign digest (vault_priv v)).

(** *** Specifications *)

(** The two inputs are a collision of the hash. *)
Definition collides (x y : bytes) : Prop := x ≠ y ∧ Keccak256Hash x = Keccak256Hash y.

(** The two messages behind a claim digest: [intentId || solver], and the
    EIP-191 message around its hash. *)
Definition claim_message (intentID : Bytes32) (solver : Address) : bytes :=
  vec_to_list intentID ++ vec_to_list solver.

Definition eip191_message (h : Bytes32) : bytes := eip191_prefix ++ vec_to_list h.

(** What a constructed vault satisfies. *)
Definition vault_wf (v : KeyVault) : Prop := vault_addr v = PubkeyToAddress (publicKey (vault_priv v)).

(** The amounts of an intent fit the uint256 fields they are encoded in. *)
Definition intent_encodable (i : Intent) : Prop :=
  (∃ a, Intent_AmountIn i = Some a ∧ 0 ≤ a < 2 ^ 256)%Z ∧
  (∃ m, Intent_MinAmountOut i = Some m ∧ 0 ≤ m < 2 ^ 256)%Z ∧
  (0 ≤ GoTime.toUnix (Intent_Deadline i))%Z ∧ is_u64 (Intent_Nonce i).

(** The three messages behind an EIP-712 digest, by the ABI specification. *)
Definition domain_message (d : Domain) : bytes := concat (default [] (mapM abi_word (domain_values d))).

Definition intent_message (i : Intent) : bytes := concat (default [] (mapM abi_word (intent_values i))).

Definition digest_message (d : Domain) (i : Intent) : bytes :=
  [Byte.x19; Byte.x01] ++ vec_to_list (Keccak256Hash (domain_message d)) ++
  vec_to_list (Keccak256Hash (intent_message i)).

(** The fields the EIP-712 signature covers. *)
Definition signed_fields (i : Intent) :=
  (Intent_Sender i, Intent_TokenIn i, Intent_TokenOut i, Intent_AmountIn i,
   Intent_MinAmountOut i, GoTime.toUnix (Intent_Deadline i), Intent_Nonce i).

End signer.

(** ** Lemmas: encodings *)

Section encodings.

Lemma length_be_bytes n z : length (be_bytes n z) = n.
Proof. revert z. induction n as [|n IH]; intros z; [done|]. simpl. rewrite length_app, IH. simpl. lia. Qed.

Lemma be_val_bytes n z : be_val (be_bytes n z) = (z `mod` 256 ^ Z.of_nat n)%Z.
Proof.
  revert z. induction n as [|n IH]; intros z; [by rewrite Z.mod_1_r|].
  cbn [be_bytes]. unfold be_val in *. rewrite foldl_snoc, IH, byte_val_of_Z.
  rewrite Nat2Z.inj_succ, Z.pow_succ_r by lia.
  rewrite Z.rem_mul_r; lia.
Qed.

#[local] Arguments be_bytes : simpl never.

Lemma be_bytes_inj n a b :
  (0 ≤ a < 256 ^ Z.of_nat n)%Z → (0 ≤ b < 256 ^ Z.of_nat n)%Z → be_bytes n a = be_bytes n b → a = b.
Proof.
  intros Ha Hb E. apply (f_equal be_val) in E. rewrite !be_val_bytes in E.
  by rewrite !Z.mod_small in E.
Qed.

Lemma vec_list_inj {A n} (v w : vec A n) : vec_to_list v = vec_to_list w → v = w.
Proof. apply vec_to_list_inj2. Qed.

Lemma length_vec {A n} (v : vec A n) : length (vec_to_list v) = n.
Proof. apply length_vec_to_list. Qed.

Lemma str_bytes_inj s s' : str_bytes s = str_bytes s' → s = s'.
Proof.
  intros E. rewrite <- (String.string_of_list_byte_of_string s), <- (String.string_of_list_byte_of_string s').
  unfold str_bytes in E. by rewrite E.
Qed.

(** Every word is 32 bytes, and a word determines its value. *)
Lemma abi_word_length v w : abi_word v = Some w → length w = 32.
Proof.
  destruct v as [b|[z|]|a]; simpl; intros H; simplify_eq.
  - apply length_vec.
  - case_decide; simplify_eq. apply length_be_bytes.
  - simpl. by rewrite length_vec.
Qed.

Lemma abi_word_inj v v' w :
  abi_type_name v = abi_type_name v' → abi_word v = Some w → abi_word v' = Some w → v = v'.
Proof.
  destruct v as [b|[z|]|a], v' as [b'|[z'|]|a']; intros Ht H H'; try done; simpl in *.
  - f_equal. apply vec_list_inj. congruence.
  - case_decide; [|done]. case_decide; [|done].
    assert (be_bytes 32 z = be_bytes 32 z') as E by congruence.
    apply be_bytes_inj in E; [by subst|done..].
  - simplify_eq/=. f_equal. by apply vec_list_inj.
Qed.

(** A concatenation of 32-byte words splits in one way. *)
Lemma concat_words_inj (ws ws' : list bytes) :
  Forall (λ w, length w = 32) ws → Forall (λ w, length w = 32) ws' →
  concat ws = concat ws' → ws = ws'.
Proof.
  intros Hw. revert ws'. induction Hw as [|w ws Hl _ IH]; intros [|w' ws'] Hw' E; simpl in E.
  - done.
  - apply Forall_cons in Hw' as [Hl' _]. destruct w'; simplify_eq/=.
  - destruct w; simplify_eq/=.
  - apply Forall_cons in Hw' as [Hl' Hw']. apply app_inj_1 in E as [-> E]; [|congruence].
    by rewrite (IH ws').
Qed.

Lemma mapM_words_length vals ws :
  mapM abi_word vals = Some ws → Forall (λ w, length w = 32) ws.
Proof.
  intros E%mapM_Some. induction E as [|v w vals ws Hv _ IH]; constructor; [|done].
  by eapply abi_word_length.
Qed.

(** Equal encodings of the same argument types come from equal values. *)
Lemma words_inj vals vals' ws :
  abi_type_name <$> vals = abi_type_name <$> vals' →
  mapM abi_word vals = Some ws → mapM abi_word vals' = Some ws → vals = vals'.
Proof.
  intros Ht E%mapM_Some E'%mapM_Some. revert vals' Ht E'.
  induction E as [|v w vals ws Hv _ IH]; intros [|v' vals'] Ht E'; try done.
  apply Forall2_cons in E' as [Hv' E']. simpl in Ht. injection Ht as Ht Hts.
  f_equal; [by eapply abi_word_inj|by apply IH].
Qed.

Lemma packed_inj vals vals' ws ws' :
  abi_type_name <$> vals = abi_type_name <$> vals' →
  mapM abi_word vals = Some ws → mapM abi_word vals' = Some ws' →
  concat ws = concat ws' → vals = vals'.
Proof.
  intros Ht E E' Hc. apply concat_words_inj in Hc; [|by eapply mapM_words_length..].
  subst. by eapply words_inj.
Qed.

End encodings.

(** ** Lemmas: hashing and vaults *)

Section hashing.
Context `{Crypto}.

(** Equal hashes come from equal inputs, or those inputs collide. *)
Lemma keccak_inj x y : Keccak256Hash x = Keccak256Hash y → x = y ∨ collides x y.
Proof. intros E. destruct (decide (x = y)); [by left|by right]. Qed.

Lemma new_vault_wf hexKey v b : NewKeyVaultFromHex hexKey = (Ok v, b) → vault_wf v.
Proof. unfold NewKeyVaultFromHex. intros E. by inv_match E. Qed.

Lemma clear_zero b : Forall (λ x, x = Byte.x00) (clear b).
Proof. unfold clear. by induction b; constructor. Qed.

End hashing.

Section eip712.
Context `{Crypto} `{AbiLaws}.

Lemma domain_words d :
  is_u64 (Domain_ChainID d) → ∃ ws, mapM abi_word (domain_values d) = Some ws.
Proof.
  intros [Hlo Hhi]. eexists. unfold domain_values. cbn [mapM abi_word].
  rewrite decide_True; [reflexivity|]. lia.
Qed.

Lemma intent_words i :
  intent_encodable i → ∃ ws, mapM abi_word (intent_values i) = Some ws.
Proof.
  intros ((a & Ea & Ha) & (m & Em & Hm) & Hd & Hn). eexists. unfold intent_values.
  rewrite Ea, Em. cbn [mapM abi_word].
  assert (is_i64 (GoTime.toUnix (Intent_Deadline i))) as Hi by apply wrap_i64_range.
  destruct Hn, Hi. rewrite !decide_True; [reflexivity|lia..].
Qed.

Lemma DomainSeparator_words d ws :
  mapM abi_word (domain_values d) = Some ws → DomainSeparator d = Ok (Keccak256Hash (concat ws)).
Proof.
  intros Ew. unfold DomainSeparator, newType.
  destruct (new_type_ok (AbiBytes32 (vreplicate 32 Byte.x00))) as [t1 E1].
  destruct (new_type_ok (AbiUint None)) as [t2 E2].
  destruct (new_type_ok (AbiAddress zeroAddress)) as [t3 E3]. simpl in E1, E2, E3.
  rewrite E1, E2, E3. simpl. erewrite pack_words; [done| |done].
  repeat constructor; done.
Qed.

Lemma intentStructHash_words i ws :
  mapM abi_word (intent_values i) = Some ws → intentStructHash i = Ok (Keccak256Hash (concat ws)).
Proof.
  intros Ew. unfold intentStructHash, newType.
  destruct (new_type_ok (AbiBytes32 (vreplicate 32 Byte.x00))) as [t1 E1].
  destruct (new_type_ok (AbiUint None)) as [t2 E2].
  destruct (new_type_ok (AbiAddress zeroAddress)) as [t3 E3]. simpl in E1, E2, E3.
  rewrite E1, E2, E3. simpl. erewrite pack_words; [done| |done].
  repeat constructor; done.
Qed.

Lemma HashIntent_words d i wd wi :
  mapM abi_word (domain_values d) = Some wd → mapM abi_word (intent_values i) = Some wi →
  HashIntent d i = Ok (Keccak256Hash ([Byte.x19; Byte.x01] ++
    vec_to_list (Keccak256Hash (concat wd)) ++ vec_to_list (Keccak256Hash (concat wi)))).
Proof.
  intros Ed Ei. unfold HashIntent.
  by rewrite (DomainSeparator_words d wd Ed), (intentStructHash_words i wi Ei).
Qed.

Lemma domain_values_inj d d' :
  domain_values d = domain_values d' →
  d = d' ∨ collides (str_bytes (Domain_Name d)) (str_bytes (Domain_Name d')) ∨
  collides (str_bytes (Domain_Version d)) (str_bytes (Domain_Version d')).
Proof.
  intros E. injection E as E1 E2 E3 E4. destruct d, d'. simpl in *. subst.
  apply keccak_inj in E1 as [E1|]; [|by right; left]. apply keccak_inj in E2 as [E2|]; [|by right; right].
  left. by rewrite (str_bytes_inj _ _ E1), (str_bytes_inj _ _ E2).
Qed.

Lemma intent_values_inj i i' : intent_values i = intent_values i' → signed_fields i = signed_fields i'.
Proof. intros E. injection E as E1 E2 E3 E4 E5 E6 E7. unfold signed_fields. congruence. Qed.

End eip712.

(** ** A concrete instance of the interfaces

    A toy hash and a toy signature scheme that satisfy the laws, so that the
    theorems below can be evaluated on concrete inputs. *)

Module Toy.

Definition hash (bs : bytes) : Bytes32 := copy_array 32 (reverse bs).

Definition sign (d : Bytes32) (k : byte) : result string bytes :=
  Ok (vec_to_list d ++ replicate 31 Byte.x00 ++ [k; Byte.x00]).

Definition recover (d : Bytes32) (sig : bytes) : result string byte :=
  if decide (take 32 sig = vec_to_list d) then
    match sig !! 63, sig !! 64 with
    | Some k, Some v => if (byte_val v <? 2)%Z then Ok k else Err "invalid signature recovery id"
    | _, _ => Err "invalid signature"
    end
  else Err "recovery failed".

Definition crypto : Crypto := {|
  PrivateKey := byte;
  PublicKey := byte;
  publicKey := λ k, k;
  Keccak256Hash := hash;
  ToECDSA := λ bs, match bs with
                   | k :: _ => if length bs =? 32 then Ok k else Err "invalid length, need 256 bits"
                   | [] => Err "invalid length, need 256 bits"
                   end;
  crypto_Sign := sign;
  SigToPub := recover;
  PubkeyToAddress := λ k, vreplicate 20 k
|}.

Definition abi : Abi := {|
  AbiType := string;
  NewType := λ name, Ok name;
  Pack := λ tys vals,
    if decide (tys = abi_type_name <$> vals) then
      match mapM abi_word vals with
      | Some ws => Ok (concat ws)
      | None => Err "abi: value out of range"
      end
    else Err "abi: cannot use value as type"
|}.

(** S is the key's one byte. *)
Lemma sign_low_s (d : Bytes32) k : low_s (vec_to_list d ++ replicate 31 Byte.x00 ++ [k]).
Proof.
  unfold low_s. rewrite drop_app_length' by (by rewrite length_vec).
  assert (be_val (replicate 31 Byte.x00 ++ [k]) = byte_val k) as ->.
  { unfold be_val. by rewrite foldl_app. }
  pose proof (byte_val_range k). transitivity 256%Z; [lia|]. by apply Z.leb_le.
Qed.

Lemma crypto_laws : @CryptoLaws crypto.
Proof.
  split.
  - intros d k sig E. simpl in E. unfold sign in E. injection E as <-.
    exists (vec_to_list d ++ replicate 31 Byte.x00 ++ [k]), Byte.x00.
    split_and!; [by rewrite !length_app, length_vec|by rewrite <- !(assoc_L (++))|by left|apply sign_low_s].
  - intros d k sig E. simpl in *. unfold sign in E. injection E as <-. unfold recover.
    rewrite take_app_length' by (by rewrite length_vec). rewrite decide_True by done.
    rewrite !lookup_app_r by (rewrite length_vec; lia). rewrite length_vec. done.
Qed.

Lemma abi_laws : @AbiLaws abi.
Proof.
  split.
  - intros v. by exists (abi_type_name v).
  - intros tys vals ws Ht Ew. simpl in *. rewrite Ew, decide_True; [done|].
    induction Ht as [|ty v tys vals E _ IH] in ws, Ew |- *; [done|].
    simpl. injection E as <-. f_equal. apply mapM_Some, Forall2_cons_inv_l in Ew as (?&?&?&?&?).
    eapply IH. by apply mapM_Some.
Qed.

Definition vault : @KeyVault crypto := @mkKeyVault crypto Byte.x07 (vreplicate 20 Byte.x07).

Definition domain : Domain := mkDomain "VynX" "1" 31337 (vreplicate 20 Byte.x05).

Definition intent (amountIn : Z) : Intent :=
  mkIntent "sim-1" (vreplicate 20 Byte.x01) (vreplicate 20 Byte.x02) (vreplicate 20 Byte.x03)
    (Some amountIn) (Some 900%Z) (GoTime.Unix 1775000000) 1 [] (GoTime.Unix 1774990000).

End Toy.

(** ** Properties *)

Section signer_properties.
Context `{Crypto}.

(** C20 (safety).  The claim digest binds the escrow and the recipient: two
    claims with the same digest are the same claim, unless their own messages
    ([intentId || solver], or the EIP-191 messages around the hashes of these)
    are a collision of the hash.  A signature for one solver or escrow cannot
    be used for another one without such a collision at hand. *)
Theorem claim_digest_binds id solver id' solver' :
  ClaimDigest id solver = ClaimDigest id' solver' →
  (id = id' ∧ solver = solver') ∨
  collides (claim_message id solver) (claim_message id' solver') ∨
  collides (eip191_message (Keccak256Hash (claim_message id solver)))
           (eip191_message (Keccak256Hash (claim_message id' solver'))).
Proof.
  intros E. apply keccak_inj in E as [E|]; [|by right; right].
  apply (app_inv_head eip191_prefix) in E. apply vec_list_inj, keccak_inj in E as [E|]; [|by right; left].
  left. cbn [app] in E. apply app_inj_1 in E as [E1 E2]; [|by rewrite !length_vec].
  split; by apply vec_list_inj.
Qed.

(** C22 (roundtrip).  A vault built from a hex key signs so that
    [RecoverSigner] returns the vault's own address, with a 65-byte signature;
    any other signature length is rejected before recovery. *)
Theorem vault_sign_recover hexKey v b digest sig :
  CryptoLaws → NewKeyVaultFromHex hexKey = (Ok v, b) → vault_Sign v digest = Ok sig →
  length sig = 65 ∧ RecoverSigner digest sig = Ok (vault_Address v) ∧
  ∀ sig', length sig' ≠ 65 → RecoverSigner digest sig' = Err (SignatureLength (length sig')).
Proof.
  intros HL Hv Hs. apply new_vault_wf in Hv. unfold vault_Sign in Hs.
  destruct (crypto_Sign digest (vault_priv v)) as [s|] eqn:E; simplify_eq/=.
  destruct (sign_format _ _ _ E) as (rs & w & Hl & -> & _).
  assert (length (rs ++ [w]) = 65) as H65 by (rewrite length_app; simpl; lia).
  split_and!; [done| |].
  - unfold RecoverSigner. rewrite H65. simpl. rewrite (sign_recover _ _ _ E).
    unfold vault_Address. by rewrite Hv.
  - intros sig' Hne. unfold RecoverSigner. destruct (Nat.eqb_spec (length sig') 65); done.
Qed.

(** Key material is not left behind: whenever the hex string
    decodes, the decoded buffer is all zero when [NewKeyVaultFromHex] returns,
    whether or not the key was accepted, and the accepted vault holds the key
    that was encoded and its own address. *)
Theorem key_material_cleared raw :
  let '(r, b) := NewKeyVaultFromHex (Hex.EncodeToString raw) in
  length b = length raw ∧ Forall (λ x, x = Byte.x00) b ∧
  match ToECDSA raw with
  | Ok priv => r = Ok (mkKeyVault priv (PubkeyToAddress (publicKey priv)))
  | Err e => r = Err (KeyParseError e)
  end.
Proof.
  unfold NewKeyVaultFromHex. rewrite decode_encode. simpl.
  destruct (ToECDSA raw); (split_and!; [|apply clear_zero|done]);
    unfold clear; by rewrite length_fmap.
Qed.

Context `{AbiLaws}.

(** The EIP-712 digest of an intent whose amounts fit a
    uint256 is always computed (no error path is taken) and hashes the 66
    bytes [0x19 0x01 || domainSeparator || structHash]. *)
Theorem HashIntent_total d i :
  is_u64 (Domain_ChainID d) → intent_encodable i →
  ∃ dom str, DomainSeparator d = Ok dom ∧ intentStructHash i = Ok str ∧
    HashIntent d i = Ok (Keccak256Hash ([Byte.x19; Byte.x01] ++ vec_to_list dom ++ vec_to_list str)) ∧
    length ([Byte.x19; Byte.x01] ++ vec_to_list dom ++ vec_to_list str) = 66.
Proof.
  intros Hd Hi. destruct (domain_words d Hd) as [wd Ed]. destruct (intent_words i Hi) as [wi Ei].
  exists (Keccak256Hash (concat wd)), (Keccak256Hash (concat wi)).
  split_and!; [by apply DomainSeparator_words|by apply intentStructHash_words|by apply HashIntent_words|].
  by rewrite !length_app, !length_vec.
Qed.

(** C21 (safety).  The EIP-712 digest binds every signed field and the domain:
    two intents with the same digest agree on sender, tokens, amounts,
    deadline (in seconds) and nonce, under the same domain, unless one of
    the pairs of messages that were hashed for these two digests (the final
    messages, the encoded domains, the encoded intents, the domain names, the
    domain versions) is a collision of the hash. *)
Theorem HashIntent_binds d i d' i' :
  is_u64 (Domain_ChainID d) → intent_encodable i →
  is_u64 (Domain_ChainID d') → intent_encodable i' →
  HashIntent d i = HashIntent d' i' →
  (d = d' ∧ signed_fields i = signed_fields i') ∨
  collides (digest_message d i) (digest_message d' i') ∨
  collides (domain_message d) (domain_message d') ∨
  collides (intent_message i) (intent_message i') ∨
  collides (str_bytes (Domain_Name d)) (str_bytes (Domain_Name d')) ∨
  collides (str_bytes (Domain_Version d)) (str_bytes (Domain_Version d')).
Proof.
  intros (wd & Ed)%domain_words (wi & Ei)%intent_words (wd' & Ed')%domain_words (wi' & Ei')%intent_words E.
  rewrite (HashIntent_words _ _ _ _ Ed Ei), (HashIntent_words _ _ _ _ Ed' Ei') in E.
  unfold digest_message, domain_message, intent_message. rewrite Ed, Ei, Ed', Ei'. cbn [default].
  injection E as E. apply keccak_inj in E as [E|]; [|tauto]. injection E as E.
  apply app_inj_1 in E as [E1 E2]; [|by rewrite !length_vec].
  apply vec_list_inj, keccak_inj in E1 as [E1|]; [|tauto].
  apply vec_list_inj, keccak_inj in E2 as [E2|]; [|tauto].
  apply (packed_inj (domain_values d) (domain_values d')) in E1; [|done..].
  apply (packed_inj (intent_values i) (intent_values i')) in E2; [|done..].
  apply domain_values_inj in E1 as [->|]; [|tauto]. left. split; [done|].
  by apply intent_values_inj.
Qed.

End signer_properties.

(** ** Witnesses *)

(** The toy hash keeps the last 32 bytes: claims for escrows that differ in
    their first byte share their digest, and their messages are the
    collision. *)
Lemma claim_digest_binds_witness :
  ∃ id id', id ≠ id' ∧
    @ClaimDigest Toy.crypto id zeroAddress = @ClaimDigest Toy.crypto id' zeroAddress ∧
    @collides Toy.crypto (claim_message id zeroAddress) (claim_message id' zeroAddress).
Proof.
  set (id := vreplicate 32 Byte.x00 : Bytes32). set (id' := Byte.x01 ::: vreplicate 31 Byte.x00 : Bytes32).
  assert (id ≠ id') as Hne by (intros E%(f_equal vec_to_list); vm_compute in E; discriminate).
  assert (@ClaimDigest Toy.crypto id zeroAddress = @ClaimDigest Toy.crypto id' zeroAddress) as E
    by (vm_compute; reflexivity).
  exists id, id'. split_and!; [exact Hne|exact E|].
  destruct (@claim_digest_binds Toy.crypto id zeroAddress id' zeroAddress E) as [[H _]|[H|[H _]]].
  - destruct (Hne H).
  - exact H.
  - destruct H. vm_compute. reflexivity.
Defined.

Lemma vault_sign_recover_witness :
  ∃ v b sig,
    @NewKeyVaultFromHex Toy.crypto (Hex.EncodeToString (replicate 32 Byte.x07)) = (Ok v, b) ∧
    @vault_Sign Toy.crypto v (Toy.hash []) = Ok sig ∧
    @RecoverSigner Toy.crypto (Toy.hash []) sig = Ok (vreplicate 20 Byte.x07).
Proof.
  exists Toy.vault, (replicate 32 Byte.x00).
  exists (vec_to_list (Toy.hash []) ++ replicate 31 Byte.x00 ++ [Byte.x07; Byte.x00]).
  split; [reflexivity|]. split; [reflexivity|].
  apply (@vault_sign_recover Toy.crypto (Hex.EncodeToString (replicate 32 Byte.x07)) Toy.vault
    (replicate 32 Byte.x00) (Toy.hash []) _ Toy.crypto_laws); reflexivity.
Defined.

Lemma toy_chain : is_u64 (Domain_ChainID Toy.domain).
Proof. by split; vm_compute. Qed.

Lemma toy_encodable n : (0 ≤ n < 2 ^ 256)%Z → intent_encodable (Toy.intent n).
Proof. intros. split_and!; [by exists n|by exists 900%Z|by vm_compute..]. Qed.

Lemma HashIntent_total_witness :
  ∃ dom, @DomainSeparator Toy.crypto Toy.abi Toy.domain = Ok dom.
Proof.
  destruct (@HashIntent_total Toy.crypto Toy.abi Toy.abi_laws Toy.domain (Toy.intent 1000))
    as (dom & _ & H & _).
  - apply toy_chain.
  - by apply toy_encodable.
  - exists dom. exact H.
Defined.

(** The id of an intent is not signed. *)
Lemma HashIntent_binds_witness :
  let i' := mkIntent "other" (vreplicate 20 Byte.x01) (vreplicate 20 Byte.x02) (vreplicate 20 Byte.x03)
    (Some 1000%Z) (Some 900%Z) (GoTime.Unix 1775000000) 1 [] (GoTime.Unix 0) in
  @HashIntent Toy.crypto Toy.abi Toy.domain (Toy.intent 1000) = @HashIntent Toy.crypto Toy.abi Toy.domain i' ∧
  signed_fields (Toy.intent 1000) = signed_fields i'.
Proof.
  intros i'.
  assert (@HashIntent Toy.crypto Toy.abi Toy.domain (Toy.intent 1000) = @HashIntent Toy.crypto Toy.abi Toy.domain i') as E
    by reflexivity.
  split; [exact E|].
  destruct (@HashIntent_binds Toy.crypto Toy.abi Toy.abi_laws Toy.domain (Toy.intent 1000) Toy.domain i'
    toy_chain (toy_encodable 1000 ltac:(lia)) toy_chain (toy_encodable 1000 ltac:(lia)) E)
    as [[_ H]|[[H _]|[[H _]|[[H _]|[[H _]|[H _]]]]]]; [exact H|destruct H; reflexivity..].
Defined.
