(* ===== verification/NonceQueue.v ===== *)
(** * Nonce queue (internal/txmanager/nonce_queue.go)

    The in-RAM counter is an atomic [uint64]; [Next] is one atomic add and
    [Resync] one atomic store of the value the node answered, so a concurrent
    history of the queue is a sequence of such operations, each labelled with
    the goroutine that made it.  [issued] are the nonces a history hands out. *)

From S2P Require Import Prelude Core.
From Stdlib Require Import Sorting.Sorted.

#[local] Open Scope string_scope.
#[local] Open Scope list_scope.
#[local] Open Scope nat_scope.

(** ** Definitions *)

Record NonceQueue := mkNonceQueue { current : Z }.

Inductive NonceError :=
| SeedFailed (addr : Address) (err : string)
| ResyncFailed (addr : Address) (err : string).

(** [pending] is the node's answer to [PendingNonceAt]. *)
Definition NewNonceQueue (pending : result string Z) (addr : Address)
    : result NonceError NonceQueue :=
  match pending with
  | Err err => Err (SeedFailed addr err)
  | Ok n => Ok (mkNonceQueue n)
  end.

(** [q.current.Add(1) - 1] *)
Definition Next (q : NonceQueue) : Z * NonceQueue :=
  let post := wrap_u64 (current q + 1) in
  (wrap_u64 (post - 1), mkNonceQueue post).

Definition Resync (q : NonceQueue) (pending : result string Z) (addr : Address)
    : result NonceError unit * NonceQueue :=
  match pending with
  | Err err => (Err (ResyncFailed addr err), q)
  | Ok n => (Ok tt, mkNonceQueue n)
  end.

(** *** Histories *)

Inductive nonce_op :=
| ONext (goroutine : nat)
| OResync (pending : result string Z).

(** The nonces handed out, each with the goroutine that received it, and the
    final queue. *)
Fixpoint history (addr : Address) (q : NonceQueue) (ops : list nonce_op)
    : list (nat * Z) * NonceQueue :=
  match ops with
  | [] => ([], q)
  | ONext g :: ops =>
      let '(n, q1) := Next q in
      let '(out, q2) := history addr q1 ops in
      ((g, n) :: out, q2)
  | OResync p :: ops =>
      let '(_, q1) := Resync q p addr in
      history addr q1 ops
  end.

Definition issued (addr : Address) (q : NonceQueue) (ops : list nonce_op) : list Z :=
  (history addr q ops).1.*2.

(** Counting from [c] on [uint64]: the values of [k] consecutive calls. *)
Definition nonce_range (c : Z) (k : nat) : list Z := (λ i, wrap_u64 (c + i)) <$> seqZ 0 (Z.of_nat k).

(** The documented precondition of [Resync]: the node's answer is not behind
    the counter (nothing issued is still pending), and the counter never
    reaches the end of the 64-bit range. *)
Fixpoint no_rollback (c : Z) (ops : list nonce_op) : Prop :=
  (0 ≤ c < 2 ^ 64 - 1)%Z ∧
  match ops with
  | [] => True
  | ONext _ :: ops => no_rollback (c + 1) ops
  | OResync (Err _) :: ops => no_rollback c ops
  | OResync (Ok n) :: ops => (c ≤ n)%Z ∧ no_rollback n ops
  end.

(** ** Lemmas *)

Section nonce_lemmas.
Implicit Types (q : NonceQueue) (c : Z) (ops : list nonce_op) (addr : Address).

Lemma Next_spec q :
  is_u64 (current q) → Next q = (current q, mkNonceQueue (wrap_u64 (current q + 1))).
Proof.
  intros Hq. unfold Next. f_equal.
  replace (wrap_u64 (current q + 1) - 1)%Z with (wrap_u64 (current q + 1) + - 1)%Z by lia.
  rewrite wrap_u64_add_l. replace (current q + 1 + - 1)%Z with (current q) by lia.
  by apply wrap_u64_id.
Qed.

Lemma history_next_cons addr q g ops :
  is_u64 (current q) →
  history addr q (ONext g :: ops) =
    let '(out, q2) := history addr (mkNonceQueue (wrap_u64 (current q + 1))) ops in
    ((g, current q) :: out, q2).
Proof. intros Hq. cbn [history]. by rewrite Next_spec. Qed.

Lemma no_rollback_range c ops : no_rollback c ops → (0 ≤ c < 2 ^ 64 - 1)%Z.
Proof. destruct ops; simpl; tauto. Qed.

(** Under the precondition the issued nonces are above the counter and
    strictly increasing. *)
Lemma issued_increasing addr c ops :
  no_rollback c ops →
  Forall (λ n, c ≤ n)%Z (issued addr (mkNonceQueue c) ops) ∧
  StronglySorted Z.lt (issued addr (mkNonceQueue c) ops).
Proof.
  revert c. induction ops as [|[g|[n|e]] ops IH]; intros c Hc; unfold issued in *.
  - split; constructor.
  - destruct Hc as [Hr Hc]. destruct (IH _ Hc) as [Hge Hs].
    rewrite history_next_cons by (unfold is_u64; simpl; lia). simpl.
    rewrite wrap_u64_id by (unfold is_u64; lia).
    destruct (history addr (mkNonceQueue (c + 1)) ops) as [out q2]. simpl in *.
    assert (Forall (λ n, c < n)%Z out.*2) by (eapply Forall_impl; [exact Hge|]; simpl; lia).
    split; constructor; try done; try lia.
    eapply Forall_impl; [done|]. simpl. lia.
  - destruct Hc as (Hr & Hle & Hc). destruct (IH _ Hc) as [Hge Hs]. split; [|done].
    eapply Forall_impl; [exact Hge|]. simpl. lia.
  - destruct Hc as [Hr Hc]. by apply IH.
Qed.

Lemma StronglySorted_lt_NoDup (l : list Z) : StronglySorted Z.lt l → NoDup l.
Proof.
  induction 1 as [|x l _ IH Hf]; constructor; [|done].
  intros Hin. rewrite Forall_forall in Hf. specialize (Hf x Hin). lia.
Qed.

Lemma nonce_range_S c k :
  is_u64 c → nonce_range c (S k) = c :: nonce_range (wrap_u64 (c + 1)) k.
Proof.
  intros Hc. unfold nonce_range. rewrite seqZ_cons by lia. simpl.
  rewrite Z.add_0_r, wrap_u64_id by done. f_equal.
  replace (Z.pred (Z.of_nat (S k))) with (Z.of_nat k) by lia.
  rewrite <- (fmap_add_seqZ 1 0), <- list_fmap_compose.
  apply list_fmap_ext. intros i x _. simpl.
  rewrite wrap_u64_add_l. f_equal. lia.
Qed.

Lemma nonce_range_app c a b :
  is_u64 c → nonce_range c (a + b) = nonce_range c a ++ nonce_range (wrap_u64 (c + Z.of_nat a)) b.
Proof.
  revert c. induction a as [|a IH]; intros c Hc.
  - simpl. by rewrite Z.add_0_r, wrap_u64_id.
  - cbn [Nat.add]. rewrite !nonce_range_S, IH by auto with vynx. simpl. do 3 f_equal.
    rewrite wrap_u64_add_l. f_equal. lia.
Qed.

Lemma history_next addr c gs :
  is_u64 c →
  history addr (mkNonceQueue c) (ONext <$> gs) =
    (zip gs (nonce_range c (length gs)), mkNonceQueue (wrap_u64 (c + Z.of_nat (length gs)))).
Proof.
  revert c. induction gs as [|g gs IH]; intros c Hc.
  - simpl. by rewrite Z.add_0_r, wrap_u64_id.
  - rewrite fmap_cons, history_next_cons by done. cbn [current length].
    rewrite IH, nonce_range_S by auto with vynx. simpl. f_equal. f_equal.
    rewrite wrap_u64_add_l. f_equal. lia.
Qed.

Lemma history_app addr q ops ops' :
  history addr q (ops ++ ops') =
    let '(out, q1) := history addr q ops in
    let '(out', q2) := history addr q1 ops' in
    (out ++ out', q2).
Proof.
  revert q. induction ops as [|[g|p] ops IH]; intros q; cbn [app history].
  - by destruct (history addr q ops').
  - destruct (Next q) as [n q1]. rewrite IH. destruct (history addr q1 ops) as [out q2].
    by destruct (history addr q2 ops').
  - destruct (Resync q p addr) as [r q1]. apply IH.
Qed.

Lemma nonce_range_NoDup c k : (Z.of_nat k ≤ 2 ^ 64)%Z → NoDup (nonce_range c k).
Proof.
  intros Hk. unfold nonce_range. apply NoDup_fmap_2_strong; [|apply NoDup_seqZ].
  intros x y Hx Hy E. apply elem_of_seqZ in Hx, Hy. unfold wrap_u64 in E.
  assert ((x - y) `mod` 2 ^ 64 = 0)%Z as Hm.
  { replace (x - y)%Z with ((c + x) - (c + y))%Z by lia.
    rewrite Zminus_mod, E, Z.sub_diag. done. }
  apply Z.mod_divide in Hm as [d Hd]; [|lia]. nia.
Qed.

Lemma length_nonce_range c k : length (nonce_range c k) = k.
Proof. unfold nonce_range. rewrite length_fmap, length_seqZ. lia. Qed.

End nonce_lemmas.

(** ** Properties *)

(** C14 (functional).  Without resyncs the queue hands out consecutive nonces
    with no gap and no duplicate, however the calls of the goroutines
    interleave: a queue seeded with the node's answer gives the k-th call the
    nonce seed + k (modulo 2^64), all distinct for up to 2^64 calls. *)
Theorem nonces_sequential (pending : result string Z) addr q seed (gs : list nat) :
  NewNonceQueue pending addr = Ok q → pending = Ok seed → is_u64 seed →
  (Z.of_nat (length gs) ≤ 2 ^ 64)%Z →
  issued addr q (ONext <$> gs) = nonce_range seed (length gs) ∧
  NoDup (issued addr q (ONext <$> gs)) ∧
  (history addr q (ONext <$> gs)).1.*1 = gs ∧
  current (history addr q (ONext <$> gs)).2 = wrap_u64 (seed + Z.of_nat (length gs)).
Proof.
  intros Hq -> Hs Hk. simpl in Hq. injection Hq as <-. unfold issued.
  rewrite history_next by done. simpl.
  rewrite snd_zip by (rewrite length_nonce_range; lia).
  rewrite fst_zip by (rewrite length_nonce_range; lia).
  split_and!; [done|by apply nonce_range_NoDup|done..].
Qed.

Lemma nonces_sequential_witness :
  issued zeroAddress (mkNonceQueue 42) (ONext <$> [1; 2; 1]) = [42; 43; 44]%Z.
Proof.
  apply (nonces_sequential (Ok 42%Z) zeroAddress (mkNonceQueue 42) 42 [1; 2; 1]).
  - reflexivity.
  - reflexivity.
  - split; lia.
  - simpl. lia.
Defined.

(** Resyncing is safe under its documented precondition: in any
    history of [Next] and [Resync] calls (failed resyncs included) in which
    the node never answers behind the counter, the nonces handed out are
    strictly increasing, hence never duplicated. *)
Theorem resync_safe addr c ops :
  no_rollback c ops →
  StronglySorted Z.lt (issued addr (mkNonceQueue c) ops) ∧ NoDup (issued addr (mkNonceQueue c) ops).
Proof.
  intros [_ Hs]%(issued_increasing addr). split; [done|]. by apply StronglySorted_lt_NoDup.
Qed.

Lemma resync_safe_witness :
  NoDup (issued zeroAddress (mkNonceQueue 5)
    [ONext 1; ONext 2; OResync (Ok 9%Z); ONext 1; OResync (Err "timeout"); ONext 1]).
Proof. apply resync_safe. simpl. lia. Defined.

(** Why the precondition is needed: if a resync answers with the
    seed after at least one nonce was handed out, the next call hands out the
    same nonce again, so the history contains a duplicate. *)
Theorem resync_rollback_duplicates addr c (gs : list nat) g :
  is_u64 c → gs ≠ [] →
  ¬ NoDup (issued addr (mkNonceQueue c) ((ONext <$> gs) ++ [OResync (Ok c); ONext g])).
Proof.
  intros Hc Hne Hd. unfold issued in Hd.
  rewrite history_app, history_next in Hd by done. cbn [history Resync] in Hd.
  rewrite Next_spec in Hd by done. simpl in Hd. rewrite fmap_app in Hd.
  rewrite snd_zip in Hd by (rewrite length_nonce_range; lia).
  apply NoDup_app in Hd as (_ & Hd & _). apply (Hd c); [|left].
  destruct gs as [|g0 gs]; [done|]. cbn [length]. rewrite nonce_range_S by done. left.
Qed.

Lemma resync_rollback_duplicates_witness :
  ¬ NoDup (issued zeroAddress (mkNonceQueue 5) [ONext 1; ONext 1; OResync (Ok 5%Z); ONext 2]).
Proof.
  apply (resync_rollback_duplicates zeroAddress 5 [1; 1] 2); [split; lia|discriminate].
Defined.
