(* ===== verification/Executor.v ===== *)
(** * Settlement executor (internal/txmanager/executor.go)

    [execute] turns one voucher into one [claimFunds] transaction; [Run] is
    the event loop around it.  What is outside the repository is a parameter:
    go-ethereum's transaction signer ([EthTypes]), the table behind
    [unicode.ToLower] on non-ASCII text, and the answers of the node while one
    voucher is executed ([World]: the suggested tip, the outcome of the
    [ClaimFunds] call as a function of its arguments, the pending nonce).
    [OnChain] states what the contract's signature check accepts.

    The executor's state is its nonce queue and, as a history variable, the
    [ClaimFunds] calls it made. *)

From S2P Require Import Prelude GoStd GoChan Core Signer NonceQueue.

#[local] Open Scope string_scope.
#[local] Open Scope list_scope.
#[local] Open Scope nat_scope.

(** ** Interfaces *)

(** go-ethereum's [types.Transaction], [LatestSignerForChainID(id).Hash(tx)]
    and [tx.WithSignature]. *)
Class EthTypes := {
  Transaction : Type;
  signerHash : Z → Transaction → Bytes32;
  WithSignature : Z → Transaction → bytes → result string Transaction
}.

(** OpenZeppelin's [ECDSA.recover] (version 5), which the contract applies to
    the claim digest; [None] is a revert.  It takes R || S || V, refuses an S
    in the upper half of the group's order (ECDSAInvalidSignatureS) and calls
    the precompile, which knows V in {27, 28} only; a recovered zero address
    is a failure (ECDSAInvalidSignature). *)
Class OnChain `{Crypto} := {
  ecrecover : Bytes32 → bytes → option Address;
  ecrecover_spec d rs v pk :
    length rs = 64 → low_s rs → raw_v v → SigToPub d (rs ++ [v]) = Ok pk →
    PubkeyToAddress pk ≠ zeroAddress →
    ecrecover d (rs ++ [byte_of_Z (byte_val v + 27)]) = Some (PubkeyToAddress pk);
  ecrecover_rejects d rs v :
    length rs = 64 → byte_val v ≠ 27%Z → byte_val v ≠ 28%Z → ecrecover d (rs ++ [v]) = None;
  ecrecover_high_s d rs v : length rs = 64 → ¬ low_s rs → ecrecover d (rs ++ [v]) = None
}.

(** ** isNonceError *)

Definition nonce_patterns : list string :=
  ["nonce too low"; "replacement transaction underpriced"; "already known"].

Definition isNonceError (slow : string → string) (err : string) : bool :=
  let msg := Strings.ToLower slow err in
  Strings.Contains msg "nonce too low" ||
  Strings.Contains msg "replacement transaction underpriced" ||
  Strings.Contains msg "already known".

(** ** Intent ids on chain *)

(** [var intentIDBytes [32]byte; copy(intentIDBytes[:], []byte(id))] *)
Definition intentIDBytes (id : IntentID) : Bytes32 := copy_array 32 (str_bytes id).

(** ** V normalisation *)

(** [if sig[64] < 27 { sig[64] += 27 }]; the index panics on a shorter
    slice. *)
Definition normalizeV (sig : bytes) : outcome bytes :=
  match sig !! 64 with
  | None => Panic
  | Some v =>
      if (byte_val v <? 27)%Z then Ret (<[64 := byte_of_Z (byte_val v + 27)]> sig) else Ret sig
  end.

Section executor.
Context `{Crypto} `{EthTypes}.
Context (slow : string → string).

(** ** Data *)

Inductive TxSignError :=
| SignerMismatch (got want : Address)
| TxSignFailed (id : IntentID) (e : SignerError)
| WithSignatureFailed (err : string).

(** [bind.TransactOpts], the fields [execute] sets. *)
Record TransactOpts := mkOpts {
  opts_From : Address;
  opts_Nonce : Z;
  opts_GasTipCap : Z;
  opts_Signer : Address → Transaction → result TxSignError Transaction
}.

Record ClaimCall := mkCall {
  call_opts : TransactOpts;
  call_intentId : Bytes32;
  call_solver : Address;
  call_sig : bytes
}.

(** The answers of the node during one [execute]. *)
Record World := mkWorld {
  world_tip : result string Z;
  world_claim : ClaimCall → result string Transaction;
  world_pending : result string Z
}.

Record Executor := mkExecutor { ex_vault : KeyVault; ex_chainID : Z }.

Record ExecState := mkExec { nonceQueue : NonceQueue; calls : list ClaimCall }.

Inductive ExecError :=
| SignClaimFailed (id : IntentID) (e : SignerError)
| GasTipFailed (id : IntentID) (err : string)
| ClaimFailed (id : IntentID) (err : string).

(** ** Operations *)

Definition NewExecutor (vault : KeyVault) (queue : NonceQueue) (chainID : Z) : Executor * ExecState :=
  (mkExecutor vault chainID, mkExec queue []).

(** The [Signer] closure of the transaction options. *)
Definition txSigner (e : Executor) (id : IntentID) (addr : Address) (tx : Transaction)
    : result TxSignError Transaction :=
  let vaultAddr := vault_Address (ex_vault e) in
  if negb (bool_decide (addr = vaultAddr)) then Err (SignerMismatch addr vaultAddr)
  else
    let hash := signerHash (ex_chainID e) tx in
    match vault_Sign (ex_vault e) hash with
    | Err signErr => Err (TxSignFailed id signErr)
    | Ok txSig => map_err WithSignatureFailed (WithSignature (ex_chainID e) tx txSig)
    end.

Definition execute (e : Executor) (w : World) (v : Voucher) (st : ExecState)
    : outcome (result ExecError unit * ExecState) :=
  match Voucher_Intent v with
  | None => Panic
  | Some intent =>
      let idBytes := intentIDBytes (Intent_ID intent) in
      let digest := ClaimDigest idBytes (Voucher_WinningSolver v) in
      match vault_Sign (ex_vault e) digest with
      | Err err => Ret (Err (SignClaimFailed (Voucher_IntentID v) err), st)
      | Ok sig0 =>
          match normalizeV sig0 with
          | Panic => Panic
          | Ret sig =>
              match world_tip w with
              | Err err => Ret (Err (GasTipFailed (Voucher_IntentID v) err), st)
              | Ok tip =>
                  let '(nonce, q) := Next (nonceQueue st) in
                  let vaultAddr := vault_Address (ex_vault e) in
                  let auth := mkOpts vaultAddr nonce tip (txSigner e (Voucher_IntentID v)) in
                  let call := mkCall auth idBytes (Voucher_WinningSolver v) sig in
                  let st1 := mkExec q (calls st ++ [call]) in
                  match world_claim w call with
                  | Ok _ => Ret (Ok tt, st1)
                  | Err txErr =>
                      let q' :=
                        if isNonceError slow txErr
                        then (Resync q (world_pending w) vaultAddr).2
                        else q in
                      Ret (Err (ClaimFailed (Voucher_IntentID v) txErr), mkExec q' (calls st1))
                  end
              end
          end
      end
  end.

(** The voucher branch of [Run]: execute, and on failure notify [txFailedCh]
    without blocking. *)
Definition consume (e : Executor) (w : World) (v : Voucher) (st : ExecState) (failed : chan IntentID)
    : outcome (ExecState * chan IntentID) :=
  match execute e w v st with
  | Panic => Panic
  | Ret (Ok _, st') => Ret (st', failed)
  | Ret (Err _, st') =>
      match try_send failed (Voucher_IntentID v) with
      | Sent failed' => Ret (st', failed')
      | Full => Ret (st', failed)
      | SendPanic => Panic
      end
  end.

(** What the [select] of [Run] delivers, one iteration after the other. *)
Inductive branch :=
| BDone
| BVoucher (v : Voucher) (w : World)
| BClosed.

(** [Run] over the branches taken; the last component is what it leaves
    unconsumed when it returns. *)
Fixpoint Run (e : Executor) (bs : list branch) (st : ExecState) (failed : chan IntentID)
    : outcome (ExecState * chan IntentID * list branch) :=
  match bs with
  | [] => Ret (st, failed, [])
  | BDone :: bs => Ret (st, failed, bs)
  | BClosed :: bs => Ret (st, failed, bs)
  | BVoucher v w :: bs =>
      match consume e w v st failed with
      | Panic => Panic
      | Ret (st', failed') => Run e bs st' failed'
      end
  end.

(** ** Specification vocabulary *)

(** What the executor needs of a voucher; the auction engine provides it. *)
Definition settleable (v : Voucher) : Prop :=
  ∃ intent, Voucher_Intent v = Some intent ∧ Voucher_IntentID v = Intent_ID intent.

(** The nonce queue after a [ClaimFunds] call with the given answer. *)
Definition queue_after (e : Executor) (w : World) (q : NonceQueue) (r : result string Transaction)
    : NonceQueue :=
  let q1 := (Next q).2 in
  match r with
  | Ok _ => q1
  | Err txErr =>
      if isNonceError slow txErr then
        match world_pending w with Ok n => mkNonceQueue n | Err _ => q1 end
      else q1
  end.

Definition call_for (e : Executor) (v : Voucher) (intent : Intent) (nonce tip : Z) (sig : bytes)
    : ClaimCall :=
  mkCall (mkOpts (vault_Address (ex_vault e)) nonce tip (txSigner e (Voucher_IntentID v)))
    (intentIDBytes (Intent_ID intent)) (Voucher_WinningSolver v) sig.

(** Whether the voucher's execution reports an error. *)
Definition fails (e : Executor) (w : World) (v : Voucher) (st : ExecState) : bool :=
  match execute e w v st with
  | Ret (Err _, _) => true
  | _ => false
  end.

End executor.

Arguments txSigner {_ _} e id addr tx.
Arguments execute {_ _} slow e w v st.
Arguments consume {_ _} slow e w v st failed.
Arguments Run {_ _} slow e bs st failed.
Arguments queue_after {_ _} slow e w q r.
Arguments call_for {_ _} e v intent nonce tip sig.
Arguments fails {_ _} slow e w v st.

(** The ids of the vouchers that fail, in the order [Run] consumes them. *)
Fixpoint failing `{Crypto} `{EthTypes} (slow : string → string) (e : Executor)
    (bs : list branch) (st : ExecState) : list IntentID :=
  match bs with
  | BVoucher v w :: bs =>
      match execute slow e w v st with
      | Ret (Err _, st') => Voucher_IntentID v :: failing slow e bs st'
      | Ret (Ok _, st') => failing slow e bs st'
      | Panic => []
      end
  | _ => []
  end.

(** What [Run] does not consume: everything after the first stop branch. *)
Fixpoint unconsumed `{Crypto} `{EthTypes} (bs : list branch) : list branch :=
  match bs with
  | [] => []
  | BDone :: bs | BClosed :: bs => bs
  | BVoucher _ _ :: bs => unconsumed bs
  end.

Definition branch_ok `{Crypto} `{EthTypes} (P : Voucher → World → Prop) (b : branch) : Prop :=
  match b with BVoucher v w => P v w | _ => True end.

(** *** UUIDs *)

(** [s] fits the template: an [x] stands for a hex digit, a [y] for one of the
    four digits of the variant (8 to 11), any other character for itself. *)
Fixpoint matches (tmpl s : string) : bool :=
  match tmpl, s with
  | EmptyString, EmptyString => true
  | String.String t tmpl, String.String c s =>
      (if Ascii.eqb t (Ascii.ascii_of_nat 120) then bool_decide (is_Some (Hex.from_hex_char c))
       else if Ascii.eqb t (Ascii.ascii_of_nat 121) then
         match Hex.from_hex_char c with Some d => (8 <=? d)%Z && (d <=? 11)%Z | None => false end
       else Ascii.eqb t c) && matches tmpl s
  | _, _ => false
  end.

Definition uuid_v4 (s : string) : bool := matches "xxxxxxxx-xxxx-4xxx-yxxx-xxxxxxxxxxxx" s.

(** ** Lemmas *)

Section executor_lemmas.

Lemma raw_v_bump v : raw_v v → byte_val (byte_of_Z (byte_val v + 27)) = (byte_val v + 27)%Z.
Proof. intros [E|E]; rewrite byte_val_of_Z, E; done. Qed.

Lemma normalizeV_raw rs v :
  length rs = 64 → raw_v v → normalizeV (rs ++ [v]) = Ret (rs ++ [byte_of_Z (byte_val v + 27)]).
Proof.
  intros Hl Hv. unfold normalizeV. rewrite <- Hl, list_lookup_middle by done.
  destruct (Z.ltb_spec (byte_val v) 27); [|destruct Hv; lia].
  f_equal. replace (length rs) with (length rs + 0) by lia. by rewrite insert_app_r.
Qed.

Lemma intentIDBytes_list id :
  vec_to_list (intentIDBytes id) = take 32 (str_bytes id) ++ replicate (32 - length (str_bytes id)) Byte.x00.
Proof. apply copy_array_list. Qed.

(** Padding with zeros loses nothing when the strings do not end in a zero
    byte. *)
Lemma pad_inj (a b : bytes) n m :
  last a ≠ Some Byte.x00 → last b ≠ Some Byte.x00 →
  a ++ replicate n Byte.x00 = b ++ replicate m Byte.x00 → a = b.
Proof.
  assert (∀ (a b : bytes) n, last a ≠ Some Byte.x00 → a = b ++ replicate n Byte.x00 → a = b) as Hone.
  { intros a' b' [|k] Hl E; [by rewrite app_nil_r in E|]. subst.
    rewrite replicate_S_end, (assoc_L (++)), last_snoc in Hl. done. }
  intros Ha Hb E. destruct (decide (n ≤ m)).
  - replace m with ((m - n) + n) in E by lia. rewrite replicate_add, (assoc_L (++)) in E.
    apply app_inj_2 in E as [E _]; [|done]. by eapply Hone.
  - replace n with ((n - m) + m) in E by lia. rewrite replicate_add, (assoc_L (++)) in E.
    apply app_inj_2 in E as [E _]; [|done]. symmetry. by eapply Hone.
Qed.

(** Ids of at most 32 bytes that do not end in a zero byte are encoded without
    loss. *)
Lemma id_bytes_inj id id' :
  length (str_bytes id) ≤ 32 → length (str_bytes id') ≤ 32 →
  last (str_bytes id) ≠ Some Byte.x00 → last (str_bytes id') ≠ Some Byte.x00 →
  intentIDBytes id = intentIDBytes id' → id = id'.
Proof.
  intros Hl Hl' Hz Hz' E. apply (f_equal vec_to_list) in E. rewrite !intentIDBytes_list in E.
  rewrite !take_ge in E by done. apply pad_inj in E; [|done..]. by apply str_bytes_inj.
Qed.

Lemma matches_length tmpl s : matches tmpl s = true → length (str_bytes s) = String.length tmpl.
Proof.
  unfold str_bytes, String.list_byte_of_string. revert s.
  induction tmpl as [|t tmpl IH]; intros [|c s]; simpl; try done.
  intros [_ H]%andb_true_iff. f_equal. by apply IH.
Qed.

Lemma uuid_length s : uuid_v4 s = true → length (str_bytes s) = 36.
Proof. apply matches_length. Qed.

Context `{Crypto} `{EthTypes} (slow : string → string).
Implicit Types (e : Executor) (w : World) (v : Voucher) (st : ExecState).

Lemma vault_Sign_format e d sig :
  CryptoLaws → vault_Sign (ex_vault e) d = Ok sig →
  ∃ rs b, length rs = 64 ∧ sig = rs ++ [b] ∧ raw_v b ∧ low_s rs ∧
    SigToPub d sig = Ok (publicKey (vault_priv (ex_vault e))).
Proof.
  intros HL Hs. unfold vault_Sign in Hs.
  destruct (crypto_Sign d (vault_priv (ex_vault e))) as [s|] eqn:E; simplify_eq/=.
  destruct (sign_format _ _ _ E) as (rs & b & Hl & -> & Hb & Hls).
  exists rs, b. split_and!; try done. by apply sign_recover.
Qed.

(** [execute] on a voucher that carries its intent. *)
Lemma execute_eq e w v st intent :
  CryptoLaws → Voucher_Intent v = Some intent →
  is_u64 (current (nonceQueue st)) →
  match vault_Sign (ex_vault e)
          (ClaimDigest (intentIDBytes (Intent_ID intent)) (Voucher_WinningSolver v)), world_tip w with
  | Err err, _ => execute slow e w v st = Ret (Err (SignClaimFailed (Voucher_IntentID v) err), st)
  | Ok _, Err err => execute slow e w v st = Ret (Err (GasTipFailed (Voucher_IntentID v) err), st)
  | Ok sig0, Ok tip =>
      ∃ rs b, length rs = 64 ∧ raw_v b ∧ sig0 = rs ++ [b] ∧
        let sig := rs ++ [byte_of_Z (byte_val b + 27)] in
        let call := call_for e v intent (current (nonceQueue st)) tip sig in
        let r := world_claim w call in
        execute slow e w v st =
          Ret (map_err (ClaimFailed (Voucher_IntentID v)) (_ ← r; mret tt),
               mkExec (queue_after slow e w (nonceQueue st) r) (calls st ++ [call]))
  end.
Proof.
  intros HL Hv Hq. unfold execute. rewrite Hv.
  destruct (vault_Sign _ _) as [sig0|] eqn:Hs; [|done].
  destruct (vault_Sign_format e _ _ HL Hs) as (rs & b & Hl & -> & Hb & _).
  rewrite normalizeV_raw by done. destruct (world_tip w) as [tip|]; [|done].
  exists rs, b. split_and!; try done. cbv zeta. unfold queue_after, call_for.
  rewrite Next_spec by done.
  destruct (world_claim w _) as [tx|err]; [done|]. simpl.
  by destruct (isNonceError slow err), (world_pending w).
Qed.

(** The contract recovers the vault's address from a vault signature whose V
    was moved to {27, 28}. *)
Lemma vault_signature_accepted `{!OnChain} e d rs b :
  CryptoLaws → vault_wf (ex_vault e) → vault_Address (ex_vault e) ≠ zeroAddress →
  vault_Sign (ex_vault e) d = Ok (rs ++ [b]) →
  ecrecover d (rs ++ [byte_of_Z (byte_val b + 27)]) = Some (vault_Address (ex_vault e)).
Proof.
  intros HL Hwf Hz Hs. destruct (vault_Sign_format e d _ HL Hs) as (rs' & b' & Hl & E & Hb & Hls & Hrec).
  rewrite E in Hrec. apply app_inj_2 in E as [<- [= <-]]; [|done]. unfold vault_Address in *. rewrite Hwf in *.
  by apply ecrecover_spec.
Qed.

(** The answers of a node: pending nonces are [uint64], and a [quiet] node
    never answers with a nonce error. *)
Definition typed (w : World) : Prop := ∀ n, world_pending w = Ok n → is_u64 n.

Definition quiet (w : World) : Prop :=
  ∀ call err, world_claim w call = Err err → isNonceError slow err = false.

Definition nonces (cs : list ClaimCall) : list Z := (opts_Nonce ∘ call_opts) <$> cs.

Lemma queue_after_u64 e w q r :
  typed w → is_u64 (current q) → is_u64 (current (queue_after slow e w q r)).
Proof.
  intros Ht Hq. unfold queue_after. rewrite Next_spec by done. simpl.
  destruct r as [tx|err]; simpl; [apply wrap_u64_range|].
  destruct (isNonceError slow err); [|apply wrap_u64_range].
  destruct (world_pending w) eqn:E; [by apply Ht|apply wrap_u64_range].
Qed.

Lemma queue_after_quiet e w q call :
  quiet w → is_u64 (current q) →
  current (queue_after slow e w q (world_claim w call)) = wrap_u64 (current q + 1).
Proof.
  intros Hw Hq. unfold queue_after. rewrite Next_spec by done. simpl.
  destruct (world_claim w call) as [tx|err] eqn:E; simpl; [done|]. by rewrite (Hw _ _ E).
Qed.

(** One execution returns, keeps the counter a [uint64] and appends at most
    one call; with a quiet node the counter counts the calls. *)
Lemma execute_step e w v st :
  CryptoLaws → settleable v → typed w → is_u64 (current (nonceQueue st)) →
  ∃ r st' new, execute slow e w v st = Ret (r, st') ∧ is_u64 (current (nonceQueue st')) ∧
    calls st' = calls st ++ new ∧ length new ≤ 1 ∧
    nonces new = nonce_range (current (nonceQueue st)) (length new) ∧
    (quiet w → current (nonceQueue st') =
       wrap_u64 (current (nonceQueue st) + Z.of_nat (length new))).
Proof.
  intros HL (intent & Hv & _) Ht Hq. pose proof (execute_eq e w v st intent HL Hv Hq) as He.
  destruct (vault_Sign _ _) as [sig0|]; [destruct (world_tip w) as [tip|]|].
  - destruct He as (rs & b & _ & _ & _ & ->). eexists _, _, [_]. split_and!; [done| |done|done|..].
    + by apply queue_after_u64.
    + simpl. by rewrite nonce_range_S.
    + intros Hw. by apply queue_after_quiet.
  - rewrite He. eexists _, _, []. rewrite app_nil_r, Z.add_0_r, wrap_u64_id by done.
    split_and!; try done. simpl. lia.
  - rewrite He. eexists _, _, []. rewrite app_nil_r, Z.add_0_r, wrap_u64_id by done.
    split_and!; try done. simpl. lia.
Qed.

Lemma consume_Ret e w v st failed st' r :
  closed failed = false → execute slow e w v st = Ret (r, st') →
  ∃ failed', consume slow e w v st failed = Ret (st', failed') ∧
    closed failed' = false ∧ cap failed' = cap failed ∧
    (cap_ok failed → cap_ok failed' ∧
      buf failed' = take (cap failed) (buf failed ++ if is_ok r then [] else [Voucher_IntentID v])).
Proof.
  intros Hc He. unfold consume. rewrite He. destruct r as [u|err].
  - exists failed. split_and!; [done..|]. intros Hcap. split; [done|].
    simpl. by rewrite app_nil_r, take_ge.
  - destruct (try_send failed (Voucher_IntentID v)) as [c| |] eqn:E.
    + pose proof (try_send_cap_ok _ _ _ E) as Hok.
      apply try_send_Sent in E as (_ & Hlt & ->). eexists. split_and!; [done..|].
      intros _. split; [done|]. simpl. rewrite take_ge; [done|].
      rewrite length_app. simpl. lia.
    + apply try_send_Full in E as [_ Hge]. eexists. split_and!; [done..|].
      intros Hcap. split; [done|]. unfold cap_ok in Hcap. simpl.
      rewrite take_app_le by lia. by rewrite take_ge.
    + apply try_send_panic in E. congruence.
Qed.

Lemma take_take_app {A} n (l k k' : list A) :
  take n (take n (l ++ k) ++ k') = take n (l ++ k ++ k').
Proof.
  rewrite (assoc_L (++)). destruct (decide (length (l ++ k) ≤ n)) as [Hle|Hgt].
  - by rewrite (take_ge (l ++ k)).
  - rewrite (take_app_le (l ++ k)) by lia. rewrite take_app_le by (rewrite length_take; lia).
    by rewrite take_take, Nat.min_id.
Qed.

(** The loop: it returns, and the failure channel receives the failing ids as
    far as it has room. *)
Lemma Run_spec e bs st failed :
  CryptoLaws → Forall (branch_ok (λ v w, settleable v ∧ typed w)) bs →
  is_u64 (current (nonceQueue st)) → closed failed = false → cap_ok failed →
  ∃ st' failed' new,
    Run slow e bs st failed = Ret (st', failed', unconsumed bs) ∧
    calls st' = calls st ++ new ∧
    buf failed' = take (cap failed) (buf failed ++ failing slow e bs st) ∧
    (Forall (branch_ok (λ _ w, quiet w)) bs →
      nonces new = nonce_range (current (nonceQueue st)) (length new)).
Proof.
  intros HL Hb. revert st failed. induction Hb as [|b bs Hb _ IH]; intros st failed Hq Hc Hcap.
  { exists st, failed, []. simpl. by rewrite !app_nil_r, take_ge. }
  destruct b as [|v w|]; simpl.
  1, 3: exists st, failed, []; by rewrite !app_nil_r, take_ge.
  destruct Hb as [Hv Ht].
  destruct (execute_step e w v st HL Hv Ht Hq) as (r & st1 & n1 & He & Hq1 & Hn1 & _ & Hr1 & Hqt).
  destruct (consume_Ret e w v st failed st1 r Hc He) as (f1 & -> & Hc1 & Hcap1 & Hf1).
  destruct (Hf1 Hcap) as [Hok1 Hb1].
  destruct (IH st1 f1 Hq1 Hc1 Hok1) as (st2 & f2 & n2 & -> & Hn2 & Hb2 & Hq2).
  exists st2, f2, (n1 ++ n2). split_and!; [done|by rewrite Hn2, Hn1, (assoc_L (++))|..].
  - rewrite Hb2, Hcap1, Hb1, He, take_take_app. by destruct r.
  - intros [Hw Hws]%Forall_cons. unfold nonces in *. rewrite fmap_app, length_app, Hr1, (Hq2 Hws).
    rewrite nonce_range_app by done. by rewrite Hqt.
Qed.

End executor_lemmas.

(** ** A concrete instance *)

Module ToyChain.

#[local] Existing Instance Toy.crypto.

Definition eth : EthTypes := {|
  Transaction := unit;
  signerHash := λ chainID _, Toy.hash (be_bytes 8 chainID);
  WithSignature := λ _ tx sig, if length sig =? 65 then Ok tx else Err "wrong size for signature"
|}.

#[local] Existing Instance eth.

Definition ecrecover_toy (d : Bytes32) (sig : bytes) : option Address :=
  match sig !! 64 with
  | Some v =>
      if ((byte_val v =? 27) || (byte_val v =? 28))%Z && (be_val (drop 32 (take 64 sig)) <=? secp256k1_n / 2)%Z then
        match Toy.recover d (take 64 sig ++ [byte_of_Z (byte_val v - 27)]) with
        | Ok k => if bool_decide (vreplicate 20 k = zeroAddress) then None else Some (vreplicate 20 k)
        | Err _ => None
        end
      else None
  | None => None
  end.

Lemma toy_accepts d rs v pk :
  length rs = 64 → low_s rs → raw_v v → Toy.recover d (rs ++ [v]) = Ok pk → vreplicate 20 pk ≠ zeroAddress →
  ecrecover_toy d (rs ++ [byte_of_Z (byte_val v + 27)]) = Some (vreplicate 20 pk).
Proof.
  intros Hl Hls Hv Hr Hz. unfold ecrecover_toy. rewrite <- Hl, list_lookup_middle by done.
  rewrite raw_v_bump, take_app_length by done. rewrite (proj2 (Z.leb_le _ _) Hls).
  replace (byte_val v + 27 - 27)%Z with (byte_val v) by lia. rewrite byte_of_Z_val, Hr.
  rewrite bool_decide_eq_false_2 by done. by destruct Hv as [-> | ->].
Qed.

Lemma toy_rejects d rs v :
  length rs = 64 → byte_val v ≠ 27%Z → byte_val v ≠ 28%Z → ecrecover_toy d (rs ++ [v]) = None.
Proof.
  intros Hl H27 H28. unfold ecrecover_toy. rewrite <- Hl, list_lookup_middle by done.
  destruct (Z.eqb_spec (byte_val v) 27), (Z.eqb_spec (byte_val v) 28); done.
Qed.

Lemma toy_high_s d rs v : length rs = 64 → ¬ low_s rs → ecrecover_toy d (rs ++ [v]) = None.
Proof.
  intros Hl Hs. unfold ecrecover_toy. rewrite <- Hl, list_lookup_middle, take_app_length by done.
  destruct (Z.leb_spec (be_val (drop 32 rs)) (secp256k1_n / 2)); [done|]. by rewrite andb_false_r.
Qed.

Definition onchain : @OnChain Toy.crypto :=
  @Build_OnChain Toy.crypto ecrecover_toy toy_accepts toy_rejects toy_high_s.

Definition executor : Executor := mkExecutor Toy.vault 31337.

Definition voucher (id : string) : Voucher :=
  mkVoucher id (vreplicate 20 Byte.x09) (Some 950%Z)
    (Some (mkIntent id zeroAddress zeroAddress zeroAddress (Some 1000%Z) (Some 900%Z)
             (GoTime.Unix 1775000000) 1 [] (GoTime.Unix 1774990000)))
    None (GoTime.Unix 1774990001).

(** A node that accepts every claim, and one that answers [err]. *)
Definition accepting : World := mkWorld (Ok 1000000000%Z) (λ _, Ok tt) (Ok 7%Z).

Definition rejecting (err : string) : World := mkWorld (Ok 1000000000%Z) (λ _, Err err) (Ok 7%Z).

Lemma typed_accepting : typed accepting.
Proof. intros n [= <-]. split; lia. Qed.

Lemma typed_rejecting err : typed (rejecting err).
Proof. intros n [= <-]. split; lia. Qed.

Lemma settleable_voucher id : settleable (voucher id).
Proof. eexists. split; [done|done]. Qed.

End ToyChain.

(** ** Properties *)

Section executor_properties.
Context `{Crypto} `{EthTypes} (slow : string → string).
Implicit Types (e : Executor) (w : World) (v : Voucher) (st : ExecState).

(** C4 (functional).  [execute] on every branch.  If signing or the tip lookup
    fails no nonce is reserved and nothing is sent.  Otherwise exactly one
    [ClaimFunds] call is made, from the vault's address, with the current
    nonce, the id and solver of the voucher and the normalised signature; the
    result is the call's, and the counter moves on by one, except that after a
    nonce error it is the node's pending nonce when the node answers.  A
    voucher without an intent panics. *)
Theorem execute_spec e w v st :
  CryptoLaws → is_u64 (current (nonceQueue st)) →
  match Voucher_Intent v with
  | None => execute slow e w v st = Panic
  | Some intent =>
      match vault_Sign (ex_vault e)
              (ClaimDigest (intentIDBytes (Intent_ID intent)) (Voucher_WinningSolver v)),
            world_tip w with
      | Err err, _ => execute slow e w v st = Ret (Err (SignClaimFailed (Voucher_IntentID v) err), st)
      | Ok _, Err err => execute slow e w v st = Ret (Err (GasTipFailed (Voucher_IntentID v) err), st)
      | Ok sig0, Ok tip =>
          ∃ sig, normalizeV sig0 = Ret sig ∧ length sig = 65 ∧
            let call := call_for e v intent (current (nonceQueue st)) tip sig in
            let next := mkNonceQueue (wrap_u64 (current (nonceQueue st) + 1)) in
            execute slow e w v st =
              match world_claim w call with
              | Ok _ => Ret (Ok tt, mkExec next (calls st ++ [call]))
              | Err txErr =>
                  Ret (Err (ClaimFailed (Voucher_IntentID v) txErr),
                    mkExec (match isNonceError slow txErr, world_pending w with
                            | true, Ok n => mkNonceQueue n
                            | _, _ => next
                            end) (calls st ++ [call]))
              end
      end
  end.
Proof.
  intros HL Hq. destruct (Voucher_Intent v) as [intent|] eqn:Hv; [|by unfold execute; rewrite Hv].
  pose proof (execute_eq slow e w v st intent HL Hv Hq) as He.
  destruct (vault_Sign _ _) as [sig0|]; [|done]. destruct (world_tip w) as [tip|]; [|done].
  destruct He as (rs & b & Hl & Hb & -> & He). eexists. split; [by apply normalizeV_raw|].
  split; [rewrite length_app; simpl; lia|]. cbv zeta in *. rewrite He.
  unfold queue_after. rewrite Next_spec by done.
  destruct (world_claim w _) as [tx|err]; [done|]. simpl.
  by destruct (isNonceError slow err), (world_pending w).
Qed.

(** C9 (safety).  Every [ClaimFunds] call the executor makes passes the
    contract's signature check: recovering the claim digest of the call's own
    id and solver from the call's signature gives the vault's address, because
    S is low and V was moved to {27, 28}; the signature as the vault produced it
    would have been rejected. *)
Theorem claim_signature_verifies `{!OnChain} e w v st r st' call :
  CryptoLaws → vault_wf (ex_vault e) → vault_Address (ex_vault e) ≠ zeroAddress →
  is_u64 (current (nonceQueue st)) →
  execute slow e w v st = Ret (r, st') → calls st' = calls st ++ [call] →
  ecrecover (ClaimDigest (call_intentId call) (call_solver call)) (call_sig call) =
    Some (vault_Address (ex_vault e)) ∧
  call_solver call = Voucher_WinningSolver v ∧
  (∀ sig0, vault_Sign (ex_vault e) (ClaimDigest (call_intentId call) (call_solver call)) = Ok sig0 →
    ecrecover (ClaimDigest (call_intentId call) (call_solver call)) sig0 = None).
Proof.
  intros HL Hw Hz Hq He Hc.
  destruct (Voucher_Intent v) as [intent|] eqn:Hv; [|by unfold execute in He; rewrite Hv in He].
  pose proof (execute_eq slow e w v st intent HL Hv Hq) as Heq.
  destruct (vault_Sign (ex_vault e) _) as [sig0|] eqn:Hs.
  2: { rewrite Heq in He. simplify_eq. exfalso.
       apply (f_equal length) in Hc. rewrite length_app in Hc. simpl in Hc. lia. }
  destruct (world_tip w) as [tip|].
  2: { rewrite Heq in He. simplify_eq. exfalso.
       apply (f_equal length) in Hc. rewrite length_app in Hc. simpl in Hc. lia. }
  destruct Heq as (rs & b & Hl & Hb & -> & Heq). cbv zeta in Heq. rewrite Heq in He.
  injection He as _ <-. cbn [calls] in Hc. apply app_inj_2 in Hc as [_ Hc]; [|done].
  injection Hc as <-. cbn [call_for call_intentId call_solver call_sig].
  split_and!; [by apply vault_signature_accepted|done|].
  intros sig0 Hs'. rewrite Hs in Hs'. simplify_eq.
  apply ecrecover_rejects; [done|destruct Hb; lia..].
Qed.

(** C18 (functional).  The event loop: on vouchers that carry their intent
    [Run] never panics, stops at the first cancellation or closed channel and
    leaves the rest unconsumed, and [txFailedCh] receives exactly the ids of
    the failing vouchers, in order, as far as its buffer goes.  While the node
    answers no nonce error the calls use consecutive nonces. *)
Theorem Run_correct e bs st failed :
  CryptoLaws → Forall (branch_ok (λ v w, settleable v ∧ typed w)) bs →
  is_u64 (current (nonceQueue st)) → closed failed = false → cap_ok failed →
  ∃ st' failed' new,
    Run slow e bs st failed = Ret (st', failed', unconsumed bs) ∧
    calls st' = calls st ++ new ∧
    buf failed' = take (cap failed) (buf failed ++ failing slow e bs st) ∧
    (Forall (branch_ok (λ _ w, quiet slow w)) bs →
      nonces new = nonce_range (current (nonceQueue st)) (length new)).
Proof. apply Run_spec. Qed.

(** The transaction signer refuses any address but the vault's,
    and for the vault's address hands go-ethereum the vault's own raw 65-byte
    signature (V in {0, 1}) of the transaction hash for the configured
    chain. *)
Theorem txSigner_spec e id addr tx :
  CryptoLaws →
  (addr ≠ vault_Address (ex_vault e) →
    txSigner e id addr tx = Err (SignerMismatch addr (vault_Address (ex_vault e)))) ∧
  (∀ sig, vault_Sign (ex_vault e) (signerHash (ex_chainID e) tx) = Ok sig →
    length sig = 65 ∧
    txSigner e id (vault_Address (ex_vault e)) tx =
      map_err WithSignatureFailed (WithSignature (ex_chainID e) tx sig)).
Proof.
  intros HL. unfold txSigner. split.
  - intros Hne. by rewrite bool_decide_eq_false_2.
  - intros sig Hs. rewrite bool_decide_eq_true_2 by done. simpl. rewrite Hs. split; [|done].
    destruct (vault_Sign_format e _ _ HL Hs) as (rs & b & Hl & -> & _).
    rewrite length_app. simpl. lia.
Qed.

End executor_properties.

(** On ASCII error texts [isNonceError] is exactly the
    case-insensitive search for one of the three patterns. *)
Theorem isNonceError_spec slow msg :
  Strings.is_ascii msg = true →
  isNonceError slow msg = true ↔
  ∃ p a m b, p ∈ nonce_patterns ∧ msg = String.append a (String.append m b) ∧
    Strings.map_string Strings.lower_char m = p.
Proof.
  intros Ha. unfold isNonceError, Strings.ToLower. rewrite Ha.
  assert (∀ p, Strings.Contains (Strings.map_string Strings.lower_char msg) p = true ↔
    ∃ a m b, msg = String.append a (String.append m b) ∧
      Strings.map_string Strings.lower_char m = p) as Hp.
  { intros p. rewrite Contains_spec. split.
    - intros (a & b & E). apply map_string_split in E as (a' & r & -> & <- & E).
      apply map_string_split in E as (m & b' & -> & <- & <-). eauto.
    - intros (a & m & b & -> & <-). rewrite !map_string_app. eauto. }
  rewrite !orb_true_iff, !Hp. split.
  - intros [[(a & m & b & E & Em)|(a & m & b & E & Em)]|(a & m & b & E & Em)];
      eexists _, a, m, b; (split; [|exact (conj E Em)]); apply list_elem_of_In; simpl; auto.
  - intros (p & a & m & b & Hin%list_elem_of_In & E & Em). simpl in Hin.
    destruct Hin as [<-|[<-|[<-|[]]]]; [left; left|left; right|right]; by exists a, m, b.
Qed.

(** On-chain ids: an id of at most 32 bytes that does not end in
    a zero byte is encoded without loss, so two such intents with the same
    escrow key are the same intent. *)
Theorem intentIDBytes_inj id id' :
  length (str_bytes id) ≤ 32 → length (str_bytes id') ≤ 32 →
  last (str_bytes id) ≠ Some Byte.x00 → last (str_bytes id') ≠ Some Byte.x00 →
  intentIDBytes id = intentIDBytes id' → id = id'.
Proof.
  apply id_bytes_inj.
Qed.

(** C40 (safety).  A behaviour the executor does have: ids longer than 32 bytes
    are cut, so two UUIDs (version 4, 36 characters) have the same escrow key
    exactly when they agree on their first 32 characters, and then also
    the same claim digest for the same solver; and there are different UUIDs
    that do, which differ in their last four characters. *)
Theorem uuid_ids_collide :
  (∀ id id' : IntentID, uuid_v4 id = true → uuid_v4 id' = true →
     (intentIDBytes id = intentIDBytes id' ↔ take 32 (str_bytes id) = take 32 (str_bytes id'))) ∧
  ∃ (p a b : string),
    uuid_v4 (p +:+ a) = true ∧ uuid_v4 (p +:+ b) = true ∧ String.length a = 4 ∧ String.length b = 4 ∧ a ≠ b ∧
    intentIDBytes (p +:+ a) = intentIDBytes (p +:+ b) ∧
    ∀ (C : Crypto) (solver : Address),
      ClaimDigest (intentIDBytes (p +:+ a)) solver = ClaimDigest (intentIDBytes (p +:+ b)) solver.
Proof.
  split.
  - intros id id' Hu%uuid_length Hu'%uuid_length. split.
    + intros E%(f_equal vec_to_list). by rewrite !intentIDBytes_list, Hu, Hu', !app_nil_r in E.
    + intros E. apply vec_list_inj. by rewrite !intentIDBytes_list, Hu, Hu', E.
  - exists "3f2504e0-4f89-41d3-9a0c-0305e82c", "3301", "3302".
    assert (intentIDBytes ("3f2504e0-4f89-41d3-9a0c-0305e82c" +:+ "3301") =
            intentIDBytes ("3f2504e0-4f89-41d3-9a0c-0305e82c" +:+ "3302")) as E by by vm_compute.
    split_and!; [done..|]. intros C solver. by rewrite E.
Qed.

(** ** Witnesses *)

Section witnesses.
#[local] Existing Instance Toy.crypto.
#[local] Existing Instance ToyChain.eth.
#[local] Existing Instance ToyChain.onchain.

Definition toy_state : ExecState := mkExec (mkNonceQueue 5) [].

Lemma toy_state_u64 : is_u64 (current (nonceQueue toy_state)).
Proof. split; simpl; lia. Qed.

Lemma execute_spec_witness :
  ∃ sig call,
    @normalizeV (vec_to_list (@ClaimDigest Toy.crypto (intentIDBytes "i1") (vreplicate 20 Byte.x09))
                   ++ replicate 31 Byte.x00 ++ [Byte.x07; Byte.x00]) = Ret sig ∧
    @execute Toy.crypto ToyChain.eth id ToyChain.executor
      (ToyChain.rejecting "nonce too low") (ToyChain.voucher "i1") toy_state =
    Ret (Err (ClaimFailed "i1" "nonce too low"), mkExec (mkNonceQueue 7) [call]).
Proof.
  destruct (@execute_spec Toy.crypto ToyChain.eth id ToyChain.executor
    (ToyChain.rejecting "nonce too low") (ToyChain.voucher "i1") toy_state
    Toy.crypto_laws toy_state_u64) as (sig & Hn & _ & He).
  exists sig. eexists. split; [exact Hn|]. exact He.
Defined.

Lemma toy_vault_nonzero : vault_Address (ex_vault ToyChain.executor) ≠ zeroAddress.
Proof. discriminate. Qed.

Lemma claim_signature_verifies_witness :
  ∃ call,
    @ecrecover Toy.crypto ToyChain.onchain
      (@ClaimDigest Toy.crypto (intentIDBytes "i1") (vreplicate 20 Byte.x09)) (call_sig call)
    = Some (vreplicate 20 Byte.x07).
Proof.
  destruct (execute_eq id ToyChain.executor ToyChain.accepting (ToyChain.voucher "i1") toy_state _
    Toy.crypto_laws eq_refl toy_state_u64) as (rs & b & _ & _ & _ & He).
  eexists.
  exact (proj1 (claim_signature_verifies id ToyChain.executor ToyChain.accepting
    (ToyChain.voucher "i1") toy_state _ _ _ Toy.crypto_laws eq_refl toy_vault_nonzero toy_state_u64 He eq_refl)).
Defined.

Lemma Run_correct_witness :
  ∃ st' failed' new,
    @Run Toy.crypto ToyChain.eth id ToyChain.executor
      [BVoucher (ToyChain.voucher "i1") (ToyChain.rejecting "execution reverted");
       BVoucher (ToyChain.voucher "i2") ToyChain.accepting; BDone; BClosed]
      toy_state (make 128) = Ret (st', failed', [BClosed]) ∧
    calls st' = [] ++ new ∧ buf failed' = ["i1"].
Proof.
  destruct (@Run_correct Toy.crypto ToyChain.eth id ToyChain.executor
    [BVoucher (ToyChain.voucher "i1") (ToyChain.rejecting "execution reverted");
     BVoucher (ToyChain.voucher "i2") ToyChain.accepting; BDone; BClosed]
    toy_state (make 128) Toy.crypto_laws) as (st' & failed' & new & Hr & Hc & Hb & _).
  - apply Forall_cons_2; [exact (conj (ToyChain.settleable_voucher _) (ToyChain.typed_rejecting _))|].
    apply Forall_cons_2; [exact (conj (ToyChain.settleable_voucher _) ToyChain.typed_accepting)|].
    by repeat constructor.
  - apply toy_state_u64.
  - reflexivity.
  - apply make_cap_ok.
  - exists st', failed', new. split; [exact Hr|]. split; [exact Hc|]. rewrite Hb. reflexivity.
Defined.

Lemma txSigner_spec_witness :
  @txSigner Toy.crypto ToyChain.eth ToyChain.executor "i1" zeroAddress tt =
    Err (SignerMismatch zeroAddress (vreplicate 20 Byte.x07)) ∧
  @txSigner Toy.crypto ToyChain.eth ToyChain.executor "i1" (vreplicate 20 Byte.x07) tt = Ok tt.
Proof.
  destruct (@txSigner_spec Toy.crypto ToyChain.eth ToyChain.executor "i1" zeroAddress tt
    Toy.crypto_laws) as [H1 H2]. split.
  - apply H1. discriminate.
  - edestruct H2 as [_ H]; [reflexivity|]. exact H.
Defined.

Lemma isNonceError_spec_witness :
  isNonceError id "Nonce Too Low: next nonce 5" = true ↔
  ∃ p a m b, p ∈ nonce_patterns ∧
    "Nonce Too Low: next nonce 5" = String.append a (String.append m b) ∧
    Strings.map_string Strings.lower_char m = p.
Proof. apply isNonceError_spec. reflexivity. Defined.

Lemma intentIDBytes_inj_witness : "sim-1" = "sim-1".
Proof.
  apply (intentIDBytes_inj "sim-1" "sim-1"); [vm_compute; lia|vm_compute; lia|discriminate|discriminate|].
  reflexivity.
Defined.

End witnesses.

Lemma uuid_ids_collide_witness :
  intentIDBytes "3f2504e0-4f89-41d3-9a0c-0305e82c3301" = intentIDBytes "3f2504e0-4f89-41d3-9a0c-0305e82c3302".
Proof.
  apply (proj1 uuid_ids_collide); vm_compute; reflexivity.
Defined.
