(* ===== verification/OpStack.v ===== *)
(** * OP Stack client (internal/txmanager/opstack_client.go)

    Gas estimation with the 10% buffer, computed by the code in [float64], and
    the L1 data fee query.  The node ([ethclient]) and the ABI coder are
    arguments.

    A non-negative [float64] is modelled by an integer significand and a
    binary exponent; conversion from an integer and multiplication round to
    nearest, ties to even, at 53 bits.  The exponent range is not modelled:
    the values here lie between 1 and 2^66. *)

From S2P Require Import Prelude GoStd Core.
From Stdlib Require Import Floats.SpecFloat.

#[local] Open Scope Z_scope.

(** ** float64 *)

Module F64.

Record t := mk { sig : Z; exp : Z }.

(** [n / 2^s] rounded to nearest, ties to even. *)
Definition round_ne (n s : Z) : Z :=
  let q := n / 2 ^ s in
  let r := n `mod` 2 ^ s in
  if (2 ^ s <? 2 * r) || ((2 ^ s =? 2 * r) && Z.odd q) then q + 1 else q.

(** Number of bits to drop to keep 53. *)
Definition excess (n : Z) : Z := Z.max 0 (Z.log2 n + 1 - 53).

Definition of_Z (n : Z) : t := mk (round_ne n (excess n)) (excess n).

Definition mul (a b : t) : t :=
  let p := sig a * sig b in
  mk (round_ne p (excess p)) (exp a + exp b + excess p).

(** [uint64(f)]: truncation; out of range the result is up to the
    implementation ([None]). *)
Definition to_u64 (f : t) : option Z :=
  let z := if 0 <=? exp f then sig f * 2 ^ exp f else sig f / 2 ^ (- exp f) in
  if z <? 2 ^ 64 then Some z else None.

End F64.

(** ** EstimateGasWithBuffer *)

(** The [float64] nearest to 1.10. *)
Definition gasOverheadFactor : F64.t := F64.mk 4953959590107546 (-52).

Inductive GasError := EstimateFailed (err : string).

(** [raw] is the node's answer to [EstimateGas]. *)
Definition EstimateGasWithBuffer (raw : result string Z) : result GasError (option Z) :=
  match raw with
  | Err err => Err (EstimateFailed err)
  | Ok raw => Ok (F64.to_u64 (F64.mul (F64.of_Z raw) gasOverheadFactor))
  end.

(** ** Tip and L1 data fee *)

Inductive TipError := SuggestFailed (err : string).

Definition SuggestGasTipCap (tip : result string Z) : result TipError Z := map_err SuggestFailed tip.

Inductive FeeError :=
| PackFailed (err : string)
| CallFailed (err : string)
| UnpackFailed (err : string)
| EmptyResult
| UnexpectedType.

(** A value of the decoded result: a [*big.Int] or something else. *)
Inductive Unpacked :=
| UBig (x : Big.Int)
| UOther.

(** go-ethereum: the client connection, the ABI coder and addresses. *)
Class OracleLib := {
  EthClient : Type;
  OracleABI : Type;
  abi_JSON : string → result string OracleABI;
  oracleHexToAddress : string → Address;
  oraclePack : OracleABI → string → bytes → result string bytes;
  CallContract : EthClient → Address → bytes → result string bytes;
  oracleUnpack : OracleABI → string → bytes → result string (list Unpacked)
}.

Definition gasPriceOracleAddr : string := "0x420000000000000000000000000000000000000F".

(** The ABI fragment, with the tabs and line breaks of the source; 34 is the code of the
    double quote. *)
Definition gasPriceOracleABIJSON : string :=
  let q := String.String (Ascii.ascii_of_nat 34) "" in
  let nl := String.String (Ascii.ascii_of_nat 10) "" in
  let tab := String.String (Ascii.ascii_of_nat 9) "" in
  let str s := (q ++ s ++ q)%string in
  ("[{" ++ nl ++
   tab ++ str "type" ++ ": " ++ str "function" ++ "," ++ nl ++
   tab ++ str "name" ++ ": " ++ str "getL1Fee" ++ "," ++ nl ++
   tab ++ str "inputs" ++ ":  [{" ++ str "name" ++ ": " ++ str "_data" ++ ", " ++ str "type" ++ ": " ++ str "bytes" ++ "}]," ++ nl ++
   tab ++ str "outputs" ++ ": [{" ++ str "name" ++ ": " ++ str "" ++ ",     " ++ str "type" ++ ": " ++ str "uint256" ++ "}]," ++ nl ++
   tab ++ str "stateMutability" ++ ": " ++ str "view" ++ nl ++
   "}]")%string.

Section l1fee.
Context `{OracleLib}.

Record OPStackClient := mkOPStackClient {
  op_client : EthClient;
  oracleAddr : Address;
  oracleABI : OracleABI
}.

Inductive NewClientError := ParseABIFailed (err : string).

Definition NewOPStackClient (cl : EthClient) : result NewClientError OPStackClient :=
  parsed ← map_err ParseABIFailed (abi_JSON gasPriceOracleABIJSON);
  mret (mkOPStackClient cl (oracleHexToAddress gasPriceOracleAddr) parsed).

(** [new(big.Int).Set(fee)] dereferences [fee]. *)
Definition EstimateL1DataFee (c : OPStackClient) (rawTxData : bytes) : outcome (result FeeError Z) :=
  match oraclePack (oracleABI c) "getL1Fee" rawTxData with
  | Err err => Ret (Err (PackFailed err))
  | Ok callData =>
      match CallContract (op_client c) (oracleAddr c) callData with
      | Err err => Ret (Err (CallFailed err))
      | Ok res =>
          match oracleUnpack (oracleABI c) "getL1Fee" res with
          | Err err => Ret (Err (UnpackFailed err))
          | Ok [] => Ret (Err EmptyResult)
          | Ok (UBig (Some fee) :: _) => Ret (Ok fee)
          | Ok (UBig None :: _) => Panic
          | Ok (UOther :: _) => Ret (Err UnexpectedType)
          end
      end
  end.

Definition Client (c : OPStackClient) : EthClient := op_client c.

End l1fee.

(** The ABI coder follows the fragment it was given: for the method's one
    uint256 output it decodes one number. *)
Class OracleLaws `{OracleLib} : Prop := {
  unpack_getL1Fee parsed res out :
    abi_JSON gasPriceOracleABIJSON = Ok parsed → oracleUnpack parsed "getL1Fee" res = Ok out →
    ∃ fee, out = [UBig (Some fee)] ∧ 0 ≤ fee < 2 ^ 256
}.

(** ** Lemmas *)

Section rounding.

(** Rounding is monotone against multiples of the unit, and the error is at
    most half a unit. *)
Lemma round_ne_lower n s k : 0 ≤ s → k * 2 ^ s ≤ n → k ≤ F64.round_ne n s.
Proof.
  intros Hs Hk. assert (0 < 2 ^ s) by (apply Z.pow_pos_nonneg; lia).
  assert (k ≤ n / 2 ^ s) by (apply Z.div_le_lower_bound; lia).
  unfold F64.round_ne. destruct (_ || _); lia.
Qed.

Lemma round_ne_upper n s : 0 ≤ s → 2 * (F64.round_ne n s * 2 ^ s) ≤ 2 * n + 2 ^ s.
Proof.
  intros Hs. assert (0 < 2 ^ s) by (apply Z.pow_pos_nonneg; lia).
  pose proof (Z.div_mod n (2 ^ s)). pose proof (Z.mod_pos_bound n (2 ^ s)).
  unfold F64.round_ne. set (q := n / 2 ^ s) in *. set (r := n `mod` 2 ^ s) in *.
  destruct (Z.ltb_spec (2 ^ s) (2 * r)); simpl; [nia|].
  destruct (Z.eqb_spec (2 ^ s) (2 * r)); simpl; [destruct (Z.odd q); nia|nia].
Qed.

Lemma round_ne_0 n : F64.round_ne n 0 = n.
Proof. unfold F64.round_ne. by rewrite Z.pow_0_r, Z.div_1_r, Z.mod_1_r. Qed.

(** Integers below 2^53 are converted exactly. *)
Lemma of_Z_exact n : 0 ≤ n < 2 ^ 53 → F64.of_Z n = F64.mk n 0.
Proof.
  intros [Hlo Hhi]. unfold F64.of_Z. assert (F64.excess n = 0) as ->; [|by rewrite round_ne_0].
  unfold F64.excess. destruct (decide (n = 0)) as [->|]; [done|].
  assert (Z.log2 n < 53) by (apply Z.log2_lt_pow2; lia). lia.
Qed.

Lemma excess_bound n b : 0 < n < 2 ^ b → 53 ≤ b → 0 ≤ F64.excess n ≤ b - 53.
Proof.
  intros Hn Hb. unfold F64.excess. assert (Z.log2 n < b) by (apply Z.log2_lt_pow2; lia). lia.
Qed.

(** The truncated product with the factor, as an integer computation. *)
Lemma buffered_eq raw :
  0 ≤ raw < 2 ^ 48 →
  let p := raw * 4953959590107546 in
  let s := F64.excess p in
  F64.to_u64 (F64.mul (F64.of_Z raw) gasOverheadFactor) =
    (let z := F64.round_ne p s * 2 ^ s / 2 ^ 52 in if z <? 2 ^ 64 then Some z else None).
Proof.
  intros Hr p s. rewrite of_Z_exact by lia. unfold F64.mul. simpl. fold p. fold s.
  assert (0 ≤ s ≤ 48) as Hs.
  { destruct (decide (raw = 0)) as [->|]; [done|]. apply (excess_bound p 101); unfold p; lia. }
  unfold F64.to_u64. simpl. replace (0 + -52 + s) with (s - 52) by lia.
  destruct (Z.leb_spec 0 (s - 52)); [lia|].
  replace (F64.round_ne p s * 2 ^ s / 2 ^ 52) with (F64.round_ne p s / 2 ^ (- (s - 52))); [done|].
  replace 52 with (s + (52 - s)) at 2 by lia. rewrite Z.pow_add_r by lia.
  replace (- (s - 52)) with (52 - s) by lia. rewrite (Z.mul_comm (2 ^ s)).
  rewrite Z.div_mul_cancel_r; [done|..]; apply Z.pow_nonzero; lia.
Qed.

End rounding.

(** The model agrees with the standard library's executable IEEE 754 binary64
    on the sampled estimates, beyond 2^53 too. *)
Definition spec_float_product (raw : Z) : spec_float :=
  SFmul 53 1024 (binary_normalize 53 1024 raw 0 false) (S754_finite false 4953959590107546 (-52)).

Definition same_value (x : spec_float) (f : F64.t) : bool :=
  match x with
  | S754_finite false m e => Z.pos m * 2 ^ (e + 200) =? F64.sig f * 2 ^ (F64.exp f + 200)
  | S754_zero _ => F64.sig f =? 0
  | _ => false
  end.

Example f64_agrees :
  forallb (λ raw, same_value (spec_float_product raw) (F64.mul (F64.of_Z raw) gasOverheadFactor))
    [0; 1; 9; 10; 21000; 123457; 2 ^ 48 - 1; 2 ^ 53 - 1; 2 ^ 53 + 1; 2 ^ 60 + 12345; 2 ^ 64 - 1]
  = true.
Proof. by vm_compute. Qed.

(** ** Properties *)

(** C27 (equivalence).  The [float64] computation is exact integer arithmetic
    where gas lives: for every estimate below 2^48 the buffered gas limit is
    the integer part of 11/10 of the estimate, in particular never below the
    estimate and never out of the uint64 range. *)
Theorem gas_buffer_exact raw :
  0 ≤ raw < 2 ^ 48 →
  EstimateGasWithBuffer (Ok raw) = Ok (Some (11 * raw / 10)) ∧ raw ≤ 11 * raw / 10 < 2 ^ 64.
Proof.
  intros Hr. assert (raw ≤ 11 * raw / 10 < 2 ^ 64) as Hb.
  { split; [apply Z.div_le_lower_bound; lia|apply Z.div_lt_upper_bound; lia]. }
  split; [|done]. unfold EstimateGasWithBuffer. rewrite buffered_eq by done. cbv zeta. f_equal.
  set (p := raw * 4953959590107546). set (s := F64.excess p).
  assert (0 ≤ s ≤ 48) as Hs.
  { destruct (decide (raw = 0)) as [->|]; [done|]. apply (excess_bound p 101); unfold p; lia. }
  pose proof (Z.div_mod (11 * raw) 10 ltac:(lia)). pose proof (Z.mod_pos_bound (11 * raw) 10 ltac:(lia)).
  set (T := 11 * raw / 10) in *. set (u := (11 * raw) `mod` 10) in *.
  clearbody T u.
  assert (0 < 2 ^ s ≤ 2 ^ 48) as [Hp1 Hp2].
  { split; [apply Z.pow_pos_nonneg; lia|apply Z.pow_le_mono_r; lia]. }
  assert (2 ^ 52 = 2 ^ (52 - s) * 2 ^ s) as H52 by (rewrite <- Z.pow_add_r by lia; f_equal; lia).
  pose proof (round_ne_upper p s ltac:(lia)) as Hup.
  assert (T * 2 ^ (52 - s) ≤ F64.round_ne p s) as Hlow.
  { apply round_ne_lower; [lia|]. rewrite <- Z.mul_assoc, <- H52. unfold p. clear -H H0 Hr. lia. }
  assert (F64.round_ne p s * 2 ^ s / 2 ^ 52 = T) as ->.
  { symmetry. apply (Z.div_unique _ _ _ (F64.round_ne p s * 2 ^ s - 2 ^ 52 * T)); [left|lia].
    split.
    - rewrite H52. clear -Hlow Hp1. nia.
    - unfold p in *. set (m := F64.round_ne _ s * 2 ^ s) in *. clearbody m.
      clear -Hup Hp2 H H0 Hr. lia. }
  destruct (Z.ltb_spec T (2 ^ 64)); [done|lia].
Qed.

Lemma gas_buffer_exact_witness :
  EstimateGasWithBuffer (Ok 21000) = Ok (Some 23100).
Proof. apply (gas_buffer_exact 21000). lia. Defined.

(** C37 (error).  The L1 fee query of a client made by the constructor: it
    never panics, its two defensive errors (no result, wrong type) cannot
    occur, every other error is that of the step that failed, and a fee
    is the uint256 the GasPriceOracle at its canonical address returned for the
    packed transaction. *)
Theorem l1_fee_spec `{OracleLaws} cl c raw :
  NewOPStackClient cl = Ok c →
  Client c = cl ∧ oracleAddr c = oracleHexToAddress gasPriceOracleAddr ∧
  ∃ r, EstimateL1DataFee c raw = Ret r ∧
  match r with
  | Err (PackFailed err) => oraclePack (oracleABI c) "getL1Fee" raw = Err err
  | Err (CallFailed err) =>
      ∃ d, oraclePack (oracleABI c) "getL1Fee" raw = Ok d ∧ CallContract cl (oracleAddr c) d = Err err
  | Err (UnpackFailed err) =>
      ∃ d res, oraclePack (oracleABI c) "getL1Fee" raw = Ok d ∧ CallContract cl (oracleAddr c) d = Ok res ∧
        oracleUnpack (oracleABI c) "getL1Fee" res = Err err
  | Err EmptyResult | Err UnexpectedType => False
  | Ok fee =>
      0 ≤ fee < 2 ^ 256 ∧
      ∃ d res, oraclePack (oracleABI c) "getL1Fee" raw = Ok d ∧ CallContract cl (oracleAddr c) d = Ok res ∧
        oracleUnpack (oracleABI c) "getL1Fee" res = Ok [UBig (Some fee)]
  end.
Proof.
  unfold NewOPStackClient. destruct (abi_JSON _) as [parsed|] eqn:Ej; [|done]. intros [= <-].
  split; [done|]. split; [done|]. unfold EstimateL1DataFee. cbn [op_client oracleABI oracleAddr].
  destruct (oraclePack parsed "getL1Fee" raw) as [d|err] eqn:Ed; [|by exists (Err (PackFailed err))].
  destruct (CallContract _ _ d) as [res|err] eqn:Er; [|exists (Err (CallFailed err)); split; [done|by exists d]].
  destruct (oracleUnpack parsed "getL1Fee" res) as [out|err] eqn:Eu;
    [|exists (Err (UnpackFailed err)); split; [done|by exists d, res]].
  destruct (unpack_getL1Fee _ _ _ Ej Eu) as (fee & -> & Hf). exists (Ok fee). split; [done|]. split; [done|]. by exists d, res.
Qed.

(** A node whose oracle charges 16 wei per byte. *)
Module ToyOracle.

Definition lib : OracleLib := {|
  EthClient := unit;
  OracleABI := string;
  abi_JSON := λ s, Ok s;
  oracleHexToAddress := λ _, vreplicate 20 Byte.x42;
  oraclePack := λ _ m data, Ok data;
  CallContract := λ _ _ data, Ok data;
  oracleUnpack := λ _ _ res, Ok [UBig (Some (16 * Z.of_nat (length res) `mod` 2 ^ 60))]
|}.

Lemma oracle_laws : @OracleLaws lib.
Proof.
  split. intros parsed res out _ [= <-]. eexists. split; [done|].
  pose proof (Z.mod_pos_bound (Z.of_nat (length res)) (2 ^ 60)). lia.
Qed.

End ToyOracle.

Lemma l1_fee_spec_witness :
  ∃ r, @EstimateL1DataFee ToyOracle.lib (@mkOPStackClient ToyOracle.lib tt (vreplicate 20 Byte.x42) gasPriceOracleABIJSON)
    [Byte.x01; Byte.x02] = Ret r.
Proof.
  destruct (@l1_fee_spec ToyOracle.lib ToyOracle.oracle_laws tt
    (@mkOPStackClient ToyOracle.lib tt (vreplicate 20 Byte.x42) gasPriceOracleABIJSON) [Byte.x01; Byte.x02] eq_refl)
    as (_ & _ & r & E & _).
  exists r. exact E.
Defined.
