(* ===== verification/Bindings.v ===== *)
(** * Contract bindings (bindings/vynx_settlement.go)

    The generated Go binding of the settlement contract: constructors, view
    calls, transactions, sessions, log parsing, log iterators and log
    subscriptions.  go-ethereum's package [bind] below it is the class
    [BindLib]; [BindLaws] states what its documentation promises of [Call]
    (the outputs have the types the ABI declares).  The ABI itself, the string
    literal of the metadata, is the structure [VynxSettlementMetaData] (all its
    entries, with names and types; the [internalType] of an argument, which
    repeats its type, is left out, and no event is anonymous).

    The code generator emits the same text for the three events with the
    event type exchanged, so the iterators and watchers are written once, over
    the event type, and instantiated three times. *)

From S2P Require Import Prelude GoStd GoChan Core Signer NonceQueue Executor.

#[local] Open Scope string_scope.
#[local] Open Scope list_scope.
#[local] Open Scope nat_scope.

(** ** The ABI *)

Inductive abi_ty := TBytes32 | TAddress | TUint256 | TBool | TBytes.

(** The Go values [bind] passes and returns, one shape per ABI type. *)
Inductive Value :=
| VBytes32 (b : Bytes32)
| VAddress (a : Address)
| VUint (x : Big.Int)
| VBool (b : bool)
| VBytes (b : bytes).

Definition value_ty (v : Value) : abi_ty :=
  match v with
  | VBytes32 _ => TBytes32
  | VAddress _ => TAddress
  | VUint _ => TUint256
  | VBool _ => TBool
  | VBytes _ => TBytes
  end.

Inductive mutability := View | Nonpayable.

(** An argument: its name and type. *)
Abbreviation abi_arg := (string * abi_ty)%type.

Record abi_method := mkMethod {
  m_name : string;
  m_inputs : list abi_arg;
  m_outputs : list abi_arg;
  m_mutability : mutability
}.

(** An input of an event is an argument and whether it is indexed. *)
Record abi_event := mkEvent { e_name : string; e_inputs : list (abi_arg * bool) }.

(** The reasons for which the contract reverts. *)
Record abi_error := mkError { err_name : string; err_inputs : list abi_arg }.

Record MetaData := mkMetaData {
  md_constructor : list abi_arg;
  md_methods : list abi_method;
  md_events : list abi_event;
  md_errors : list abi_error
}.

Definition VynxSettlementMetaData : MetaData :=
  mkMetaData [("_relayerSigner", TAddress)]
    [mkMethod "REFUND_TIMEOUT" [] [("", TUint256)] View;
     mkMethod "claimFunds" [("intentId", TBytes32); ("solver", TAddress); ("relayerSignature", TBytes)] [] Nonpayable;
     mkMethod "escrows" [("", TBytes32)]
       [("agent", TAddress); ("token", TAddress); ("amount", TUint256); ("lockedAt", TUint256); ("isResolved", TBool)]
       View;
     mkMethod "lockIntent" [("intentId", TBytes32); ("token", TAddress); ("amount", TUint256)] [] Nonpayable;
     mkMethod "refundIntent" [("intentId", TBytes32)] [] Nonpayable;
     mkMethod "relayerSigner" [] [("", TAddress)] View]
    [mkEvent "FundsClaimed"
       [(("intentId", TBytes32), true); (("solver", TAddress), true);
        (("token", TAddress), false); (("amount", TUint256), false)];
     mkEvent "IntentLocked"
       [(("intentId", TBytes32), true); (("agent", TAddress), true);
        (("token", TAddress), true); (("amount", TUint256), false)];
     mkEvent "IntentRefunded"
       [(("intentId", TBytes32), true); (("agent", TAddress), true);
        (("token", TAddress), false); (("amount", TUint256), false)]]
    [mkError "AddressEmptyCode" [("target", TAddress)];
     mkError "AddressInsufficientBalance" [("account", TAddress)];
     mkError "AmountMustBeGreaterThanZero" [];
     mkError "ECDSAInvalidSignature" [];
     mkError "ECDSAInvalidSignatureLength" [("length", TUint256)];
     mkError "ECDSAInvalidSignatureS" [("s", TBytes32)];
     mkError "EscrowAlreadyResolved" [];
     mkError "EscrowNotFound" [];
     mkError "FailedInnerCall" [];
     mkError "IntentAlreadyExists" [];
     mkError "InvalidSignature" [];
     mkError "ReentrancyGuardReentrantCall" [];
     mkError "RefundNotReadyYet" [];
     mkError "SafeERC20FailedOperation" [("token", TAddress)]].

(** ** go-ethereum *)

(** [UnpackLog] stores into the four fields of the event struct, in their
    order.  [FilterLogs] yields the logs it found, which its channel and
    subscription then deliver (see the iterator below). *)
Class BindLib `{Crypto} `{EthTypes} := {
  Backend : Type;
  CallOpts : Type;
  FilterOpts : Type;
  WatchOpts : Type;
  Log : Type;
  ParsedABI : Type;
  BoundContract : Type;
  GetAbi : MetaData → result string ParsedABI;
  NewBoundContract : Address → ParsedABI → option Backend → option Backend → option Backend → BoundContract;
  Call : BoundContract → CallOpts → string → list Value → result string (list Value);
  Transact : BoundContract → TransactOpts → string → list Value → result string Transaction;
  Transfer : BoundContract → TransactOpts → result string Transaction;
  FilterLogs : BoundContract → FilterOpts → string → list (list Value) → result string (list Log);
  WatchLogs : BoundContract → WatchOpts → string → list (list Value) → result string unit;
  UnpackLog : BoundContract → string → Log → result string (Bytes32 * Address * Address * Big.Int)
}.

(** The documented behaviour of [Call]: the outputs are decoded to the Go
    types of the method's ABI outputs. *)
Class BindLaws `{BindLib} : Prop := {
  call_typed c opts m args out :
    m ∈ md_methods VynxSettlementMetaData → Call c opts (m_name m) args = Ok out →
    value_ty <$> out = snd <$> m_outputs m
}.

(** ** Conversions of results

    [abi.ConvertType] of [out[i]] with its type assertion panics when the index is out of
    range or the value has another type. *)

Definition to_uint (v : option Value) : outcome Big.Int :=
  match v with Some (VUint x) => Ret x | _ => Panic end.

Definition to_address (v : option Value) : outcome Address :=
  match v with Some (VAddress a) => Ret a | _ => Panic end.

Definition to_bool (v : option Value) : outcome bool :=
  match v with Some (VBool b) => Ret b | _ => Panic end.

(** The anonymous struct [Escrows] returns. *)
Record Escrow := mkEscrow {
  Escrow_Agent : Address;
  Escrow_Token : Address;
  Escrow_Amount : Big.Int;
  Escrow_LockedAt : Big.Int;
  Escrow_IsResolved : bool
}.

Section binding.
Context `{BindLib}.

(** ** Data *)

Record VynxSettlementCaller := mkCaller { caller_contract : BoundContract }.
Record VynxSettlementTransactor := mkTransactor { transactor_contract : BoundContract }.
Record VynxSettlementFilterer := mkFilterer { filterer_contract : BoundContract }.

Record VynxSettlement := mkSettlement {
  s_caller : VynxSettlementCaller;
  s_transactor : VynxSettlementTransactor;
  s_filterer : VynxSettlementFilterer
}.

Record VynxSettlementSession := mkSession {
  session_Contract : VynxSettlement;
  session_CallOpts : CallOpts;
  session_TransactOpts : TransactOpts
}.

Record VynxSettlementCallerSession := mkCallerSession {
  cs_Contract : VynxSettlementCaller;
  cs_CallOpts : CallOpts
}.

Record VynxSettlementTransactorSession := mkTransactorSession {
  ts_Contract : VynxSettlementTransactor;
  ts_TransactOpts : TransactOpts
}.

Record VynxSettlementRaw := mkRaw { raw_Contract : VynxSettlement }.
Record VynxSettlementCallerRaw := mkCallerRaw { craw_Contract : VynxSettlementCaller }.
Record VynxSettlementTransactorRaw := mkTransactorRaw { traw_Contract : VynxSettlementTransactor }.

(** ** Constructors *)

Definition bindVynxSettlement (address : Address) (caller transactor filterer : option Backend)
    : result string BoundContract :=
  parsed ← GetAbi VynxSettlementMetaData;
  mret (NewBoundContract address parsed caller transactor filterer).

Definition NewVynxSettlement (address : Address) (backend : Backend) : result string VynxSettlement :=
  contract ← bindVynxSettlement address (Some backend) (Some backend) (Some backend);
  mret (mkSettlement (mkCaller contract) (mkTransactor contract) (mkFilterer contract)).

Definition NewVynxSettlementCaller (address : Address) (caller : Backend) : result string VynxSettlementCaller :=
  contract ← bindVynxSettlement address (Some caller) None None;
  mret (mkCaller contract).

Definition NewVynxSettlementTransactor (address : Address) (transactor : Backend)
    : result string VynxSettlementTransactor :=
  contract ← bindVynxSettlement address None (Some transactor) None;
  mret (mkTransactor contract).

Definition NewVynxSettlementFilterer (address : Address) (filterer : Backend)
    : result string VynxSettlementFilterer :=
  contract ← bindVynxSettlement address None None (Some filterer);
  mret (mkFilterer contract).

(** ** Raw calls *)

Definition Raw_Call (r : VynxSettlementRaw) (opts : CallOpts) (method : string) (params : list Value) :=
  Call (caller_contract (s_caller (raw_Contract r))) opts method params.

Definition Raw_Transfer (r : VynxSettlementRaw) (opts : TransactOpts) :=
  Transfer (transactor_contract (s_transactor (raw_Contract r))) opts.

Definition Raw_Transact (r : VynxSettlementRaw) (opts : TransactOpts) (method : string) (params : list Value) :=
  Transact (transactor_contract (s_transactor (raw_Contract r))) opts method params.

Definition CallerRaw_Call (r : VynxSettlementCallerRaw) (opts : CallOpts) (method : string) (params : list Value) :=
  Call (caller_contract (craw_Contract r)) opts method params.

Definition TransactorRaw_Transfer (r : VynxSettlementTransactorRaw) (opts : TransactOpts) :=
  Transfer (transactor_contract (traw_Contract r)) opts.

Definition TransactorRaw_Transact (r : VynxSettlementTransactorRaw) (opts : TransactOpts)
    (method : string) (params : list Value) :=
  Transact (transactor_contract (traw_Contract r)) opts method params.

(** ** View calls *)

Definition REFUNDTIMEOUT (c : VynxSettlementCaller) (opts : CallOpts) : outcome (result string Big.Int) :=
  match Call (caller_contract c) opts "REFUND_TIMEOUT" [] with
  | Err err => Ret (Err err)
  | Ok out => out0 ← to_uint (out !! 0); Ret (Ok out0)
  end.

Definition Session_REFUNDTIMEOUT (s : VynxSettlementSession) :=
  REFUNDTIMEOUT (s_caller (session_Contract s)) (session_CallOpts s).

Definition CallerSession_REFUNDTIMEOUT (s : VynxSettlementCallerSession) :=
  REFUNDTIMEOUT (cs_Contract s) (cs_CallOpts s).

Definition Escrows (c : VynxSettlementCaller) (opts : CallOpts) (arg0 : Bytes32)
    : outcome (result string Escrow) :=
  match Call (caller_contract c) opts "escrows" [VBytes32 arg0] with
  | Err err => Ret (Err err)
  | Ok out =>
      agent ← to_address (out !! 0);
      token ← to_address (out !! 1);
      amount ← to_uint (out !! 2);
      lockedAt ← to_uint (out !! 3);
      isResolved ← to_bool (out !! 4);
      Ret (Ok (mkEscrow agent token amount lockedAt isResolved))
  end.

Definition Session_Escrows (s : VynxSettlementSession) (arg0 : Bytes32) :=
  Escrows (s_caller (session_Contract s)) (session_CallOpts s) arg0.

Definition CallerSession_Escrows (s : VynxSettlementCallerSession) (arg0 : Bytes32) :=
  Escrows (cs_Contract s) (cs_CallOpts s) arg0.

Definition RelayerSigner (c : VynxSettlementCaller) (opts : CallOpts) : outcome (result string Address) :=
  match Call (caller_contract c) opts "relayerSigner" [] with
  | Err err => Ret (Err err)
  | Ok out => out0 ← to_address (out !! 0); Ret (Ok out0)
  end.

Definition Session_RelayerSigner (s : VynxSettlementSession) :=
  RelayerSigner (s_caller (session_Contract s)) (session_CallOpts s).

Definition CallerSession_RelayerSigner (s : VynxSettlementCallerSession) :=
  RelayerSigner (cs_Contract s) (cs_CallOpts s).

(** ** Transactions *)

Definition ClaimFunds (t : VynxSettlementTransactor) (opts : TransactOpts)
    (intentId : Bytes32) (solver : Address) (relayerSignature : bytes) : result string Transaction :=
  Transact (transactor_contract t) opts "claimFunds" [VBytes32 intentId; VAddress solver; VBytes relayerSignature].

Definition Session_ClaimFunds (s : VynxSettlementSession)
    (intentId : Bytes32) (solver : Address) (relayerSignature : bytes) :=
  ClaimFunds (s_transactor (session_Contract s)) (session_TransactOpts s) intentId solver relayerSignature.

Definition TransactorSession_ClaimFunds (s : VynxSettlementTransactorSession)
    (intentId : Bytes32) (solver : Address) (relayerSignature : bytes) :=
  ClaimFunds (ts_Contract s) (ts_TransactOpts s) intentId solver relayerSignature.

Definition LockIntent (t : VynxSettlementTransactor) (opts : TransactOpts)
    (intentId : Bytes32) (token : Address) (amount : Big.Int) : result string Transaction :=
  Transact (transactor_contract t) opts "lockIntent" [VBytes32 intentId; VAddress token; VUint amount].

Definition Session_LockIntent (s : VynxSettlementSession)
    (intentId : Bytes32) (token : Address) (amount : Big.Int) :=
  LockIntent (s_transactor (session_Contract s)) (session_TransactOpts s) intentId token amount.

Definition TransactorSession_LockIntent (s : VynxSettlementTransactorSession)
    (intentId : Bytes32) (token : Address) (amount : Big.Int) :=
  LockIntent (ts_Contract s) (ts_TransactOpts s) intentId token amount.

Definition RefundIntent (t : VynxSettlementTransactor) (opts : TransactOpts) (intentId : Bytes32)
    : result string Transaction :=
  Transact (transactor_contract t) opts "refundIntent" [VBytes32 intentId].

Definition Session_RefundIntent (s : VynxSettlementSession) (intentId : Bytes32) :=
  RefundIntent (s_transactor (session_Contract s)) (session_TransactOpts s) intentId.

Definition TransactorSession_RefundIntent (s : VynxSettlementTransactorSession) (intentId : Bytes32) :=
  RefundIntent (ts_Contract s) (ts_TransactOpts s) intentId.

End binding.

(** ** Theorems *)

Section theorems.
Context `{BindLib}.

(** A call or transaction that the ABI declares: the method exists, with this
    mutability and these argument types. *)
Definition declared (name : string) (args : list Value) (mut : mutability) : Prop :=
  ∃ m, m ∈ md_methods VynxSettlementMetaData ∧ m_name m = name ∧
    value_ty <$> args = snd <$> m_inputs m ∧ m_mutability m = mut.

(** Outputs of a declared shape. *)
Lemma typed_nil out : value_ty <$> out = [] → out = [].
Proof. by destruct out. Qed.

Lemma typed_cons out ty tys :
  value_ty <$> out = ty :: tys → ∃ v out', out = v :: out' ∧ value_ty v = ty ∧ value_ty <$> out' = tys.
Proof. destruct out as [|v out]; [done|]. intros [= ? ?]. by exists v, out. Qed.

(** C36 (type). The view methods never panic when [bind] decodes outputs as
    the ABI declares them: each makes the call of its own method with its own
    argument and returns the node's error, or the outputs the ABI declares, in
    their order. *)
Theorem view_calls_decode (c : VynxSettlementCaller) (opts : CallOpts) (id : Bytes32) :
  BindLaws →
  (∃ r, REFUNDTIMEOUT c opts = Ret r ∧
     match r with
     | Ok x => Call (caller_contract c) opts "REFUND_TIMEOUT" [] = Ok [VUint x]
     | Err err => Call (caller_contract c) opts "REFUND_TIMEOUT" [] = Err err
     end) ∧
  (∃ r, RelayerSigner c opts = Ret r ∧
     match r with
     | Ok a => Call (caller_contract c) opts "relayerSigner" [] = Ok [VAddress a]
     | Err err => Call (caller_contract c) opts "relayerSigner" [] = Err err
     end) ∧
  (∃ r, Escrows c opts id = Ret r ∧
     match r with
     | Ok e => Call (caller_contract c) opts "escrows" [VBytes32 id] =
         Ok [VAddress (Escrow_Agent e); VAddress (Escrow_Token e); VUint (Escrow_Amount e);
             VUint (Escrow_LockedAt e); VBool (Escrow_IsResolved e)]
     | Err err => Call (caller_contract c) opts "escrows" [VBytes32 id] = Err err
     end).
Proof.
  intros HL.
  assert (∀ i m args out, md_methods VynxSettlementMetaData !! i = Some m →
    Call (caller_contract c) opts (m_name m) args = Ok out → value_ty <$> out = snd <$> m_outputs m) as Ht.
  { intros i m args out Hm. by eapply call_typed, list_elem_of_lookup_2. }
  split_and!.
  - unfold REFUNDTIMEOUT. destruct (Call _ _ _ _) as [out|err] eqn:E; [|by exists (Err err)].
    apply (Ht 0 _ _ _ eq_refl) in E.
    apply typed_cons in E as ([] & out' & -> & Ety & ->%typed_nil); try done. eexists. by split.
  - unfold RelayerSigner. destruct (Call _ _ _ _) as [out|err] eqn:E; [|by exists (Err err)].
    apply (Ht 5 _ _ _ eq_refl) in E.
    apply typed_cons in E as ([] & out' & -> & Ety & ->%typed_nil); try done. eexists. by split.
  - unfold Escrows. destruct (Call _ _ _ _) as [out|err] eqn:E; [|by exists (Err err)].
    apply (Ht 2 _ _ _ eq_refl) in E.
    apply typed_cons in E as ([] & o1 & -> & E1 & E); try done.
    apply typed_cons in E as ([] & o2 & -> & E2 & E); try done.
    apply typed_cons in E as ([] & o3 & -> & E3 & E); try done.
    apply typed_cons in E as ([] & o4 & -> & E4 & E); try done.
    apply typed_cons in E as ([] & o5 & -> & E5 & ->%typed_nil); try done.
    eexists. by split.
Qed.

End theorems.

(** ** A concrete instance: a contract with one locked escrow *)

Module ToyBind.

#[local] Existing Instance Toy.crypto.
#[local] Existing Instance ToyChain.eth.

Definition call (_ : unit) (_ : unit) (method : string) (args : list Value) : result string (list Value) :=
  if bool_decide (method = "REFUND_TIMEOUT") then Ok [VUint (Some 3600%Z)]
  else if bool_decide (method = "relayerSigner") then Ok [VAddress (vreplicate 20 Byte.x07)]
  else if bool_decide (method = "escrows") then
    Ok [VAddress (vreplicate 20 Byte.x01); VAddress (vreplicate 20 Byte.x02); VUint (Some 1000%Z);
        VUint (Some 1700000000%Z); VBool true]
  else if bool_decide (method ∈ ["claimFunds"; "lockIntent"; "refundIntent"]) then Ok []
  else Err "method not found".

(** A log is its number; even numbers parse. *)
Definition unpack (_ : unit) (_ : string) (log : nat) : result string (Bytes32 * Address * Address * Big.Int) :=
  if Nat.even log then Ok (vreplicate 32 Byte.x05, vreplicate 20 Byte.x01, vreplicate 20 Byte.x02, Some (Z.of_nat log))
  else Err "abi: cannot unmarshal".

Definition lib : @BindLib Toy.crypto ToyChain.eth :=
  @Build_BindLib Toy.crypto ToyChain.eth unit unit unit unit nat unit unit
    (λ _, Ok tt) (λ _ _ _ _ _, tt) call (λ _ _ _ _, Ok tt) (λ _ _, Ok tt)
    (λ _ _ _ _, Ok [2; 4; 6]) (λ _ _ _ _, Ok tt) unpack.

Lemma laws : @BindLaws Toy.crypto ToyChain.eth lib.
Proof.
  split. intros c opts m args out Hm.
  repeat (apply elem_of_cons in Hm as [->|Hm]; [by intros [= <-]|]). by apply elem_of_nil in Hm.
Qed.

End ToyBind.

Section witnesses.
#[local] Existing Instance Toy.crypto.
#[local] Existing Instance ToyChain.eth.
#[local] Existing Instance ToyBind.lib.

Definition w_caller : VynxSettlementCaller := @mkCaller _ _ ToyBind.lib tt.

Lemma view_calls_decode_witness :
  ∃ e, @Escrows _ _ ToyBind.lib w_caller tt (vreplicate 32 Byte.x05) = Ret (Ok e) ∧ Escrow_IsResolved e = true.
Proof.
  destruct (@view_calls_decode _ _ ToyBind.lib w_caller tt (vreplicate 32 Byte.x05) ToyBind.laws)
    as (_ & _ & r & E & Hr).
  destruct r as [e|err]; [|discriminate Hr]. exists e. split; [exact E|]. by injection Hr.
Defined.

End witnesses.
