(* ===== verification/Events.v ===== *)
(** * Contract events (bindings/vynx_settlement.go)

    The three event structs, the operations that parse, filter and watch their
    logs, the iterator [Next] returned by the Filter operations and the
    goroutine started by the Watch operations.

    go-ethereum delivers the logs: behind an iterator is a producer that
    enqueues the logs it found, in order, and then completes the subscription,
    or fails it at any moment; behind a watcher are logs arriving one by one.
    Both are modelled by what they may do, with a channel of any capacity.
    [Sub] is the state of [sub.Err()]: nothing yet, or an error, nil when the
    subscription is complete or was unsubscribed.  go-ethereum never closes
    the channel of logs; on a closed and empty one, which does not occur, the
    model finds nothing to receive where Go would receive a zero log. *)

From S2P Require Import Prelude GoStd GoChan Core Signer NonceQueue Executor Bindings.

#[local] Open Scope string_scope.
#[local] Open Scope list_scope.
#[local] Open Scope nat_scope.

(** ** The subscription a channel of logs comes with *)

Inductive Sub :=
| Active
| Ended (err : option string).

(** ** Iterators *)

Section iterator.
Context {L E : Type}.
(** [UnpackLog] into a fresh event and [Raw = log]; [fresh_event] is [new(E)]. *)
Context (unpack : L → result string E) (fresh_event : E).

Record Iterator := mkIterator {
  it_Event : option E;
  it_logs : chan L;
  it_sub : Sub;
  it_done : bool;
  it_fail : option string
}.

Inductive next_result :=
| NReturn (b : bool) (it : Iterator)
| NBlocked
| NOutOfFuel.

(** The branch [case log := <-it.logs].  After an error the event counts as
    fresh. *)
Definition deliver (it : Iterator) (log : L) (ch : chan L) : next_result :=
  match unpack log with
  | Err err => NReturn false (mkIterator (Some fresh_event) ch (it_sub it) (it_done it) (Some err))
  | Ok ev => NReturn true (mkIterator (Some ev) ch (it_sub it) (it_done it) (it_fail it))
  end.

(** [Next].  [pick] says whether the [select] takes [sub.Err()] when a log is
    ready too.  The recursive call of the error branch uses the fuel; two
    calls are enough ([Next_enough_fuel]). *)
Fixpoint Next_fuel (fuel : nat) (pick : bool) (it : Iterator) : next_result :=
  match fuel with
  | 0 => NOutOfFuel
  | S fuel =>
      match it_fail it with
      | Some _ => NReturn false it
      | None =>
          if it_done it then
            match recv (it_logs it) with
            | Got log ch => deliver it log ch
            | _ => NReturn false it
            end
          else
            let on_err err :=
              Next_fuel fuel pick (mkIterator (it_Event it) (it_logs it) (it_sub it) true err) in
            match recv (it_logs it), it_sub it with
            | Got log ch, Active => deliver it log ch
            | Got log ch, Ended err => if pick then on_err err else deliver it log ch
            | _, Ended err => on_err err
            | _, Active => NBlocked
            end
      end
  end.

Definition Next (pick : bool) (it : Iterator) : next_result := Next_fuel 2 pick it.

Definition Error (it : Iterator) : option string := it_fail it.

(** [Close]: [sub.Unsubscribe()]. *)
Definition Close (it : Iterator) : Iterator :=
  mkIterator (it_Event it) (it_logs it)
    (match it_sub it with Active => Ended None | s => s end) (it_done it) (it_fail it).

(** *** The iterator with its producer

    [found] are the logs still to be enqueued; [closed_by_user] and [events]
    (what successful calls of [Next] left in [Event]) are history. *)
Record stream := mkStream {
  st_iter : Iterator;
  found : list L;
  closed_by_user : bool;
  events : list E
}.

Definition new_stream (n : nat) (logs : list L) : stream :=
  mkStream (mkIterator None (make n) Active false None) logs false [].

Inductive stream_event :=
| SPush                        (* the producer enqueues a log *)
| SComplete                    (* everything is enqueued *)
| SFail (err : string)
| SClose
| SNext (pick : bool).

Definition with_sub (s : stream) (sb : Sub) : stream :=
  let it := st_iter s in
  mkStream (mkIterator (it_Event it) (it_logs it) sb (it_done it) (it_fail it))
    (found s) (closed_by_user s) (events s).

Definition stream_step (ev : stream_event) (s : stream) : option stream :=
  let it := st_iter s in
  match ev with
  | SPush =>
      match it_sub it, found s with
      | Active, log :: rest =>
          match try_send (it_logs it) log with
          | Sent ch => Some (mkStream (mkIterator (it_Event it) ch (it_sub it) (it_done it) (it_fail it))
                               rest (closed_by_user s) (events s))
          | _ => None
          end
      | _, _ => None
      end
  | SComplete =>
      match it_sub it, found s with
      | Active, [] => Some (with_sub s (Ended None))
      | _, _ => None
      end
  | SFail err => match it_sub it with Active => Some (with_sub s (Ended (Some err))) | _ => None end
  | SClose => Some (mkStream (Close it) (found s) true (events s))
  | SNext pick =>
      match Next pick it with
      | NReturn b it' =>
          Some (mkStream it' (found s) (closed_by_user s)
                  (if b then events s ++ option_list (it_Event it') else events s))
      | _ => None
      end
  end.

Inductive stream_reachable (n : nat) (logs : list L) : stream → Prop :=
| stream_init : stream_reachable n logs (new_stream n logs)
| stream_next s ev s' :
    stream_reachable n logs s → stream_step ev s = Some s' → stream_reachable n logs s'.

(** The loop [for it.Next() { use(it.Event) }] with at most [k] calls: the
    events it used, the final iterator, and whether the loop ended. *)
Fixpoint drain (k : nat) (pick : bool) (it : Iterator) : list E * Iterator * bool :=
  match k with
  | 0 => ([], it, false)
  | S k =>
      match Next pick it with
      | NReturn true it' =>
          let '(evs, it'', ended) := drain k pick it' in (option_list (it_Event it') ++ evs, it'', ended)
      | NReturn false it' => ([], it', true)
      | _ => ([], it, false)
      end
  end.

(** *** Watchers: the goroutine of [event.NewSubscription] *)

Inductive watch_pc :=
| WLoop                        (* outer select *)
| WSend (ev : E)               (* inner select *)
| WReturned (err : option string).

(** [w_taken] (logs received) and [w_sent] (events the sink received) are
    history. *)
Record watcher := mkWatcher {
  w_logs : chan L;
  w_sub : Sub;
  w_quit : bool;
  w_pc : watch_pc;
  w_unsubscribed : bool;
  w_taken : list L;
  w_sent : list E
}.

Definition new_watcher (n : nat) : watcher := mkWatcher (make n) Active false WLoop false [] [].

Inductive watch_event :=
| WArrive (log : L)            (* go-ethereum delivers a log *)
| WFail (err : option string)
| WQuit                        (* the user unsubscribes *)
| WTakeLog                     (* case log := <-logs *)
| WTakeErr                     (* case err := <-sub.Err() in either select *)
| WTakeQuit                    (* case <-quit in either select *)
| WSink.                       (* case sink <- event *)

(** Returning runs the deferred [sub.Unsubscribe()]. *)
Definition watch_return (w : watcher) (err : option string) : watcher :=
  mkWatcher (w_logs w) (w_sub w) (w_quit w) (WReturned err) true (w_taken w) (w_sent w).

Definition watch_step (ev : watch_event) (w : watcher) : option watcher :=
  match ev with
  | WArrive log =>
      match w_sub w, try_send (w_logs w) log with
      | Active, Sent ch =>
          Some (mkWatcher ch (w_sub w) (w_quit w) (w_pc w) (w_unsubscribed w) (w_taken w) (w_sent w))
      | _, _ => None
      end
  | WFail err =>
      match w_sub w with
      | Active =>
          Some (mkWatcher (w_logs w) (Ended err) (w_quit w) (w_pc w) (w_unsubscribed w) (w_taken w) (w_sent w))
      | _ => None
      end
  | WQuit => Some (mkWatcher (w_logs w) (w_sub w) true (w_pc w) (w_unsubscribed w) (w_taken w) (w_sent w))
  | WTakeLog =>
      match w_pc w, recv (w_logs w) with
      | WLoop, Got log ch =>
          let w' := mkWatcher ch (w_sub w) (w_quit w) (w_pc w) (w_unsubscribed w) (w_taken w ++ [log]) (w_sent w) in
          match unpack log with
          | Err err => Some (watch_return w' (Some err))
          | Ok e =>
              Some (mkWatcher ch (w_sub w) (w_quit w) (WSend e) (w_unsubscribed w) (w_taken w ++ [log]) (w_sent w))
          end
      | _, _ => None
      end
  | WTakeErr =>
      match w_pc w, w_sub w with
      | WReturned _, _ => None
      | _, Ended err => Some (watch_return w err)
      | _, Active => None
      end
  | WTakeQuit =>
      match w_pc w with
      | WReturned _ => None
      | _ => if w_quit w then Some (watch_return w None) else None
      end
  | WSink =>
      match w_pc w with
      | WSend e =>
          Some (mkWatcher (w_logs w) (w_sub w) (w_quit w) WLoop (w_unsubscribed w) (w_taken w) (w_sent w ++ [e]))
      | _ => None
      end
  end.

Inductive watch_reachable (n : nat) : watcher → Prop :=
| watch_init : watch_reachable n (new_watcher n)
| watch_next w ev w' : watch_reachable n w → watch_step ev w = Some w' → watch_reachable n w'.

End iterator.

Arguments Iterator : clear implicits.
Arguments next_result : clear implicits.
Arguments stream : clear implicits.
Arguments watcher : clear implicits.
Arguments stream_event : clear implicits.

(** ** The three events *)

Section events.
Context `{BindLib}.

Record VynxSettlementFundsClaimed := mkFundsClaimed {
  fc_IntentId : Bytes32;
  fc_Solver : Address;
  fc_Token : Address;
  fc_Amount : Big.Int;
  fc_Raw : option Log
}.

Record VynxSettlementIntentLocked := mkIntentLocked {
  il_IntentId : Bytes32;
  il_Agent : Address;
  il_Token : Address;
  il_Amount : Big.Int;
  il_Raw : option Log
}.

Record VynxSettlementIntentRefunded := mkIntentRefunded {
  ir_IntentId : Bytes32;
  ir_Agent : Address;
  ir_Token : Address;
  ir_Amount : Big.Int;
  ir_Raw : option Log
}.

Definition zeroBytes32 : Bytes32 := vreplicate 32 Byte.x00.

(** [new(VynxSettlementX)] *)
Definition newFundsClaimed := mkFundsClaimed zeroBytes32 zeroAddress zeroAddress None None.
Definition newIntentLocked := mkIntentLocked zeroBytes32 zeroAddress zeroAddress None None.
Definition newIntentRefunded := mkIntentRefunded zeroBytes32 zeroAddress zeroAddress None None.

(** *** Parsing one log *)

Definition ParseFundsClaimed (f : VynxSettlementFilterer) (log : Log) : result string VynxSettlementFundsClaimed :=
  match UnpackLog (filterer_contract f) "FundsClaimed" log with
  | Err err => Err err
  | Ok (id, solver, token, amount) => Ok (mkFundsClaimed id solver token amount (Some log))
  end.

Definition ParseIntentLocked (f : VynxSettlementFilterer) (log : Log) : result string VynxSettlementIntentLocked :=
  match UnpackLog (filterer_contract f) "IntentLocked" log with
  | Err err => Err err
  | Ok (id, agent, token, amount) => Ok (mkIntentLocked id agent token amount (Some log))
  end.

Definition ParseIntentRefunded (f : VynxSettlementFilterer) (log : Log)
    : result string VynxSettlementIntentRefunded :=
  match UnpackLog (filterer_contract f) "IntentRefunded" log with
  | Err err => Err err
  | Ok (id, agent, token, amount) => Ok (mkIntentRefunded id agent token amount (Some log))
  end.

(** *** Topic rules *)

(** [for _, item := range items { rule = append(rule, item) }] *)
Fixpoint rule {A} (inject : A → Value) (acc : list Value) (items : list A) : list Value :=
  match items with
  | [] => acc
  | item :: items => rule inject (acc ++ [inject item]) items
  end.

Definition bytes32Rule := rule VBytes32 [].
Definition addressRule := rule VAddress [].

(** *** Filtering past logs *)

(** The iterator each Filter operation returns, with what [FilterLogs] found
    still to be delivered. *)
Definition FilterFundsClaimed (f : VynxSettlementFilterer) (opts : FilterOpts) (bufsize : nat)
    (intentId : list Bytes32) (solver : list Address)
    : result string (stream Log VynxSettlementFundsClaimed) :=
  match FilterLogs (filterer_contract f) opts "FundsClaimed" [bytes32Rule intentId; addressRule solver] with
  | Err err => Err err
  | Ok logs => Ok (new_stream bufsize logs)
  end.

Definition FilterIntentLocked (f : VynxSettlementFilterer) (opts : FilterOpts) (bufsize : nat)
    (intentId : list Bytes32) (agent token : list Address)
    : result string (stream Log VynxSettlementIntentLocked) :=
  match FilterLogs (filterer_contract f) opts "IntentLocked"
          [bytes32Rule intentId; addressRule agent; addressRule token] with
  | Err err => Err err
  | Ok logs => Ok (new_stream bufsize logs)
  end.

Definition FilterIntentRefunded (f : VynxSettlementFilterer) (opts : FilterOpts) (bufsize : nat)
    (intentId : list Bytes32) (agent : list Address)
    : result string (stream Log VynxSettlementIntentRefunded) :=
  match FilterLogs (filterer_contract f) opts "IntentRefunded" [bytes32Rule intentId; addressRule agent] with
  | Err err => Err err
  | Ok logs => Ok (new_stream bufsize logs)
  end.

Definition VynxSettlementFundsClaimedIterator := Iterator Log VynxSettlementFundsClaimed.
Definition VynxSettlementIntentLockedIterator := Iterator Log VynxSettlementIntentLocked.
Definition VynxSettlementIntentRefundedIterator := Iterator Log VynxSettlementIntentRefunded.

Definition FundsClaimed_Next (f : VynxSettlementFilterer) := Next (ParseFundsClaimed f) newFundsClaimed.
Definition IntentLocked_Next (f : VynxSettlementFilterer) := Next (ParseIntentLocked f) newIntentLocked.
Definition IntentRefunded_Next (f : VynxSettlementFilterer) := Next (ParseIntentRefunded f) newIntentRefunded.

Definition FundsClaimed_Error (it : VynxSettlementFundsClaimedIterator) := Error it.
Definition IntentLocked_Error (it : VynxSettlementIntentLockedIterator) := Error it.
Definition IntentRefunded_Error (it : VynxSettlementIntentRefundedIterator) := Error it.

Definition FundsClaimed_Close (it : VynxSettlementFundsClaimedIterator) := Close it.
Definition IntentLocked_Close (it : VynxSettlementIntentLockedIterator) := Close it.
Definition IntentRefunded_Close (it : VynxSettlementIntentRefundedIterator) := Close it.

(** *** Watching new logs *)

Definition WatchFundsClaimed (f : VynxSettlementFilterer) (opts : WatchOpts) (bufsize : nat)
    (intentId : list Bytes32) (solver : list Address)
    : result string (watcher Log VynxSettlementFundsClaimed) :=
  match WatchLogs (filterer_contract f) opts "FundsClaimed" [bytes32Rule intentId; addressRule solver] with
  | Err err => Err err
  | Ok _ => Ok (new_watcher bufsize)
  end.

Definition WatchIntentLocked (f : VynxSettlementFilterer) (opts : WatchOpts) (bufsize : nat)
    (intentId : list Bytes32) (agent token : list Address)
    : result string (watcher Log VynxSettlementIntentLocked) :=
  match WatchLogs (filterer_contract f) opts "IntentLocked"
          [bytes32Rule intentId; addressRule agent; addressRule token] with
  | Err err => Err err
  | Ok _ => Ok (new_watcher bufsize)
  end.

Definition WatchIntentRefunded (f : VynxSettlementFilterer) (opts : WatchOpts) (bufsize : nat)
    (intentId : list Bytes32) (agent : list Address)
    : result string (watcher Log VynxSettlementIntentRefunded) :=
  match WatchLogs (filterer_contract f) opts "IntentRefunded" [bytes32Rule intentId; addressRule agent] with
  | Err err => Err err
  | Ok _ => Ok (new_watcher bufsize)
  end.

Definition FundsClaimed_watch (f : VynxSettlementFilterer) := watch_step (ParseFundsClaimed f).
Definition IntentLocked_watch (f : VynxSettlementFilterer) := watch_step (ParseIntentLocked f).
Definition IntentRefunded_watch (f : VynxSettlementFilterer) := watch_step (ParseIntentRefunded f).

End events.

(** ** Lemmas: the iterator *)

Section iterator_lemmas.
Context {L E : Type} (unpack : L → result string E) (fresh_event : E).
Implicit Types (it : Iterator L E) (s : stream L E) (logs : list L).
Abbreviation dlv := (deliver unpack fresh_event).
Abbreviation nxt := (Next unpack fresh_event).

(** The event a log carries. *)
Definition carries (log : L) (ev : E) : Prop := unpack log = Ok ev.

(** A completed iterator takes what is available without waiting. *)
Definition take_ready (it : Iterator L E) : next_result L E :=
  match recv (it_logs it) with
  | Got log ch => dlv it log ch
  | _ => NReturn false it
  end.

(** What the error branch leads to. *)
Definition after_err (it : Iterator L E) (err : option string) : next_result L E :=
  let it' := mkIterator (it_Event it) (it_logs it) (it_sub it) true err in
  match err with
  | Some _ => NReturn false it'
  | None => take_ready it'
  end.

(** [Next] without recursion, for any fuel of at least two. *)
Lemma Next_fuel_eq fuel pick it :
  Next_fuel unpack fresh_event (S (S fuel)) pick it =
    match it_fail it with
    | Some _ => NReturn false it
    | None =>
        if it_done it then take_ready it
        else
          match recv (it_logs it), it_sub it with
          | Got log ch, Active => dlv it log ch
          | Got log ch, Ended err => if pick then after_err it err else dlv it log ch
          | _, Ended err => after_err it err
          | _, Active => NBlocked
          end
    end.
Proof.
  cbn [Next_fuel]. destruct (it_fail it); [done|]. destruct (it_done it); [done|].
  unfold after_err, take_ready.
  by destruct (recv (it_logs it)), (it_sub it) as [|[err|]].
Qed.

Lemma recv_not_Got {A} (c : chan A) : (∀ x c', recv c ≠ Got x c') ↔ buf c = [].
Proof.
  unfold recv. destruct (buf c) as [|x r].
  - split; [done|]. intros _ x c'. by destruct (closed c).
  - split; [|done]. intros Hn. by destruct (Hn x (mkChan (cap c) r (closed c))).
Qed.

(** What a returning call of [Next] did: nothing, record an error, take a log
    that does not parse, or take a log and publish its event. *)
Inductive next_effect it : bool → Iterator L E → Prop :=
| ne_idle it' :
    it_logs it' = it_logs it → it_sub it' = it_sub it →
    (it_fail it = None → it_fail it' = None →
      it_done it' = true ∧ buf (it_logs it) = [] ∧ (it_done it = true ∨ it_sub it = Ended None)) →
    (it_fail it ≠ None → it' = it) →
    (it_done it' = true → it_done it = true ∨ it_sub it ≠ Active) →
    (it_done it' = true → it_fail it' = None → (it_done it = true ∧ it_fail it = None) ∨ it_sub it = Ended None) →
    next_effect it false it'
| ne_bad it' log r err :
    it_fail it = None → buf (it_logs it) = log :: r → unpack log = Err err →
    it_logs it' = mkChan (cap (it_logs it)) r (closed (it_logs it)) → it_sub it' = it_sub it →
    it_fail it' = Some err → (it_done it' = true → it_done it = true ∨ it_sub it ≠ Active) →
    next_effect it false it'
| ne_event it' log r ev :
    it_fail it = None → buf (it_logs it) = log :: r → carries log ev →
    it_logs it' = mkChan (cap (it_logs it)) r (closed (it_logs it)) → it_sub it' = it_sub it →
    it_fail it' = None → it_Event it' = Some ev →
    (it_done it' = true → it_done it = true ∨ it_sub it = Ended None) →
    next_effect it true it'.

Lemma deliver_effect it it0 log ch b it' :
  it_fail it0 = None → it_logs it0 = it_logs it → it_sub it0 = it_sub it → it_fail it = None →
  (it_done it0 = true → it_done it = true ∨ it_sub it = Ended None) →
  recv (it_logs it) = Got log ch → dlv it0 log ch = NReturn b it' → next_effect it b it'.
Proof.
  intros Hf0 Hl Hs Hf Hd (r & Eb & ->)%recv_Got. unfold Events.deliver.
  destruct (unpack log) as [ev|err] eqn:Eu; intros [= <- <-].
  - eapply ne_event; simpl; eauto.
  - eapply ne_bad; simpl; eauto. intros [?|E']%Hd; [by left|]. right. by rewrite E'.
Qed.

Lemma Next_effect pick it b it' : nxt pick it = NReturn b it' → next_effect it b it'.
Proof.
  unfold Events.Next. rewrite Next_fuel_eq. destruct (it_fail it) as [e|] eqn:Ef.
  { intros [= <- <-]. apply ne_idle; try done; [congruence|tauto|].
    intros _ Hn. congruence. }
  assert (∀ it0, it_fail it0 = None → it_logs it0 = it_logs it → it_sub it0 = it_sub it → it_done it0 = true →
    (it_done it = true ∨ it_sub it = Ended None) → take_ready it0 = NReturn b it' → next_effect it b it') as Htake.
  { intros it0 Hf0 Hl Hs Hd0 Hd. unfold take_ready. rewrite Hl.
    destruct (recv (it_logs it)) as [log ch| |] eqn:Er; [by eapply deliver_effect|..];
      (intros [= <- <-]; apply ne_idle; try done;
        [intros _ _; split_and!; try done; by apply recv_not_Got; rewrite Er
        |intros _; destruct Hd as [?|Hd]; [by left|right; by rewrite Hd]
        |intros _ _; destruct Hd; [left; done|by right]]). }
  assert (∀ err, it_sub it = Ended err → after_err it err = NReturn b it' → next_effect it b it') as Herr.
  { intros [e|] Hs; [|apply Htake; simpl; auto]. intros [= <- <-].
    apply ne_idle; try done; simpl; intros; right; congruence. }
  destruct (it_done it) eqn:Ed; [apply Htake; auto|].
  destruct (recv (it_logs it)) as [log ch| |] eqn:Er, (it_sub it) as [|err] eqn:Es; try done; eauto.
  - eapply deliver_effect; eauto.
  - destruct pick; [eauto|]. eapply deliver_effect; eauto.
Qed.

(** *** The invariant of an iterator and its producer *)

Record stream_inv logs s : Prop := {
  si_open : closed (it_logs (st_iter s)) = false;
  si_split : ∃ taken, logs = taken ++ buf (it_logs (st_iter s)) ++ found s ∧
    (it_fail (st_iter s) = None → Forall2 carries taken (events s));
  si_prefix : Forall2 carries (take (length (events s)) logs) (events s);
  si_done : it_done (st_iter s) = true → it_sub (st_iter s) ≠ Active;
  si_nil : it_done (st_iter s) = true → it_fail (st_iter s) = None → it_sub (st_iter s) = Ended None;
  si_complete : it_sub (st_iter s) = Ended None → closed_by_user s = false → found s = []
}.

Lemma Forall2_take_length {A B} (P : A → B → Prop) l k l' :
  Forall2 P l k → take (length k) (l ++ l') = l.
Proof. intros Hl. rewrite <- (Forall2_length _ _ _ Hl). by rewrite take_app_length. Qed.

Lemma stream_inv_init n logs : stream_inv logs (new_stream n logs).
Proof. split; simpl; try done. exists []. by split. Qed.

Lemma stream_inv_next logs s b it' pick :
  stream_inv logs s → nxt pick (st_iter s) = NReturn b it' →
  stream_inv logs (mkStream it' (found s) (closed_by_user s)
                    (if b then events s ++ option_list (it_Event it') else events s)).
Proof.
  intros [Ho (taken & Hl & Hev) Hp Hd Hn Hc] Hx%Next_effect.
  destruct Hx as [it' H1 H2 H3 H4 H5 H6|it' log r err H1 H2 H3 H4 H5 H6 H7|it' log r ev H1 H2 H3 H4 H5 H6 H7 H8].
  - split; simpl; rewrite ?H1, ?H2; try done.
    + exists taken. split; [done|]. intros Hf. apply Hev.
      destruct (it_fail (st_iter s)) eqn:Ef; [|done]. rewrite H4 in Hf by done. congruence.
    + intros [?|?]%H5; auto.
    + intros Hd' Hf. destruct (H6 Hd' Hf) as [[? ?]|?]; auto.
  - split; simpl; rewrite ?H4, ?H5; try done.
    + exists (taken ++ [log]). rewrite Hl, H2, <- (assoc_L (++)). split; [done|]. congruence.
    + intros [?|?]%H7; auto.
    + intros _ Hf. congruence.
  - assert (Forall2 carries (taken ++ [log]) (events s ++ [ev])) as Hev'
      by (apply Forall2_app; [by apply Hev|by repeat constructor]).
    split; simpl; rewrite ?H4, ?H5, ?H7; simpl; try done.
    + exists (taken ++ [log]). rewrite Hl, H2, <- (assoc_L (++)). done.
    + rewrite Hl, H2. replace (taken ++ (log :: r) ++ found s) with ((taken ++ [log]) ++ r ++ found s)
        by (rewrite <- (assoc_L (++)); done).
      by erewrite Forall2_take_length.
    + intros [?|Hs]%H8; [auto|by rewrite Hs].
    + intros [?|?]%H8 _; auto.
Qed.

Lemma stream_inv_step logs s ev s' :
  stream_inv logs s → stream_step unpack fresh_event ev s = Some s' → stream_inv logs s'.
Proof.
  intros Hi Hs. pose proof Hi as [Ho (taken & Hl & Hev) Hp Hd Hn Hc]. destruct ev; simpl in Hs.
  - destruct (it_sub (st_iter s)) eqn:Es; [|done]. destruct (found s) as [|log rest] eqn:Ef; [done|].
    destruct (try_send _ log) as [ch| |] eqn:Et; [|done|done]. injection Hs as <-.
    apply try_send_Sent in Et as (_ & _ & ->). split; simpl; rewrite ?Es; try done.
    + exists taken. rewrite Hl. by rewrite <- !(assoc_L (++)).
  - destruct (it_sub (st_iter s)) eqn:Es; [|done]. destruct (found s) eqn:Ef; [|done]. injection Hs as <-.
    split; simpl; rewrite ?Ef; try done. by exists taken.
  - destruct (it_sub (st_iter s)) eqn:Es; [|done]. injection Hs as <-. split; simpl; try done; [by exists taken|].
    intros Hdn Hfl. specialize (Hn Hdn Hfl). congruence.
  - injection Hs as <-. split; simpl; try done; [by exists taken|..].
    + intros _. by destruct (it_sub (st_iter s)).
    + intros Hdn Hfl. by rewrite (Hn Hdn Hfl).
  - destruct (nxt pick (st_iter s)) as [b it'| |] eqn:En; [|done|done]. injection Hs as <-.
    by eapply stream_inv_next.
Qed.

Lemma stream_reachable_inv n logs s :
  stream_reachable unpack fresh_event n logs s → stream_inv logs s.
Proof. induction 1; [apply stream_inv_init|by eapply stream_inv_step]. Qed.

(** An iteration that ends without an error has delivered everything. *)
Lemma stream_inv_end logs s pick it' :
  stream_inv logs s → nxt pick (st_iter s) = NReturn false it' → it_fail it' = None →
  closed_by_user s = false → Forall2 carries logs (events s).
Proof.
  intros [Ho (taken & Hl & Hev) Hp Hd Hn Hc] Hx%Next_effect Hf Hu.
  inversion Hx as [? H1 H2 H3 H4 H5 H6|? log r err H1 H2 H3 H4 H5 H6 H7|]; subst; [|congruence].
  assert (it_fail (st_iter s) = None) as Hf0.
  { destruct (it_fail (st_iter s)) eqn:Ef; [|done]. rewrite H4 in Hf by done. congruence. }
  destruct (H3 Hf0 Hf) as (_ & Eb & Hend). rewrite Eb, (Hc ltac:(destruct Hend; auto) Hu), app_nil_r.
  simpl. auto.
Qed.

(** Once the subscription has ended, [Next] never waits. *)
Lemma Next_returns pick it : it_sub it ≠ Active → ∃ b it', nxt pick it = NReturn b it'.
Proof.
  intros Hs. assert (∀ it0 log ch, ∃ b it', dlv it0 log ch = NReturn b it') as Hd.
  { intros it0 log ch. unfold Events.deliver. destruct (unpack log); eauto. }
  assert (∀ it0, ∃ b it', take_ready it0 = NReturn b it') as Ht.
  { intros it0. unfold take_ready. destruct (recv _); eauto. }
  assert (∀ err, ∃ b it', after_err it err = NReturn b it') as Ha.
  { intros [e|]; unfold after_err; eauto. }
  unfold Events.Next. rewrite Next_fuel_eq. destruct (it_fail it); [eauto|]. destruct (it_done it); [eauto|].
  destruct (recv (it_logs it)), (it_sub it), pick; done || eauto.
Qed.

Lemma drain_S k pick it :
  drain unpack fresh_event (S k) pick it =
    match nxt pick it with
    | NReturn true it' =>
        let '(evs, it'', ended) := drain unpack fresh_event k pick it' in
        (option_list (it_Event it') ++ evs, it'', ended)
    | NReturn false it' => ([], it', true)
    | _ => ([], it, false)
    end.
Proof. done. Qed.

(** The loop over an iterator whose subscription has ended. *)
Lemma drain_spec n logs s pick :
  stream_reachable unpack fresh_event n logs s → it_sub (st_iter s) ≠ Active →
  ∃ evs it', drain unpack fresh_event (S (length (buf (it_logs (st_iter s))))) pick (st_iter s) = (evs, it', true) ∧
    Forall2 carries (take (length (events s ++ evs)) logs) (events s ++ evs) ∧
    (it_fail it' = None → closed_by_user s = false → Forall2 carries logs (events s ++ evs)).
Proof.
  remember (length (buf (it_logs (st_iter s)))) as k eqn:Ek. revert s Ek.
  induction k as [|k IH]; intros s Ek Hr Ha; destruct (Next_returns pick _ Ha) as (b & it' & En);
    pose proof (stream_reachable_inv _ _ _ Hr) as Hi; pose proof (Next_effect _ _ _ _ En) as Hx;
    rewrite drain_S, En.
  - destruct b; [inversion Hx as [| |? log r ev _ Eb]; rewrite Eb in Ek; done|].
    exists [], it'. rewrite app_nil_r. split_and!; [done|apply Hi|]. intros. by eapply stream_inv_end.
  - destruct b.
    + set (s' := mkStream it' (found s) (closed_by_user s) (events s ++ option_list (it_Event it'))).
      inversion Hx as [| |? log r ev H1 H2 H3 H4 H5 H6 H7 H8]; subst.
      destruct (IH s') as (evs & it'' & Ed & Hp & Hall).
      * simpl. rewrite H4. simpl. rewrite H2 in Ek. by injection Ek.
      * eapply stream_next with (ev := SNext pick); [done|]. simpl. by rewrite En.
      * simpl. by rewrite H5.
      * cbn [st_iter s'] in Ed. rewrite Ed. eexists _, _. split; [done|]. rewrite H7. simpl.
        cbn [s' events closed_by_user] in Hp, Hall. rewrite H7 in Hp, Hall.
        rewrite <- (assoc_L (++)) in Hp, Hall. done.
    + exists [], it'. rewrite app_nil_r. split_and!; [done|apply Hi|]. intros. by eapply stream_inv_end.
Qed.

End iterator_lemmas.

(** ** Lemmas: watchers *)

Section watcher_lemmas.
Context {L E : Type} (unpack : L → result string E).
Implicit Types (w : watcher L E).
Abbreviation carr := (carries unpack).

(** The events of the logs taken are those sent, then the one being sent. *)
Definition watch_inv w : Prop :=
  match w_pc w with
  | WLoop => w_unsubscribed w = false ∧ Forall2 carr (w_taken w) (w_sent w)
  | WSend e => w_unsubscribed w = false ∧ Forall2 carr (w_taken w) (w_sent w ++ [e])
  | WReturned err =>
      w_unsubscribed w = true ∧
      (Forall2 carr (w_taken w) (w_sent w) ∨
       ∃ log, w_taken w = take (length (w_sent w)) (w_taken w) ++ [log] ∧
         Forall2 carr (take (length (w_sent w)) (w_taken w)) (w_sent w) ∧
         ((∃ e, unpack log = Ok e) ∨ ∃ e, unpack log = Err e ∧ err = Some e))
  end.

Lemma watch_return_inv w err :
  w_unsubscribed w = false → watch_inv w → (∀ e, w_pc w ≠ WReturned e) → watch_inv (watch_return w err).
Proof.
  unfold watch_inv, watch_return. intros Hu Hi Hp. simpl. split; [done|].
  destruct (w_pc w) as [|e|e]; [left; tauto| |by destruct (Hp e)]. right.
  destruct Hi as [_ Hi]. apply Forall2_app_inv_r in Hi as (l1 & l2 & Hl1 & Hl2 & ->).
  apply Forall2_cons_inv_r in Hl2 as (log & l3 & Hc & Hl3 & ->). apply Forall2_nil_inv_r in Hl3 as ->.
  exists log. rewrite (Forall2_take_length _ _ _ _ Hl1). split_and!; [done|done|]. left. eauto.
Qed.

Lemma watch_inv_step w ev w' : watch_inv w → watch_step unpack ev w = Some w' → watch_inv w'.
Proof.
  intros Hi Hs. destruct ev; simpl in Hs.
  - destruct (w_sub w); [|done]. destruct (try_send _ _); [|done|done]. by injection Hs as <-.
  - destruct (w_sub w); [|done]. by injection Hs as <-.
  - by injection Hs as <-.
  - destruct (w_pc w) eqn:Ep; [|done|done]. unfold watch_inv in Hi. rewrite Ep in Hi. destruct Hi as [Hu Hi].
    destruct (recv (w_logs w)) as [log ch| |]; [|done|done].
    destruct (unpack log) as [e|err] eqn:Eu; injection Hs as <-; unfold watch_inv; simpl.
    + split; [done|]. apply Forall2_app; [done|]. by repeat constructor.
    + split; [done|]. right. exists log. rewrite (Forall2_take_length _ _ _ _ Hi). split_and!; [done|done|].
      right. eauto.
  - destruct (w_pc w) eqn:Ep; [| |done]; (destruct (w_sub w) as [|err]; [done|]); injection Hs as <-;
      (apply watch_return_inv; [|done|by rewrite Ep]); unfold watch_inv in Hi; rewrite Ep in Hi; tauto.
  - destruct (w_pc w) eqn:Ep; [| |done]; (destruct (w_quit w); [|done]); injection Hs as <-;
      (apply watch_return_inv; [|done|by rewrite Ep]); unfold watch_inv in Hi; rewrite Ep in Hi; tauto.
  - destruct (w_pc w) eqn:Ep; [done| |done]. injection Hs as <-.
    unfold watch_inv in *. rewrite Ep in Hi. done.
Qed.

Lemma watch_reachable_inv n w : watch_reachable unpack n w → watch_inv w.
Proof. induction 1; [by split|by eapply watch_inv_step]. Qed.

End watcher_lemmas.

(** ** Theorems *)

Section theorems.

(** C34 (termination). [Next] returns: its recursive call is never followed by
    another one, so two calls are always enough and more fuel changes
    nothing; and it waits only for an iterator that has not failed and is not
    complete, while nothing is queued and the subscription is still active. *)
Theorem Next_terminates {L E} (unpack : L → result string E) fresh_event fuel pick (it : Iterator L E) :
  2 ≤ fuel →
  Next_fuel unpack fresh_event fuel pick it = Next unpack fresh_event pick it ∧
  Next unpack fresh_event pick it ≠ NOutOfFuel ∧
  (Next unpack fresh_event pick it = NBlocked ↔
     it_fail it = None ∧ it_done it = false ∧ buf (it_logs it) = [] ∧ it_sub it = Active).
Proof.
  intros Hf. destruct fuel as [|[|fuel]]; [lia|lia|]. unfold Next. rewrite !Next_fuel_eq. split; [done|].
  assert (∀ it0 log ch, ∃ b it', deliver unpack fresh_event it0 log ch = NReturn b it') as Hd.
  { intros it0 log ch. unfold deliver. destruct (unpack log); eauto. }
  assert (∀ it0, ∃ b it', take_ready unpack fresh_event it0 = NReturn b it') as Ht.
  { intros it0. unfold take_ready. destruct (recv _); eauto. }
  assert (∀ err, ∃ b it', after_err unpack fresh_event it err = NReturn b it') as Ha.
  { intros [e|]; unfold after_err; eauto. }
  assert (∀ r, (∃ b it', r = @NReturn L E b it') → r ≠ NOutOfFuel ∧ r ≠ NBlocked) as Hr
    by (intros r (b & it' & ->); done).
  destruct (it_fail it); [split; [done|naive_solver]|].
  destruct (it_done it); [destruct (Hr _ (Ht it)); split; [done|naive_solver]|].
  pose proof (recv_not_Got (it_logs it)) as Hg.
  destruct (recv (it_logs it)) as [log ch| |] eqn:Er, (it_sub it) as [|err].
  - destruct (Hr _ (Hd it log ch)). apply recv_Got in Er as (r & Eb & _). rewrite Eb. split; [done|naive_solver].
  - assert ((if pick then after_err unpack fresh_event it err else deliver unpack fresh_event it log ch) ≠ NOutOfFuel ∧
      (if pick then after_err unpack fresh_event it err else deliver unpack fresh_event it log ch) ≠ NBlocked)
      as [? ?] by (destruct pick; apply Hr; auto). split; [done|naive_solver].
  - split; [done|]. split; [|done]. intros _. split_and!; try done. by apply Hg.
  - destruct (Hr _ (Ha err)). split; [done|naive_solver].
  - split; [done|]. split; [|done]. intros _. split_and!; try done. by apply Hg.
  - destruct (Hr _ (Ha err)). split; [done|naive_solver].
Qed.

(** What an iterator over [logs] guarantees: the events it has published are
    those of the first logs, in order; when [Next] answers false without an
    error and the user did not close it, they are those of all logs; and once
    it has failed it stays as it is. *)
Definition iterates {L E} (unpack : L → result string E) (fresh_event : E) (n : nat) (logs : list L) : Prop :=
  ∀ s, stream_reachable unpack fresh_event n logs s →
    Forall2 (carries unpack) (take (length (events s)) logs) (events s) ∧
    ∀ pick b it', Next unpack fresh_event pick (st_iter s) = NReturn b it' →
      (b = false → Error it' = None → closed_by_user s = false → Forall2 (carries unpack) logs (events s)) ∧
      (Error (st_iter s) ≠ None → b = false ∧ it' = st_iter s).

Lemma iterates_ok {L E} (unpack : L → result string E) fresh_event n logs : iterates unpack fresh_event n logs.
Proof.
  intros s Hr%stream_reachable_inv. split; [apply Hr|]. intros pick b it' En. split.
  - intros ->. by eapply stream_inv_end.
  - unfold Error, Next in *. rewrite Next_fuel_eq in En. intros Hf.
    destruct (it_fail (st_iter s)); [|done]. by injection En as <- <-.
Qed.

Lemma rule_map {A} (inject : A → Value) acc items : rule inject acc items = acc ++ (inject <$> items).
Proof.
  revert acc. induction items as [|x items IH]; intros acc; simpl; [by rewrite app_nil_r|].
  by rewrite IH, <- (assoc_L (++)).
Qed.

(** C32 (functional). Filtering past logs: each Filter operation queries the
    event it is named after with one topic rule per requested argument, in
    the order given, and its iterator delivers the parsed events of all the
    logs found, once each and in order, whatever the interleaving with the
    producer, unless it reports an error or is closed. *)
Theorem filters_iterate `{BindLib} (f : VynxSettlementFilterer) (opts : FilterOpts) n ids xs ys :
  (∀ s, FilterFundsClaimed f opts n ids xs = Ok s → ∃ logs,
     FilterLogs (filterer_contract f) opts "FundsClaimed" [VBytes32 <$> ids; VAddress <$> xs] = Ok logs ∧
     s = new_stream n logs ∧ iterates (ParseFundsClaimed f) newFundsClaimed n logs) ∧
  (∀ s, FilterIntentLocked f opts n ids xs ys = Ok s → ∃ logs,
     FilterLogs (filterer_contract f) opts "IntentLocked" [VBytes32 <$> ids; VAddress <$> xs; VAddress <$> ys] = Ok logs ∧
     s = new_stream n logs ∧ iterates (ParseIntentLocked f) newIntentLocked n logs) ∧
  (∀ s, FilterIntentRefunded f opts n ids xs = Ok s → ∃ logs,
     FilterLogs (filterer_contract f) opts "IntentRefunded" [VBytes32 <$> ids; VAddress <$> xs] = Ok logs ∧
     s = new_stream n logs ∧ iterates (ParseIntentRefunded f) newIntentRefunded n logs).
Proof.
  unfold FilterFundsClaimed, FilterIntentLocked, FilterIntentRefunded, bytes32Rule, addressRule.
  rewrite !rule_map. simpl. split_and!; intros s;
    (destruct (FilterLogs _ _ _ _) as [logs|]; [|done]); intros [= <-]; exists logs;
    (split_and!; [done|done|apply iterates_ok]).
Qed.

(** C33 (termination). The loop [for it.Next()] ends: once the subscription has
    ended, one call per queued log and one more are enough, no call waits,
    and if it ends without an error every log has been used. *)
Theorem iteration_ends {L E} (unpack : L → result string E) fresh_event n logs (s : stream L E) pick :
  stream_reachable unpack fresh_event n logs s → it_sub (st_iter s) ≠ Active →
  ∃ evs it', drain unpack fresh_event (S (length (buf (it_logs (st_iter s))))) pick (st_iter s) = (evs, it', true) ∧
    Forall2 (carries unpack) (take (length (events s ++ evs)) logs) (events s ++ evs) ∧
    (Error it' = None → closed_by_user s = false → Forall2 (carries unpack) logs (events s ++ evs)).
Proof. apply drain_spec. Qed.

(** C35 (safety). A subscription forwards the events of the logs it received,
    in order and once each, ahead of at most one that is being sent.  It
    unsubscribes from the node exactly when it returns; when it returns, at
    most the last log received was not forwarded, and if that log did not
    parse, its error is what is returned.  A pending error or a request to
    quit always lets it return. *)
Theorem watch_forwards {L E} (unpack : L → result string E) n (w : watcher L E) :
  watch_reachable unpack n w →
  Forall2 (carries unpack) (take (length (w_sent w)) (w_taken w)) (w_sent w) ∧
  length (w_taken w) ≤ S (length (w_sent w)) ∧
  (w_unsubscribed w = true ↔ ∃ err, w_pc w = WReturned err) ∧
  (∀ err log, w_pc w = WReturned err → last (w_taken w) = Some log →
     ∀ e, unpack log = Err e → err = Some e) ∧
  ((w_quit w = true ∨ w_sub w ≠ Active) → w_unsubscribed w = false →
     ∃ ev w', watch_step unpack ev w = Some w' ∧ w_unsubscribed w' = true).
Proof.
  intros Hi%watch_reachable_inv. unfold watch_inv in Hi.
  assert (∀ l k x, Forall2 (carries unpack) l k → last l = Some x → ∃ e, unpack x = Ok e) as Hlast.
  { intros l k x Hf Hl. apply last_Some in Hl as (l' & ->).
    apply Forall2_app_inv_l in Hf as (k1 & k2 & _ & Hk & _).
    apply Forall2_cons_inv_l in Hk as (e & ? & Hc & _). by exists e. }
  destruct (w_pc w) as [|e|err] eqn:Ep.
  - destruct Hi as [Hu Hi]. pose proof (Forall2_length _ _ _ Hi) as Hlen.
    split_and!; [by rewrite take_ge by lia|lia|split; [congruence|by intros [? ?]]|done|].
    intros [Hq|Ha] _; [exists WTakeQuit|exists WTakeErr]; simpl; rewrite Ep; [rewrite Hq; eauto|].
    destruct (w_sub w); [done|]; eauto.
  - destruct Hi as [Hu Hi]. pose proof (Forall2_length _ _ _ Hi) as Hlen. rewrite length_app in Hlen. simpl in Hlen.
    pose proof Hi as Hi'. apply Forall2_app_inv_r in Hi' as (l1 & l2 & Hl1 & Hl2 & E').
    split_and!; [rewrite E'; by rewrite (Forall2_take_length _ _ _ _ Hl1)|lia|split; [congruence|by intros [? ?]]|done|].
    intros [Hq|Ha] _; [exists WTakeQuit|exists WTakeErr]; simpl; rewrite Ep; [rewrite Hq; eauto|].
    destruct (w_sub w); [done|]; eauto.
  - destruct Hi as [Hu Hi]. destruct Hi as [Hi|(log & Et & Hi & Hlog)].
    + pose proof (Forall2_length _ _ _ Hi) as Hlen.
      split_and!; [by rewrite take_ge by lia|lia|by split; eauto| |congruence].
      intros err' log [= <-] Hl e He. destruct (Hlast _ _ _ Hi Hl) as (e' & ?). congruence.
    + pose proof (Forall2_length _ _ _ Hi) as Hlen.
      split_and!; [done| |by split; eauto| |congruence].
      * rewrite Et, length_app, Hlen. simpl. lia.
      * intros err' log' [= <-] Hl e He. rewrite Et, last_snoc in Hl. injection Hl as <-.
        destruct Hlog as [[e' ?]|(e' & ? & ->)]; congruence.
Qed.

End theorems.

(** ** Witnesses *)

Section witnesses.

(** Even numbers parse to themselves. *)
Definition w_unpack (log : nat) : result string nat := if Nat.even log then Ok log else Err "bad log".

Definition run_stream (evs : list (stream_event)) (s : stream nat nat) : option (stream nat nat) :=
  foldl (λ o ev, s ← o; stream_step w_unpack 0 ev s) (Some s) evs.

Lemma run_stream_reachable n logs evs s s' :
  stream_reachable w_unpack 0 n logs s → run_stream evs s = Some s' → stream_reachable w_unpack 0 n logs s'.
Proof.
  revert s. induction evs as [|ev evs IH]; intros s Hr; [by intros [= <-]|].
  unfold run_stream. simpl. destruct (stream_step w_unpack 0 ev s) as [s1|] eqn:E.
  - apply IH. by eapply stream_next.
  - intros Hn. exfalso. clear -Hn. induction evs as [|e evs IH]; [done|]. auto.
Qed.

(** Two of three logs are queued, one is used, then the rest arrives and the
    subscription completes. *)
Definition w_stream : stream nat nat :=
  default (new_stream 2 [2; 4; 6])
    (run_stream [SPush; SPush; SNext false; SPush; SComplete] (new_stream 2 [2; 4; 6])).

Lemma w_stream_reach : stream_reachable w_unpack 0 2 [2; 4; 6] w_stream.
Proof.
  apply (run_stream_reachable 2 [2; 4; 6] [SPush; SPush; SNext false; SPush; SComplete] (new_stream 2 [2; 4; 6]));
    [constructor|vm_compute; reflexivity].
Qed.

Lemma Next_terminates_witness :
  2 ≤ 7 ∧ Next_fuel w_unpack 0 7 true (st_iter w_stream) = Next w_unpack 0 true (st_iter w_stream).
Proof. split; [lia|]. apply (Next_terminates w_unpack 0 7 true (st_iter w_stream)). lia. Defined.

Lemma iteration_ends_witness :
  ∃ evs it', drain w_unpack 0 3 true (st_iter w_stream) = (evs, it', true) ∧ events w_stream ++ evs = [2; 4; 6].
Proof.
  destruct (iteration_ends w_unpack 0 2 [2; 4; 6] w_stream true w_stream_reach) as (evs & it' & E & _);
    [vm_compute; discriminate|].
  exists evs, it'. split; [exact E|]. vm_compute in E. injection E as <- _. reflexivity.
Defined.

Lemma filters_iterate_witness :
  ∃ logs, @FilterFundsClaimed _ _ ToyBind.lib (@mkFilterer _ _ ToyBind.lib tt) tt 2 [] [] = Ok (new_stream 2 logs) ∧
    iterates (@ParseFundsClaimed _ _ ToyBind.lib (@mkFilterer _ _ ToyBind.lib tt)) newFundsClaimed 2 logs.
Proof.
  destruct (proj1 (@filters_iterate _ _ ToyBind.lib (@mkFilterer _ _ ToyBind.lib tt) tt 2 [] [] []) _ eq_refl)
    as (logs & _ & Es & Hit).
  exists logs. split; [rewrite <- Es; reflexivity|exact Hit].
Defined.

Definition w_watcher : watcher nat nat :=
  mkWatcher (mkChan 4 [7] false) Active true (WSend 2) false [2] [].

Lemma w_watcher_reach : watch_reachable w_unpack 4 w_watcher.
Proof.
  apply (watch_next w_unpack 4 (mkWatcher (mkChan 4 [7] false) Active false (WSend 2) false [2] []) WQuit);
    [|reflexivity].
  apply (watch_next w_unpack 4 (mkWatcher (mkChan 4 [2; 7] false) Active false WLoop false [] []) WTakeLog);
    [|reflexivity].
  apply (watch_next w_unpack 4 (mkWatcher (mkChan 4 [2] false) Active false WLoop false [] []) (WArrive 7));
    [|reflexivity].
  apply (watch_next w_unpack 4 (new_watcher 4) (WArrive 2)); [constructor|reflexivity].
Qed.

Lemma watch_forwards_witness :
  ∃ ev w', watch_step w_unpack ev w_watcher = Some w' ∧ w_unsubscribed w' = true.
Proof.
  destruct (watch_forwards w_unpack 4 w_watcher w_watcher_reach) as (_ & _ & _ & _ & H).
  apply H; [left; reflexivity|reflexivity].
Defined.

End witnesses.
