(* ===== verification/Hub.v ===== *)
(** * Solver hub (internal/ingress/mempool_ws.go)

    Connected solvers, the broadcast of new intents and the bids they send.

    A [*client] is a number; the object it points to outlives its membership
    in [clients], so connections live in the store [conns].  [bidCh] is the
    channel shared by all read pumps.  The RWMutex is modelled by the set of
    broadcasts inside their read-locked loop: a step that needs the write lock
    (register, unregister, shutdown) is enabled only when there is none, while
    broadcasts and the pumps of all connections interleave freely.  Go
    iterates a map in an unspecified order: a loop over the clients takes the
    order it follows as an argument, any permutation of the client set.

    JSON is not modelled: a broadcast message is the struct that is marshalled
    (marshalling strings and an int64 does not fail) and a solver message is
    the decoded struct or the decode error.  The EIP-55 spelling of an address
    ([Address.Hex]) and [common.HexToAddress] are go-ethereum's and are
    arguments; the results of the operations on a [websocket.Conn] are part of
    the events. *)

From S2P Require Import Prelude GoStd GoChan Core.

#[local] Open Scope string_scope.
#[local] Open Scope list_scope.
#[local] Open Scope nat_scope.

(** ** Wire types and constants *)

Definition maxMessageSize : Z := 4096.
Definition pongWait : Z := (60 * 10 ^ 9)%Z.          (* nanoseconds *)
Definition pingPeriod : Z := (pongWait * 9 / 10)%Z.
Definition writeWait : Z := (10 * 10 ^ 9)%Z.
Definition sendBufSize : nat := 256.

Record bidRequest := mkBidRequest {
  breq_IntentID : string;
  breq_Solver : string;
  breq_AmountOut : string;
  breq_GasPrice : string
}.

Record intentPayload := mkPayload {
  pl_ID : string;
  pl_TokenIn : string;
  pl_TokenOut : string;
  pl_AmountIn : string;
  pl_MinAmountOut : string;
  pl_Deadline : Z
}.

Record intentBroadcast := mkBroadcast { bc_Type : string; bc_Intent : intentPayload }.

(** The frames a write pump hands to its connection. *)
Inductive frame :=
| TextMessage (msg : intentBroadcast)
| PingMessage
| CloseMessage.

(** ** State *)

Abbreviation client := nat (only parsing).

(** A client object.  [writing] and [reading] say whether its pumps still
    run, [frames] is what the write pump has written, and [queued] is a
    history variable: every message ever enqueued, read by no operation. *)
Record conn := mkConn {
  send : chan intentBroadcast;
  reading : bool;
  writing : bool;
  frames : list frame;
  queued : list intentBroadcast
}.

(** A broadcast inside its read-locked loop. *)
Record bcast := mkBcast { b_msg : intentBroadcast; b_todo : list client; b_slow : list client }.

Record hub := mkHub {
  clients : gset client;
  conns : gmap client conn;
  bidCh : chan Bid;
  readers : gmap nat bcast;
  (* clients that finished loops still have to disconnect *)
  slow : list client
}.

Definition NewHub (bidCh : chan Bid) : hub := mkHub ∅ ∅ bidCh ∅ [].

Definition set_conn (h : hub) (c : client) (cn : conn) : hub :=
  mkHub (clients h) (<[c := cn]> (conns h)) (bidCh h) (readers h) (slow h).

Definition set_send (cn : conn) (ch : chan intentBroadcast) : conn :=
  mkConn ch (reading cn) (writing cn) (frames cn) (queued cn).

(** ** Operations (each one critical section) *)

(** [ServeWS] after a successful upgrade: a fresh client with an empty queue
    and both pumps started. *)
Definition ServeWS (h : hub) : hub :=
  let c := fresh (dom (conns h)) in
  mkHub ({[c]} ∪ clients h) (<[c := mkConn (make sendBufSize) true true [] []]> (conns h))
    (bidCh h) (readers h) (slow h).

(** [delete(h.clients, c); close(c.send)] *)
Definition disconnect (h : hub) (c : client) : outcome hub :=
  match conns h !! c with
  | None => Panic
  | Some cn =>
      match close (send cn) with
      | Panic => Panic
      | Ret ch =>
          Ret (mkHub (clients h ∖ {[c]}) (<[c := set_send cn ch]> (conns h))
                 (bidCh h) (readers h) (slow h))
      end
  end.

Definition unregisterClient (h : hub) (c : client) : outcome hub :=
  if bool_decide (c ∈ clients h) then disconnect h c else Ret h.

(** The message of [BroadcastIntent]. *)
Definition broadcastMessage (hex : Address → string) (intent : Intent) : intentBroadcast :=
  mkBroadcast "new_intent"
    (mkPayload (Intent_ID intent) (hex (Intent_TokenIn intent)) (hex (Intent_TokenOut intent))
       (Big.String (Intent_AmountIn intent)) (Big.String (Intent_MinAmountOut intent))
       (GoTime.toUnix (Intent_Deadline intent))).

(** One iteration of the loop over the clients: the non-blocking send. *)
Definition sendTo (h : hub) (c : client) (msg : intentBroadcast) : outcome (hub * bool) :=
  match conns h !! c with
  | None => Panic
  | Some cn =>
      match try_send (send cn) msg with
      | Sent ch =>
          Ret (set_conn h c (mkConn ch (reading cn) (writing cn) (frames cn) (queued cn ++ [msg])), true)
      | Full => Ret (h, false)
      | SendPanic => Panic
      end
  end.

(** The loop, and the clients it found full. *)
Fixpoint sendAll (h : hub) (todo : list client) (msg : intentBroadcast) (slowAcc : list client)
    : outcome (hub * list client) :=
  match todo with
  | [] => Ret (h, slowAcc)
  | c :: todo =>
      match sendTo h c msg with
      | Panic => Panic
      | Ret (h', true) => sendAll h' todo msg slowAcc
      | Ret (h', false) => sendAll h' todo msg (slowAcc ++ [c])
      end
  end.

Fixpoint unregisterAll (h : hub) (cs : list client) : outcome hub :=
  match cs with
  | [] => Ret h
  | c :: cs =>
      match unregisterClient h c with
      | Panic => Panic
      | Ret h' => unregisterAll h' cs
      end
  end.

(** [BroadcastIntent] when nothing interleaves. *)
Definition BroadcastIntent (hex : Address → string) (order : list client) (h : hub) (intent : Intent)
    : outcome hub :=
  match sendAll h order (broadcastMessage hex intent) [] with
  | Panic => Panic
  | Ret (h', slowClients) => unregisterAll h' slowClients
  end.

(** The shutdown of [Run]: close and delete every client. *)
Fixpoint closeAll (h : hub) (order : list client) : outcome hub :=
  match order with
  | [] => Ret h
  | c :: order =>
      match disconnect h c with
      | Panic => Panic
      | Ret h' => closeAll h' order
      end
  end.

(** ** The pumps of one connection *)

(** One solver message: parse, validate, push to [bidCh] without blocking. *)
Definition handleBid (hexToAddress : string → Address) (ch : chan Bid)
    (msg : result string bidRequest) (now : Time) : outcome (chan Bid) :=
  match msg with
  | Err _ => Ret ch
  | Ok req =>
      match Big.SetString (breq_AmountOut req) with
      | None => Ret ch
      | Some amountOut =>
          if (amountOut <=? 0)%Z then Ret ch
          else
            match Big.SetString (breq_GasPrice req) with
            | None => Ret ch
            | Some gasPrice =>
                if (gasPrice <=? 0)%Z then Ret ch
                else
                  let bid := mkBid (breq_IntentID req) (hexToAddress (breq_Solver req))
                               (Some amountOut) (Some gasPrice) now [] in
                  match try_send ch bid with
                  | Sent ch' => Ret ch'
                  | Full => Ret ch
                  | SendPanic => Panic
                  end
            end
      end
  end.

(** One iteration of the loop of [readPump]: [ReadMessage] delivers a message
    or fails, and on failure the deferred function unregisters the client. *)
Inductive read_event :=
| RMessage (msg : result string bidRequest) (now : Time)
| RError.

Definition readPump (hexToAddress : string → Address) (h : hub) (c : client) (ev : read_event)
    : outcome hub :=
  match ev with
  | RMessage msg now =>
      match handleBid hexToAddress (bidCh h) msg now with
      | Panic => Panic
      | Ret ch => Ret (mkHub (clients h) (conns h) ch (readers h) (slow h))
      end
  | RError => unregisterClient h c
  end.

Definition stop_reading (c : client) (h : hub) : hub :=
  match conns h !! c with
  | None => h
  | Some cn => set_conn h c (mkConn (send cn) false (writing cn) (frames cn) (queued cn))
  end.

(** One iteration of the [select] loop of [writePump]: a receive from [send]
    ([tick = false]) or the ping ticker, with the success of
    [SetWriteDeadline] ([d]) and of [WriteMessage] ([w]).  [None] when the
    receive would block. *)
Definition writePump (tick d w : bool) (cn : conn) : option conn :=
  if tick then
    if negb d then Some (mkConn (send cn) (reading cn) false (frames cn) (queued cn))
    else Some (mkConn (send cn) (reading cn) w (frames cn ++ [PingMessage]) (queued cn))
  else
    match recv (send cn) with
    | Blocked => None
    | Got msg ch =>
        if negb d then Some (mkConn ch (reading cn) false (frames cn) (queued cn))
        else Some (mkConn ch (reading cn) w (frames cn ++ [TextMessage msg]) (queued cn))
    | Closed =>
        if negb d then Some (mkConn (send cn) (reading cn) false (frames cn) (queued cn))
        else Some (mkConn (send cn) (reading cn) false (frames cn ++ [CloseMessage]) (queued cn))
    end.

(** ** Concurrent steps *)

Inductive hub_event :=
| HServeWS
| HBegin (k : nat) (msg : intentBroadcast) (order : list client)  (* takes the read lock *)
| HSend (k : nat)                            (* next iteration of the loop *)
| HEnd (k : nat)                             (* releases the read lock *)
| HDropSlow (i : nat)                        (* a finished broadcast drops a slow client *)
| HRead (c : client) (ev : read_event)       (* read pump *)
| HWrite (c : client) (tick d w : bool)      (* write pump *)
| HShutdown (order : list client)            (* hub.Run after ctx.Done *)
| HTakeBid.                                  (* the bid dispatcher receives *)

Section steps.
Context (hexToAddress : string → Address).

(** [None]: the step is not enabled. *)
Definition hub_step (ev : hub_event) (h : hub) : option (outcome hub) :=
  match ev with
  | HServeWS => if decide (readers h = ∅) then Some (Ret (ServeWS h)) else None
  | HBegin k msg order =>
      match readers h !! k with
      | Some _ => None
      | None =>
          if decide (order ≡ₚ elements (clients h)) then
            Some (Ret (mkHub (clients h) (conns h) (bidCh h)
                         (<[k := mkBcast msg order []]> (readers h)) (slow h)))
          else None
      end
  | HSend k =>
      match readers h !! k with
      | Some (mkBcast msg (c :: todo) sl) =>
          match sendTo h c msg with
          | Panic => Some Panic
          | Ret (h', ok) =>
              Some (Ret (mkHub (clients h') (conns h') (bidCh h')
                (<[k := mkBcast msg todo (if ok then sl else sl ++ [c])]> (readers h')) (slow h')))
          end
      | _ => None
      end
  | HEnd k =>
      match readers h !! k with
      | Some (mkBcast _ [] sl) =>
          Some (Ret (mkHub (clients h) (conns h) (bidCh h) (delete k (readers h)) (slow h ++ sl)))
      | _ => None
      end
  | HDropSlow i =>
      match slow h !! i with
      | Some c =>
          if decide (readers h = ∅) then
            Some (unregisterClient (mkHub (clients h) (conns h) (bidCh h) (readers h) (delete i (slow h))) c)
          else None
      | None => None
      end
  | HRead c rev =>
      match conns h !! c with
      | Some (mkConn _ true _ _ _) =>
          match rev with
          | RMessage _ _ => Some (readPump hexToAddress h c rev)
          | RError =>
              if decide (readers h = ∅) then Some (readPump hexToAddress (stop_reading c h) c rev)
              else None
          end
      | _ => None
      end
  | HWrite c tick d w =>
      match conns h !! c with
      | Some cn =>
          if writing cn then (λ cn', Ret (set_conn h c cn')) <$> writePump tick d w cn
          else None
      | None => None
      end
  | HShutdown order =>
      if decide (readers h = ∅ ∧ order ≡ₚ elements (clients h)) then Some (closeAll h order)
      else None
  | HTakeBid =>
      match recv (bidCh h) with
      | Got _ ch => Some (Ret (mkHub (clients h) (conns h) ch (readers h) (slow h)))
      | _ => None
      end
  end.

Inductive hub_reachable (n : nat) : hub → Prop :=
| hub_init : hub_reachable n (NewHub (make n))
| hub_next h ev h' : hub_reachable n h → hub_step ev h = Some (Ret h') → hub_reachable n h'.

(** Execution of a schedule. *)
Fixpoint hub_run (evs : list hub_event) (h : hub) : option (outcome hub) :=
  match evs with
  | [] => Some (Ret h)
  | ev :: evs =>
      match hub_step ev h with
      | Some (Ret h') => hub_run evs h'
      | r => r
      end
  end.

End steps.
