(* ===== verification/HubProps.v ===== *)
(** * Solver hub: invariant and theorems

    The invariant of the hub under any interleaving of broadcasts,
    registrations, disconnections, pumps and shutdown, and what it gives: no
    send on a closed channel and no double close, in-order delivery to each
    solver, only valid bids forwarded, and the exact effect of a broadcast and
    of a shutdown. *)

From S2P Require Import Prelude GoStd GoChan Core Hub.

#[local] Open Scope string_scope.
#[local] Open Scope list_scope.
#[local] Open Scope nat_scope.

(** ** Invariant *)

(** The messages among the frames of a connection. *)
Fixpoint texts (fs : list frame) : list intentBroadcast :=
  match fs with
  | [] => []
  | TextMessage m :: fs => m :: texts fs
  | _ :: fs => texts fs
  end.

(** What [readPump] checks of a bid before it forwards it. *)
Definition valid_bid (b : Bid) : Prop :=
  ∃ a g, Bid_AmountOut b = Some a ∧ Bid_GasPrice b = Some g ∧ (0 < a)%Z ∧ (0 < g)%Z.

Record conn_ok (cn : conn) : Prop := {
  co_cap : cap (send cn) = sendBufSize;
  co_len : cap_ok (send cn);
  co_prefix : texts (frames cn) `prefix_of` queued cn;
  co_fifo : writing cn = true → texts (frames cn) ++ buf (send cn) = queued cn;
  co_open : writing cn = true → CloseMessage ∉ frames cn;
  co_last : ∀ fs fs', frames cn = fs ++ CloseMessage :: fs' →
    fs' = [] ∧ closed (send cn) = true ∧ writing cn = false
}.

Record hub_inv (h : hub) : Prop := {
  hi_member : ∀ c, c ∈ clients h → ∃ cn, conns h !! c = Some cn ∧ closed (send cn) = false;
  hi_gone : ∀ c cn, conns h !! c = Some cn → c ∉ clients h → closed (send cn) = true;
  hi_conn : ∀ c cn, conns h !! c = Some cn → conn_ok cn;
  hi_todo : ∀ k b c, readers h !! k = Some b → c ∈ b_todo b → c ∈ clients h;
  hi_bids : cap_ok (bidCh h) ∧ closed (bidCh h) = false ∧ Forall valid_bid (buf (bidCh h))
}.

(** ** Lemmas: one connection *)

Section conn_lemmas.

Lemma texts_app fs fs' : texts (fs ++ fs') = texts fs ++ texts fs'.
Proof. induction fs as [|[m| |] fs IH]; simpl; [done|by rewrite IH|done|done]. Qed.

Lemma snoc_split {A} (l fs fs' : list A) x y :
  l ++ [x] = fs ++ y :: fs' → (y ∈ l) ∨ (fs' = [] ∧ x = y ∧ l = fs).
Proof.
  destruct fs' as [|z fs' _] using rev_ind; intros E.
  - apply app_inj_tail in E as [-> ->]. by right.
  - left. change (fs ++ y :: fs' ++ [z]) with (fs ++ (y :: fs') ++ [z]) in E.
    rewrite (assoc_L (++)) in E. apply app_inj_tail in E as [-> _]. set_solver.
Qed.

Lemma new_conn_ok : conn_ok (mkConn (make sendBufSize) true true [] []).
Proof.
  split; simpl; try done; [apply make_cap_ok|set_solver|].
  intros [|? ?] fs' [=].
Qed.

(** Enqueueing, closing and receiving keep a connection well formed. *)
Lemma conn_ok_send cn msg ch :
  conn_ok cn → try_send (send cn) msg = Sent ch →
  conn_ok (mkConn ch (reading cn) (writing cn) (frames cn) (queued cn ++ [msg])) ∧
  closed ch = closed (send cn).
Proof.
  intros [Hcap Hlen Hpre Hfifo Hopen Hlast] Hs. pose proof (try_send_cap_ok _ _ _ Hs) as Hok.
  apply try_send_Sent in Hs as (Hc & _ & ->). split; [|by rewrite Hc].
  split; simpl; auto.
  - by apply prefix_snoc_r.
  - intros Hw. rewrite (assoc_L (++)). f_equal. auto.
  - intros fs fs' E. destruct (Hlast _ _ E) as (_ & Ht & _). congruence.
Qed.

Lemma conn_ok_close cn ch :
  conn_ok cn → close (send cn) = Ret ch → conn_ok (set_send cn ch).
Proof.
  unfold close. intros [Hcap Hlen Hpre Hfifo Hopen Hlast]. destruct (closed (send cn)) eqn:Ec; [done|].
  intros [= <-]. split; simpl; auto.
  intros fs fs' E. destruct (Hlast _ _ E) as (? & ? & ?). congruence.
Qed.

Lemma conn_ok_reading cn r :
  conn_ok cn → conn_ok (mkConn (send cn) r (writing cn) (frames cn) (queued cn)).
Proof. by intros []. Qed.

(** A pump that stops keeps what it wrote. *)
Lemma conn_ok_stop cn ch :
  conn_ok cn → cap ch = cap (send cn) → cap_ok ch → closed ch = closed (send cn) →
  conn_ok (mkConn ch (reading cn) false (frames cn) (queued cn)).
Proof.
  intros [Hcap Hlen Hpre Hfifo Hopen Hlast] E1 E2 E3. split; simpl; auto; try congruence.
  intros fs fs' E. destruct (Hlast _ _ E) as (-> & ? & ?). split_and!; congruence.
Qed.

(** A running pump appends a frame that is not the close frame. *)
Lemma conn_ok_frame cn ch f w :
  conn_ok cn → writing cn = true → f ≠ CloseMessage →
  cap ch = cap (send cn) → cap_ok ch →
  texts [f] ++ buf ch = buf (send cn) →
  conn_ok (mkConn ch (reading cn) w (frames cn ++ [f]) (queued cn)).
Proof.
  intros [Hcap Hlen Hpre Hfifo Hopen Hlast] Hw Hf E1 E2 E3.
  assert (texts (frames cn ++ [f]) ++ buf ch = queued cn) as Hq.
  { rewrite texts_app, <- (assoc_L (++)), E3. auto. }
  split; simpl; auto; try congruence.
  - exists (buf ch). done.
  - intros _. specialize (Hopen Hw). rewrite elem_of_app, list_elem_of_singleton. naive_solver.
  - intros fs fs' E. apply snoc_split in E as [Hin|(_ & -> & _)]; [|done].
    by destruct (Hopen Hw).
Qed.

Lemma conn_ok_close_frame cn :
  conn_ok cn → writing cn = true → closed (send cn) = true →
  conn_ok (mkConn (send cn) (reading cn) false (frames cn ++ [CloseMessage]) (queued cn)).
Proof.
  intros [Hcap Hlen Hpre Hfifo Hopen Hlast] Hw Hc. split; simpl; auto; try done.
  - rewrite texts_app. simpl. by rewrite app_nil_r.
  - intros fs fs' E. apply snoc_split in E as [Hin|(-> & _)]; [|done].
    by destruct (Hopen Hw).
Qed.

Lemma writePump_ok tick d w cn cn' :
  conn_ok cn → writing cn = true → writePump tick d w cn = Some cn' →
  conn_ok cn' ∧ closed (send cn') = closed (send cn).
Proof.
  intros Hok Hw. pose proof (co_len _ Hok). unfold writePump.
  destruct tick; [destruct d; intros [= <-]; split; auto using conn_ok_stop|].
  - by apply conn_ok_frame.
  - destruct (recv (send cn)) as [m ch| |] eqn:Er; [| |done].
    + pose proof (recv_cap_ok _ _ _ ltac:(eassumption) Er).
      apply recv_Got in Er as (r & Eb & ->).
      destruct d; intros [= <-]; split; auto using conn_ok_stop.
      by apply conn_ok_frame; auto.
    + assert (closed (send cn) = true) by (unfold recv in Er; destruct (buf _), (closed _); congruence).
      destruct d; intros [= <-]; split; auto using conn_ok_stop, conn_ok_close_frame.
Qed.

End conn_lemmas.

(** ** Lemmas: the hub operations keep the invariant *)

Section hub_lemmas.
Context (hexToAddress : string → Address).

Lemma hub_inv_init n : hub_inv (NewHub (make n)).
Proof. split; simpl; try set_solver. split_and!; [apply make_cap_ok|done|constructor]. Qed.

(** Updating a connection without closing it. *)
Lemma hub_inv_set_conn h c cn cn' :
  hub_inv h → conns h !! c = Some cn → conn_ok cn' → closed (send cn') = closed (send cn) →
  hub_inv (set_conn h c cn').
Proof.
  intros [Hm Hg Hc Ht Hb] E Hok Hcl. split; simpl; auto; intros c'.
  - destruct (decide (c = c')) as [<-|]; [rewrite lookup_insert_eq|rewrite lookup_insert_ne by done; auto].
    intros (cn0 & ? & ?)%Hm. exists cn'. split; congruence.
  - intros cn0 [[<- <-]|[? ?]]%lookup_insert_Some; [|eauto].
    intros ?. rewrite Hcl. eauto.
  - intros cn0 [[<- <-]|[? ?]]%lookup_insert_Some; eauto.
Qed.

Lemma hub_inv_ServeWS h : readers h = ∅ → hub_inv h → hub_inv (ServeWS h).
Proof.
  intros Hr [Hm Hg Hc Ht Hb]. unfold ServeWS.
  pose proof (is_fresh (dom (conns h))) as Hf. set (c := fresh _) in *.
  split; simpl; auto.
  - intros c' [->%elem_of_singleton|Hin]%elem_of_union; [rewrite lookup_insert_eq; eauto|].
    destruct (Hm _ Hin) as (cn & E & ?). exists cn.
    rewrite lookup_insert_ne; [done|]. intros <-. apply Hf. by apply elem_of_dom.
  - intros c' cn [[<- <-]|[? ?]]%lookup_insert_Some; set_solver.
  - intros c' cn [[<- <-]|[? ?]]%lookup_insert_Some; [apply new_conn_ok|eauto].
  - rewrite Hr. set_solver.
Qed.

(** A member can be disconnected; afterwards it is no member and its channel
    is closed. *)
Definition closed_conn (cn : conn) : conn :=
  set_send cn (mkChan (cap (send cn)) (buf (send cn)) true).

Definition disconnected (h : hub) (c : client) : hub :=
  mkHub (clients h ∖ {[c]}) (alter closed_conn c (conns h)) (bidCh h) (readers h) (slow h).

Lemma disconnect_member h c :
  hub_inv h → c ∈ clients h → disconnect h c = Ret (disconnected h c).
Proof.
  intros Hi (cn & E & Hcl)%(hi_member _ Hi). unfold disconnect, close, disconnected. rewrite E, Hcl.
  do 2 f_equal. apply map_eq. intros c'. destruct (decide (c = c')) as [<-|].
  - by rewrite lookup_insert_eq, lookup_alter_eq, E.
  - by rewrite lookup_insert_ne, lookup_alter_ne.
Qed.

Lemma hub_inv_disconnected h c :
  readers h = ∅ → hub_inv h → c ∈ clients h → hub_inv (disconnected h c).
Proof.
  intros Hr [Hm Hg Hc Ht Hb] Hin. destruct (Hm _ Hin) as (cn & E & Hcl).
  split; simpl; auto.
  - intros c' [Hin' Hne%not_elem_of_singleton]%elem_of_difference.
    rewrite lookup_alter_ne by done. auto.
  - intros c' cn' [(-> & ? & ? & ->)|[? ?]]%lookup_alter_Some; [done|]. intros. eapply Hg; [done|set_solver].
  - intros c' cn' [(-> & cn0 & E0 & ->)|[? ?]]%lookup_alter_Some; [|eauto].
    apply conn_ok_close; [eauto|]. unfold close. assert (cn0 = cn) as -> by congruence. by rewrite Hcl.
  - rewrite Hr. set_solver.
Qed.

Lemma unregisterClient_eq h c :
  hub_inv h →
  unregisterClient h c = Ret (if bool_decide (c ∈ clients h) then disconnected h c else h).
Proof.
  intros Hi. unfold unregisterClient. case_bool_decide; [by apply disconnect_member|done].
Qed.

Lemma hub_inv_unregister h c h' :
  readers h = ∅ → hub_inv h → unregisterClient h c = Ret h' →
  hub_inv h' ∧ readers h' = ∅.
Proof.
  intros Hr Hi. rewrite unregisterClient_eq by done. intros [= <-].
  case_bool_decide; [|done]. split; [by apply hub_inv_disconnected|done].
Qed.

(** Fields the client set and the channels do not depend on. *)
Lemma hub_inv_slow h sl :
  hub_inv h → hub_inv (mkHub (clients h) (conns h) (bidCh h) (readers h) sl).
Proof. by intros []. Qed.

Lemma hub_inv_bidCh h ch :
  hub_inv h → cap_ok ch ∧ closed ch = false ∧ Forall valid_bid (buf ch) →
  hub_inv (mkHub (clients h) (conns h) ch (readers h) (slow h)).
Proof. by intros [] ?. Qed.

Lemma hub_inv_reader h k b :
  hub_inv h → (∀ c, c ∈ b_todo b → c ∈ clients h) →
  hub_inv (mkHub (clients h) (conns h) (bidCh h) (<[k := b]> (readers h)) (slow h)).
Proof.
  intros [] Hb. split; simpl; auto.
  intros k' b' c [[_ <-]|[_ ?]]%lookup_insert_Some; eauto.
Qed.

(** The outcome of one iteration of the broadcast loop. *)
Lemma sendTo_member h c msg :
  hub_inv h → c ∈ clients h →
  ∃ cn, conns h !! c = Some cn ∧
    sendTo h c msg =
      Ret (if length (buf (send cn)) <? sendBufSize
           then (set_conn h c (mkConn (mkChan sendBufSize (buf (send cn) ++ [msg]) false)
                   (reading cn) (writing cn) (frames cn) (queued cn ++ [msg])), true)
           else (h, false)).
Proof.
  intros Hi (cn & E & Hcl)%(hi_member _ Hi). exists cn. split; [done|].
  unfold sendTo, try_send. rewrite E, Hcl, (co_cap _ (hi_conn _ Hi _ _ E)).
  by destruct (_ <? _).
Qed.

Lemma hub_inv_sendTo h c msg h' ok :
  hub_inv h → sendTo h c msg = Ret (h', ok) → hub_inv h'.
Proof.
  intros Hi Hs. unfold sendTo in Hs. destruct (conns h !! c) as [cn|] eqn:E; [|done].
  destruct (try_send _ _) eqn:Et; [|naive_solver|done]. injection Hs as <- <-.
  apply conn_ok_send in Et as [? ?]; [|by eapply hi_conn]. by eapply hub_inv_set_conn.
Qed.

Lemma sendTo_frame h c msg h' ok :
  sendTo h c msg = Ret (h', ok) →
  clients h' = clients h ∧ readers h' = readers h ∧ slow h' = slow h ∧ bidCh h' = bidCh h.
Proof. unfold sendTo. intros H. repeat inv_match H; by simplify_eq. Qed.

(** What [readPump] does with a message: exactly the well-formed bids with
    positive amounts are pushed, and only while there is room. *)
Definition parsed_bid (msg : result string bidRequest) (now : Time) : option Bid :=
  match msg with
  | Err _ => None
  | Ok req =>
      a ← Big.SetString (breq_AmountOut req);
      g ← Big.SetString (breq_GasPrice req);
      if bool_decide (0 < a ∧ 0 < g)%Z
      then Some (mkBid (breq_IntentID req) (hexToAddress (breq_Solver req)) (Some a) (Some g) now [])
      else None
  end.

Lemma parsed_bid_valid msg now b : parsed_bid msg now = Some b → valid_bid b.
Proof.
  unfold parsed_bid. destruct msg as [req|]; [|done].
  intros (a & _ & H)%bind_Some. apply bind_Some in H as (g & _ & H).
  case_bool_decide; [|done]. injection H as <-. exists a, g. simpl. tauto.
Qed.

Lemma handleBid_eq ch msg now :
  closed ch = false →
  handleBid hexToAddress ch msg now =
    Ret (match parsed_bid msg now with
         | Some b => if length (buf ch) <? cap ch then mkChan (cap ch) (buf ch ++ [b]) false else ch
         | None => ch
         end).
Proof.
  intros Hc. unfold handleBid, parsed_bid, try_send. destruct msg as [req|]; [|done].
  destruct (Big.SetString (breq_AmountOut req)) as [a|]; [|done]. simpl.
  destruct (Big.SetString (breq_GasPrice req)) as [g|]; simpl; [|by destruct (_ <=? _)%Z].
  destruct (Z.leb_spec a 0), (Z.leb_spec g 0); case_bool_decide; try lia; try done.
  rewrite Hc. by destruct (_ <? _).
Qed.

Lemma handleBid_inv ch msg now ch' :
  cap_ok ch ∧ closed ch = false ∧ Forall valid_bid (buf ch) →
  handleBid hexToAddress ch msg now = Ret ch' →
  cap_ok ch' ∧ closed ch' = false ∧ Forall valid_bid (buf ch').
Proof.
  intros (Hcap & Hc & Hv). rewrite handleBid_eq by done. intros [= <-].
  destruct (parsed_bid msg now) as [b|] eqn:Eb; [|done].
  destruct (Nat.ltb_spec (length (buf ch)) (cap ch)); [|done]. split_and!; [|done|].
  - unfold cap_ok. simpl. rewrite length_app. simpl. lia.
  - simpl. apply Forall_app. split; [done|]. constructor; [|done]. by eapply parsed_bid_valid.
Qed.

End hub_lemmas.

(** ** Lemmas: loops over the clients *)

Section loops.

Lemma if_decide_ext {A} (P Q : Prop) `{Decision P, Decision Q} (x y : A) :
  (P ↔ Q) → (if bool_decide P then x else y) = (if bool_decide Q then x else y).
Proof. intros HPQ. by rewrite (bool_decide_ext P Q). Qed.

Lemma filter_iff_elem {A} (P Q : A → Prop) `{∀ x, Decision (P x), ∀ x, Decision (Q x)} (l : list A) :
  (∀ x, x ∈ l → P x ↔ Q x) → filter P l = filter Q l.
Proof.
  induction l as [|x l IH]; intros Hl; [done|]. rewrite !filter_cons, IH by set_solver.
  assert (P x ↔ Q x) by (apply Hl; left). repeat case_decide; tauto || done.
Qed.

Implicit Types (h : hub) (cs todo : list client).

(** Closing what [cs] names, for the clients that are still members. *)
Lemma unregisterAll_spec h cs :
  hub_inv h → readers h = ∅ →
  ∃ h', unregisterAll h cs = Ret h' ∧ hub_inv h' ∧ readers h' = ∅ ∧
    slow h' = slow h ∧ bidCh h' = bidCh h ∧
    clients h' = clients h ∖ list_to_set cs ∧
    ∀ c, conns h' !! c = (if bool_decide (c ∈ cs ∧ c ∈ clients h) then closed_conn else id) <$> conns h !! c.
Proof.
  revert h. induction cs as [|d cs IH]; intros h Hi Hr; cbn [unregisterAll].
  - exists h. split_and!; try done; [set_solver|]. intros c.
    rewrite bool_decide_eq_false_2 by set_solver. by rewrite option_fmap_id.
  - rewrite unregisterClient_eq by done. destruct (decide (d ∈ clients h)) as [Hd|Hd].
    + rewrite bool_decide_eq_true_2 by done.
      destruct (IH (disconnected h d)) as (h' & E & Hi' & Hr' & Hs & Hb & Hc & Hl);
        [by apply hub_inv_disconnected|done|].
      exists h'. split_and!; try done.
      * rewrite Hc. simpl. set_solver.
      * intros c. rewrite Hl. simpl. destruct (decide (d = c)) as [<-|Hne].
        -- rewrite lookup_alter_eq. rewrite bool_decide_eq_false_2 by set_solver.
           rewrite bool_decide_eq_true_2 by set_solver. by rewrite option_fmap_id.
        -- rewrite lookup_alter_ne by done. f_equal. apply if_decide_ext. set_solver.
    + rewrite bool_decide_eq_false_2 by done.
      destruct (IH h) as (h' & E & Hi' & Hr' & Hs & Hb & Hc & Hl); [done..|].
      exists h'. split_and!; try done.
      * rewrite Hc. simpl. set_solver.
      * intros c. rewrite Hl. f_equal. apply if_decide_ext. set_solver.
Qed.

(** The shutdown loop closes each client once, so it never panics. *)
Lemma closeAll_unregisterAll h cs :
  hub_inv h → readers h = ∅ → NoDup cs → (∀ c, c ∈ cs → c ∈ clients h) →
  closeAll h cs = unregisterAll h cs.
Proof.
  revert h. induction cs as [|d cs IH]; intros h Hi Hr Hn Hsub; cbn [closeAll unregisterAll]; [done|].
  apply NoDup_cons in Hn as [Hd Hn].
  assert (d ∈ clients h) as Hm by set_solver.
  rewrite unregisterClient_eq, bool_decide_eq_true_2, disconnect_member by done.
  apply IH; [by apply hub_inv_disconnected|done|done|]. simpl. set_solver.
Qed.

Lemma order_elem h cs : cs ≡ₚ elements (clients h) → NoDup cs ∧ ∀ c, c ∈ cs ↔ c ∈ clients h.
Proof.
  intros Hp. split.
  - rewrite Hp. apply NoDup_elements.
  - intros c. rewrite Hp. apply elem_of_elements.
Qed.

Lemma closeAll_spec h cs :
  hub_inv h → readers h = ∅ → cs ≡ₚ elements (clients h) →
  ∃ h', closeAll h cs = Ret h' ∧ hub_inv h' ∧ readers h' = ∅ ∧ bidCh h' = bidCh h ∧ clients h' = ∅ ∧
    ∀ c, conns h' !! c = (if bool_decide (c ∈ clients h) then closed_conn else id) <$> conns h !! c.
Proof.
  intros Hi Hr Hp. destruct (order_elem h cs Hp) as [Hn He].
  destruct (unregisterAll_spec h cs Hi Hr) as (h' & E & Hi' & Hr' & _ & Hb & Hc & Hl).
  exists h'. rewrite closeAll_unregisterAll by naive_solver. split_and!; try done.
  - rewrite Hc. apply leibniz_equiv. intros c. rewrite elem_of_difference, elem_of_list_to_set, He. set_solver.
  - intros c. rewrite Hl. f_equal. apply if_decide_ext. rewrite He. tauto.
Qed.

(** What the loop of a broadcast does to one connection. *)
Definition room (cn : conn) : bool := length (buf (send cn)) <? sendBufSize.

Definition enqueue (msg : intentBroadcast) (cn : conn) : conn :=
  mkConn (mkChan sendBufSize (buf (send cn) ++ [msg]) false)
    (reading cn) (writing cn) (frames cn) (queued cn ++ [msg]).

Definition offer (msg : intentBroadcast) (cn : conn) : conn :=
  if room cn then enqueue msg cn else cn.

Definition full (h : hub) (c : client) : Prop := ∃ cn, conns h !! c = Some cn ∧ room cn = false.

#[global] Instance full_dec h c : Decision (full h c).
Proof.
  destruct (conns h !! c) as [cn|] eqn:E; [destruct (room cn) eqn:Er|].
  - right. intros (cn' & ? & ?). congruence.
  - left. by exists cn.
  - right. intros (cn' & ? & ?). congruence.
Defined.

Lemma sendAll_spec h todo msg acc :
  hub_inv h → NoDup todo → (∀ c, c ∈ todo → c ∈ clients h) →
  ∃ h', sendAll h todo msg acc = Ret (h', acc ++ filter (full h) todo) ∧ hub_inv h' ∧
    clients h' = clients h ∧ readers h' = readers h ∧ slow h' = slow h ∧ bidCh h' = bidCh h ∧
    ∀ c, conns h' !! c = (if bool_decide (c ∈ todo) then offer msg else id) <$> conns h !! c.
Proof.
  revert h acc. induction todo as [|d todo IH]; intros h acc Hi Hn Hsub; cbn [sendAll].
  - exists h. rewrite filter_nil, app_nil_r. split_and!; try done.
    intros c. rewrite bool_decide_eq_false_2 by set_solver. by rewrite option_fmap_id.
  - apply NoDup_cons in Hn as [Hd Hn].
    destruct (sendTo_member h d msg Hi) as (cn & E & Hs); [set_solver|].
    fold (room cn) in Hs. fold (enqueue msg cn) in Hs. rewrite Hs.
    destruct (room cn) eqn:Er.
    + pose proof (hub_inv_sendTo _ _ _ _ _ Hi Hs) as Hi1. set (h1 := set_conn h d (enqueue msg cn)) in *.
      destruct (IH h1 acc) as (h' & E' & Hi' & H1 & H2 & H3 & H4 & Hl); [done|done|set_solver|].
      assert (∀ c, c ≠ d → conns h1 !! c = conns h !! c) as Hne by (intros; simpl; by rewrite lookup_insert_ne).
      exists h'. split_and!; try done.
      * rewrite E'. do 3 f_equal. rewrite filter_cons_False by (intros (? & ? & ?); congruence).
        apply filter_iff_elem. intros c Hc. unfold full. rewrite Hne by set_solver. done.
      * intros c. rewrite Hl. destruct (decide (c = d)) as [->|Hcd].
        -- rewrite bool_decide_eq_false_2, bool_decide_eq_true_2 by set_solver.
           simpl. rewrite lookup_insert_eq, E. simpl. unfold offer. by rewrite Er.
        -- rewrite Hne by done. f_equal. apply if_decide_ext. set_solver.
    + destruct (IH h (acc ++ [d])) as (h' & E' & Hi' & H1 & H2 & H3 & H4 & Hl); [done|done|set_solver|].
      exists h'. split_and!; try done.
      * rewrite E', <- (assoc_L (++)). rewrite filter_cons_True by (exists cn; done). done.
      * intros c. rewrite Hl. destruct (decide (c = d)) as [->|Hcd].
        -- rewrite bool_decide_eq_false_2, bool_decide_eq_true_2 by set_solver.
           rewrite E. simpl. unfold offer. by rewrite Er.
        -- f_equal. apply if_decide_ext. set_solver.
Qed.

(** What a whole broadcast does to the connection of a member. *)
Definition delivered (msg : intentBroadcast) (cn : conn) : conn :=
  if room cn then enqueue msg cn else closed_conn cn.

Lemma BroadcastIntent_spec hex h order intent :
  hub_inv h → readers h = ∅ → order ≡ₚ elements (clients h) →
  ∃ h', BroadcastIntent hex order h intent = Ret h' ∧ hub_inv h' ∧ readers h' = ∅ ∧ slow h' = slow h ∧
    bidCh h' = bidCh h ∧ (∀ c, c ∈ clients h' ↔ c ∈ clients h ∧ ¬ full h c) ∧
    ∀ c, conns h' !! c = (if bool_decide (c ∈ clients h)
                          then delivered (broadcastMessage hex intent) else id) <$> conns h !! c.
Proof.
  intros Hi Hr Hp. destruct (order_elem h order Hp) as [Hn He].
  set (msg := broadcastMessage hex intent).
  destruct (sendAll_spec h order msg [] Hi Hn) as (h1 & E1 & Hi1 & Hc1 & Hr1 & Hs1 & Hb1 & Hl1);
    [naive_solver|].
  destruct (unregisterAll_spec h1 (filter (full h) order)) as (h2 & E2 & Hi2 & Hr2 & Hs2 & Hb2 & Hc2 & Hl2);
    [done|congruence|].
  exists h2. unfold BroadcastIntent. fold msg. rewrite E1. split_and!; try done; try congruence.
  - intros c. rewrite Hc2, Hc1, elem_of_difference, elem_of_list_to_set, list_elem_of_filter, He. tauto.
  - intros c. rewrite Hl2, Hl1. destruct (conns h !! c) as [cn|] eqn:E; [|done]. simpl. f_equal.
    rewrite !(bool_decide_ext _ _ (He c)). rewrite Hc1.
    destruct (decide (c ∈ clients h)) as [Hm|Hm].
    + rewrite (bool_decide_eq_true_2 (c ∈ clients h)) by done. unfold offer, delivered.
      destruct (room cn) eqn:Er.
      * rewrite bool_decide_eq_false_2; [done|]. rewrite list_elem_of_filter.
        intros [[(? & ? & ?) _] _]. congruence.
      * rewrite bool_decide_eq_true_2; [done|]. rewrite list_elem_of_filter, He.
        split_and!; try done. by exists cn.
    + rewrite !bool_decide_eq_false_2 by tauto. done.
Qed.

End loops.

(** ** Every step keeps the invariant and does not panic *)

Section preservation.
Context (hexToAddress : string → Address).
Implicit Types (h : hub).

(** The outcome of a step: not enabled, or a well-formed hub. *)
Definition step_ok (r : option (outcome hub)) : Prop :=
  match r with
  | None => True
  | Some Panic => False
  | Some (Ret h') => hub_inv h'
  end.

Lemma unregister_ok h c : hub_inv h → readers h = ∅ → step_ok (Some (unregisterClient h c)).
Proof.
  intros Hi Hr. pose proof (unregisterClient_eq h c Hi) as E. simpl. rewrite E.
  by eapply hub_inv_unregister.
Qed.

Lemma send_ok h k : hub_inv h → step_ok (hub_step hexToAddress (HSend k) h).
Proof.
  intros Hi. cbn [hub_step]. destruct (readers h !! k) as [[msg [|c todo] sl]|] eqn:Ek; [done| |done].
  assert (∀ c', c' ∈ c :: todo → c' ∈ clients h) as Ht by (intros; by eapply (hi_todo _ Hi)).
  destruct (sendTo_member h c msg Hi) as (cn & _ & Es); [apply Ht; left|].
  destruct (sendTo h c msg) as [[h' ok]|] eqn:E; [|done].
  apply hub_inv_reader; [by eapply hub_inv_sendTo|]. apply sendTo_frame in E as (-> & _). set_solver.
Qed.

Lemma read_ok h c ev : hub_inv h → step_ok (hub_step hexToAddress (HRead c ev) h).
Proof.
  intros Hi. cbn [hub_step]. destruct (conns h !! c) as [cn|] eqn:E; [|done].
  destruct cn as [sd [|] wr fs qd]; [|done]. destruct ev as [msg now|]; cbn [readPump].
  - pose proof (hi_bids _ Hi) as Hb. destruct (handleBid hexToAddress (bidCh h) msg now) as [ch|] eqn:Eh.
    + apply hub_inv_bidCh; [done|]. by eapply handleBid_inv.
    + by rewrite handleBid_eq in Eh by tauto.
  - case_decide as Hr; [|done]. apply unregister_ok; unfold stop_reading; rewrite E; [|done].
    eapply hub_inv_set_conn; [done|done| |done].
    apply (conn_ok_reading (mkConn sd true wr fs qd)). by eapply hi_conn.
Qed.

Lemma write_ok h c tick d w : hub_inv h → step_ok (hub_step hexToAddress (HWrite c tick d w) h).
Proof.
  intros Hi. cbn [hub_step]. destruct (conns h !! c) as [cn|] eqn:E; [|done].
  destruct (writing cn) eqn:Ew; [|done]. destruct (writePump tick d w cn) as [cn'|] eqn:Ep; [|done].
  apply writePump_ok in Ep as [? ?]; [|by eapply hi_conn|done]. simpl. by eapply hub_inv_set_conn.
Qed.

Lemma hub_step_ok ev h : hub_inv h → step_ok (hub_step hexToAddress ev h).
Proof.
  intros Hi. destruct ev; auto using send_ok, read_ok, write_ok; cbn [hub_step].
  - case_decide; [by apply hub_inv_ServeWS|done].
  - destruct (readers h !! k); [done|]. case_decide as Hp; [|done].
    apply hub_inv_reader; [done|]. simpl. intros c. rewrite Hp. apply elem_of_elements.
  - destruct (readers h !! k) as [[msg [|] sl]|]; [|done|done].
    destruct Hi. split; simpl; auto. intros k' b c [_ ?]%lookup_delete_Some. eauto.
  - destruct (slow h !! i); [|done]. case_decide; [|done].
    apply unregister_ok; [by apply hub_inv_slow|done].
  - case_decide as Hc; [|done]. destruct Hc as [Hr Hp].
    destruct (closeAll_spec h order Hi Hr Hp) as (h' & -> & ? & _). done.
  - destruct (recv (bidCh h)) as [b ch| |] eqn:Er; [|done|done].
    pose proof (hi_bids _ Hi) as (Hc & Hcl & Hv).
    apply hub_inv_bidCh; [done|]. split; [by eapply recv_cap_ok|].
    apply recv_Got in Er as (r & Eb & ->). rewrite Eb in Hv. by apply Forall_cons in Hv as [_ ?].
Qed.

Lemma hub_reachable_inv n h : hub_reachable hexToAddress n h → hub_inv h.
Proof.
  induction 1 as [|h ev h' _ IH Hs]; [apply hub_inv_init|].
  apply (hub_step_ok ev) in IH. by rewrite Hs in IH.
Qed.

End preservation.

(** ** Lemmas: schedules *)

Section schedules.
Context (hexToAddress : string → Address).
Implicit Types (h : hub).
Abbreviation hrun := (hub_run hexToAddress).

Lemma hub_run_app evs evs' h h' :
  hrun evs h = Some (Ret h') → hrun (evs ++ evs') h = hrun evs' h'.
Proof.
  revert h. induction evs as [|ev evs IH]; intros h; simpl; [by intros [= ->]|].
  destruct (hub_step hexToAddress ev h) as [[h1|]|]; [apply IH|done..].
Qed.

Lemma hub_run_cons ev evs h h' :
  hub_step hexToAddress ev h = Some (Ret h') → hrun (ev :: evs) h = hrun evs h'.
Proof. intros E. simpl. by rewrite E. Qed.

Lemma write_step h c cn cn' :
  conns h !! c = Some cn → writing cn = true → writePump false true true cn = Some cn' →
  hub_step hexToAddress (HWrite c false true true) h = Some (Ret (set_conn h c cn')).
Proof. intros E Hw Hp. cbn [hub_step]. by rewrite E, Hw, Hp. Qed.

Lemma hub_run_reachable n evs h h' :
  hub_reachable hexToAddress n h → hrun evs h = Some (Ret h') → hub_reachable hexToAddress n h'.
Proof.
  revert h. induction evs as [|ev evs IH]; intros h Hr; simpl; [by intros [= <-]|].
  destruct (hub_step hexToAddress ev h) as [[h1|]|] eqn:E; [|done..].
  apply IH. by eapply hub_next.
Qed.

(** The loop of a broadcast, one iteration per step, from any position. *)
Lemma sendAll_run h k todo msg sl h' sl' rs :
  readers h = rs → sendAll h todo msg sl = Ret (h', sl') →
  hrun (replicate (length todo) (HSend k))
    (mkHub (clients h) (conns h) (bidCh h) (<[k := mkBcast msg todo sl]> rs) (slow h)) =
  Some (Ret (mkHub (clients h') (conns h') (bidCh h') (<[k := mkBcast msg [] sl']> rs) (slow h'))) ∧
  readers h' = rs ∧ slow h' = slow h.
Proof.
  intros <-. revert h sl. induction todo as [|c todo IH]; intros h sl; cbn [sendAll].
  - intros [= -> ->]. done.
  - intros Hs. cbn [length replicate Hub.hub_run hub_step readers].
    rewrite lookup_insert_eq. unfold sendTo in *. cbn [conns].
    destruct (conns h !! c) as [cn|]; [|done]. destruct (try_send (send cn) msg) as [ch| |]; [| |done].
    + cbn [set_conn clients conns bidCh readers slow]. rewrite insert_insert_eq.
      by apply (IH (set_conn h c _)).
    + cbn [clients conns bidCh readers slow]. rewrite insert_insert_eq. by apply IH.
Qed.

Lemma unregisterAll_run h cs h' :
  unregisterAll (mkHub (clients h) (conns h) (bidCh h) ∅ []) cs = Ret h' →
  hrun (replicate (length cs) (HDropSlow 0)) (mkHub (clients h) (conns h) (bidCh h) ∅ cs) = Some (Ret h').
Proof.
  revert h. induction cs as [|c cs IH]; intros h; cbn [unregisterAll].
  - by intros [= <-].
  - intros Hu. cbn [length replicate Hub.hub_run hub_step slow readers lookup list_lookup].
    rewrite decide_True by done. cbn [delete list_delete].
    unfold unregisterClient, disconnect in *. cbn [clients conns bidCh readers slow] in *.
    case_bool_decide; [|by apply (IH h)].
    destruct (conns h !! c) as [cn|]; [|done]. destruct (close (send cn)) as [ch|]; [|done].
    specialize (IH (mkHub (clients h ∖ {[c]}) (<[c:=set_send cn ch]> (conns h)) (bidCh h) ∅ [])).
    cbn [clients conns bidCh] in IH. rewrite <- IH by exact Hu. reflexivity.
Qed.

(** The steps of a broadcast under way. *)
Definition broadcasting (ev : hub_event) : Prop := ∃ k, ev = HSend k ∨ ev = HEnd k.

(** A broadcast that holds the read lock can finish on its own. *)
Lemma broadcast_finishes h k msg todo sl :
  hub_inv h → readers h !! k = Some (mkBcast msg todo sl) →
  ∃ evs h', hrun evs h = Some (Ret h') ∧ Forall broadcasting evs ∧ hub_inv h' ∧
    readers h' = delete k (readers h) ∧ clients h' = clients h.
Proof.
  revert h sl. induction todo as [|c todo IH]; intros h sl Hi Hk.
  - pose proof (hub_step_ok hexToAddress (HEnd k) h Hi) as Hok. cbn [hub_step] in Hok. rewrite Hk in Hok.
    eexists [HEnd k], _. split_and!; [|repeat constructor; exists k; by right|exact Hok|done|done].
    cbn [hub_run hub_step]. by rewrite Hk.
  - assert (c ∈ clients h) as Hc by (eapply (hi_todo _ Hi); [done|left]).
    destruct (sendTo_member h c msg Hi Hc) as (cn & _ & Es).
    destruct (sendTo h c msg) as [[h0 ok]|] eqn:E; [|done]. clear Es.
    destruct (sendTo_frame _ _ _ _ _ E) as (Ec & Er & _ & _).
    pose proof (hub_step_ok hexToAddress (HSend k) h Hi) as Hok. cbn [hub_step] in Hok. rewrite Hk, E in Hok.
    destruct (IH _ (if ok then sl else sl ++ [c]) Hok) as (evs & h' & Hr & Hev & Hi' & Hrd & Hcl);
      [by rewrite Er; apply lookup_insert_eq|].
    exists (HSend k :: evs), h'. cbn [readers clients] in *. split_and!.
    + cbn [hub_run hub_step]. by rewrite Hk, E.
    + constructor; [exists k; by left|done].
    + done.
    + by rewrite Hrd, Er, delete_insert_eq.
    + by rewrite Hcl.
Qed.

Lemma broadcasts_finish h :
  hub_inv h →
  ∃ evs h', hrun evs h = Some (Ret h') ∧ Forall broadcasting evs ∧ readers h' = ∅ ∧ clients h' = clients h.
Proof.
  remember (size (readers h)) as n eqn:En. revert h En. induction n as [|n IH]; intros h En Hi.
  - symmetry in En. apply map_size_empty_inv in En. by exists [], h.
  - destruct (map_choose (readers h)) as (k & [msg todo sl] & Hk); [intros E; by rewrite E in En|].
    destruct (broadcast_finishes h k msg todo sl Hi Hk) as (evs & h1 & Hr & Hev & Hi1 & Hrd & Hcl).
    destruct (IH h1) as (evs' & h' & Hr' & Hev' & Hrd' & Hcl'); [|done|].
    { rewrite Hrd, map_size_delete_Some by eauto. lia. }
    exists (evs ++ evs'), h'. split_and!; [by erewrite hub_run_app|by apply Forall_app|done|congruence].
Qed.

(** Draining a closed connection. *)
Lemma drain_run h c cn :
  conns h !! c = Some cn → writing cn = true → closed (send cn) = true →
  hrun (replicate (S (length (buf (send cn)))) (HWrite c false true true)) h =
  Some (Ret (set_conn h c (mkConn (mkChan (cap (send cn)) [] true) (reading cn) false
     (frames cn ++ (TextMessage <$> buf (send cn)) ++ [CloseMessage]) (queued cn)))).
Proof.
  destruct cn as [[n ms cl] r w fs q].
  cbn [send reading writing frames queued cap buf closed]. intros E -> ->. revert h fs E.
  induction ms as [|m ms IH]; intros h fs E; cbn [length].
  - by rewrite replicate_S, (hub_run_cons _ _ _ _ (write_step _ _ _ _ E eq_refl eq_refl)).
  - rewrite replicate_S, (hub_run_cons _ _ _ _ (write_step _ _ _ _ E eq_refl eq_refl)).
    rewrite (IH _ (fs ++ [TextMessage m])) by apply lookup_insert_eq.
    unfold set_conn. cbn [clients conns bidCh readers slow]. rewrite insert_insert_eq.
    by rewrite <- (assoc_L (++)).
Qed.

End schedules.

(** ** Theorems *)

Section theorems.
Context (hexToAddress : string → Address).
Implicit Types (h : hub).
Abbreviation hreach := (hub_reachable hexToAddress).
Abbreviation hstep := (hub_step hexToAddress).

(** C10 (safety). Under every interleaving of connections, broadcasts,
    disconnections of slow clients, pumps and shutdown, no step panics: there
    is no send on a closed channel and no channel is closed twice.  The
    registered clients are exactly the connections whose outbound channel is
    open, and no outbound queue exceeds [sendBufSize]. *)
Theorem hub_never_panics n h ev :
  hreach n h →
  hstep ev h ≠ Some Panic ∧
  (∀ c, c ∈ clients h ↔ ∃ cn, conns h !! c = Some cn ∧ closed (send cn) = false) ∧
  (∀ c cn, conns h !! c = Some cn → length (buf (send cn)) ≤ sendBufSize).
Proof.
  intros Hi%hub_reachable_inv. split_and!.
  - intros E. pose proof (hub_step_ok hexToAddress ev h Hi) as Hs. by rewrite E in Hs.
  - intros c. split; [apply (hi_member _ Hi)|]. intros (cn & E & Hc).
    destruct (decide (c ∈ clients h)) as [|Hn]; [done|].
    rewrite (hi_gone _ Hi _ _ E Hn) in Hc. done.
  - intros c cn E%(hi_conn _ Hi). rewrite <- (co_cap _ E). apply (co_len _ E).
Qed.

(** C19 (invariant). A solver receives the messages enqueued for it in order,
    each at most once: the text frames written to a connection are a prefix
    of the messages enqueued for it, what is missing while the pump runs is
    what is still queued, and a close frame is the last frame and is only
    written after the hub closed the channel. *)
Theorem frames_in_order n h c cn :
  hreach n h → conns h !! c = Some cn →
  texts (frames cn) `prefix_of` queued cn ∧
  (writing cn = true → texts (frames cn) ++ buf (send cn) = queued cn) ∧
  (∀ fs fs', frames cn = fs ++ CloseMessage :: fs' →
     fs' = [] ∧ writing cn = false ∧ c ∉ clients h).
Proof.
  intros Hi%hub_reachable_inv E. destruct (hi_conn _ Hi _ _ E) as [_ _ Hp Hf _ Hl].
  split_and!; [done|done|]. intros fs fs' (-> & Hc & Hw)%Hl. split_and!; [done|done|].
  intros (cn' & E' & ?)%(hi_member _ Hi). congruence.
Qed.

(** C11 (functional). A broadcast returns; a client whose queue has room gets
    the message at the end of its queue and stays registered, a client whose
    queue is full loses its registration and has its channel closed with its
    queue intact, and every other connection and the bid channel are
    untouched.  The result does not depend on the iteration order of the map
    and is what the interleaved steps of one broadcast produce. *)
Theorem broadcast_delivery n hex h order intent :
  hreach n h → readers h = ∅ → slow h = [] → order ≡ₚ elements (clients h) →
  ∃ h', BroadcastIntent hex order h intent = Ret h' ∧
    (∃ evs, hub_run hexToAddress evs h = Some (Ret h')) ∧
    bidCh h' = bidCh h ∧
    (∀ c, c ∈ clients h' ↔ c ∈ clients h ∧ ¬ full h c) ∧
    (∀ c, conns h' !! c = (if bool_decide (c ∈ clients h)
                           then delivered (broadcastMessage hex intent) else id) <$> conns h !! c).
Proof.
  intros Hi%hub_reachable_inv Hr Hs Hp.
  destruct (BroadcastIntent_spec hex h order intent Hi Hr Hp) as (h' & E & _ & _ & _ & Hb & Hc & Hl).
  exists h'. split_and!; try done. unfold BroadcastIntent in E.
  set (msg := broadcastMessage hex intent) in *.
  destruct (sendAll h order msg []) as [[h1 sl]|] eqn:Es; [|done].
  destruct (sendAll_run hexToAddress h 0 order msg [] h1 sl ∅ Hr Es) as (Hrun & Hr1 & Hs1).
  exists (HBegin 0 msg order :: replicate (length order) (HSend 0) ++ HEnd 0 :: replicate (length sl) (HDropSlow 0)).
  assert (hstep (HBegin 0 msg order) h = Some (Ret (mkHub (clients h) (conns h) (bidCh h)
            (<[0 := mkBcast msg order []]> ∅) (slow h)))) as Hb0.
  { cbn [Hub.hub_step]. rewrite Hr, lookup_empty. by rewrite decide_True. }
  rewrite (hub_run_cons _ _ _ _ _ Hb0), (hub_run_app _ _ _ _ _ Hrun).
  rewrite (hub_run_cons _ _ _ _ (mkHub (clients h1) (conns h1) (bidCh h1) ∅ sl)).
  - apply unregisterAll_run. rewrite <- E, <- Hr1, <- Hs, <- Hs1. by destruct h1.
  - cbn [Hub.hub_step readers]. rewrite lookup_insert_eq. cbn [clients conns bidCh slow].
    rewrite Hs1, Hs, delete_insert_eq. done.
Qed.

(** [unregisterClient] is idempotent: it closes the channel of a
    registered client and removes it, and any later call, from the read pump,
    from a broadcast that found the client slow or after a shutdown, is a
    no-op. *)
Theorem unregister_idempotent n h c :
  hreach n h → readers h = ∅ →
  ∃ h', unregisterClient h c = Ret h' ∧ c ∉ clients h' ∧ unregisterClient h' c = Ret h' ∧
    (c ∉ clients h → h' = h) ∧
    (∀ c', c' ≠ c → conns h' !! c' = conns h !! c' ∧ (c' ∈ clients h' ↔ c' ∈ clients h)).
Proof.
  intros Hi%hub_reachable_inv Hr. pose proof (unregisterClient_eq h c Hi) as E.
  eexists. split; [exact E|]. pose proof (proj1 (hub_inv_unregister _ _ _ Hr Hi E)) as Hi'.
  rewrite (unregisterClient_eq _ c Hi').
  case_bool_decide as Hc; [rewrite bool_decide_eq_false_2 by set_solver|rewrite bool_decide_eq_false_2 by done];
    split_and!; try done; try set_solver.
  intros c' Hne. simpl. rewrite lookup_alter_ne by done. split; [done|set_solver].
Qed.

(** C23 (liveness). Shutdown closes the channel of every registered client and
    empties the registry, whatever the iteration order, and every write pump
    that still runs can then drain its queue: after one receive per queued
    message and one more, it has written all of them in order and the close
    frame, and has returned. *)
Theorem shutdown_drains n h order :
  hreach n h → readers h = ∅ → order ≡ₚ elements (clients h) →
  ∃ h', hstep (HShutdown order) h = Some (Ret h') ∧ clients h' = ∅ ∧
    ∀ c cn, conns h' !! c = Some cn →
      closed (send cn) = true ∧
      (writing cn = true → ∃ h'' cn'',
         hub_run hexToAddress (replicate (S (length (buf (send cn)))) (HWrite c false true true)) h'
           = Some (Ret h'') ∧
         conns h'' !! c = Some cn'' ∧ writing cn'' = false ∧
         frames cn'' = frames cn ++ (TextMessage <$> buf (send cn)) ++ [CloseMessage]).
Proof.
  intros Hi%hub_reachable_inv Hr Hp.
  destruct (closeAll_spec h order Hi Hr Hp) as (h' & E & Hi' & _ & _ & Hc & _). exists h'.
  split_and!; [cbn [Hub.hub_step]; by rewrite decide_True, E|done|]. intros c cn Ec.
  assert (closed (send cn) = true) as Hcl by (eapply (hi_gone _ Hi'); [done|set_solver]).
  split; [done|]. intros Hw. eexists _, _. split; [by apply drain_run|].
  simpl. rewrite lookup_insert_eq. done.
Qed.

(** C24 (functional). A solver message is forwarded exactly when it decodes to
    a bid whose amounts are positive decimals and [bidCh] has room; the bid
    then joins the end of the channel unchanged and nothing else moves.
    Every bid in the channel has positive amounts. *)
Theorem bids_forwarded n h c cn msg now :
  hreach n h → conns h !! c = Some cn → reading cn = true →
  Forall valid_bid (buf (bidCh h)) ∧
  ∃ ch, hstep (HRead c (RMessage msg now)) h =
      Some (Ret (mkHub (clients h) (conns h) ch (readers h) (slow h))) ∧
    buf ch = buf (bidCh h) ++
      (if length (buf (bidCh h)) <? cap (bidCh h) then option_list (parsed_bid hexToAddress msg now) else []).
Proof.
  intros Hi%hub_reachable_inv E Hr. destruct (hi_bids _ Hi) as (_ & Hc & Hv). split; [done|].
  cbn [Hub.hub_step readPump]. rewrite E. destruct cn as [sd rd wr fs q]. simpl in Hr. subst rd.
  rewrite handleBid_eq by done. eexists. split; [done|].
  destruct (parsed_bid hexToAddress msg now); simpl; destruct (_ <? _); by rewrite ?app_nil_r.
Qed.

End theorems.

(** ** Witnesses *)

Section witnesses.

Definition w_addr : string → Address := λ _, zeroAddress.
Definition w_intent : Intent :=
  mkIntent "i1" zeroAddress zeroAddress zeroAddress (Some 100%Z) (Some 90%Z)
    (GoTime.Unix 2000000000) 7 [] (GoTime.Unix 1700000000).
Definition w_msg : intentBroadcast := broadcastMessage (λ _, "0x00") w_intent.
Definition w_bid : result string bidRequest := Ok (mkBidRequest "i1" "0x00" "95" "3").

(** Two solvers connect, an intent is broadcast to both, the first one reads
    it and bids. *)
Definition w_events : list hub_event :=
  [HServeWS; HServeWS; HBegin 0 w_msg [1; 0]; HSend 0; HSend 0; HEnd 0;
   HWrite 0 false true true; HRead 0 (RMessage w_bid (GoTime.Unix 1700000001))].

Definition w_hub : hub :=
  match hub_run w_addr w_events (NewHub (make 4)) with
  | Some (Ret h) => h
  | _ => NewHub (make 4)
  end.

Lemma w_reach : hub_reachable w_addr 4 w_hub.
Proof. apply (hub_run_reachable _ _ w_events (NewHub (make 4))); [constructor|]. vm_compute. reflexivity. Qed.

(** The connections of that state. *)
Definition w_conn0 : conn := mkConn (mkChan 256 [] false) true true [TextMessage w_msg] [w_msg].
Definition w_conn1 : conn := mkConn (mkChan 256 [w_msg] false) true true [] [w_msg].

Lemma w_hub_conns : conns w_hub !! 0 = Some w_conn0 ∧ conns w_hub !! 1 = Some w_conn1.
Proof. split; vm_compute; reflexivity. Defined.

Lemma hub_never_panics_witness :
  hub_reachable w_addr 4 w_hub ∧ hub_step w_addr (HShutdown [0; 1]) w_hub ≠ Some Panic ∧ 1 ∈ clients w_hub.
Proof.
  destruct (hub_never_panics w_addr 4 w_hub (HShutdown [0; 1]) w_reach) as (H & Hm & _).
  split_and!; [exact w_reach|exact H|]. apply Hm. exists w_conn1. split; [apply w_hub_conns|done].
Defined.

Lemma frames_in_order_witness :
  conns w_hub !! 0 = Some w_conn0 ∧ texts (frames w_conn0) ++ buf (send w_conn0) = [w_msg].
Proof.
  split; [apply w_hub_conns|].
  by apply (frames_in_order w_addr 4 w_hub 0 w_conn0 w_reach (proj1 w_hub_conns)).
Defined.

Lemma broadcast_delivery_witness :
  readers w_hub = ∅ ∧ slow w_hub = [] ∧
  ∃ h', BroadcastIntent (λ _, "0x00") [0; 1] w_hub w_intent = Ret h' ∧
    conns h' !! 1 = Some (mkConn (mkChan 256 [w_msg; w_msg] false) true true [] [w_msg; w_msg]).
Proof.
  split_and!; [vm_compute; reflexivity..|].
  destruct (broadcast_delivery w_addr 4 (λ _, "0x00") w_hub [0; 1] w_intent w_reach)
    as (h' & E & _ & _ & _ & Hl);
    [vm_compute; reflexivity..|apply (bool_decide_unpack _); vm_compute; exact I|].
  exists h'. split; [exact E|]. rewrite Hl, (proj2 w_hub_conns). vm_compute. reflexivity.
Defined.

Lemma unregister_idempotent_witness :
  1 ∈ clients w_hub ∧ ∃ h', unregisterClient w_hub 1 = Ret h' ∧ 1 ∉ clients h' ∧ unregisterClient h' 1 = Ret h'.
Proof.
  split; [by apply (bool_decide_unpack _); vm_compute|].
  destruct (unregister_idempotent w_addr 4 w_hub 1 w_reach) as (h' & E & Hn & E' & _); [vm_compute; reflexivity|].
  exists h'. auto.
Defined.

Lemma shutdown_drains_witness :
  ∃ h', hub_step w_addr (HShutdown [1; 0]) w_hub = Some (Ret h') ∧ clients h' = ∅.
Proof.
  destruct (shutdown_drains w_addr 4 w_hub [1; 0] w_reach) as (h' & E & Hc & _).
  - vm_compute. reflexivity.
  - apply (bool_decide_unpack _). vm_compute. exact I.
  - exists h'. auto.
Defined.

Lemma bids_forwarded_witness :
  reading w_conn0 = true ∧
  ∃ ch, hub_step w_addr (HRead 0 (RMessage w_bid (GoTime.Unix 1700000002))) w_hub =
      Some (Ret (mkHub (clients w_hub) (conns w_hub) ch (readers w_hub) (slow w_hub))) ∧
    length (buf ch) = 2.
Proof.
  split; [done|].
  destruct (bids_forwarded w_addr 4 w_hub 0 w_conn0 w_bid (GoTime.Unix 1700000002) w_reach) as (_ & ch & E & Hb);
    [apply w_hub_conns|done|].
  exists ch. split; [exact E|]. rewrite Hb. vm_compute. reflexivity.
Defined.

End witnesses.
