(* ===== verification/Handler.v ===== *)
(** * REST ingress (internal/ingress/handler.go)

    [SubmitIntent] validates a request, hands the intent to the auction
    dispatcher through [intentCh] and broadcasts it to the solvers through
    the hub.  The JSON decoder is not modelled: a request body is the decoded
    struct or the decode error (its int64 and uint64 fields are in range, see
    [decoded]).  [common.HexToAddress] and [Address.Hex] are go-ethereum's
    and are arguments; [order] is the order in which the hub's loop visits
    its clients.  The two readings of the clock are arguments. *)

From S2P Require Import Prelude GoStd GoChan Core Hub HubProps.

#[local] Open Scope string_scope.
#[local] Open Scope list_scope.
#[local] Open Scope nat_scope.

(** ** Data *)

Record intentRequest := mkIntentRequest {
  req_ID : string;
  req_Sender : string;
  req_TokenIn : string;
  req_TokenOut : string;
  req_AmountIn : string;
  req_MinAmountOut : string;
  req_Deadline : Z;
  req_Nonce : Z;
  req_Signature : string
}.

Record intentResponse := mkIntentResponse { resp_IntentID : string; resp_Status : string }.

(** What the handler sees of an [http.Request]. *)
Record request := mkRequest { Method : string; Body : result string intentRequest }.

(** What it writes: an [http.Error] or a JSON body. *)
Inductive response :=
| httpError (msg : string) (code : Z)
| jsonIntent (code : Z) (body : intentResponse)
| jsonText (code : Z) (body : string).

Definition statusCode (r : response) : Z :=
  match r with
  | httpError _ code | jsonIntent code _ | jsonText code _ => code
  end.

Definition StatusOK : Z := 200.
Definition StatusAccepted : Z := 202.
Definition StatusBadRequest : Z := 400.
Definition StatusMethodNotAllowed : Z := 405.
Definition StatusServiceUnavailable : Z := 503.

Record handler := mkHandler { intentCh : chan Intent; h_hub : hub }.

Definition NewHandler (ch : chan Intent) (h : hub) : handler := mkHandler ch h.

(** ** Operations *)

Section operations.
Context (hexToAddress : string → Address) (hex : Address → string).

(** The optional signature: empty, or hex with an optional [0x] prefix. *)
Definition parseSignature (s : string) : option bytes :=
  if bool_decide (s = "") then Some [] else Hex.DecodeString (Strings.TrimPrefix s "0x").

(** The checks on a decoded body, in the order of the code. *)
Definition parseIntent (req : intentRequest) (now now' : Time) : result string Intent :=
  if bool_decide (req_ID req = "") then Err "id is required"
  else
    match Big.SetString (req_AmountIn req) with
    | None => Err "amount_in must be a positive decimal integer"
    | Some amountIn =>
        if (amountIn <=? 0)%Z then Err "amount_in must be a positive decimal integer"
        else
          match Big.SetString (req_MinAmountOut req) with
          | None => Err "min_amount_out must be a non-negative decimal integer"
          | Some minAmountOut =>
              if (minAmountOut <? 0)%Z then Err "min_amount_out must be a non-negative decimal integer"
              else
                let deadline := GoTime.Unix (req_Deadline req) in
                if negb (GoTime.After deadline now) then Err "deadline must be in the future"
                else
                  match parseSignature (req_Signature req) with
                  | None => Err "signature must be hex-encoded"
                  | Some sig =>
                      Ok (mkIntent (req_ID req) (hexToAddress (req_Sender req))
                            (hexToAddress (req_TokenIn req)) (hexToAddress (req_TokenOut req))
                            (Some amountIn) (Some minAmountOut) deadline (req_Nonce req) sig now')
                  end
          end
    end.

(** [SubmitIntent] up to the non-blocking send: an error response, or the
    intent that was handed to the auction dispatcher. *)
Definition acceptIntent (ch : chan Intent) (r : request) (now now' : Time)
    : outcome (chan Intent * (response + Intent)) :=
  if negb (bool_decide (Method r = "POST")) then
    Ret (ch, inl (httpError "method not allowed" StatusMethodNotAllowed))
  else
    match Body r with
    | Err err => Ret (ch, inl (httpError ("invalid request body: " ++ err) StatusBadRequest))
    | Ok req =>
        match parseIntent req now now' with
        | Err msg => Ret (ch, inl (httpError msg StatusBadRequest))
        | Ok intent =>
            match try_send ch intent with
            | SendPanic => Panic
            | Full =>
                Ret (ch, inl (httpError "auction engine at capacity, please retry" StatusServiceUnavailable))
            | Sent ch' => Ret (ch', inr intent)
            end
        end
    end.

(** The whole handler: accept, then broadcast, then answer.  [req.ID] is the
    id of the intent. *)
Definition SubmitIntent (order : list client) (st : handler) (r : request) (now now' : Time)
    : outcome (handler * response) :=
  match acceptIntent (intentCh st) r now now' with
  | Panic => Panic
  | Ret (ch, inl resp) => Ret (mkHandler ch (h_hub st), resp)
  | Ret (ch, inr intent) =>
      match BroadcastIntent hex order (h_hub st) intent with
      | Panic => Panic
      | Ret h =>
          Ret (mkHandler ch h, jsonIntent StatusAccepted (mkIntentResponse (Intent_ID intent) "queued"))
      end
  end.

(** The body is [{"status":"ok"}]; 34 is the code of the double quote. *)
Definition quote : string := String.String (Ascii.ascii_of_nat 34) "".

Definition Health (st : handler) : handler * response :=
  (st, jsonText StatusOK ("{" ++ quote ++ "status" ++ quote ++ ":" ++ quote ++ "ok" ++ quote ++ "}")).

End operations.

(** ** Specification *)

(** Ranges the JSON decoder guarantees. *)
Definition decoded (req : intentRequest) : Prop := is_i64 (req_Deadline req) ∧ is_u64 (req_Nonce req).

(** A clock reading: [time.Now] is far from the ends of the representable
    range and its nanoseconds are normalised. *)
Definition clock_ok (t : Time) : Prop := (0 ≤ t_sec t < 2 ^ 62 ∧ 0 ≤ t_nsec t < 10 ^ 9)%Z.

(** The last Unix second [time.Unix] represents without wrapping. *)
Definition max_deadline : Z := (2 ^ 63 - 1 - GoTime.unixToInternal)%Z.

(** What a body must satisfy to be accepted. *)
Record valid_request (req : intentRequest) (now : Time) : Prop := {
  vr_id : req_ID req ≠ "";
  vr_in : ∃ a, Big.SetString (req_AmountIn req) = Some a ∧ (0 < a)%Z;
  vr_out : ∃ m, Big.SetString (req_MinAmountOut req) = Some m ∧ (0 ≤ m)%Z;
  vr_deadline : (GoTime.toUnix now < req_Deadline req ≤ max_deadline)%Z;
  vr_sig : req_Signature req = "" ∨ is_Some (Hex.DecodeString (Strings.TrimPrefix (req_Signature req) "0x"))
}.

(** The intent a body denotes. *)
Record intent_of (hexToAddress : string → Address) (req : intentRequest) (received : Time) (i : Intent) : Prop := {
  io_id : Intent_ID i = req_ID req;
  io_sender : Intent_Sender i = hexToAddress (req_Sender req);
  io_in : Intent_TokenIn i = hexToAddress (req_TokenIn req);
  io_out : Intent_TokenOut i = hexToAddress (req_TokenOut req);
  io_amount : Intent_AmountIn i = Big.SetString (req_AmountIn req);
  io_min : Intent_MinAmountOut i = Big.SetString (req_MinAmountOut req);
  io_deadline : GoTime.toUnix (Intent_Deadline i) = req_Deadline req;
  io_nonce : Intent_Nonce i = req_Nonce req;
  io_sig : Intent_Signature i =
    default [] (Hex.DecodeString (Strings.TrimPrefix (req_Signature req) "0x"));
  io_received : Intent_ReceivedAt i = received
}.

(** What every intent past the handler satisfies: what the rest of the
    relayer relies on. *)
Definition accepted_intent (i : Intent) : Prop :=
  Intent_ID i ≠ "" ∧ (∃ a, Intent_AmountIn i = Some a ∧ (0 < a)%Z) ∧
  (∃ m, Intent_MinAmountOut i = Some m ∧ (0 ≤ m)%Z).

(** ** Lemmas *)

Section lemmas.
Context (hexToAddress : string → Address) (hex : Address → string).

(** The comparison with the wall clock, wrap-around included. *)
Lemma After_Unix d now :
  is_i64 d → clock_ok now →
  GoTime.After (GoTime.Unix d) now = true ↔ (GoTime.toUnix now < d ≤ max_deadline)%Z.
Proof.
  intros Hd [Hs Hn]. rewrite After_spec.
  assert (GoTime.toUnix now = t_sec now - GoTime.unixToInternal)%Z as ->.
  { apply wrap_i64_id. unfold is_i64, GoTime.unixToInternal. lia. }
  unfold GoTime.Unix, max_deadline. cbn [t_sec t_nsec]. unfold is_i64 in Hd.
  assert (0 < GoTime.unixToInternal < 2 ^ 62)%Z as Hu by done.
  destruct (decide (d ≤ max_deadline)%Z) as [Hm|Hm]; unfold max_deadline in Hm.
  - rewrite wrap_i64_id by (unfold is_i64; lia). lia.
  - assert (wrap_i64 (d + GoTime.unixToInternal) = d + GoTime.unixToInternal - 2 ^ 64)%Z as ->.
    { unfold wrap_i64. rewrite <- (Z.mod_unique_pos _ _ 1 (d + GoTime.unixToInternal + 2 ^ 63 - 2 ^ 64)); lia. }
    lia.
Qed.

Lemma parseSignature_spec s :
  parseSignature s =
    if bool_decide (s = "" ∨ is_Some (Hex.DecodeString (Strings.TrimPrefix s "0x")))
    then Some (default [] (Hex.DecodeString (Strings.TrimPrefix s "0x"))) else None.
Proof.
  unfold parseSignature. destruct (decide (s = "")) as [->|Hs]; [done|].
  rewrite (bool_decide_eq_false_2 (s = "")) by done.
  destruct (Hex.DecodeString _) eqn:E; simpl.
  - rewrite bool_decide_eq_true_2; eauto.
  - rewrite bool_decide_eq_false_2; [done|]. intros [?|[? ?]]; done.
Qed.

(** The text of a hex encoding never starts with [0x]. *)
Lemma EncodeToString_no_0x bs : Strings.HasPrefix (Hex.EncodeToString bs) "0x" = false.
Proof.
  destruct bs as [|b bs]; [done|]. cbn [Hex.EncodeToString Strings.HasPrefix].
  pose proof (Z.mod_pos_bound (byte_val b) 16 ltac:(lia)) as Hb.
  set (d := (byte_val b `mod` 16)%Z) in *. clearbody d.
  assert (d ∈ seqZ 0 16) as Hd by (apply elem_of_seqZ; lia). clear Hb.
  repeat (apply elem_of_cons in Hd as [->|Hd]; [simpl; by rewrite ?andb_false_r; repeat case_match|]).
  by apply elem_of_nil in Hd.
Qed.

(** The validation accepts exactly the valid bodies and builds the intent
    they denote. *)
Lemma parseIntent_valid req now now' :
  decoded req → clock_ok now → valid_request req now →
  ∃ i, parseIntent hexToAddress req now now' = Ok i ∧ intent_of hexToAddress req now' i ∧ accepted_intent i.
Proof.
  intros [Hd _] Hc [Hid (a & Ea & Ha) (m & Em & Hm) Hdl Hsig]. unfold parseIntent.
  rewrite bool_decide_eq_false_2, Ea, Em by done.
  rewrite (proj2 (Z.leb_gt a 0)), (proj2 (Z.ltb_ge m 0)) by lia.
  rewrite (proj2 (After_Unix _ _ Hd Hc) Hdl). cbn [negb].
  rewrite parseSignature_spec, bool_decide_eq_true_2 by done.
  eexists. split; [done|]. split; [|split; [done|split; eauto]].
  split; simpl; try done. by apply toUnix_Unix.
Qed.

Lemma parseIntent_Ok req now now' i :
  decoded req → clock_ok now → parseIntent hexToAddress req now now' = Ok i → valid_request req now.
Proof.
  intros [Hd _] Hc. unfold parseIntent. case_bool_decide; [done|].
  destruct (Big.SetString (req_AmountIn req)) as [a|] eqn:Ea; [|done].
  destruct (Z.leb_spec a 0); [done|].
  destruct (Big.SetString (req_MinAmountOut req)) as [m|] eqn:Em; [|done].
  destruct (Z.ltb_spec m 0); [done|].
  destruct (GoTime.After _ _) eqn:Et; [|done]. cbn [negb]. rewrite parseSignature_spec.
  case_bool_decide; [|done]. intros _. split; eauto. by apply After_Unix.
Qed.

Lemma parseIntent_accepted req now now' i :
  parseIntent hexToAddress req now now' = Ok i → accepted_intent i.
Proof.
  unfold parseIntent. case_bool_decide; [done|].
  destruct (Big.SetString (req_AmountIn req)) as [a|]; [|done]. destruct (Z.leb_spec a 0); [done|].
  destruct (Big.SetString (req_MinAmountOut req)) as [m|]; [|done]. destruct (Z.ltb_spec m 0); [done|].
  destruct (GoTime.After _ _); [|done]. destruct (parseSignature _); [|done].
  intros [= <-]. split_and!; simpl; eauto.
Qed.

(** Accepting keeps the queue of intents well formed. *)
Definition intents_ok (ch : chan Intent) : Prop :=
  cap_ok ch ∧ closed ch = false ∧ Forall accepted_intent (buf ch).

Lemma acceptIntent_ok ch r now now' :
  intents_ok ch →
  ∃ ch' o, acceptIntent hexToAddress ch r now now' = Ret (ch', o) ∧ intents_ok ch' ∧
    match o with
    | inl _ => ch' = ch
    | inr i => accepted_intent i ∧ buf ch' = buf ch ++ [i]
    end.
Proof.
  intros (Hcap & Hc & Ha). unfold acceptIntent.
  case_bool_decide; [|by eexists _, (inl _)]. cbn [negb].
  destruct (Body r) as [req|]; [|by eexists _, (inl _)].
  destruct (parseIntent hexToAddress req now now') as [i|] eqn:Ep; [|by eexists _, (inl _)].
  apply parseIntent_accepted in Ep.
  destruct (try_send ch i) as [ch'| |] eqn:Et.
  - pose proof (try_send_cap_ok _ _ _ Et). apply try_send_Sent in Et as (_ & _ & ->).
    eexists _, (inr _). split; [done|]. split_and!; try done. split_and!; try done.
    simpl. apply Forall_app. auto.
  - by eexists _, (inl _).
  - apply try_send_panic in Et. congruence.
Qed.

End lemmas.

(** ** Theorems *)

Section theorems.
Context (hexToAddress : string → Address) (hex : Address → string).

(** C12 (functional). [SubmitIntent] always answers, and the status code tells
    what happened: 405 exactly for another method, 400 exactly for a body
    that does not decode or is not valid, 503 exactly for a valid body that
    finds [intentCh] full (in these cases nothing changes), and 202 exactly
    for a valid body when there is room: the intent it denotes joins the end
    of [intentCh] and is broadcast to the solvers.  A valid body is one with an
    id, amounts, a deadline and a signature as [valid_request] says; the code
    does not check that sender, tokens and nonce are given, which the API
    documentation calls required. *)
Theorem submit_intent_spec n order st r now now' :
  hub_reachable hexToAddress n (h_hub st) → readers (h_hub st) = ∅ →
  order ≡ₚ elements (clients (h_hub st)) → closed (intentCh st) = false →
  (∀ req, Body r = Ok req → decoded req) → clock_ok now →
  ∃ st' resp, SubmitIntent hexToAddress hex order st r now now' = Ret (st', resp) ∧
    (  (statusCode resp = StatusMethodNotAllowed ∧ Method r ≠ "POST" ∧ st' = st)
     ∨ (statusCode resp = StatusBadRequest ∧ Method r = "POST" ∧ st' = st ∧
        ∀ req, Body r = Ok req → ¬ valid_request req now)
     ∨ (Method r = "POST" ∧ ∃ req, Body r = Ok req ∧ valid_request req now ∧
        (  (statusCode resp = StatusServiceUnavailable ∧ cap (intentCh st) ≤ length (buf (intentCh st)) ∧ st' = st)
         ∨ (resp = jsonIntent StatusAccepted (mkIntentResponse (req_ID req) "queued") ∧
            length (buf (intentCh st)) < cap (intentCh st) ∧
            ∃ i, intent_of hexToAddress req now' i ∧ accepted_intent i ∧
              buf (intentCh st') = buf (intentCh st) ++ [i] ∧
              BroadcastIntent hex order (h_hub st) i = Ret (h_hub st'))))).
Proof.
  intros Hh%hub_reachable_inv Hr Hp Hc Hd Hclk. unfold SubmitIntent, acceptIntent.
  assert (mkHandler (intentCh st) (h_hub st) = st) as Est by by destruct st.
  case_bool_decide as Hm; cbn [negb]; [|eexists _, _; split; [done|by left]].
  destruct (Body r) as [req|err]; [|eexists _, _; split; [done|right; left; split_and!; naive_solver]].
  specialize (Hd req eq_refl).
  destruct (parseIntent hexToAddress req now now') as [i|msg] eqn:Ep.
  - pose proof (parseIntent_Ok _ _ _ _ _ Hd Hclk Ep) as Hv.
    destruct (parseIntent_valid hexToAddress req now now' Hd Hclk Hv) as (i' & Ei & Hi & Ha).
    assert (i' = i) as -> by congruence.
    destruct (try_send (intentCh st) i) as [ch| |] eqn:Et.
    + apply try_send_Sent in Et as (_ & Hl & ->).
      destruct (BroadcastIntent_spec hex (h_hub st) order i Hh Hr Hp) as (h' & Eb & _).
      rewrite Eb. eexists _, _. split; [done|]. right. right. split; [done|]. exists req.
      split_and!; [done|done|]. right. rewrite (io_id _ _ _ _ Hi). split_and!; [done|done|]. exists i. done.
    + apply try_send_Full in Et as [_ Hl]. eexists _, _. split; [done|]. right. right.
      split; [done|]. exists req. split_and!; [done|done|]. by left.
    + apply try_send_panic in Et. congruence.
  - eexists _, _. split; [done|]. right. left. split_and!; [done|done|done|].
    intros req' [= <-] Hv. destruct (parseIntent_valid hexToAddress req now now' Hd Hclk Hv) as (i & Ei & _).
    congruence.
Qed.

(** A solver that parses the broadcast of an accepted request
    recovers exactly what the user submitted: identifier, amounts, tokens and
    deadline. *)
Theorem broadcast_matches_request req now now' i :
  decoded req → clock_ok now → parseIntent hexToAddress req now now' = Ok i →
  let p := bc_Intent (broadcastMessage hex i) in
  pl_ID p = req_ID req ∧
  Big.SetString (pl_AmountIn p) = Big.SetString (req_AmountIn req) ∧
  Big.SetString (pl_MinAmountOut p) = Big.SetString (req_MinAmountOut req) ∧
  pl_TokenIn p = hex (hexToAddress (req_TokenIn req)) ∧
  pl_TokenOut p = hex (hexToAddress (req_TokenOut req)) ∧
  pl_Deadline p = req_Deadline req.
Proof.
  intros Hd Hc Ep p. pose proof (parseIntent_Ok _ _ _ _ _ Hd Hc Ep) as Hv.
  destruct (parseIntent_valid hexToAddress req now now' Hd Hc Hv) as (i' & Ei & [] & _ & (a & Ea & _) & (m & Em & _)).
  assert (i' = i) as -> by congruence. unfold p. simpl.
  rewrite <- io_amount0, <- io_min0, Ea, Em, !SetString_String. split_and!; congruence.
Qed.

(** A signature survives its hex encoding, with and without
    the [0x] prefix. *)
Theorem signature_roundtrip (sig : bytes) :
  parseSignature (Hex.EncodeToString sig) = Some sig ∧
  parseSignature ("0x" ++ Hex.EncodeToString sig) = Some sig.
Proof.
  split.
  - destruct sig as [|b sig]; [done|]. rewrite parseSignature_spec.
    rewrite TrimPrefix_no by apply EncodeToString_no_0x.
    rewrite hex_decode_encode, bool_decide_eq_true_2 by eauto. done.
  - rewrite parseSignature_spec, TrimPrefix_app.
    rewrite hex_decode_encode, bool_decide_eq_true_2 by eauto. done.
Qed.

End theorems.

(** ** Witnesses *)

Section witnesses.

Definition w_req : intentRequest :=
  mkIntentRequest "i2" "0xaa" "0xbb" "0xcc" "1000" "990" 2000000000 5 "0x0102".
Definition w_now : Time := GoTime.Unix 1700000000.
Definition w_st : handler := mkHandler (make 2) w_hub.
Definition w_post : request := mkRequest "POST" (Ok w_req).

Lemma w_decoded : decoded w_req.
Proof. split; unfold is_i64, is_u64; simpl; lia. Defined.

Lemma w_clock : clock_ok w_now.
Proof. split; vm_compute; split; congruence. Defined.

(** The concrete run accepts the request. *)
Lemma w_post_accepted :
  match SubmitIntent w_addr (λ _, "0x00") [0; 1] w_st w_post w_now w_now with
  | Ret (_, resp) => statusCode resp = StatusAccepted
  | Panic => False
  end.
Proof. vm_compute. reflexivity. Qed.

Lemma submit_intent_spec_witness :
  ∃ st' resp i, SubmitIntent w_addr (λ _, "0x00") [0; 1] w_st w_post w_now w_now = Ret (st', resp) ∧
    statusCode resp = StatusAccepted ∧ buf (intentCh st') = [i] ∧ Intent_ID i = "i2".
Proof.
  destruct (submit_intent_spec w_addr (λ _, "0x00") 4 [0; 1] w_st w_post w_now w_now) as (st' & resp & E & H).
  - exact w_reach.
  - vm_compute. reflexivity.
  - apply (bool_decide_unpack _). vm_compute. exact I.
  - reflexivity.
  - intros req [= <-]. exact w_decoded.
  - exact w_clock.
  - pose proof w_post_accepted as Ha. rewrite E in Ha. exists st', resp.
    destruct H as [(Hs & _)|[(Hs & _)|(_ & req & [= <-] & _ & [(Hs & _)|(_ & _ & i & Hi & _ & Hb & _)])]];
      [rewrite Ha in Hs; discriminate..|].
    exists i. split_and!; [exact E|exact Ha|exact Hb|apply (io_id _ _ _ _ Hi)].
Defined.

Lemma broadcast_matches_request_witness :
  ∃ i, parseIntent w_addr w_req w_now w_now = Ok i ∧
    pl_Deadline (bc_Intent (broadcastMessage (λ _, "0x00") i)) = 2000000000%Z.
Proof.
  eexists. split; [vm_compute; reflexivity|].
  by eapply (broadcast_matches_request w_addr (λ _, "0x00") w_req w_now w_now _ w_decoded w_clock).
Defined.

End witnesses.
