(* ===== verification/Relayer.v ===== *)
(** * The relayer process (cmd/relayer/main.go)

    [main] creates the Event Bus channels and starts one goroutine per
    dispatcher, the hub, the executor and the HTTP server; each HTTP request,
    each connection and each auction adds its own.  [relayer] is the state
    they share and [relayer_step] runs one step of one of them: the steps of
    the auction engine and of the hub are those of AuctionRun.v and Hub.v, a
    request is split at its hand-off to [intentCh] so that its broadcast
    interleaves with everything else, and the dispatchers and the executor
    take one element of their channel.

    After [cancel()] a goroutine in [select { case <-ctx.Done(): ... }] may
    still take ready elements (the choice among ready cases is random) until
    it takes the [Done] case and returns; auctions and connections are not
    tied to the context.  [accepted] is a history variable. *)

From S2P Require Import Prelude GoStd GoChan Core AuctionState AuctionRun Signer NonceQueue Executor.
From S2P Require Import Hub HubProps Handler.

#[local] Open Scope string_scope.
#[local] Open Scope list_scope.
#[local] Open Scope nat_scope.

(** ** State *)

(** Buffer sizes of the Event Bus. *)
Definition intentBuf : nat := 256.
Definition bidBuf : nat := 100 * 100.
Definition txFailBuf : nat := 128.
Definition voucherBuf : nat := 256.

(** The goroutines [main] starts that return after [cancel()]. *)
Record alive := mkAlive {
  hub_Run : bool;
  intentDispatcher : bool;
  bidDispatcher : bool;
  executor_Run : bool;
  failureDrainer : bool
}.

Section relayer.
Context `{Crypto} `{EthTypes}.
Context (slow : string → string) (hexToAddress : string → Address) (hex : Address → string).

Record relayer := mkRelayer {
  intents : chan Intent;
  solvers : hub;
  auction : sys;
  exec : ExecState;
  txFailed : chan IntentID;
  cancelled : bool;
  running : alive;
  (* requests between their hand-off and their broadcast *)
  to_broadcast : list Intent;
  accepted : list Intent
}.

(** Sections 5 to 11 of [main]: the process right after its goroutines are
    started. *)
Definition new_relayer (auctionTimeout : Z) (queue : NonceQueue) : relayer :=
  mkRelayer (make intentBuf) (NewHub (make bidBuf)) (init_sys voucherBuf auctionTimeout)
    (mkExec queue []) (make txFailBuf) false (mkAlive true true true true true) [] [].

(** ** Dispatchers, one iteration each *)

(** [runIntentDispatcher]: receive and [StartAuction]; its error is logged. *)
Definition runIntentDispatcher (r : relayer) (now : Time) : option relayer :=
  match recv (intents r) with
  | Got i ch =>
      Some (mkRelayer ch (solvers r) (step_start (auction r) i now) (exec r) (txFailed r)
              (cancelled r) (running r) (to_broadcast r) (accepted r))
  | _ => None
  end.

(** [runBidDispatcher]: receive and begin [SubmitBid].  It is the only caller
    of [SubmitBid] and takes the next bid only when the call has returned. *)
Definition runBidDispatcher (r : relayer) : option relayer :=
  match pend (auction r), recv (bidCh (solvers r)) with
  | [], Got b ch =>
      let h := solvers r in
      Some (mkRelayer (intents r) (mkHub (clients h) (conns h) ch (readers h) (Hub.slow h))
              (step_bid (auction r) b) (exec r) (txFailed r)
              (cancelled r) (running r) (to_broadcast r) (accepted r))
  | _, _ => None
  end.

(** [drainTxFailed]: receive and log. *)
Definition drainTxFailed (r : relayer) : option relayer :=
  match recv (txFailed r) with
  | Got _ ch =>
      Some (mkRelayer (intents r) (solvers r) (auction r) (exec r) ch
              (cancelled r) (running r) (to_broadcast r) (accepted r))
  | _ => None
  end.

(** One voucher through [executor.Run]. *)
Definition settle (e : Executor) (w : World) (r : relayer) : option (outcome relayer) :=
  match Vouchers (eng (auction r)) with
  | Got v ch =>
      match consume slow e w v (exec r) (txFailed r) with
      | Panic => Some Panic
      | Ret (st, failed) =>
          let s := auction r in
          let s' := mkSys (mkEngine (auctions (eng s)) (entries (eng s)) ch (timeout (eng s))) (gor s) (pend s) in
          Some (Ret (mkRelayer (intents r) (solvers r) s' st failed
                       (cancelled r) (running r) (to_broadcast r) (accepted r)))
      end
  | _ => None
  end.

(** ** Steps *)

Inductive relayer_event :=
| RPost (req : request) (now now' : Time)              (* POST /v1/intent up to its hand-off *)
| RBroadcast (j k : nat) (order : list client)         (* its broadcast begins *)
| RHub (ev : hub_event)                                (* any other step of the hub *)
| RIntent (now : Time)                                 (* intent dispatcher *)
| RBid                                                 (* bid dispatcher *)
| RAuction (ev : event)                                (* a step inside the engine *)
| RSettle (w : World)                                  (* executor *)
| RDrain                                               (* failure drainer *)
| RCancel                                              (* cancel() *)
| RStop (f : alive → alive).                           (* those [f] clears take the Done case *)

(** Steps of the hub that no other component triggers. *)
Definition own_hub_event (r : relayer) (ev : hub_event) : bool :=
  match ev with
  | HBegin _ _ _ | HTakeBid => false
  | HShutdown _ => cancelled r && hub_Run (running r)
  | _ => true
  end.

(** Steps of the engine that no other component triggers. *)
Definition own_engine_event (ev : event) : bool :=
  match ev with
  | EStart _ _ | EBid _ | ERecv => false
  | _ => true
  end.

Definition with_hub (r : relayer) (h : hub) (a : alive) (todo : list Intent) : relayer :=
  mkRelayer (intents r) h (auction r) (exec r) (txFailed r) (cancelled r) a todo (accepted r).

Definition relayer_step (e : Executor) (ev : relayer_event) (r : relayer) : option (outcome relayer) :=
  match ev with
  | RPost req now now' =>
      match acceptIntent hexToAddress (intents r) req now now' with
      | Panic => Some Panic
      | Ret (ch, o) =>
          let new := match o with inl _ => [] | inr i => [i] end in
          Some (Ret (mkRelayer ch (solvers r) (auction r) (exec r) (txFailed r) (cancelled r) (running r)
                       (to_broadcast r ++ new) (accepted r ++ new)))
      end
  | RBroadcast j k order =>
      match to_broadcast r !! j with
      | None => None
      | Some i =>
          match hub_step hexToAddress (HBegin k (broadcastMessage hex i) order) (solvers r) with
          | Some (Ret h) => Some (Ret (with_hub r h (running r) (delete j (to_broadcast r))))
          | Some Panic => Some Panic
          | None => None
          end
      end
  | RHub hev =>
      if own_hub_event r hev then
        match hub_step hexToAddress hev (solvers r) with
        | Some (Ret h) =>
            let a := running r in
            let a' := match hev with
                      | HShutdown _ =>
                          mkAlive false (intentDispatcher a) (bidDispatcher a) (executor_Run a) (failureDrainer a)
                      | _ => a
                      end in
            Some (Ret (with_hub r h a' (to_broadcast r)))
        | Some Panic => Some Panic
        | None => None
        end
      else None
  | RIntent now => if intentDispatcher (running r) then Ret <$> runIntentDispatcher r now else None
  | RBid => if bidDispatcher (running r) then Ret <$> runBidDispatcher r else None
  | RAuction aev =>
      if own_engine_event aev then
        match step aev (auction r) with
        | Some (Ret s) =>
            Some (Ret (mkRelayer (intents r) (solvers r) s (exec r) (txFailed r) (cancelled r) (running r)
                         (to_broadcast r) (accepted r)))
        | Some Panic => Some Panic
        | None => None
        end
      else None
  | RSettle w => if executor_Run (running r) then settle e w r else None
  | RDrain => if failureDrainer (running r) then Ret <$> drainTxFailed r else None
  | RCancel =>
      Some (Ret (mkRelayer (intents r) (solvers r) (auction r) (exec r) (txFailed r) true (running r)
                   (to_broadcast r) (accepted r)))
  | RStop f =>
      if cancelled r then
        let a := running r in
        let a' := f a in
        Some (Ret (with_hub r (solvers r)
          (mkAlive (hub_Run a) (intentDispatcher a && intentDispatcher a') (bidDispatcher a && bidDispatcher a')
             (executor_Run a && executor_Run a') (failureDrainer a && failureDrainer a')) (to_broadcast r)))
      else None
  end.

(** The node answers nonces in range. *)
Definition event_ok (ev : relayer_event) : Prop :=
  match ev with RSettle w => typed w | _ => True end.

Inductive relayer_reachable (e : Executor) (t : Z) (q : NonceQueue) : relayer → Prop :=
| relayer_init : relayer_reachable e t q (new_relayer t q)
| relayer_next r ev r' :
    relayer_reachable e t q r → event_ok ev → relayer_step e ev r = Some (Ret r') →
    relayer_reachable e t q r'.

Fixpoint relayer_run (e : Executor) (evs : list relayer_event) (r : relayer) : option (outcome relayer) :=
  match evs with
  | [] => Some (Ret r)
  | ev :: evs =>
      match relayer_step e ev r with
      | Some (Ret r') => relayer_run e evs r'
      | o => o
      end
  end.

End relayer.

(** ** The engine inside the relayer *)

(** A goroutine that may still emit a voucher. *)
Definition unsettled (g : goroutine) : bool :=
  match g_pc g with PCleanup => false | _ => true end.

Definition live (gs : gmap loc goroutine) : gmap loc goroutine := filter (λ kg, unsettled kg.2 = true) gs.

(** The vouchers that exist or may still be emitted. *)
Definition budget (s : sys) : nat := length (buf (voucherCh (eng s))) + size (live (gor s)).

(** The auctions come from [acc] and hold bids the hub validated. *)
Record sys_ok (acc : list Intent) (s : sys) : Prop := {
  so_entries : ∀ l en, entries (eng s) !! l = Some en →
    entry_intent en ∈ acc ∧ Forall valid_bid (entry_bids en);
  so_pend : ∀ l b, (l, b) ∈ pend s → valid_bid b
}.

Section engine_lemmas.
Implicit Types (gs : gmap loc goroutine) (s : sys).

Lemma live_insert_le gs l g : size (live (<[l := g]> gs)) ≤ S (size (live gs)).
Proof.
  unfold live. rewrite map_filter_insert. case_decide.
  - rewrite map_size_insert. destruct (_ !! l); simpl; lia.
  - rewrite map_filter_delete, map_size_delete. destruct (_ !! l); simpl; lia.
Qed.

Lemma live_insert gs l g g' :
  gs !! l = Some g' → unsettled g' = true →
  size (live (<[l := g]> gs)) + (if unsettled g then 0 else 1) = size (live gs).
Proof.
  intros Hl Hu. unfold live.
  assert (filter (λ kg : loc * goroutine, unsettled kg.2 = true) gs !! l = Some g') as Hf
    by by apply map_lookup_filter_Some.
  rewrite map_filter_insert. destruct (unsettled g) eqn:Eg; simpl.
  - rewrite decide_True by done. rewrite map_size_insert, Hf. simpl. lia.
  - rewrite decide_False by (simpl; congruence). rewrite map_filter_delete, map_size_delete, Hf. simpl.
    assert (size (filter (λ kg : loc * goroutine, unsettled kg.2 = true) gs) ≠ 0); [|lia].
    intros E%map_size_empty_inv. by rewrite E, lookup_empty in Hf.
Qed.

Lemma live_delete gs l : size (live (delete l gs)) ≤ size (live gs).
Proof.
  unfold live. rewrite map_filter_delete, map_size_delete. destruct (_ !! l); simpl; lia.
Qed.

(** Accepted intents only accumulate. *)
Lemma sys_ok_mono acc acc' s : (∀ i, i ∈ acc → i ∈ acc') → sys_ok acc s → sys_ok acc' s.
Proof. intros Hs [He Hp]. split; [|done]. intros l en Hl. destruct (He l en Hl). auto. Qed.

Lemma step_start_ok acc s i now :
  sys_ok acc s → i ∈ acc →
  sys_ok acc (step_start s i now) ∧ store_le (entries (eng s)) (entries (eng (step_start s i now))) ∧
  budget (step_start s i now) + length (entries (eng s)) ≤
    budget s + length (entries (eng (step_start s i now))) ∧
  length (entries (eng (step_start s i now))) ≤ S (length (entries (eng s))).
Proof.
  intros [He Hp] Hi. unfold step_start, StartAuction.
  destruct (auctions (eng s) !! Intent_ID i); [split_and!; [done|done|lia|lia]|].
  split_and!; simpl.
  - split; simpl; [|done]. intros l en [Hl|[Hl Hen]]%lookup_app_Some; [eauto|].
    apply list_lookup_singleton_Some in Hen as [_ <-]. simpl. auto.
  - apply store_le_app.
  - unfold budget. simpl. rewrite length_app. simpl.
    pose proof (live_insert_le (gor s) (length (entries (eng s))) (mkG i PTimer)). lia.
  - rewrite length_app. simpl. lia.
Qed.

Lemma step_bid_ok acc s b : sys_ok acc s → valid_bid b → sys_ok acc (step_bid s b).
Proof.
  intros [He Hp] Hb. unfold step_bid. destruct (checkBid b); [|done].
  destruct (lookupEntry _ _); [|done]. split; simpl; [done|].
  intros l' b' [?|[= -> ->]%list_elem_of_singleton]%elem_of_app; eauto.
Qed.

Lemma step_bid_frame s b : eng (step_bid s b) = eng s ∧ gor (step_bid s b) = gor s.
Proof. unfold step_bid. destruct (checkBid b); [|done]. by destruct (lookupEntry _ _). Qed.

End engine_lemmas.

Section own_steps.
Implicit Types (s : sys).

Lemma set_pc_budget s l i p g :
  gor s !! l = Some g → unsettled g = true → budget (set_pc s l i p) ≤ budget s.
Proof.
  intros Hg Hu. unfold budget, set_pc. simpl.
  pose proof (live_insert (gor s) l (mkG i p) g Hg Hu). lia.
Qed.

Lemma emit_budget s l i w now e :
  gor s !! l = Some (mkG i (PEmit w)) → emitVoucher (eng s) (winnerVoucher i w now) = Ret e →
  entries e = entries (eng s) ∧ budget (mkSys e (<[l := mkG i PCleanup]> (gor s)) (pend s)) ≤ budget s.
Proof.
  intros Hg He. unfold emitVoucher in He. unfold budget. cbn [eng gor].
  pose proof (live_insert (gor s) l (mkG i PCleanup) _ Hg eq_refl) as Hl. simpl in Hl.
  destruct (try_send (voucherCh (eng s)) _) as [ch| |] eqn:Et; [|injection He as <-; split; [done|lia]|done].
  injection He as <-. apply try_send_Sent in Et as (_ & _ & ->). simpl. rewrite length_app. simpl.
  split; [done|lia].
Qed.

(** A step of an auction goroutine or the end of a [SubmitBid] creates no
    auction and no new right to a voucher. *)
Lemma own_step_ok acc ev s s' :
  own_engine_event ev = true → sys_ok acc s → step ev s = Some (Ret s') →
  sys_ok acc s' ∧ store_le (entries (eng s)) (entries (eng s')) ∧
  length (entries (eng s')) = length (entries (eng s)) ∧ budget s' ≤ budget s.
Proof.
  intros Hown [He Hp] Hs. destruct ev as [| |k|l|l|l|l now|l|]; try done; simpl in Hs.
  - apply fmap_Some in Hs as (s1 & Hs & [= <-]). unfold step_append in Hs.
    destruct (pend s !! k) as [[l b]|] eqn:Ek; [|done]. injection Hs as <-. split_and!; simpl.
    + split; simpl.
      * intros l' en Hl. destruct (decide (l = l')) as [<-|Hne].
        -- rewrite list_lookup_alter_eq in Hl. apply fmap_Some in Hl as (en0 & Hl & ->).
           destruct (He _ _ Hl). split; [done|]. simpl. apply Forall_app. split; [done|].
           constructor; [|done]. eapply Hp, list_elem_of_lookup_2, Ek.
        -- rewrite list_lookup_alter_ne in Hl by done. eauto.
      * intros l' b' Hin. apply (Hp l'). by eapply list_elem_of_delete_inv.
    + apply store_le_append.
    + apply length_alter.
    + unfold budget. simpl. lia.
  - destruct (gor s !! l) as [[i []]|] eqn:Hg; try done. injection Hs as <-.
    split_and!; [done|done|done|]. by eapply set_pc_budget.
  - destruct (gor s !! l) as [[i []]|] eqn:Hg; try done. injection Hs as <-.
    split_and!; [done|done|done|]. by eapply set_pc_budget.
  - destruct (gor s !! l) as [[i []]|] eqn:Hg; try done.
    destruct (scanEntry (eng s) _) as [[w|]|]; simplify_eq;
      (split_and!; [done|done|done|]; by eapply set_pc_budget).
  - destruct (gor s !! l) as [[i []]|] eqn:Hg; try done.
    destruct (emitVoucher _ _) as [e|] eqn:Ee; [|done]. injection Hs as <-.
    destruct (emit_budget _ _ _ _ _ _ Hg Ee) as [Een Hb]. simpl. rewrite Een.
    split_and!; [|done|done|done]. split; simpl; [by rewrite Een|done].
  - destruct (gor s !! l) as [[i []]|] eqn:Hg; try done. injection Hs as <-.
    split_and!; [done|done|done|]. unfold budget. simpl. pose proof (live_delete (gor s) l). lia.
Qed.

End own_steps.

(** ** The invariant of the process *)

Section invariant.
Context `{Crypto} `{EthTypes}.

Record relayer_inv (r : relayer) : Prop := {
  ri_intents : intents_ok (intents r);
  ri_hub : hub_inv (solvers r);
  ri_sys : inv (auction r);
  ri_known : ∀ i, i ∈ buf (intents r) → i ∈ accepted r;
  ri_accepted : Forall accepted_intent (accepted r);
  ri_engine : sys_ok (accepted r) (auction r);
  ri_nonce : is_u64 (current (nonceQueue (exec r)));
  ri_failed : closed (txFailed r) = false ∧ cap_ok (txFailed r);
  ri_budget : length (calls (exec r)) + budget (auction r) ≤ length (entries (eng (auction r)));
  ri_origin : length (entries (eng (auction r))) + length (buf (intents r)) ≤ length (accepted r)
}.

Lemma relayer_inv_init t q : is_u64 (current q) → relayer_inv (new_relayer t q).
Proof.
  intros Hq. split; simpl; try done.
  - split_and!; [apply make_cap_ok|done|constructor].
  - apply hub_inv_init.
  - apply inv_init.
  - split; simpl; [|set_solver]. intros l en. by rewrite lookup_nil.
  - split; [done|apply make_cap_ok].
Qed.

End invariant.

(** ** Preservation *)

Section preservation.
Context `{Crypto} `{EthTypes} `{!CryptoLaws}.
Context (slow : string → string) (hexToAddress : string → Address) (hex : Address → string).
Implicit Types (r : relayer).

Definition relayer_ok (o : option (outcome relayer)) : Prop :=
  match o with
  | None => True
  | Some Panic => False
  | Some (Ret r') => relayer_inv r'
  end.

(** What one execution sends. *)
Lemma execute_claims e w v st i :
  Voucher_Intent v = Some i → typed w → is_u64 (current (nonceQueue st)) →
  ∃ res st' new, execute slow e w v st = Ret (res, st') ∧ is_u64 (current (nonceQueue st')) ∧
    calls st' = calls st ++ new ∧ length new ≤ 1 ∧
    Forall (λ call, call_intentId call = intentIDBytes (Intent_ID i) ∧
                    call_solver call = Voucher_WinningSolver v) new.
Proof.
  intros Hv Ht Hq. pose proof (execute_eq slow e w v st i _ Hv Hq) as He.
  destruct (vault_Sign _ _) as [sig0|]; [destruct (world_tip w) as [tip|]|].
  - destruct He as (rs & b & _ & _ & _ & ->). eexists _, _, [_]. split_and!; [done| |done|done|].
    + by apply queue_after_u64.
    + by repeat constructor.
  - rewrite He. eexists _, _, []. rewrite app_nil_r. split_and!; try done. simpl. lia.
  - rewrite He. eexists _, _, []. rewrite app_nil_r. split_and!; try done. simpl. lia.
Qed.

Lemma settle_ok e w r : relayer_inv r → typed w → relayer_ok (settle slow e w r).
Proof.
  intros [Hin Hhub Hsys Hkn Hacc Hen Hq [Hfc Hfk] Hbu Hor] Ht. unfold settle.
  destruct (Vouchers (eng (auction r))) as [v ch| |] eqn:Ev; [|done|done].
  destruct (inv_chan _ Hsys) as [Hcap Hopen]. pose proof (inv_vouchers _ Hsys) as Hvs.
  pose proof (recv_cap_ok _ _ _ Hcap Ev) as Hcap'.
  apply recv_Got in Ev as (rest & Eb & ->). rewrite Eb in Hvs.
  apply Forall_cons in Hvs as [(l & en & Hl & win & seen & Hp & Hw & _ & Hvi & _ & Hsol & _) Hrest].
  destruct (execute_claims e w v (exec r) _ Hvi Ht Hq) as (res & st' & new & He & Hq' & Hc & Hlen & Hnew).
  destruct (consume_Ret slow e w v (exec r) (txFailed r) st' res Hfc He) as (f' & -> & Hfc' & _ & Hf').
  simpl. split; simpl; try done.
  - by apply inv_with_chan.
  - split; [apply Hen|apply Hen].
  - split; [done|]. by apply Hf'.
  - rewrite Hc, length_app. unfold budget in *. simpl in *. rewrite Eb in Hbu. simpl in Hbu. lia.
Qed.

Lemma post_ok e req now now' r :
  relayer_inv r → relayer_ok (relayer_step slow hexToAddress hex e (RPost req now now') r).
Proof.
  intros [Hin Hhub Hsys Hkn Hacc Hen Hq Hf Hbu Hor]. cbn [relayer_step].
  destruct (acceptIntent_ok hexToAddress (intents r) req now now' Hin) as (ch & o & -> & Hok & Ho).
  destruct o as [resp|i].
  - subst ch. split; simpl; try rewrite !app_nil_r; done.
  - destruct Ho as [Ha Eb]. split; simpl; try done.
    + rewrite Eb. intros j [Hj|Hj]%elem_of_app; [|set_solver]. apply elem_of_app. auto.
    + apply Forall_app. auto.
    + eapply sys_ok_mono; [|done]. set_solver.
    + rewrite Eb, !length_app. simpl. lia.
Qed.

Lemma with_hub_ok r h a todo : relayer_inv r → hub_inv h → relayer_inv (with_hub r h a todo).
Proof. by intros [] ?. Qed.

Lemma hub_event_ok r ev f :
  relayer_inv r → (∀ h, hub_inv h → relayer_inv (f h)) →
  relayer_ok (match hub_step hexToAddress ev (solvers r) with
              | Some (Ret h) => Some (Ret (f h)) | Some Panic => Some Panic | None => None end).
Proof.
  intros Hr Hf. pose proof (hub_step_ok hexToAddress ev _ (ri_hub _ Hr)) as Hs.
  destruct (hub_step hexToAddress ev (solvers r)) as [[h|]|]; [by apply Hf|done|done].
Qed.

Lemma intent_ok r now r' : relayer_inv r → runIntentDispatcher r now = Some r' → relayer_inv r'.
Proof.
  intros [(Hcap & Hc & Ha) Hhub Hsys Hkn Hacc Hen Hq Hf Hbu Hor]. unfold runIntentDispatcher.
  destruct (recv (intents r)) as [i ch| |] eqn:Er; [|done|done]. intros [= <-].
  pose proof (recv_cap_ok _ _ _ Hcap Er). apply recv_Got in Er as (rest & Eb & ->).
  rewrite Eb in *. apply Forall_cons in Ha as [Hi Hrest].
  destruct (step_start_ok (accepted r) (auction r) i now) as (Hs1 & Hs2 & Hs3 & Hs4); [done|set_solver|].
  split; simpl; try done.
  - by apply inv_start.
  - set_solver.
  - lia.
  - simpl in Hor. lia.
Qed.

Lemma bid_ok r r' : relayer_inv r → runBidDispatcher r = Some r' → relayer_inv r'.
Proof.
  intros [Hin Hhub Hsys Hkn Hacc Hen Hq Hf Hbu Hor]. unfold runBidDispatcher.
  destruct (pend (auction r)); [|done].
  destruct (recv (bidCh (solvers r))) as [b ch| |] eqn:Er; [|done|done]. intros [= <-].
  destruct (hi_bids _ Hhub) as (Hcap & Hc & Hv). pose proof (recv_cap_ok _ _ _ Hcap Er).
  apply recv_Got in Er as (rest & Eb & ->). rewrite Eb in Hv. apply Forall_cons in Hv as [Hb Hrest].
  destruct (step_bid_frame (auction r) b) as [Ee Eg].
  split; simpl; rewrite ?Ee; try done.
  - by apply hub_inv_bidCh.
  - by apply inv_bid.
  - by apply step_bid_ok.
  - unfold budget in *. by rewrite Ee, Eg.
Qed.

Lemma relayer_step_ok e ev r :
  relayer_inv r → event_ok ev → relayer_ok (relayer_step slow hexToAddress hex e ev r).
Proof.
  intros Hr Hev. destruct ev; [by apply post_ok|..]; cbn [relayer_step].
  - destruct (to_broadcast r !! j); [|done]. apply (hub_event_ok r _ _ Hr).
    intros h Hh. by apply with_hub_ok.
  - destruct (own_hub_event r ev); [|done]. apply (hub_event_ok r _ _ Hr).
    intros h Hh. by apply with_hub_ok.
  - destruct (intentDispatcher _); [|done].
    destruct (runIntentDispatcher r now) eqn:E; [|done]. by eapply intent_ok.
  - destruct (bidDispatcher _); [|done]. destruct (runBidDispatcher r) eqn:E; [|done]. by eapply bid_ok.
  - destruct (own_engine_event ev) eqn:Eo; [|done].
    destruct (step ev (auction r)) as [o|] eqn:Es; [|done].
    destruct (step_Some_inv _ _ _ (ri_sys _ Hr) Es) as (s' & -> & Hs').
    destruct (own_step_ok (accepted r) ev _ _ Eo (ri_engine _ Hr) Es) as (Hk1 & Hk2 & Hk3 & Hk4).
    destruct Hr. split; simpl; try done; lia.
  - destruct (executor_Run _); [|done]. by apply settle_ok.
  - destruct (failureDrainer _); [|done]. unfold drainTxFailed.
    destruct (recv (txFailed r)) as [id ch| |] eqn:Er; [|done|done]. destruct Hr as [].
    destruct ri_failed0 as [Hc Hk]. pose proof (recv_cap_ok _ _ _ Hk Er).
    apply recv_Got in Er as (rest & _ & ->). by split.
  - by destruct Hr.
  - destruct (cancelled r); [|done]. by apply with_hub_ok; [|apply Hr].
Qed.

Lemma relayer_reachable_inv e t q r :
  is_u64 (current q) → relayer_reachable slow hexToAddress hex e t q r → relayer_inv r.
Proof.
  intros Hq. induction 1 as [|r ev r' _ IH Hev Hs]; [by apply relayer_inv_init|].
  apply (relayer_step_ok e ev) in IH; [|done]. by rewrite Hs in IH.
Qed.

(** A claim carries the vault's signature of its digest, with V moved to
    {27, 28}. *)
Definition signed_call (e : Executor) (call : ClaimCall) : Prop :=
  ∃ rs b, length rs = 64 ∧ raw_v b ∧
    vault_Sign (ex_vault e) (ClaimDigest (call_intentId call) (call_solver call)) = Ok (rs ++ [b]) ∧
    call_sig call = rs ++ [byte_of_Z (byte_val b + 27)].

Lemma execute_signs e w v st i res st' :
  Voucher_Intent v = Some i → is_u64 (current (nonceQueue st)) →
  execute slow e w v st = Ret (res, st') → Forall (signed_call e) (calls st) → Forall (signed_call e) (calls st').
Proof.
  intros Hv Hq Hex Hc. pose proof (execute_eq slow e w v st i _ Hv Hq) as He.
  destruct (vault_Sign _ _) as [sig0|] eqn:Es; [destruct (world_tip w) as [tip|]|].
  - destruct He as (rs & b & Hl & Hb & -> & He). cbv zeta in He. rewrite He in Hex. injection Hex as _ <-.
    apply Forall_app. split; [done|]. constructor; [|done]. by exists rs, b.
  - rewrite He in Hex. by injection Hex as _ <-.
  - rewrite He in Hex. by injection Hex as _ <-.
Qed.

Lemma settle_signs e w r r' :
  relayer_inv r → Forall (signed_call e) (calls (exec r)) →
  settle slow e w r = Some (Ret r') → Forall (signed_call e) (calls (exec r')).
Proof.
  intros Hr Hc. unfold settle. destruct (Vouchers (eng (auction r))) as [v ch| |] eqn:Ev; [|done..].
  pose proof (inv_vouchers _ (ri_sys _ Hr)) as Hvs. apply recv_Got in Ev as (rest & Eb & _). rewrite Eb in Hvs.
  apply Forall_cons in Hvs as [(l & en & _ & win & seen & _ & _ & _ & Hvi & _) _].
  unfold consume. destruct (execute slow e w v (exec r)) as [[res st]|] eqn:Ee; [|done].
  pose proof (execute_signs e w v (exec r) _ _ _ Hvi (ri_nonce _ Hr) Ee Hc) as Hs.
  destruct res; [|destruct (try_send _ _)]; try done; by intros [= <-].
Qed.

(** Only the executor sends claims. *)
Lemma step_exec e ev r r' :
  relayer_step slow hexToAddress hex e ev r = Some (Ret r') →
  exec r' = exec r ∨ ∃ w, settle slow e w r = Some (Ret r').
Proof.
  destruct ev; cbn [relayer_step]; intros Hs; [left..|right|left|left|left].
  - by destruct (acceptIntent _ _ _ _ _) as [[]|]; simplify_eq.
  - destruct (to_broadcast r !! j); [|done]. by destruct (hub_step _ _ _) as [[]|]; simplify_eq.
  - destruct (own_hub_event r ev); [|done]. by destruct (hub_step _ _ _) as [[]|]; simplify_eq.
  - destruct (intentDispatcher _); [|done]. unfold runIntentDispatcher in Hs.
    by destruct (recv (intents r)); simplify_eq/=.
  - destruct (bidDispatcher _); [|done]. unfold runBidDispatcher in Hs.
    destruct (pend (auction r)); [|done]. by destruct (recv _); simplify_eq/=.
  - destruct (own_engine_event ev); [|done]. by destruct (step ev (auction r)) as [[]|]; simplify_eq.
  - destruct (executor_Run _); [|done]. by exists w.
  - destruct (failureDrainer _); [|done]. unfold drainTxFailed in Hs. by destruct (recv (txFailed r)); simplify_eq/=.
  - by simplify_eq.
  - by destruct (cancelled r); simplify_eq.
Qed.

Lemma calls_signed e t q r :
  is_u64 (current q) → relayer_reachable slow hexToAddress hex e t q r → Forall (signed_call e) (calls (exec r)).
Proof.
  intros Hq. induction 1 as [|r ev r' Hr IH Hev Hs]; [constructor|].
  destruct (step_exec e ev r r' Hs) as [-> |[w Hset]]; [done|].
  eapply settle_signs; [|done|done]. by eapply relayer_reachable_inv.
Qed.

End preservation.

(** ** Theorems *)

Section theorems.
Context `{Crypto} `{EthTypes}.
Context (slow : string → string) (hexToAddress : string → Address) (hex : Address → string).
Abbreviation rreach := (relayer_reachable slow hexToAddress hex).
Abbreviation rstep := (relayer_step slow hexToAddress hex).

(** C8 (safety). No goroutine of the process ever panics, whatever the
    requests, solvers, node answers, schedule and time of shutdown: the
    guarantees each component gives (validated intents, priced bids, vouchers
    that carry their intent, open channels) are what the next one needs. *)
Theorem relayer_never_panics e t q r ev :
  CryptoLaws → is_u64 (current q) → rreach e t q r → event_ok ev →
  rstep e ev r ≠ Some Panic.
Proof.
  intros HL Hq Hr Hev E. apply relayer_reachable_inv in Hr; [|done..].
  pose proof (relayer_step_ok slow hexToAddress hex e ev r Hr Hev) as Hs. by rewrite E in Hs.
Qed.

(** C13 (bounds). There are never more claims than accepted intents: the calls
    made, the vouchers waiting and the auctions that may still emit one never
    exceed the auctions started, and those, with the intents waiting, never
    exceed the requests answered with 202. *)
Theorem claims_bounded e t q r :
  CryptoLaws → is_u64 (current q) → rreach e t q r →
  length (calls (exec r)) + length (buf (voucherCh (eng (auction r)))) + size (live (gor (auction r)))
    ≤ length (entries (eng (auction r))) ∧
  length (entries (eng (auction r))) + length (buf (intents r)) ≤ length (accepted r).
Proof.
  intros HL Hq Hr. apply relayer_reachable_inv in Hr; [|done..].
  pose proof (ri_budget _ Hr) as Hb. unfold budget in Hb. split; [lia|apply (ri_origin _ Hr)].
Qed.

Lemma relayer_run_app e evs evs' r r' :
  relayer_run slow hexToAddress hex e evs r = Some (Ret r') →
  relayer_run slow hexToAddress hex e (evs ++ evs') r = relayer_run slow hexToAddress hex e evs' r'.
Proof.
  revert r. induction evs as [|ev evs IH]; intros r; cbn [app relayer_run]; [by intros [= ->]|].
  destruct (relayer_step _ _ _ e ev r) as [[r1|]|]; [apply IH|done..].
Qed.

Lemma relayer_run_reachable e t q evs r r' :
  rreach e t q r → Forall event_ok evs →
  relayer_run slow hexToAddress hex e evs r = Some (Ret r') → rreach e t q r'.
Proof.
  intros Hr Hev. revert r Hr. induction Hev as [|ev evs Hev _ IH]; intros r Hr; simpl; [by intros [= <-]|].
  destruct (rstep e ev r) as [[r1|]|] eqn:E; [|done..]. apply IH. by eapply relayer_next.
Qed.

End theorems.

(** ** Witnesses: one intent from its submission to its claim *)

Section witnesses.
#[local] Existing Instance Toy.crypto.
#[local] Existing Instance ToyChain.eth.

Definition w_start : relayer := new_relayer 200000000 (mkNonceQueue 5).

Definition w_bid2 : result string bidRequest := Ok (mkBidRequest "i2" "0x00" "995" "3").

Definition w_schedule : list relayer_event :=
  [RHub HServeWS; RPost w_post w_now w_now; RBroadcast 0 0 [0]; RHub (HSend 0); RHub (HEnd 0);
   RHub (HWrite 0 false true true); RIntent w_now; RHub (HRead 0 (RMessage w_bid2 w_now)); RBid;
   RAuction (EAppend 0); RAuction (ETimer 0); RAuction (ELookup 0); RAuction (EScan 0);
   RAuction (EEmit 0 w_now); RAuction (ECleanup 0); RSettle ToyChain.accepting; RCancel].

Definition w_end : relayer :=
  match relayer_run id w_addr (λ _, "0x00") ToyChain.executor w_schedule w_start with
  | Some (Ret r) => r
  | _ => w_start
  end.

Lemma w_end_run :
  relayer_run id w_addr (λ _, "0x00") ToyChain.executor w_schedule w_start = Some (Ret w_end).
Proof.
  assert (match relayer_run id w_addr (λ _, "0x00") ToyChain.executor w_schedule w_start with
          | Some (Ret _) => true | _ => false end = true) as Ht by (vm_compute; reflexivity).
  unfold w_end. by destruct (relayer_run _ _ _ _ _ _) as [[r|]|].
Qed.

Lemma w_end_reach :
  relayer_reachable id w_addr (λ _, "0x00") ToyChain.executor 200000000 (mkNonceQueue 5) w_end.
Proof.
  eapply relayer_run_reachable; [constructor| |exact w_end_run].
  repeat (constructor; [first [exact I | exact ToyChain.typed_accepting]|]). constructor.
Qed.

Lemma w_end_claim : length (calls (exec w_end)) = 1.
Proof. vm_compute. reflexivity. Qed.

Lemma w_queue_u64 : is_u64 (current (mkNonceQueue 5)).
Proof. split; simpl; lia. Defined.

Lemma relayer_never_panics_witness :
  relayer_step id w_addr (λ _, "0x00") ToyChain.executor (RSettle ToyChain.accepting) w_end ≠ Some Panic.
Proof.
  exact (relayer_never_panics id w_addr (λ _, "0x00") ToyChain.executor 200000000 (mkNonceQueue 5) w_end
    (RSettle ToyChain.accepting) Toy.crypto_laws w_queue_u64 w_end_reach ToyChain.typed_accepting).
Defined.

Lemma claims_bounded_witness : length (calls (exec w_end)) = 1 ∧ 1 ≤ length (entries (eng (auction w_end))).
Proof.
  split; [exact w_end_claim|].
  pose proof (claims_bounded id w_addr (λ _, "0x00") ToyChain.executor 200000000 (mkNonceQueue 5) w_end
    Toy.crypto_laws w_queue_u64 w_end_reach) as [Hb _]. rewrite w_end_claim in Hb. lia.
Defined.

End witnesses.
