(* ===== verification/Trace.v ===== *)
(** * Where a claim comes from (cmd/relayer/main.go, internal/auction)

    The invariant of Relayer.v speaks of one state of the process.  This file
    speaks of its histories: a list of events [evs] run from the initial
    state.  [decided evs l i w] says that in [evs] the goroutine of the auction
    [l] for the intent [i] scanned its bids, and that [w] won among all the
    bids the entry held at that moment.  Every voucher and every [ClaimFunds]
    call of the process goes back to such a scan. *)

From S2P Require Import Prelude GoStd GoChan Core AuctionState AuctionRun Signer NonceQueue Executor.
From S2P Require Import Hub HubProps Handler Relayer.

#[local] Open Scope string_scope.
#[local] Open Scope list_scope.
#[local] Open Scope nat_scope.

(** ** Decisions *)

(** The scan of [l] in the state [s] decides for [w]. *)
Definition decides (s : sys) (l : loc) (i : Intent) (w : Bid) : Prop :=
  ∃ en, entries (eng s) !! l = Some en ∧ entry_intent en = i ∧ is_winner w (entry_bids en).

(** Goroutines about to send and vouchers waiting stand for decisions in
    [P]. *)
Record sys_traced (P : loc → Intent → Bid → Prop) (s : sys) : Prop := {
  st_emit : ∀ l i w, gor s !! l = Some (mkG i (PEmit w)) → P l i w;
  st_vouchers : Forall (λ v, ∃ l i w now, P l i w ∧ v = winnerVoucher i w now) (buf (voucherCh (eng s)))
}.

Section engine.
Implicit Types (s : sys) (P Q : loc → Intent → Bid → Prop).

Lemma sys_traced_mono P Q s : (∀ l i w, P l i w → Q l i w) → sys_traced P s → sys_traced Q s.
Proof.
  intros HPQ [He Hv]. split; [eauto|]. eapply Forall_impl; [exact Hv|].
  intros v (l & i & w & now & HP & ->). exists l, i, w, now. auto.
Qed.

(** Only a scan brings a goroutine to its send. *)
Lemma traced_set_pc P s l i p :
  sys_traced P s → (∀ w, p = PEmit w → P l i w) → sys_traced P (set_pc s l i p).
Proof.
  intros [He Hv] Hp. split; [|done]. intros l' i' w. rewrite gor_set_pc.
  case_decide; [|apply He]. subst. intros [= <- ->]. by apply Hp.
Qed.

Lemma traced_start P s i now : sys_traced P s → sys_traced P (step_start s i now).
Proof.
  intros [He Hv]. unfold step_start, StartAuction.
  destruct (auctions (eng s) !! Intent_ID i); [done|]. split; [|done]. simpl.
  intros l' i' w. rewrite lookup_insert. case_decide; [done|apply He].
Qed.

Lemma traced_frame P s s' :
  gor s' = gor s → buf (voucherCh (eng s')) = buf (voucherCh (eng s)) → sys_traced P s → sys_traced P s'.
Proof. intros Hg Hb [He Hv]. split; by rewrite ?Hg, ?Hb. Qed.

Lemma traced_emit P s l i w now e :
  sys_traced P s → gor s !! l = Some (mkG i (PEmit w)) → emitVoucher (eng s) (winnerVoucher i w now) = Ret e →
  sys_traced P (mkSys e (<[l := mkG i PCleanup]> (gor s)) (pend s)).
Proof.
  intros Ht Hg He. pose proof (traced_set_pc P s l i PCleanup Ht ltac:(done)) as [He' Hv']. split; [exact He'|].
  unfold emitVoucher in He. simpl in *. destruct (try_send _ _) as [ch| |] eqn:Et; simplify_eq; [|done].
  apply try_send_Sent in Et as (_ & _ & ->). simpl. apply Forall_app. split; [done|].
  apply Forall_singleton. exists l, i, w, now. split; [|done]. by apply (st_emit _ _ Ht).
Qed.

(** A step inside the engine adds the decision of a scan and nothing else. *)
Lemma traced_own P Q ev s s' :
  inv s → own_engine_event ev = true → step ev s = Some (Ret s') → sys_traced P s →
  (∀ l i w, P l i w → Q l i w) → (∀ l i w, ev = EScan l → decides s l i w → Q l i w) → sys_traced Q s'.
Proof.
  intros Hi Hown Hs Ht HPQ Hscan. apply (sys_traced_mono P Q s HPQ) in Ht.
  destruct ev as [| |k|l|l|l|l now|l|]; try done; simpl in Hs.
  - apply fmap_Some in Hs as (s1 & Hs & [= <-]). unfold step_append in Hs.
    destruct (pend s !! k) as [[l b]|]; [|done]. injection Hs as <-. by apply (traced_frame Q s).
  - destruct (gor s !! l) as [[i []]|]; simplify_eq. by apply traced_set_pc.
  - destruct (gor s !! l) as [[i []]|]; simplify_eq. by apply traced_set_pc.
  - destruct (gor s !! l) as [[i [| |p| |]]|] eqn:Hg; simplify_eq.
    destruct (inv_scan s l i p Hi Hg) as (en & Hen & Esc & Hpr). rewrite Esc in Hs.
    destruct (inv_gor s Hi l _ Hg) as (_ & en' & Hen' & Hin & _). assert (en' = en) as -> by congruence.
    destruct (scanBids None (entry_bids en)) as [[w|]|] eqn:Eb; simplify_eq; apply traced_set_pc; try done.
    intros w' [= <-]. apply Hscan; [done|]. exists en. split_and!; [done|done|by apply scanBids_Some_inv].
  - destruct (gor s !! l) as [[i []]|] eqn:Hg; simplify_eq.
    destruct (emitVoucher _ _) as [e|] eqn:Ee; simplify_eq. by eapply traced_emit.
  - destruct (gor s !! l) as [[i []]|]; simplify_eq. destruct Ht as [He Hv]. split; [|done]. simpl.
    intros l' i' w [_ Hl]%lookup_delete_Some. by apply He.
Qed.

End engine.

(** ** Histories of the process *)

Section histories.
Context `{Crypto} `{EthTypes} `{!CryptoLaws}.
Context (slow : string → string) (hexToAddress : string → Address) (hex : Address → string).
Context (e : Executor) (t : Z) (q : NonceQueue).
Implicit Types (r : relayer) (P Q : loc → Intent → Bid → Prop).

Abbreviation rrun evs := (relayer_run slow hexToAddress hex e evs (new_relayer t q)).
Abbreviation rstep := (relayer_step slow hexToAddress hex e).

(** In the history [evs] the auction [l] of [i] was decided for [w]: the state
    just before one of its scans of [l] shows [w] as the winner of all the
    bids of the entry. *)
Definition decided (evs : list relayer_event) (l : loc) (i : Intent) (w : Bid) : Prop :=
  ∃ pre post r0, evs = pre ++ RAuction (EScan l) :: post ∧ rrun pre = Some (Ret r0) ∧ decides (auction r0) l i w.

Definition call_of (i : Intent) (w : Bid) (call : ClaimCall) : Prop :=
  call_intentId call = intentIDBytes (Intent_ID i) ∧ call_solver call = Bid_Solver w.

Record traced P r : Prop := {
  tr_engine : sys_traced P (auction r);
  tr_calls : Forall (λ call, ∃ l i w, P l i w ∧ call_of i w call) (calls (exec r))
}.

Lemma traced_mono P Q r : (∀ l i w, P l i w → Q l i w) → traced P r → traced Q r.
Proof.
  intros HPQ [He Hc]. split; [by eapply sys_traced_mono|]. eapply Forall_impl; [exact Hc|].
  intros call (l & i & w & HP & Hcall). exists l, i, w. auto.
Qed.

(** A claim is made for the voucher at the head of the buffer. *)
Lemma traced_settle P w r r' :
  relayer_inv r → typed w → traced P r → settle slow e w r = Some (Ret r') → traced P r'.
Proof.
  intros Hr Ht [[He Hv] Hc]. unfold settle.
  destruct (Vouchers (eng (auction r))) as [v ch| |] eqn:Ev; [|done..].
  apply recv_Got in Ev as (rest & Eb & ->). rewrite Eb in Hv.
  apply Forall_cons in Hv as [(l & i & b & now & HP & ->) Hrest].
  destruct (execute_claims slow e w (winnerVoucher i b now) (exec r) i eq_refl Ht (ri_nonce _ Hr))
    as (res & st' & new & Hex & _ & Hcs & _ & Hnew).
  destruct (ri_failed _ Hr) as [Hfc _].
  destruct (consume_Ret slow e w _ (exec r) (txFailed r) st' res Hfc Hex) as (f' & -> & _).
  intros [= <-]. split; [by split|]. simpl. rewrite Hcs. apply Forall_app. split; [done|].
  eapply Forall_impl; [exact Hnew|]. intros call Hcall. by exists l, i, b.
Qed.

Lemma traced_step P Q ev r r' :
  relayer_inv r → event_ok ev → rstep ev r = Some (Ret r') → traced P r →
  (∀ l i w, P l i w → Q l i w) → (∀ l i w, ev = RAuction (EScan l) → decides (auction r) l i w → Q l i w) →
  traced Q r'.
Proof.
  intros Hr Hev Hs Ht HPQ Hscan. destruct ev; cbn [relayer_step] in Hs.
  6: { destruct (own_engine_event ev) eqn:Eo; [|done]. destruct (step ev (auction r)) as [[s|]|] eqn:Es; simplify_eq.
       split; [|apply (traced_mono P Q r HPQ Ht)]. simpl.
       eapply (traced_own P Q ev _ _ (ri_sys _ Hr) Eo Es (tr_engine _ _ Ht) HPQ). intros l i w ->. by apply Hscan. }
  all: apply (traced_mono P Q r HPQ) in Ht.
  - destruct (acceptIntent _ _ _ _ _) as [[]|]; simplify_eq. by destruct Ht.
  - destruct (to_broadcast r !! j); [|done]. destruct (hub_step _ _ _) as [[]|]; simplify_eq. by destruct Ht.
  - destruct (own_hub_event r ev); [|done]. destruct (hub_step _ _ _) as [[]|]; simplify_eq. by destruct Ht.
  - destruct (intentDispatcher _); [|done]. unfold runIntentDispatcher in Hs.
    destruct (recv (intents r)); simplify_eq/=. destruct Ht. split; [by apply traced_start|done].
  - destruct (bidDispatcher _); [|done]. unfold runBidDispatcher in Hs.
    destruct (pend (auction r)); [|done]. destruct (recv _) as [b ch| |]; simplify_eq/=.
    destruct (step_bid_frame (auction r) b) as [Ee Eg]. destruct Ht. split; [|done].
    apply (traced_frame Q (auction r)); [exact Eg|simpl; by rewrite Ee|done].
  - destruct (executor_Run _); [|done]. by eapply traced_settle.
  - destruct (failureDrainer _); [|done]. unfold drainTxFailed in Hs.
    destruct (recv (txFailed r)); simplify_eq/=. by destruct Ht.
  - simplify_eq. by destruct Ht.
  - destruct (cancelled r); simplify_eq. by destruct Ht.
Qed.

Lemma decided_snoc evs ev l i w : decided evs l i w → decided (evs ++ [ev]) l i w.
Proof.
  intros (pre & post & r0 & -> & Hrun & Hd). exists pre, (post ++ [ev]), r0.
  split_and!; [by rewrite <- (assoc_L (++))|done|done].
Qed.

Lemma run_snoc evs ev r' :
  rrun (evs ++ [ev]) = Some (Ret r') → ∃ r, rrun evs = Some (Ret r) ∧ rstep ev r = Some (Ret r').
Proof.
  generalize (new_relayer t q) as r0. induction evs as [|ev0 evs IH]; intros r0; cbn [app relayer_run].
  - destruct (rstep ev r0) as [[r1|]|] eqn:E; [|done..]. intros [= <-]. by exists r0.
  - destruct (rstep ev0 r0) as [[r1|]|]; [apply IH|done..].
Qed.

(** Everything the process sends goes back to a scan of its history. *)
Lemma history_traced evs r :
  is_u64 (current q) → Forall event_ok evs → rrun evs = Some (Ret r) → traced (decided evs) r.
Proof.
  intros Hq. revert r. induction evs as [|ev evs IH] using rev_ind; intros r Hok Hrun.
  { injection Hrun as <-. split; [split|]; simpl; [|constructor..]. intros l i w. by rewrite lookup_empty. }
  apply Forall_app in Hok as [Hok Hev]. rewrite Forall_singleton in Hev. apply run_snoc in Hrun as (r0 & Hrun & Hs).
  assert (relayer_inv r0) as Hr0.
  { eapply relayer_reachable_inv; [done|]. eapply relayer_run_reachable; [constructor|done|exact Hrun]. }
  eapply (traced_step (decided evs) _ ev r0); [exact Hr0|exact Hev|exact Hs|by apply IH|..].
  - intros l i w. apply decided_snoc.
  - intros l i w -> Hd. by exists evs, [], r0.
Qed.

(** What is known of a decision. *)
Lemma decided_known evs l i w :
  is_u64 (current q) → Forall event_ok evs → decided evs l i w →
  ∃ pre post r0 en, evs = pre ++ RAuction (EScan l) :: post ∧ rrun pre = Some (Ret r0) ∧
    entries (eng (auction r0)) !! l = Some en ∧ entry_intent en = i ∧ is_winner w (entry_bids en) ∧
    i ∈ accepted r0 ∧ accepted_intent i ∧ Bid_IntentID w = Intent_ID i ∧ valid_bid w.
Proof.
  intros Hq Hok (pre & post & r0 & -> & Hrun & en & Hen & <- & Hw).
  apply Forall_app in Hok as [Hok _].
  assert (relayer_inv r0) as Hr0.
  { eapply relayer_reachable_inv; [done|]. eapply relayer_run_reachable; [constructor|done|exact Hrun]. }
  destruct (so_entries _ _ (ri_engine _ Hr0) _ _ Hen) as [Ha Hv].
  pose proof (is_winner_elem _ _ Hw) as Hin.
  exists pre, post, r0, en. split_and!; try done.
  - by apply (proj1 (Forall_forall _ _) (ri_accepted _ Hr0)).
  - by apply (proj1 (Forall_forall _ _) (inv_bids _ (ri_sys _ Hr0) _ _ Hen)).
  - by apply (proj1 (Forall_forall _ _) Hv).
Qed.

End histories.

(** ** Theorem *)

Section theorem.
Context `{Crypto} `{EthTypes}.
Context (slow : string → string) (hexToAddress : string → Address) (hex : Address → string).

Abbreviation rrun := (relayer_run slow hexToAddress hex).

(** C1 (safety). End to end: for every [ClaimFunds] call of a run of the
    process there is a moment of that run, just before the scan of some
    auction, at which the intent of the auction had been accepted by the API
    (positive amount, nonempty id) and the solver the call pays had made the
    winning bid among all the bids the auction held: none has a higher
    (AmountOut, GasPrice) and none as high came earlier.  The bid names that
    intent and has positive amounts, the call names the escrow of that
    intent, and the call's signature is one from which the contract recovers
    the relayer's address. *)
Theorem claims_trace e t q evs r call :
  CryptoLaws → is_u64 (current q) → Forall event_ok evs →
  rrun e evs (new_relayer t q) = Some (Ret r) → call ∈ calls (exec r) →
  ∃ pre l post r0 en i w,
    evs = pre ++ RAuction (EScan l) :: post ∧ rrun e pre (new_relayer t q) = Some (Ret r0) ∧
    entries (eng (auction r0)) !! l = Some en ∧ entry_intent en = i ∧ is_winner w (entry_bids en) ∧
    i ∈ accepted r0 ∧ accepted_intent i ∧ Bid_IntentID w = Intent_ID i ∧ valid_bid w ∧
    call_intentId call = intentIDBytes (Intent_ID i) ∧ call_solver call = Bid_Solver w ∧
    ∀ chain : OnChain, vault_wf (ex_vault e) → vault_Address (ex_vault e) ≠ zeroAddress →
      ecrecover (ClaimDigest (intentIDBytes (Intent_ID i)) (Bid_Solver w)) (call_sig call) =
        Some (vault_Address (ex_vault e)).
Proof.
  intros HL Hq Hok Hrun Hin.
  pose proof (tr_calls _ _ (history_traced slow hexToAddress hex e t q evs r Hq Hok Hrun)) as Hc.
  apply (proj1 (Forall_forall _ _)) with (x := call) in Hc as (l & i & w & Hd & Hi & Hs); [|done].
  destruct (decided_known slow hexToAddress hex e t q evs l i w Hq Hok Hd)
    as (pre & post & r0 & en & E & Hpre & Hen & Ei & Hw & Ha & Hai & Hb & Hv).
  exists pre, l, post, r0, en, i, w. split_and!; try done. intros chain Hwf Hz.
  assert (relayer_reachable slow hexToAddress hex e t q r) as Hr
    by (eapply relayer_run_reachable; [constructor|done|exact Hrun]).
  pose proof (calls_signed slow hexToAddress hex e t q r Hq Hr) as Hsg.
  apply (proj1 (Forall_forall _ _)) with (x := call) in Hsg as (rs & b & _ & _ & Hsign & Esig); [|done].
  rewrite <- Hi, <- Hs, Esig. by apply vault_signature_accepted.
Qed.

End theorem.

(** ** Witness *)

Section witness.
#[local] Existing Instance Toy.crypto.
#[local] Existing Instance ToyChain.eth.

Lemma w_schedule_ok : Forall event_ok w_schedule.
Proof. repeat (constructor; [first [exact I | exact ToyChain.typed_accepting]|]). constructor. Qed.

Definition scan_of (ev : relayer_event) : option loc :=
  match ev with RAuction (EScan l) => Some l | _ => None end.

Lemma claims_trace_witness :
  ∃ call r0 en w, call ∈ calls (exec w_end) ∧ entries (eng (auction r0)) !! 0 = Some en ∧
    is_winner w (entry_bids en) ∧ call_solver call = Bid_Solver w.
Proof.
  pose proof w_end_claim as Hl. destruct (calls (exec w_end)) as [|call cs] eqn:Ec; [discriminate|].
  destruct (claims_trace id w_addr (λ _, "0x00") ToyChain.executor 200000000 (mkNonceQueue 5) w_schedule w_end call
    Toy.crypto_laws w_queue_u64 w_schedule_ok w_end_run)
    as (pre & l & post & r0 & en & i & w & E & _ & Hen & _ & Hw & _ & _ & _ & _ & _ & Hs & _).
  - rewrite Ec. left.
  - assert (l = 0) as ->.
    { apply (f_equal (omap scan_of)) in E. rewrite omap_app in E.
      change (omap scan_of w_schedule) with [0] in E. cbn [omap list_omap scan_of] in E.
      destruct (omap scan_of pre) as [|? []]; by injection E. }
    exists call, r0, en, w. split_and!; [left|exact Hen|exact Hw|exact Hs].
Defined.

End witness.
