(* ===== verification/Config.v ===== *)
(** * Configuration (cmd/relayer/main.go: environment, .env file)

    [loadDotEnv] over the text of the file and the process environment,
    [mustEnv], and the configuration [main] reads.

    The parts of the standard library it uses are modelled: lines as
    [bufio.Scanner] delivers them (with its limit on the length of a line),
    [strings.TrimSpace] on UTF-8 text, [strings.SplitN], [os.Getenv],
    [os.Setenv] with its errors, [strconv.ParseUint] and [time.Duration]
    arithmetic on int64. *)

From S2P Require Import Prelude GoStd Core.

#[local] Open Scope string_scope.
#[local] Open Scope list_scope.
#[local] Open Scope nat_scope.

(** ** Standard library *)

Module Text.

Definition chr (n : nat) : string := String.String (Ascii.ascii_of_nat n) "".

Definition chr2 (a b : nat) : string := String.append (chr a) (chr b).
Definition chr3 (a b c : nat) : string := String.append (chr a) (chr2 b c).

(** The UTF-8 encodings of the runes [unicode.IsSpace] accepts: the ASCII
    ones, U+0085, U+00A0, U+1680, U+2000 to U+200A, U+2028, U+2029, U+202F,
    U+205F and U+3000. *)
Definition spaces : list string :=
  [chr 9; chr 10; chr 11; chr 12; chr 13; chr 32] ++
  [chr2 194 133; chr2 194 160; chr3 225 154 128] ++
  (chr3 226 128 <$> seq 128 11) ++
  [chr3 226 128 168; chr3 226 128 169; chr3 226 128 175; chr3 226 129 159; chr3 227 128 128].

Fixpoint rev_string (s acc : string) : string :=
  match s with
  | EmptyString => acc
  | String.String c s => rev_string s (String.String c acc)
  end.

Definition reverse (s : string) : string := rev_string s "".

(** Drop the elements of [pats] the string starts with, one after the other;
    every round drops at least one byte. *)
Fixpoint strip (fuel : nat) (pats : list string) (s : string) : string :=
  match fuel with
  | 0 => s
  | S fuel =>
      match List.find (Strings.HasPrefix s) pats with
      | Some p => strip fuel pats (Strings.drop_string (String.length p) s)
      | None => s
      end
  end.

Definition trim (pats : list string) (s : string) : string := strip (String.length s) pats s.

Definition TrimSpace (s : string) : string :=
  reverse (trim (reverse <$> spaces) (reverse (trim spaces s))).

(** The code of [=]. *)
Definition equals : Ascii.ascii := Ascii.ascii_of_nat 61.

(** [strings.SplitN(s, "=", 2)]: [None] when there is no separator (one
    part), else the two parts. *)
Fixpoint splitEq (s : string) : option (string * string) :=
  match s with
  | EmptyString => None
  | String.String c s =>
      if Ascii.eqb c equals then Some ("", s)
      else
        match splitEq s with
        | None => None
        | Some (a, b) => Some (String.String c a, b)
        end
  end.

Fixpoint has_char (c : Ascii.ascii) (s : string) : bool :=
  match s with
  | EmptyString => false
  | String.String d s => Ascii.eqb c d || has_char c s
  end.

Definition newline : Ascii.ascii := Ascii.ascii_of_nat 10.
Definition nul : Ascii.ascii := Ascii.ascii_of_nat 0.

(** The text up to the first newline, and what follows it. *)
Fixpoint cut_line (s : string) : string * option string :=
  match s with
  | EmptyString => ("", None)
  | String.String c s =>
      if Ascii.eqb c newline then ("", Some s)
      else let '(l, r) := cut_line s in (String.String c l, r)
  end.

(** A trailing carriage return is dropped. *)
Fixpoint dropCR (s : string) : string :=
  match s with
  | EmptyString => ""
  | String.String c EmptyString => if Ascii.eqb c (Ascii.ascii_of_nat 13) then "" else s
  | String.String c s => String.String c (dropCR s)
  end.

Definition MaxScanTokenSize : Z := 64 * 1024.

(** The lines a [bufio.Scanner] delivers, and whether it stopped at a line
    that does not fit its buffer.  A final empty line is not delivered. *)
Fixpoint scanLines (fuel : nat) (s : string) : list string * bool :=
  match fuel, s with
  | 0, _ | _, EmptyString => ([], false)
  | S fuel, _ =>
      let '(l, r) := cut_line s in
      if (MaxScanTokenSize <=? Z.of_nat (String.length l))%Z then ([], true)
      else
        match r with
        | None => ([dropCR l], false)
        | Some s' => let '(ls, err) := scanLines fuel s' in (dropCR l :: ls, err)
        end
  end.

Definition lines (s : string) : list string * bool := scanLines (String.length s) s.

(** [strconv.ParseUint(s, 10, 64)] *)
Definition ParseUint (s : string) : option Z :=
  match Big.scan_nat s with
  | Some n => if (n <? 2 ^ 64)%Z then Some n else None
  | None => None
  end.

End Text.

(** Package os: the environment of the process. *)
Module Env.

Abbreviation env := (gmap string string).

Definition Getenv (e : env) (key : string) : string := default "" (e !! key).

(** [os.Setenv] refuses an empty name, a name with [=] or NUL and a value with
    NUL. *)
Definition Setenv (e : env) (key value : string) : option env :=
  if bool_decide (key = "") || Text.has_char Text.equals key || Text.has_char Text.nul key
     || Text.has_char Text.nul value
  then None
  else Some (<[key := value]> e).

End Env.

(** ** Helpers of main *)

Import Text Env.

Inductive ConfigError :=
| OpenFailed (err : string)
| SetenvFailed (key : string)
| ErrTooLong
| NotSet (key : string)
| InvalidChainID (raw : string)
| InvalidTimeout (raw : string).

(** [mustEnv]; [logger.Fatal] ends the process. *)
Definition mustEnv (e : env) (key : string) : result ConfigError string :=
  let v := Getenv e key in
  if bool_decide (v = "") then Err (NotSet key) else Ok v.

(** The assignment a line makes, if any. *)
Definition parseLine (raw : string) : option (string * string) :=
  let line := TrimSpace raw in
  if bool_decide (line = "") || Strings.HasPrefix line "#" then None
  else
    match splitEq line with
    | None => None
    | Some (k, v) => Some (TrimSpace k, TrimSpace v)
    end.

(** The scan loop. *)
Fixpoint loadLines (ls : list string) (e : env) : result ConfigError unit * env :=
  match ls with
  | [] => (Ok tt, e)
  | l :: ls =>
      match parseLine l with
      | None => loadLines ls e
      | Some (key, value) =>
          if bool_decide (Getenv e key = "") then
            match Setenv e key value with
            | None => (Err (SetenvFailed key), e)
            | Some e' => loadLines ls e'
            end
          else loadLines ls e
      end
  end.

(** [file] is the content of the file or the error of [os.Open]. *)
Definition loadDotEnv (file : result string string) (e : env) : result ConfigError unit * env :=
  match file with
  | Err err => (Err (OpenFailed err), e)
  | Ok content =>
      let '(ls, tooLong) := lines content in
      match loadLines ls e with
      | (Err err, e') => (Err err, e')
      | (Ok _, e') => (if tooLong : bool then Err ErrTooLong else Ok tt, e')
      end
  end.

(** ** Configuration *)

Record config := mkConfig {
  rpcURL : string;
  privateKeyHex : string;
  settlementAddrStr : string;
  chainIDUint : Z;
  auctionTimeout : Z;   (* nanoseconds, int64 *)
  port : string
}.

Definition Millisecond : Z := 10 ^ 6.

(** [time.Duration(ms) * time.Millisecond]: the conversion from uint64 and
    the product wrap. *)
Definition durationMS (ms : Z) : Z := wrap_i64 (wrap_i64 ms * Millisecond).

(** [os.Getenv(key)] with a default for the empty string. *)
Definition getenvDefault (e : env) (key dflt : string) : string :=
  let v := Getenv e key in if bool_decide (v = "") then dflt else v.

(** Section 2 of [main], after the .env file. *)
Definition readConfig (e : env) : result ConfigError config :=
  rpc ← mustEnv e "BASE_RPC_URL";
  key ← mustEnv e "RELAYER_PRIVATE_KEY";
  addr ← mustEnv e "SETTLEMENT_CONTRACT_ADDRESS";
  chain ← mustEnv e "CHAIN_ID";
  match ParseUint chain with
  | None => Err (InvalidChainID chain)
  | Some chainID =>
      let ms := getenvDefault e "AUCTION_TIMEOUT_MS" "200" in
      match ParseUint ms with
      | None => Err (InvalidTimeout ms)
      | Some auctionMS =>
          Ok (mkConfig rpc key addr chainID (durationMS auctionMS) (getenvDefault e "PORT" "8080"))
      end
  end.

(** ** Lemmas: trimming plain text *)

(** Printable ASCII without the space. *)
Definition plain_char (c : Ascii.ascii) : bool :=
  let n := Ascii.nat_of_ascii c in (33 <=? n) && (n <=? 126).

Fixpoint plain (s : string) : bool :=
  match s with
  | EmptyString => true
  | String.String c s => plain_char c && plain s
  end.

Section text_lemmas.
#[local] Arguments String.append _ _ : simpl nomatch.

(** No space, read forwards or backwards, starts with a plain character. *)
Definition starts_plain (p : string) : bool :=
  match p with
  | EmptyString => true
  | String.String c _ => plain_char c
  end.

Lemma spaces_not_plain :
  forallb (λ p, negb (starts_plain p)) spaces = true ∧
  forallb (λ p, negb (starts_plain p)) (reverse <$> spaces) = true.
Proof. split; vm_compute; reflexivity. Qed.

Lemma find_plain pats c s :
  forallb (λ p, negb (starts_plain p)) pats = true → plain_char c = true →
  List.find (Strings.HasPrefix (String.String c s)) pats = None.
Proof.
  intros Hp Hc. induction pats as [|p pats IH]; [done|]. simpl in Hp |- *.
  apply andb_true_iff in Hp as [Hs Hp]. rewrite IH by done.
  destruct p as [|d p]; [done|]. simpl in Hs |- *.
  destruct (Ascii.eqb_spec d c) as [->|]; [|done]. by rewrite Hc in Hs.
Qed.

Lemma trim_plain pats s :
  forallb (λ p, negb (starts_plain p)) pats = true → starts_plain s = true → trim pats s = s.
Proof.
  intros Hp Hs. unfold trim. destruct s as [|c s]; [done|]. simpl in Hs. cbn [String.length strip].
  by rewrite find_plain.
Qed.

Lemma rev_string_app s t acc : rev_string (s ++ t) acc = rev_string t (rev_string s acc).
Proof. revert acc. induction s as [|c s IH]; intros acc; simpl; [done|]. apply IH. Qed.

Lemma rev_string_acc s acc : rev_string s acc = (rev_string s "" ++ acc)%string.
Proof.
  revert acc. induction s as [|c s IH]; intros acc; simpl; [done|].
  rewrite IH, (IH (String.String c "")). by rewrite string_app_assoc.
Qed.

Lemma reverse_involutive s : reverse (reverse s) = s.
Proof.
  unfold reverse. induction s as [|c s IH]; simpl; [done|].
  rewrite (rev_string_acc s), rev_string_app, IH. done.
Qed.

Lemma plain_app s t : plain (s ++ t) = plain s && plain t.
Proof. induction s as [|c s IH]; simpl; [done|]. by rewrite IH, andb_assoc. Qed.

Lemma plain_rev_acc s acc : plain (rev_string s acc) = plain s && plain acc.
Proof.
  revert acc. induction s as [|c s IH]; intros acc; simpl; [done|]. rewrite IH. simpl.
  destruct (plain_char c), (plain s); done.
Qed.

Lemma plain_starts s : plain s = true → starts_plain s = true.
Proof. destruct s; simpl; [done|]. by intros [-> _]%andb_true_iff. Qed.

(** Plain text is left alone. *)
Lemma TrimSpace_plain s : plain s = true → TrimSpace s = s.
Proof.
  intros Hs. destruct spaces_not_plain as [H1 H2]. unfold TrimSpace.
  rewrite (trim_plain spaces) by auto using plain_starts.
  rewrite (trim_plain (reverse <$> spaces)); [apply reverse_involutive|done|].
  apply plain_starts. unfold reverse. rewrite plain_rev_acc, Hs. done.
Qed.

Lemma splitEq_app key value :
  has_char equals key = false → splitEq (key ++ String.String equals value) = Some (key, value).
Proof.
  induction key as [|c key IH]; intros Hk; [done|].
  cbn [has_char splitEq String.append] in Hk |- *.
  apply orb_false_iff in Hk as [Hc Hk]. rewrite Ascii.eqb_sym, Hc, IH by done. done.
Qed.

(** A plain assignment parses to itself. *)
Lemma parseLine_plain key value :
  plain key = true → plain value = true → key ≠ "" → has_char equals key = false →
  Strings.HasPrefix key "#" = false →
  parseLine (key ++ String.String equals value) = Some (key, value).
Proof.
  intros Hk Hv Hne Heq Hh. unfold parseLine.
  assert (plain (key ++ String.String equals value) = true) as Hp by (rewrite plain_app, Hk; simpl; by rewrite Hv).
  rewrite (TrimSpace_plain _ Hp). destruct key as [|c key]; [done|].
  rewrite bool_decide_eq_false_2 by done.
  assert (Strings.HasPrefix (String.String c key ++ String.String equals value) "#" = false) as ->.
  { cbn [Strings.HasPrefix String.append] in Hh |- *. done. }
  simpl orb. rewrite splitEq_app, !TrimSpace_plain by done. done.
Qed.

End text_lemmas.

(** ** Lemmas: the environment *)

Section env_lemmas.

(** The values the lines assign to [k], in order. *)
Definition assigned (k : string) (ls : list string) : list string :=
  omap (λ l, match parseLine l with
             | Some (k', v) => if bool_decide (k' = k) then Some v else None
             | None => None
             end) ls.

(** The first one that is not empty. *)
Definition first_value (vs : list string) : string :=
  default "" (List.find (λ v, negb (bool_decide (v = ""))) vs).

Lemma Setenv_Some e k v e' : Setenv e k v = Some e' → e' = <[k := v]> e.
Proof. unfold Setenv. destruct (_ || _); [done|]. by intros [= <-]. Qed.

Lemma Getenv_insert e k v k' : Getenv (<[k := v]> e) k' = if decide (k = k') then v else Getenv e k'.
Proof. unfold Getenv. rewrite lookup_insert. by case_decide. Qed.

(** A variable that is set to something is never touched, whatever the file
    and even when loading fails. *)
Lemma loadLines_keeps ls e k : Getenv e k ≠ "" → (loadLines ls e).2 !! k = e !! k.
Proof.
  revert e. induction ls as [|l ls IH]; intros e Hk; [done|]. cbn [loadLines].
  destruct (parseLine l) as [[k' v]|]; [|by apply IH]. case_bool_decide as Hk'; [|by apply IH].
  destruct (Setenv e k' v) as [e'|] eqn:Es; [|done]. apply Setenv_Some in Es as ->.
  assert (k' ≠ k) by (intros ->; done).
  rewrite IH; [by rewrite lookup_insert_ne|]. rewrite Getenv_insert. by rewrite decide_False.
Qed.

(** After a successful load a variable that was empty holds the first
    non-empty value the file assigns to it. *)
Lemma loadLines_value ls e e' k :
  loadLines ls e = (Ok tt, e') →
  Getenv e' k = if bool_decide (Getenv e k = "") then first_value (assigned k ls) else Getenv e k.
Proof.
  revert e. induction ls as [|l ls IH]; intros e; cbn [loadLines].
  - intros [= <-]. by case_bool_decide.
  - unfold assigned. cbn [omap list_omap]. destruct (parseLine l) as [[k' v]|] eqn:Ep; [|by apply IH].
    case_bool_decide as Hk'.
    + destruct (Setenv e k' v) as [e1|] eqn:Es; [|done]. apply Setenv_Some in Es as ->.
      intros Hl. rewrite (IH _ Hl), Getenv_insert. destruct (decide (k' = k)) as [->|Hne].
      * rewrite (bool_decide_eq_true_2 (k = k)) by done. rewrite (bool_decide_eq_true_2 (Getenv e k = "")) by done.
        unfold first_value. cbn [List.find]. case_bool_decide; done.
      * rewrite (bool_decide_eq_false_2 (k' = k)) by done. done.
    + intros Hl. rewrite (IH _ Hl). case_bool_decide as Hk; [|done].
      rewrite bool_decide_eq_false_2; [done|]. intros ->. done.
Qed.

(** A failure of [Setenv] stops the loop; what was set before stays. *)
Lemma loadLines_error ls e err e' :
  loadLines ls e = (Err err, e') →
  ∃ pre l post k v, ls = pre ++ l :: post ∧ loadLines pre e = (Ok tt, e') ∧
    parseLine l = Some (k, v) ∧ Getenv e' k = "" ∧ Setenv e' k v = None ∧ err = SetenvFailed k.
Proof.
  revert e. induction ls as [|l ls IH]; intros e; cbn [loadLines]; [done|].
  destruct (parseLine l) as [[k v]|] eqn:Ep; [case_bool_decide as Hk|].
  - destruct (Setenv e k v) as [e1|] eqn:Es.
    + intros (pre & l' & post & k' & v' & -> & Hpre & Hr)%IH.
      exists (l :: pre), l', post, k', v'. split; [done|]. split; [|done].
      cbn [loadLines]. by rewrite Ep, bool_decide_eq_true_2, Es.
    + intros [= <- <-]. exists [], l, ls, k, v. done.
  - intros (pre & l' & post & k' & v' & -> & Hpre & Hr)%IH.
    exists (l :: pre), l', post, k', v'. split; [done|]. split; [|done].
    cbn [loadLines]. by rewrite Ep, bool_decide_eq_false_2.
  - intros (pre & l' & post & k' & v' & -> & Hpre & Hr)%IH.
    exists (l :: pre), l', post, k', v'. split; [done|]. split; [|done].
    cbn [loadLines]. by rewrite Ep.
Qed.

End env_lemmas.

(** ** Theorems *)

Section theorems.

(** C25 (functional). Loading the .env file: a variable that is set to a
    non-empty value is never changed, whatever the file holds and even when
    loading fails; after a successful load every other variable has the first
    non-empty value the file assigns to it; and when a name is refused by the
    system, the lines before it have been applied and the rest of the file is
    ignored. *)
Theorem loadDotEnv_spec content e res e' k :
  loadDotEnv (Ok content) e = (res, e') →
  (Getenv e k ≠ "" → e' !! k = e !! k) ∧
  (res = Ok tt → Getenv e k = "" → Getenv e' k = first_value (assigned k (lines content).1)) ∧
  (∀ key, res = Err (SetenvFailed key) →
    ∃ pre l post v, (lines content).1 = pre ++ l :: post ∧ loadLines pre e = (Ok tt, e') ∧
      parseLine l = Some (key, v) ∧ Setenv e' key v = None).
Proof.
  unfold loadDotEnv. destruct (lines content) as [ls long]. cbn [fst].
  destruct (loadLines ls e) as [[[]|err] e1] eqn:El; intros [= <- <-]; split_and!.
  - intros Hk. pose proof (loadLines_keeps ls e k Hk) as Hl. by rewrite El in Hl.
  - intros _ Hk. rewrite (loadLines_value _ _ _ k El). by rewrite bool_decide_eq_true_2.
  - intros key. by destruct long.
  - intros Hk. pose proof (loadLines_keeps ls e k Hk) as Hl. by rewrite El in Hl.
  - done.
  - intros key [= ->]. apply loadLines_error in El as (pre & l & post & k' & v & -> & Hp & Hl & _ & Hs & [= ->]).
    by exists pre, l, post, v.
Qed.

(** A plain assignment written as [KEY=VALUE] on a line of its
    own is read back: an unset variable gets exactly that value. *)
Theorem dotenv_line_roundtrip key value e :
  plain key = true → plain value = true → key ≠ "" → has_char equals key = false →
  Strings.HasPrefix key "#" = false → Getenv e key = "" →
  loadLines [key +:+ String.String equals value] e = (Ok tt, <[key := value]> e).
Proof.
  intros Hk Hv Hne Heq Hh Hg. cbn [loadLines]. rewrite parseLine_plain by done.
  rewrite bool_decide_eq_true_2 by done. unfold Setenv.
  rewrite bool_decide_eq_false_2, Heq by done.
  assert (∀ s, plain s = true → has_char nul s = false) as Hn.
  { induction s as [|c s IH]; [done|]. cbn [plain has_char]. intros [Hc Hs]%andb_true_iff.
    rewrite (IH Hs), orb_false_r. apply Ascii.eqb_neq. intros <-. done. }
  rewrite !Hn by done. done.
Qed.

(** A behaviour [loadDotEnv] does have: a variable that is
    present in the environment but empty is overwritten by the file. *)
Theorem dotenv_overrides_empty :
  ∃ (content : string) (e : env) (v : string),
    e !! "PORT" = Some "" ∧ v ≠ "" ∧ (loadDotEnv (Ok content) e).2 !! "PORT" = Some v.
Proof. exists "PORT=9000", {["PORT" := ""]}, "9000". split_and!; [done|done|vm_compute; reflexivity]. Qed.

(** C26 (bounds). A configuration that is accepted has its required variables
    set, a chain id in the uint64 range, and an auction window that is exactly
    the configured number of milliseconds as long as that fits a
    [time.Duration] (292 years); the window is always an int64. *)
Theorem readConfig_spec e cfg :
  readConfig e = Ok cfg →
  rpcURL cfg = Getenv e "BASE_RPC_URL" ∧ rpcURL cfg ≠ "" ∧
  privateKeyHex cfg = Getenv e "RELAYER_PRIVATE_KEY" ∧ privateKeyHex cfg ≠ "" ∧
  settlementAddrStr cfg = Getenv e "SETTLEMENT_CONTRACT_ADDRESS" ∧ settlementAddrStr cfg ≠ "" ∧
  is_u64 (chainIDUint cfg) ∧ is_i64 (auctionTimeout cfg) ∧ port cfg ≠ "" ∧
  ∃ ms, ParseUint (getenvDefault e "AUCTION_TIMEOUT_MS" "200") = Some ms ∧ is_u64 ms ∧
    ((ms ≤ 9223372036854)%Z → auctionTimeout cfg = (ms * 10 ^ 6)%Z).
Proof.
  assert (∀ key v, mustEnv e key = Ok v → v = Getenv e key ∧ v ≠ "") as Hm.
  { intros key v. unfold mustEnv. case_bool_decide; [done|]. by intros [= <-]. }
  assert (∀ s n, ParseUint s = Some n → is_u64 n) as Hp.
  { intros s n. unfold ParseUint. destruct (Big.scan_nat s) as [m|] eqn:Es; [|done].
    destruct (Z.ltb_spec m (2 ^ 64)); [|done]. intros [= <-]. split; [|done].
    destruct s; [done|]. by eapply scan_digits_nonneg in Es. }
  unfold readConfig. destruct (mustEnv e "BASE_RPC_URL") as [rpc|] eqn:E1; [|done].
  destruct (mustEnv e "RELAYER_PRIVATE_KEY") as [key|] eqn:E2; [|done].
  destruct (mustEnv e "SETTLEMENT_CONTRACT_ADDRESS") as [addr|] eqn:E3; [|done].
  destruct (mustEnv e "CHAIN_ID") as [chain|] eqn:E4; [|done]. simpl.
  destruct (ParseUint chain) as [cid|] eqn:E5; [|done].
  destruct (ParseUint (getenvDefault e "AUCTION_TIMEOUT_MS" "200")) as [ms|] eqn:E6; [|done].
  intros [= <-]. simpl. apply Hm in E1, E2, E3. destruct E1, E2, E3.
  split_and!; try done; [by eapply Hp|apply wrap_i64_range| |].
  - unfold getenvDefault. by case_bool_decide.
  - exists ms. split_and!; [done|by eapply Hp|]. intros Hle. pose proof (Hp _ _ E6) as Hu.
    unfold durationMS, Millisecond. unfold is_u64 in Hu.
    rewrite (wrap_i64_id ms) by (unfold is_i64; lia). apply wrap_i64_id. unfold is_i64. lia.
Qed.

(** A behaviour [main] does have: a larger number of milliseconds
    is accepted and wraps, here to a negative window, for which a Go timer
    fires at once. *)
Theorem timeout_wraps :
  ∃ (e : env) cfg ms, readConfig e = Ok cfg ∧
    ParseUint (Getenv e "AUCTION_TIMEOUT_MS") = Some ms ∧ (0 < ms)%Z ∧ (auctionTimeout cfg < 0)%Z.
Proof.
  exists (list_to_map [("BASE_RPC_URL", "http://localhost:8545"); ("RELAYER_PRIVATE_KEY", "01");
    ("SETTLEMENT_CONTRACT_ADDRESS", "0x00"); ("CHAIN_ID", "8453"); ("AUCTION_TIMEOUT_MS", "9223372036855")]).
  eexists _, _. split_and!; [vm_compute; reflexivity|vm_compute; reflexivity|done|vm_compute; reflexivity].
Qed.

End theorems.

(** ** Witnesses *)

Section witnesses.

Definition w_env : env :=
  list_to_map [("BASE_RPC_URL", "http://localhost:8545"); ("RELAYER_PRIVATE_KEY", "01");
               ("SETTLEMENT_CONTRACT_ADDRESS", "0x00"); ("CHAIN_ID", "8453")].

Definition w_file : string :=
  "# comment" +:+ chr 10 +:+ " PORT = 9000 " +:+ chr 13 +:+ chr 10 +:+ "CHAIN_ID=1" +:+ chr 10 +:+ "noise".

Lemma loadDotEnv_spec_witness :
  Getenv (loadDotEnv (Ok w_file) w_env).2 "PORT" = "9000" ∧
  (loadDotEnv (Ok w_file) w_env).2 !! "CHAIN_ID" = Some "8453".
Proof.
  pose proof (λ k, loadDotEnv_spec w_file w_env _ _ k (surjective_pairing (loadDotEnv (Ok w_file) w_env))) as Hl.
  split.
  - destruct (Hl "PORT") as (_ & H & _). etransitivity; [apply H|]; vm_compute; reflexivity.
  - destruct (Hl "CHAIN_ID") as (H & _ & _). etransitivity; [apply H|]; vm_compute; [discriminate|reflexivity].
Defined.

Lemma dotenv_line_roundtrip_witness :
  loadLines ["PORT" +:+ String.String equals "9000"] w_env = (Ok tt, <["PORT" := "9000"]> w_env).
Proof. apply (dotenv_line_roundtrip "PORT" "9000" w_env); (done || (vm_compute; reflexivity)). Defined.

Lemma readConfig_spec_witness :
  ∃ cfg, readConfig w_env = Ok cfg ∧ is_u64 (chainIDUint cfg) ∧ auctionTimeout cfg = 200000000%Z.
Proof.
  exists (mkConfig "http://localhost:8545" "01" "0x00" 8453 200000000 "8080").
  assert (readConfig w_env = Ok (mkConfig "http://localhost:8545" "01" "0x00" 8453 200000000 "8080")) as E
    by (vm_compute; reflexivity).
  pose proof (readConfig_spec w_env _ E) as (_ & _ & _ & _ & _ & _ & Hc & _). auto.
Defined.

End witnesses.
