(* ===== verification/Main.v ===== *)
(** * The relayer process (cmd/relayer/main.go: startup, routes, shutdown)

    [main] reads its configuration, builds the components on the node's
    connection, starts them, serves three routes and stops on a signal.  This
    file composes the files of the components: [startup] calls their
    constructors in the order of the code, [node_world] is what the executor
    sees of the node through the OP Stack client and the contract binding,
    [mux] is the routing table and [shutdown] the steps after a signal.

    The connection is go-ethereum's: [dial] opens it, [backend] is the same
    connection as the binding takes it and [pendingNonceAt] its query. *)

From S2P Require Import Prelude GoStd GoChan Core AuctionState AuctionRun Signer NonceQueue Executor.
From S2P Require Import OpStack Bindings Hub HubProps Handler Relayer Config.

#[local] Open Scope string_scope.
#[local] Open Scope list_scope.
#[local] Open Scope nat_scope.

(** ** Startup *)

Inductive StartupError :=
| ConfigFailed (err : ConfigError)
| VaultFailed (err : SignerError)
| DialFailed (err : string)
| OPStackFailed (err : NewClientError)
| NonceFailed (err : NonceError)
| BindFailed (err : string).

Section main.
Context `{BindLib} `{OracleLib}.
Context (dial : string → result string EthClient) (backend : EthClient → Backend).
Context (pendingNonceAt : EthClient → Address → result string Z) (hexToAddress : string → Address).

(** What [main] holds when its goroutines are started. *)
Record process := mkProcess {
  p_executor : Executor;
  p_settlement : VynxSettlement;
  p_opClient : OPStackClient;
  p_addr : string;
  p_relayer : relayer
}.

(** Sections 3 to 12: every error is fatal. *)
Definition startup (cfg : config) : result StartupError process :=
  vault ← map_err VaultFailed (NewKeyVaultFromHex (privateKeyHex cfg)).1;
  ethCl ← map_err DialFailed (dial (rpcURL cfg));
  opClient ← map_err OPStackFailed (NewOPStackClient ethCl);
  queue ← map_err NonceFailed (NewNonceQueue (pendingNonceAt ethCl (vault_Address vault)) (vault_Address vault));
  settlement ← map_err BindFailed (NewVynxSettlement (hexToAddress (settlementAddrStr cfg)) (backend ethCl));
  mret (mkProcess (NewExecutor vault queue (chainIDUint cfg)).1 settlement opClient (":" +:+ port cfg)
          (new_relayer (auctionTimeout cfg) queue)).

(** [main] up to the signal: a failure to load the .env file is only logged. *)
Definition main_start (dotenv : result string string) (e : Env.env) : result StartupError process :=
  cfg ← map_err ConfigFailed (readConfig (loadDotEnv dotenv e).2);
  startup cfg.

(** ** The node behind the executor *)

(** The executor's view of the node in one [execute]: the tip and the pending
    nonce it answers, and the claim as a call of the binding. *)
Definition node_world (p : process) (tip pending : result string Z) : World :=
  mkWorld
    (match SuggestGasTipCap tip with
     | Ok t => Ok t
     | Err (SuggestFailed err) => Err ("failed to suggest gas tip cap: " +:+ err)
     end)
    (λ call, ClaimFunds (s_transactor (p_settlement p)) (call_opts call) (call_intentId call)
               (call_solver call) (call_sig call))
    pending.

End main.

(** ** Routes *)

Inductive route := ToHealth | ToSubmitIntent | ToServeWS | NotFound.

(** [http.ServeMux] on a path in canonical form: a pattern without a trailing
    slash matches only itself. *)
Definition mux (path : string) : route :=
  if bool_decide (path = "/health") then ToHealth
  else if bool_decide (path = "/v1/intent") then ToSubmitIntent
  else if bool_decide (path = "/v1/ws/solvers") then ToServeWS
  else NotFound.

(** The first step of the process a request causes, if any. *)
Definition serve `{Crypto} `{EthTypes} (path : string) (req : request) (now now' : Time) : list relayer_event :=
  match mux path with
  | ToSubmitIntent => [RPost req now now']
  | ToServeWS => [RHub HServeWS]
  | ToHealth | NotFound => []
  end.

(** ** Shutdown *)

(** After the signal: [cancel()], then the goroutines take their Done case;
    [order] is the order in which the hub visits its clients. *)
Definition shutdown `{Crypto} `{EthTypes} (order : list client) : list relayer_event :=
  [RCancel; RHub (HShutdown order); RStop (λ _, mkAlive false false false false false)].

Definition stopped (a : alive) : Prop := a = mkAlive false false false false false.

(** ** Lemmas: after the goroutines have stopped *)

Section stopping.
Context `{Crypto} `{EthTypes} `{!CryptoLaws}.
Context (slow : string → string) (hexToAddress : string → Address) (hex : Address → string).
Implicit Types (r : relayer).

(** The number of auctions ever started. *)
Definition started (r : relayer) : nat := length (entries (eng (auction r))).

(** What the process has done on chain and in the engine does not change. *)
Definition frozen (r r' : relayer) : Prop :=
  stopped (running r') ∧ calls (exec r') = calls (exec r) ∧ started r' = started r.

(** Every later step leaves the goroutines stopped, sends nothing and starts no
    auction. *)
Lemma stopped_step e ev r r' :
  relayer_inv r → stopped (running r) → relayer_step slow hexToAddress hex e ev r = Some (Ret r') → frozen r r'.
Proof.
  intros Hr Hst. unfold stopped in Hst. destruct ev; cbn [relayer_step]; rewrite ?Hst;
    cbn [hub_Run intentDispatcher bidDispatcher executor_Run failureDrainer]; try done.
  - destruct (acceptIntent _ _ _ _ _) as [[ch o]|]; [|done]. by intros [= <-].
  - destruct (to_broadcast r !! j); [|done].
    destruct (hub_step _ _ _) as [[h|]|]; [|done..]. by intros [= <-].
  - destruct (own_hub_event r ev) eqn:Eo; [|done].
    destruct (hub_step _ _ _) as [[h|]|]; [|done..]. intros [= <-]. by destruct ev.
  - destruct (own_engine_event ev) eqn:Eo; [|done].
    destruct (step ev (auction r)) as [[s|]|] eqn:Es; [|done..]. intros [= <-].
    destruct (own_step_ok (accepted r) ev _ _ Eo (ri_engine _ Hr) Es) as (_ & _ & Hl & _). by split.
  - by intros [= <-].
  - destruct (cancelled r); [|done]. by intros [= <-].
Qed.

Lemma stopped_run e evs r r' :
  relayer_inv r → stopped (running r) → Forall event_ok evs →
  relayer_run slow hexToAddress hex e evs r = Some (Ret r') → frozen r r'.
Proof.
  intros Hr Hst Hev. revert r Hr Hst. induction Hev as [|ev evs Hev _ IH]; intros r Hr Hst; simpl; [by intros [= <-]|].
  destruct (relayer_step _ _ _ e ev r) as [[r1|]|] eqn:E; [|done..]. intros Hrun.
  destruct (stopped_step e ev r r1 Hr Hst E) as (Hs1 & Hc1 & Hn1).
  pose proof (relayer_step_ok slow hexToAddress hex e ev r Hr Hev) as Hok. rewrite E in Hok.
  destruct (IH r1 Hok Hs1 Hrun) as (Hs & Hc & Hn). split_and!; [done|congruence|congruence].
Qed.

(** Steps of broadcasts are steps of the process and change only the hub. *)
Lemma broadcasting_run e evs r h' :
  Forall broadcasting evs → hub_run hexToAddress evs (solvers r) = Some (Ret h') →
  relayer_run slow hexToAddress hex e (RHub <$> evs) r = Some (Ret (with_hub r h' (running r) (to_broadcast r))).
Proof.
  intros Hev. revert r. induction Hev as [|ev evs [k Hk] _ IH]; intros r.
  { intros [= <-]. by destruct r. }
  cbn [hub_run]. rewrite fmap_cons. cbn [relayer_run relayer_step].
  assert (own_hub_event r ev = true) as -> by (by destruct Hk as [-> | ->]).
  destruct (hub_step hexToAddress ev (solvers r)) as [[h|]|]; [|done..]. intros Hrun.
  destruct Hk as [-> | ->]; exact (IH (with_hub r h (running r) (to_broadcast r)) Hrun).
Qed.

(** The three steps of the shutdown are enabled once no broadcast is under way. *)
Lemma shutdown_run e r order :
  relayer_inv r → hub_Run (running r) = true →
  readers (solvers r) = ∅ → order ≡ₚ elements (clients (solvers r)) →
  ∃ r', relayer_run slow hexToAddress hex e (shutdown order) r = Some (Ret r') ∧
    frozen r r' ∧ clients (solvers r') = ∅ ∧ cancelled r' = true.
Proof.
  intros Hr Hh Hrd Ho. destruct (closeAll_spec _ _ (ri_hub _ Hr) Hrd Ho) as (h & Ec & _ & _ & _ & Hc & _).
  eexists. split.
  - unfold shutdown. cbn [relayer_run relayer_step]. cbn [cancelled own_hub_event running solvers]. rewrite Hh.
    cbn [andb hub_step]. rewrite decide_True, Ec by done. cbn [with_hub cancelled]. reflexivity.
  - split_and!; simpl; [|done|done]. split_and!; simpl; [|done|done]. unfold stopped.
    by rewrite !andb_false_r.
Qed.

End stopping.

(** ** Theorems *)

Section theorems.
Context `{BindLib} `{OracleLib}.
Context (dial : string → result string EthClient) (backend : EthClient → Backend).
Context (pendingNonceAt : EthClient → Address → result string Z) (hexToAddress : string → Address).
Context (slow : string → string) (hex : Address → string).

Abbreviation start := (main_start dial backend pendingNonceAt hexToAddress).

(** What a started process consists of, for the configuration [cfg] and the
    connection [ethCl]. *)
Record started_with (cfg : config) (ethCl : EthClient) (p : process) : Prop := {
  sw_vault : (NewKeyVaultFromHex (privateKeyHex cfg)).1 = Ok (ex_vault (p_executor p));
  sw_wf : vault_wf (ex_vault (p_executor p));
  sw_chain : ex_chainID (p_executor p) = chainIDUint cfg;
  sw_dial : dial (rpcURL cfg) = Ok ethCl;
  sw_op : NewOPStackClient ethCl = Ok (p_opClient p);
  sw_bind : NewVynxSettlement (hexToAddress (settlementAddrStr cfg)) (backend ethCl) = Ok (p_settlement p);
  sw_nonce : ∃ n, pendingNonceAt ethCl (vault_Address (ex_vault (p_executor p))) = Ok n ∧
    p_relayer p = new_relayer (auctionTimeout cfg) (mkNonceQueue n) ∧
    relayer_reachable slow hexToAddress hex (p_executor p) (auctionTimeout cfg) (mkNonceQueue n) (p_relayer p)
}.

Lemma startup_started cfg p :
  startup dial backend pendingNonceAt hexToAddress cfg = Ok p → ∃ ethCl, started_with cfg ethCl p.
Proof.
  unfold startup. destruct (NewKeyVaultFromHex _) as [[vault|err] b] eqn:Ev; [|done]. simpl.
  destruct (dial (rpcURL cfg)) as [cl|] eqn:Ed; [|done]. simpl.
  destruct (NewOPStackClient cl) as [op|] eqn:Eo; [|done]. simpl.
  destruct (pendingNonceAt cl _) as [n|] eqn:En; [|done]. simpl.
  destruct (NewVynxSettlement _ _) as [s|] eqn:Es; [|done]. simpl. intros [= <-].
  exists cl. split; simpl; try done; [by rewrite Ev|by eapply new_vault_wf|]. exists n. split_and!; [done|done|constructor].
Qed.

(** C6 (refinement). What [main] builds is an initial state of the relayer
    model, wired to the configured node, contract and chain: the vault is that
    of the configured key, the nonce queue starts at the node's pending nonce
    for the vault's address, the binding is of the configured contract.
    Startup fails with the error of the first step that fails: each error
    case says that every step before it in the code succeeded, with what
    result, and that the step itself failed with that error.  A .env file that
    cannot be read is no failure. *)
Theorem main_start_spec dotenv e :
  match start dotenv e with
  | Ok p => ∃ cfg ethCl, readConfig (loadDotEnv dotenv e).2 = Ok cfg ∧ started_with cfg ethCl p
  | Err (ConfigFailed err) => readConfig (loadDotEnv dotenv e).2 = Err err
  | Err (VaultFailed err) => ∃ cfg,
      readConfig (loadDotEnv dotenv e).2 = Ok cfg ∧ (NewKeyVaultFromHex (privateKeyHex cfg)).1 = Err err
  | Err (DialFailed err) => ∃ cfg vault,
      readConfig (loadDotEnv dotenv e).2 = Ok cfg ∧ (NewKeyVaultFromHex (privateKeyHex cfg)).1 = Ok vault ∧
      dial (rpcURL cfg) = Err err
  | Err (OPStackFailed err) => ∃ cfg vault cl,
      readConfig (loadDotEnv dotenv e).2 = Ok cfg ∧ (NewKeyVaultFromHex (privateKeyHex cfg)).1 = Ok vault ∧
      dial (rpcURL cfg) = Ok cl ∧ NewOPStackClient cl = Err err
  | Err (NonceFailed err) => ∃ cfg vault cl op,
      readConfig (loadDotEnv dotenv e).2 = Ok cfg ∧ (NewKeyVaultFromHex (privateKeyHex cfg)).1 = Ok vault ∧
      dial (rpcURL cfg) = Ok cl ∧ NewOPStackClient cl = Ok op ∧
      NewNonceQueue (pendingNonceAt cl (vault_Address vault)) (vault_Address vault) = Err err
  | Err (BindFailed err) => ∃ cfg vault cl op queue,
      readConfig (loadDotEnv dotenv e).2 = Ok cfg ∧ (NewKeyVaultFromHex (privateKeyHex cfg)).1 = Ok vault ∧
      dial (rpcURL cfg) = Ok cl ∧ NewOPStackClient cl = Ok op ∧
      NewNonceQueue (pendingNonceAt cl (vault_Address vault)) (vault_Address vault) = Ok queue ∧
      NewVynxSettlement (hexToAddress (settlementAddrStr cfg)) (backend cl) = Err err
  end.
Proof.
  unfold main_start. destruct (readConfig _) as [cfg|err] eqn:Ec; [|done].
  change (mbind (M := result StartupError) _ _) with (startup dial backend pendingNonceAt hexToAddress cfg).
  pose proof (startup_started cfg) as Hs. destruct (startup _ _ _ _ cfg) as [p|err] eqn:E.
  { destruct (Hs p eq_refl) as [cl Hp]. by exists cfg, cl. }
  clear Hs. unfold startup in E.
  destruct (NewKeyVaultFromHex _).1 as [vault|er] eqn:Ev; simplify_eq/=; [|by exists cfg].
  destruct (dial (rpcURL cfg)) as [cl|] eqn:Ed; simplify_eq/=; [|by exists cfg, vault].
  destruct (NewOPStackClient cl) as [op|] eqn:Eo; simplify_eq/=; [|by exists cfg, vault, cl].
  destruct (NewNonceQueue _ _) as [q|] eqn:En; simplify_eq/=; [|by exists cfg, vault, cl, op].
  destruct (NewVynxSettlement _ _) as [s|] eqn:Es; simplify_eq/=. by exists cfg, vault, cl, op, q.
Qed.

(** C5 (safety). A settlement of the started process, down to the contract
    library: when [execute] reports success, the binding made the transaction
    claimFunds of the configured contract through the node's connection, with
    the vault's address, the next nonce and the node's tip as options and
    arguments of the types the ABI declares: the id of the accepted intent, the winning solver and
    a 65-byte signature from which the contract recovers the vault's address
    (which is not the zero address). *)
Theorem claim_reaches_contract `{!CryptoLaws} `{!OnChain} cfg ethCl p tip pending v i st st' :
  started_with cfg ethCl p → vault_Address (ex_vault (p_executor p)) ≠ zeroAddress →
  Voucher_Intent v = Some i → is_u64 (current (nonceQueue st)) →
  execute slow (p_executor p) (node_world p tip pending) v st = Ret (Ok tt, st') →
  ∃ parsed tipCap sig tx,
    let contract := NewBoundContract (hexToAddress (settlementAddrStr cfg)) parsed
      (Some (backend ethCl)) (Some (backend ethCl)) (Some (backend ethCl)) in
    let vault := vault_Address (ex_vault (p_executor p)) in
    let args := [VBytes32 (intentIDBytes (Intent_ID i)); VAddress (Voucher_WinningSolver v); VBytes sig] in
    GetAbi VynxSettlementMetaData = Ok parsed ∧ tip = Ok tipCap ∧
    Transact contract (mkOpts vault (current (nonceQueue st)) tipCap (txSigner (p_executor p) (Voucher_IntentID v)))
      "claimFunds" args = Ok tx ∧
    declared "claimFunds" args Nonpayable ∧ length sig = 65 ∧
    ecrecover (ClaimDigest (intentIDBytes (Intent_ID i)) (Voucher_WinningSolver v)) sig = Some vault.
Proof.
  intros [Hv Hwf Hch Hd Ho Hb Hn] Hz Hi Hq He.
  pose proof (execute_eq slow (p_executor p) (node_world p tip pending) v st i _ Hi Hq) as Heq.
  destruct (vault_Sign (ex_vault (p_executor p)) _) as [sig0|] eqn:Es; [|rewrite Heq in He; done].
  destruct tip as [tipCap|err]; [|simpl in Heq; rewrite Heq in He; done]. simpl in Heq.
  destruct Heq as (rs & b & Hl & Hr & -> & Heq). rewrite Heq in He.
  unfold NewVynxSettlement, bindVynxSettlement in Hb.
  destruct (GetAbi VynxSettlementMetaData) as [parsed|] eqn:Ea; [|done]. injection Hb as Hb. rewrite <- Hb in He.
  unfold ClaimFunds in He. simpl in He.
  destruct (Transact _ _ _ _) as [tx|] eqn:Et; [|done].
  exists parsed, tipCap, (rs ++ [byte_of_Z (byte_val b + 27)]), tx. cbv zeta. split_and!; try done.
  - eexists. split; [do 1 right; left|done].
  - rewrite length_app, Hl. done.
  - by apply vault_signature_accepted.
Qed.

(** C7 (liveness). The signal stops the process: from every reachable state the
    broadcasts under way can finish, after which cancelling lets the hub close all
    its clients and every goroutine return; and from then on, whatever
    requests still arrive and however the auctions still running proceed, no
    further claim is sent and no further auction starts. *)
Theorem shutdown_stops `{!CryptoLaws} e t q r order :
  is_u64 (current q) → relayer_reachable slow hexToAddress hex e t q r →
  hub_Run (running r) = true → order ≡ₚ elements (clients (solvers r)) →
  ∃ evs r', Forall broadcasting evs ∧
    relayer_run slow hexToAddress hex e ((RHub <$> evs) ++ shutdown order) r = Some (Ret r') ∧
    stopped (running r') ∧ clients (solvers r') = ∅ ∧
    ∀ evs' r'', Forall event_ok evs' → relayer_run slow hexToAddress hex e evs' r' = Some (Ret r'') →
      stopped (running r'') ∧ calls (exec r'') = calls (exec r) ∧ started r'' = started r.
Proof.
  intros Hq Hreach Hh Ho. pose proof (relayer_reachable_inv slow hexToAddress hex e t q r Hq Hreach) as Hr.
  destruct (broadcasts_finish hexToAddress _ (ri_hub _ Hr)) as (evs & h & Hrun & Hb & Hrd & Hcl0).
  pose proof (broadcasting_run slow hexToAddress hex e evs r h Hb Hrun) as Hrun1.
  set (r1 := with_hub r h (running r) (to_broadcast r)) in *.
  assert (relayer_inv r1) as Hr1.
  { eapply (relayer_reachable_inv slow hexToAddress hex e t q); [done|].
    eapply relayer_run_reachable; [exact Hreach| |exact Hrun1]. apply Forall_fmap, Forall_true. done. }
  destruct (shutdown_run slow hexToAddress hex e r1 order Hr1 Hh) as (r' & E & (Hs & Hc & Hn) & Hcl & _);
    [done|by simpl; rewrite Hcl0|].
  pose proof (relayer_run_app _ _ _ e _ (shutdown order) _ _ Hrun1) as Eapp. rewrite E in Eapp.
  assert (relayer_inv r') as Hr'.
  { eapply (relayer_reachable_inv slow hexToAddress hex e t q); [done|].
    eapply relayer_run_reachable; [exact Hreach| |exact Eapp].
    apply Forall_app. split; [apply Forall_fmap, Forall_true; done|by repeat constructor]. }
  exists evs, r'. split_and!; [done|done|done|done|]. intros evs' r'' He Hrun'.
  destruct (stopped_run slow hexToAddress hex e evs' r' r'' Hr' Hs He Hrun') as (? & Hc' & Hn').
  split_and!; [done|by rewrite Hc', Hc|by rewrite Hn', Hn].
Qed.

End theorems.

(** ** Witnesses *)

Section witnesses.
#[local] Existing Instance Toy.crypto.
#[local] Existing Instance Toy.crypto_laws.
#[local] Existing Instance ToyChain.eth.
#[local] Existing Instance ToyChain.onchain.
#[local] Existing Instance ToyBind.lib.
#[local] Existing Instance ToyOracle.lib.

Definition w_environment : Env.env :=
  list_to_map [("BASE_RPC_URL", "http://localhost:8545");
               ("RELAYER_PRIVATE_KEY", "0707070707070707070707070707070707070707070707070707070707070707");
               ("SETTLEMENT_CONTRACT_ADDRESS", "0x00"); ("CHAIN_ID", "31337")].

Definition w_config : config :=
  mkConfig "http://localhost:8545" "0707070707070707070707070707070707070707070707070707070707070707"
    "0x00" 31337 200000000 "8080".

Lemma w_config_read : readConfig (loadDotEnv (Err "no such file") w_environment).2 = Ok w_config.
Proof. vm_compute. reflexivity. Qed.

Definition w_dial (_ : string) : result string (@EthClient ToyOracle.lib) := Ok tt.
Definition w_backend (_ : @EthClient ToyOracle.lib) : @Backend _ _ ToyBind.lib := tt.
Definition w_pending (_ : @EthClient ToyOracle.lib) (_ : Address) : result string Z := Ok 5%Z.

Definition w_startup : result StartupError process :=
  main_start w_dial w_backend w_pending w_addr (Err "no such file") w_environment.

Lemma w_startup_ok : is_ok w_startup = true.
Proof. vm_compute. reflexivity. Qed.

Lemma main_start_spec_witness :
  ∃ p cl, w_startup = Ok p ∧
    started_with w_dial w_backend w_pending w_addr id (λ _, "0x00") w_config cl p.
Proof.
  pose proof (main_start_spec w_dial w_backend w_pending w_addr id (λ _, "0x00")
    (Err "no such file") w_environment) as Hs. pose proof w_startup_ok as Ho. fold w_startup in Hs.
  destruct w_startup as [p|err]; [|discriminate].
  destruct Hs as (cfg & cl & Ec & Hp). rewrite w_config_read in Ec. injection Ec as <-.
  exists p, cl. split; [reflexivity|exact Hp].
Defined.

Definition w_process : process :=
  mkProcess (mkExecutor Toy.vault 31337)
    (mkSettlement (@mkCaller _ _ ToyBind.lib tt) (@mkTransactor _ _ ToyBind.lib tt) (@mkFilterer _ _ ToyBind.lib tt))
    (@mkOPStackClient ToyOracle.lib tt (vreplicate 20 Byte.x42) gasPriceOracleABIJSON)
    ":8080" (new_relayer 200000000 (mkNonceQueue 5)).

Lemma w_process_started :
  started_with w_dial w_backend w_pending w_addr id (λ _, "0x00") w_config tt w_process.
Proof.
  split; try reflexivity. exists 5%Z. split_and!; [reflexivity|reflexivity|constructor].
Qed.

Lemma claim_reaches_contract_witness :
  ∃ sig, length sig = 65 ∧
    ecrecover (ClaimDigest (intentIDBytes "i1") (vreplicate 20 Byte.x09)) sig = Some (vreplicate 20 Byte.x07).
Proof.
  destruct (claim_reaches_contract w_dial w_backend w_pending w_addr id (λ _, "0x00") w_config tt w_process
    (Ok 1000000000%Z) (Ok 6%Z) (ToyChain.voucher "i1") _ (mkExec (mkNonceQueue 5) [])
    _ w_process_started toy_vault_nonzero eq_refl w_queue_u64 eq_refl) as (parsed & tipCap & sig & tx & _ & _ & _ & _ & Hl & Hr).
  exists sig. split; [exact Hl|exact Hr].
Defined.

Lemma shutdown_stops_witness :
  ∃ evs r', relayer_run id w_addr (λ _, "0x00") ToyChain.executor ((RHub <$> evs) ++ shutdown [0]) w_end = Some (Ret r') ∧
    stopped (running r').
Proof.
  destruct (shutdown_stops w_addr id (λ _, "0x00") ToyChain.executor 200000000 (mkNonceQueue 5) w_end [0]
    w_queue_u64 w_end_reach) as (evs & r' & _ & E & Hs & _).
  - vm_compute. reflexivity.
  - apply (bool_decide_unpack _). vm_compute. exact I.
  - exists evs, r'. split; [exact E|exact Hs].
Defined.

End witnesses.
