(* ===== verification/Progress.v ===== *)
(** * Progress of the whole process

    From every reachable state in which the intent dispatcher and the executor
    run, the pipeline can empty itself: queued intents become auctions,
    auctions finish, vouchers are executed.  The three stages are three
    lemmas about the composed steps of Relayer.v; the schedule of the auction
    stage is the one AuctionRun.v constructs. *)

From S2P Require Import Prelude GoStd GoChan Core AuctionState AuctionRun Signer NonceQueue Executor.
From S2P Require Import Hub HubProps Handler Relayer.

#[local] Open Scope string_scope.
#[local] Open Scope list_scope.
#[local] Open Scope nat_scope.

Section progress.
Context `{Crypto} `{EthTypes} `{!CryptoLaws}.
Context (slow : string → string) (hexToAddress : string → Address) (hex : Address → string).
Context (e : Executor).
Implicit Types (r : relayer) (s : sys).
Abbreviation rrun := (relayer_run slow hexToAddress hex e).

Lemma rrun_inv evs r r' : relayer_inv r → Forall event_ok evs → rrun evs r = Some (Ret r') → relayer_inv r'.
Proof.
  intros Hr Hev. revert r Hr. induction Hev as [|ev evs Hev _ IH]; intros r Hr; simpl; [by intros [= <-]|].
  pose proof (relayer_step_ok slow hexToAddress hex e ev r Hr Hev) as Hok.
  destruct (relayer_step _ _ _ e ev r) as [[r1|]|]; [|done..]. by apply IH.
Qed.

(** *** Intents *)

Lemma intents_drain r now :
  relayer_inv r → intentDispatcher (running r) = true →
  ∃ n r', rrun (replicate n (RIntent now)) r = Some (Ret r') ∧ relayer_inv r' ∧
    buf (intents r') = [] ∧ running r' = running r ∧ calls (exec r') = calls (exec r).
Proof.
  remember (buf (intents r)) as l eqn:El. revert r El. induction l as [|i l IH]; intros r El Hr Hd.
  { exists 0, r. by split_and!. }
  pose proof (relayer_step_ok slow hexToAddress hex e (RIntent now) r Hr I) as Hok.
  cbn [relayer_step] in Hok. rewrite Hd in Hok. unfold runIntentDispatcher, recv in Hok. rewrite <- El in Hok.
  simpl in Hok. match type of Hok with relayer_inv ?r1 =>
    destruct (IH r1 eq_refl Hok Hd) as (n & r' & Hrun & Hr' & Hb & Hrn & Hc) end.
  exists (S n), r'. split_and!; [|done|done|done|done]. rewrite replicate_S. cbn [relayer_run relayer_step].
  rewrite Hd. unfold runIntentDispatcher, recv. rewrite <- El. exact Hrun.
Qed.

(** *** Auctions *)

Definition with_auction r s : relayer :=
  mkRelayer (intents r) (solvers r) s (exec r) (txFailed r) (cancelled r) (running r) (to_broadcast r) (accepted r).

Lemma goroutine_event_own ev : goroutine_event ev → own_engine_event ev = true.
Proof.
  intros (s & l & now & Hev). unfold next_event in Hev. destruct (gor s !! l) as [[i p]|]; [|done].
  destruct p; by injection Hev as <-.
Qed.

Lemma goroutine_run evs r s' :
  Forall goroutine_event evs → run evs (auction r) = Some (Ret s') →
  rrun (RAuction <$> evs) r = Some (Ret (with_auction r s')).
Proof.
  intros Hev. revert r. induction Hev as [|ev evs Hown _ IH]; intros r.
  { intros [= <-]. by destruct r. }
  cbn [run]. rewrite fmap_cons. cbn [relayer_run relayer_step]. rewrite goroutine_event_own by done.
  destruct (step ev (auction r)) as [[s|]|]; [|done..]. intros Hrun. exact (IH (with_auction r s) Hrun).
Qed.

(** *** Vouchers *)

Lemma vouchers_drain r w :
  relayer_inv r → typed w → executor_Run (running r) = true →
  ∃ n r', rrun (replicate n (RSettle w)) r = Some (Ret r') ∧
    buf (voucherCh (eng (auction r'))) = [] ∧ gor (auction r') = gor (auction r) ∧ intents r' = intents r.
Proof.
  intros Hr Ht He. remember (buf (voucherCh (eng (auction r)))) as l eqn:El. revert r El Hr He.
  induction l as [|v l IH]; intros r El Hr He.
  { exists 0, r. by split_and!. }
  pose proof (relayer_step_ok slow hexToAddress hex e (RSettle w) r Hr Ht) as Hok.
  destruct (relayer_step slow hexToAddress hex e (RSettle w) r) as [[r1|]|] eqn:E; [|done|].
  - assert (buf (voucherCh (eng (auction r1))) = l ∧ gor (auction r1) = gor (auction r) ∧
      intents r1 = intents r ∧ running r1 = running r) as (Eb & Eg & Ei & Ern).
    { cbn [relayer_step] in E. rewrite He in E. unfold settle, Vouchers, recv in E. rewrite <- El in E. simpl in E.
      destruct (consume _ _ _ _ _ _) as [[st f]|]; [|done]. by injection E as <-. }
    destruct (IH r1 (eq_sym Eb) Hok) as (n & r' & Hrun & Hb & Hg & Hi); [by rewrite Ern|].
    exists (S n), r'. split_and!; [|done|congruence|congruence]. rewrite replicate_S. cbn [relayer_run]. by rewrite E.
  - cbn [relayer_step] in E. rewrite He in E. unfold settle, Vouchers, recv in E. rewrite <- El in E. simpl in E.
    by destruct (consume _ _ _ _ _ _) as [[]|].
Qed.

(** ** Theorem *)

(** C15 (liveness). The pipeline can always empty itself: from every reachable
    state in which the intent dispatcher and the executor run, whatever the
    node answers to the claims, steps of the dispatcher, then of the auction
    goroutines, then of the executor alone lead to a state in which no intent
    waits, no auction runs, the registry is empty and no voucher waits. *)
Theorem pipeline_drains t q r w now :
  is_u64 (current q) → relayer_reachable slow hexToAddress hex e t q r → typed w →
  intentDispatcher (running r) = true → executor_Run (running r) = true →
  ∃ n evs m r',
    rrun (replicate n (RIntent now) ++ (RAuction <$> evs) ++ replicate m (RSettle w)) r = Some (Ret r') ∧
    Forall goroutine_event evs ∧ buf (intents r') = [] ∧ gor (auction r') = ∅ ∧ auctions (eng (auction r')) = ∅ ∧
    buf (voucherCh (eng (auction r'))) = [].
Proof.
  intros Hq Hreach Ht Hd He.
  pose proof (relayer_reachable_inv slow hexToAddress hex e t q r Hq Hreach) as Hr.
  destruct (intents_drain r now Hr Hd) as (n & r1 & Hrun1 & Hr1 & Hi1 & Hrn & _).
  destruct (all_finish (auction r1) now (ri_sys _ Hr1)) as (evs & s & Hev & Hrun2 & _ & Hg).
  pose proof (goroutine_run evs r1 s Hev Hrun2) as Hrun2'. set (r2 := with_auction r1 s) in *.
  assert (Forall event_ok (RAuction <$> evs)) as Hok2 by (apply Forall_fmap, Forall_true; done).
  assert (relayer_inv r2) as Hr2 by by eapply rrun_inv.
  destruct (vouchers_drain r2 w Hr2 Ht) as (m & r' & Hrun3 & Hv & Hg' & Hi'); [simpl; by rewrite Hrn|].
  assert (relayer_inv r') as Hr'.
  { eapply rrun_inv; [exact Hr2| |exact Hrun3]. by apply Forall_replicate. }
  exists n, evs, m, r'. split_and!; [|done|by rewrite Hi'|by rewrite Hg'| |done].
  - by rewrite (relayer_run_app _ _ _ _ _ _ _ _ Hrun1), (relayer_run_app _ _ _ _ _ _ _ _ Hrun2').
  - apply registry_empty; [apply (ri_sys _ Hr')|by rewrite Hg'].
Qed.

End progress.

(** ** Witness *)

Section witnesses.
#[local] Existing Instance Toy.crypto.
#[local] Existing Instance Toy.crypto_laws.
#[local] Existing Instance ToyChain.eth.

Lemma pipeline_drains_witness :
  ∃ evs r', relayer_run id w_addr (λ _, "0x00") ToyChain.executor evs w_end = Some (Ret r') ∧
    buf (voucherCh (eng (auction r'))) = [].
Proof.
  destruct (pipeline_drains id w_addr (λ _, "0x00") ToyChain.executor 200000000 (mkNonceQueue 5) w_end
    ToyChain.accepting w_now w_queue_u64 w_end_reach ToyChain.typed_accepting)
    as (n & evs & m & r' & Hrun & _ & _ & _ & _ & Hv).
  - vm_compute. reflexivity.
  - vm_compute. reflexivity.
  - eexists _, r'. split; [exact Hrun|exact Hv].
Defined.

End witnesses.
