(* ===== verification/Simulate.v ===== *)
(** * End-to-end driver (cmd/simulate/main.go)

    The driver deploys a token, locks an escrow, posts an intent to the
    relayer, answers the broadcast with a bid and checks that the escrow was
    resolved.  [must] and [fatalf] end the process: an operation is a function
    of the trace of external actions so far that yields a value or the fatal
    error, and the extended trace.

    go-ethereum's helpers are the class [EthCommon] with their documented
    behaviour as [EthCommonLaws]; transaction signing is [SignTx]; the answers
    of the node, of the relayer's HTTP server and of the WebSocket are part of
    [SimWorld], and so is the schedule of the solver goroutine, which runs
    beside the request ([contact]).  JSON is not modelled: structs with the same tags carry the
    same fields. *)

From S2P Require Import Prelude GoStd GoChan Core Signer NonceQueue Executor Bindings.
From S2P Require Import Hub HubProps Handler Config.

#[local] Open Scope string_scope.
#[local] Open Scope list_scope.
#[local] Open Scope nat_scope.

(** ** Constants *)

Definition defaultRelayerHTTP : string := "http://localhost:8080".
Definition defaultRelayerWS : string := "ws://localhost:8080".
Definition defaultRPCURL : string := "http://127.0.0.1:8545".
Definition defaultChainID : Z := 31337.
Definition defaultSettlementAddr : string := "0x5FbDB2315678afecb367f032d93F642f64180aa3".
Definition lockAmount : string := "1000000000000000000".
Definition bidAmount : string := "950000000000000000".
Definition bidGas : string := "1000000000".
Definition minAmount : string := "900000000000000000".
Definition funderKeyHex : string := "ac0974bec39a17e36ba4a6b4d238ff944bacb478cbed5efcae784d7bf4f2ff80".

Definition mockTokenBytecode : string :=
  "608060405234610106576100135f5461010a565b601f81116100b4575b507f4d6f636b546f6b656e00000000000000000000000000000000000000000000125f5560015461004c9061010a565b601f811161007f575b6008634d4f434b60e01b016001556002805460ff191660121790556040516106f990816101438239f35b60048111156100555760015f52601f60205f20910160051c5f5b8181106100a7575050610055565b5f83820155600101610099565b600981111561001c575f8080527f290decd9548b62a8d60345a988386fc84ba6bc95484008f6362f93160ef3e56391601f0160051c905b8181106100f957505061001c565b5f838201556001016100eb565b5f80fd5b90600182811c92168015610138575b602083101461012457565b634e487b7160e01b5f52602260045260245ffd5b91607f169161011956fe60806040526004361015610011575f80fd5b5f3560e01c806306fdde0314610532578063095ea7b3146104b957806318160ddd1461049c57806323b872dd14610372578063313ce5671461035257806340c10f19146102d857806370a08231146102a057806395d89b4114610182578063a9059cbb146100db5763dd62ed3e14610087575f80fd5b346100d75760403660031901126100d7576100a061062e565b6100a8610644565b6001600160a01b039182165f908152600560209081526040808320949093168252928352819020549051908152f35b5f80fd5b346100d75760403660031901126100d7576100f461062e565b60243590335f5260046020526101108260405f2054101561065a565b335f52600460205260405f20610127838254610695565b905560018060a01b031690815f52600460205260405f206101498282546106b6565b90556040519081527fddf252ad1be2c89b69c2b068fc378daa952ba7f163c4a11628f55a4df523b3ef60203392a3602060405160018152f35b346100d7575f3660031901126100d7576040515f6001548060011c90600181168015610296575b602083108114610282578285529081156102665750600114610210575b50819003601f01601f191681019067ffffffffffffffff8211818310176101fc57604082905281906101f89082610604565b0390f35b634e487b7160e01b5f52604160045260245ffd5b60015f9081529091507fb10e2d527612073b26eecdfd717e6a320cf44b4afac2b0732d9fcbe2b7fa0cf65b828210610250575060209150820101826101c6565b600181602092548385880101520191019061023b565b90506020925060ff191682840152151560051b820101826101c6565b634e487b7160e01b5f52602260045260245ffd5b91607f16916101a9565b346100d75760203660031901126100d7576001600160a01b036102c161062e565b165f526004602052602060405f2054604051908152f35b346100d75760403660031901126100d7576102f161062e565b5f7fddf252ad1be2c89b69c2b068fc378daa952ba7f163c4a11628f55a4df523b3ef602060243593610325856003546106b6565b60035560018060a01b03169384845260048252604084206103478282546106b6565b9055604051908152a3005b346100d7575f3660031901126100d757602060ff60025416604051908152f35b346100d75760603660031901126100d75761038b61062e565b610393610644565b6001600160a01b039091165f8181526005602090815260408083203384529091529020546044359290831161046b5760207fddf252ad1be2c89b69c2b068fc378daa952ba7f163c4a11628f55a4df523b3ef91835f52600482526103fd8560405f2054101561065a565b5f84815260058352604080822033835284529020805461041e908790610695565b9055835f526004825260405f20610436868254610695565b905560018060a01b031693845f526004825260405f206104578282546106b6565b9055604051908152a3602060405160018152f35b60405162461bcd60e51b8152602060048201526009602482015268616c6c6f77616e636560b81b6044820152606490fd5b346100d7575f3660031901126100d7576020600354604051908152f35b346100d75760403660031901126100d7576104d261062e565b335f8181526005602090815260408083206001600160a01b03909516808452948252918290206024359081905591519182527f8c5be1e5ebec7d5bd14f71427d1e84f3dd0314c0f7b2291e5b200ac8c7c3b92591a3602060405160018152f35b346100d7575f3660031901126100d7576040515f5f548060011c906001811680156105fa575b6020831081146102825782855290811561026657506001146105a65750819003601f01601f191681019067ffffffffffffffff8211818310176101fc57604082905281906101f89082610604565b5f8080529091507f290decd9548b62a8d60345a988386fc84ba6bc95484008f6362f93160ef3e5635b8282106105e4575060209150820101826101c6565b60018160209254838588010152019101906105cf565b91607f1691610558565b602060409281835280519182918282860152018484015e5f828201840152601f01601f1916010190565b600435906001600160a01b03821682036100d757565b602435906001600160a01b03821682036100d757565b1561066157565b60405162461bcd60e51b815260206004820152600c60248201526b1a5b9cdd59999a58da595b9d60a21b6044820152606490fd5b919082039182116106a257565b634e487b7160e01b5f52601160045260245ffd5b919082018092116106a25756fea2646970667358221220f599811ca9099746a01a51fedfeb8b97deeb76487161b1ee3d6a02b59442a97c64736f6c63430008210033".

(** ** Wire types *)

Record intentHTTPRequest := mkHTTPRequest {
  hr_ID : string;
  hr_Sender : string;
  hr_TokenIn : string;
  hr_TokenOut : string;
  hr_AmountIn : string;
  hr_MinAmountOut : string;
  hr_Deadline : Z;
  hr_Nonce : Z;
  hr_Signature : string
}.

(** A broadcast as the driver decodes it: the type, and the payload's id or
    its decode error. *)
Record wsBroadcast := mkWsBroadcast { ws_Type : string; ws_Intent : result string string }.

Record wsBidRequest := mkWsBid {
  wb_IntentID : string;
  wb_Solver : string;
  wb_AmountOut : string;
  wb_GasPrice : string
}.

(** The relayer decodes the same tags into its own types, and the driver the
    relayer's. *)
Definition as_intentRequest (r : intentHTTPRequest) : intentRequest :=
  mkIntentRequest (hr_ID r) (hr_Sender r) (hr_TokenIn r) (hr_TokenOut r) (hr_AmountIn r)
    (hr_MinAmountOut r) (hr_Deadline r) (hr_Nonce r) (hr_Signature r).

Definition as_bidRequest (b : wsBidRequest) : bidRequest :=
  mkBidRequest (wb_IntentID b) (wb_Solver b) (wb_AmountOut b) (wb_GasPrice b).

Definition as_wsBroadcast (m : intentBroadcast) : wsBroadcast :=
  mkWsBroadcast (bc_Type m) (Ok (pl_ID (bc_Intent m))).

(** ** Standard library *)

(** [x.Bytes()]: the absolute value, big-endian, without leading zeros. *)
Fixpoint abs_bytes (fuel : nat) (z : Z) : bytes :=
  match fuel with
  | 0 => []
  | S fuel => if (z =? 0)%Z then [] else abs_bytes fuel (z / 256) ++ [byte_of_Z z]
  end.

Definition Big_Bytes (z : Z) : bytes := abs_bytes (S (Z.to_nat (Z.log2 (Z.abs z)))) (Z.abs z).

(** [t.Add(d)] for a whole number of seconds. *)
Definition addSeconds (t : Time) (s : Z) : Time := mkTime (wrap_i64 (t_sec t + s)) (t_nsec t).

(** ** go-ethereum *)

Class EthCommon := {
  LeftPadBytes : bytes → nat → bytes;
  Hex2Bytes : string → bytes;
  HexToAddress : string → Address;
  Address_Hex : Address → string
}.

(** Padding with zeros on the left up to the length, decoding of well-formed
    hex, and the round trip of an address. *)
Class EthCommonLaws `{EthCommon} : Prop := {
  left_pad s l : length s ≤ l → LeftPadBytes s l = replicate (l - length s) Byte.x00 ++ s;
  hex2bytes s bs : Hex.DecodeString s = Some bs → Hex2Bytes s = bs;
  hex_address a : HexToAddress (Address_Hex a) = a
}.

(** The fields of [types.DynamicFeeTx] the driver sets. *)
Record DynamicFeeTx := mkTx {
  tx_ChainID : Z;
  tx_Nonce : Z;
  tx_GasFeeCap : Z;
  tx_GasTipCap : Z;
  tx_Gas : Z;
  tx_To : option Address;
  tx_Value : Big.Int;
  tx_Data : bytes
}.

Record Receipt := mkReceipt { Receipt_Status : Z; Receipt_ContractAddress : Address }.

(** The answers of the node around one transaction: the polls of
    [TransactionReceipt] until the context is done. *)
Record TxWorld := mkTxWorld {
  tw_nonce : result string Z;
  tw_gasPrice : result string Z;
  tw_sign : result string unit;
  tw_send : result string unit;
  tw_polls : list (result string Receipt)
}.

(** ** Fatal errors and actions *)

Inductive fatal :=
| Must (context err : string)
| TxReverted (label : string)
| MinedTimeout (label : string)
| WSDialFailed (err : string)
| PostFailed (err : string)
| DecodeFailed (err : string)
| Rejected (status : Z)
| BidTimeout
| NotResolved
| SimPanic.

Inductive action :=
| ASend (label : string) (from : Address) (tx : DynamicFeeTx)
| APost (url : string) (r : intentHTTPRequest)
| ABid (b : wsBidRequest).

Definition sim (A : Type) : Type := list action → result fatal A * list action.

Definition sim_ret {A} (a : A) : sim A := λ tr, (Ok a, tr).

Definition sim_bind {A B} (m : sim A) (k : A → sim B) : sim B := λ tr,
  match m tr with
  | (Ok a, tr') => k a tr'
  | (Err e, tr') => (Err e, tr')
  end.

Definition fatalf {A} (e : fatal) : sim A := λ tr, (Err e, tr).

Definition act (a : action) : sim unit := λ tr, (Ok tt, tr ++ [a]).

Definition must {A} (r : result string A) (context : string) : sim A :=
  match r with
  | Ok a => sim_ret a
  | Err err => fatalf (Must context err)
  end.

Declare Scope sim_scope.
#[local] Notation "x <- m ;; k" := (sim_bind m (λ x, k)) (at level 100, m at next level, right associativity) : sim_scope.
#[local] Notation "m ;; k" := (sim_bind m (λ _, k)) (at level 100, right associativity) : sim_scope.
#[local] Open Scope sim_scope.

(** ** Helpers *)

Definition envOrDefault (e : Env.env) (key fallback : string) : string :=
  let v := Env.Getenv e key in if bool_decide (v = "") then fallback else v.

(** [waitMined]: poll until the receipt is there; the list ends when the
    context is done. *)
Fixpoint waitMined (polls : list (result string Receipt)) (label : string) : sim Receipt :=
  match polls with
  | [] => fatalf (MinedTimeout label)
  | Ok receipt :: _ =>
      if (Receipt_Status receipt =? 0)%Z then fatalf (TxReverted label) else sim_ret receipt
  | Err _ :: polls => waitMined polls label
  end.

Section driver.
Context `{BindLib} `{EthCommon}.

(** Options for a session of the binding; [signTx] is [types.SignTx] for the
    chain and the key. *)
Definition txOpts (nonceAt tipCap : result string Z) (key : PrivateKey)
    (signTx : Transaction → result string Transaction) : sim TransactOpts :=
  let addr := PubkeyToAddress (publicKey key) in
  nonce <- must nonceAt ("PendingNonceAt for " +:+ Address_Hex addr) ;;
  tip <- must tipCap "SuggestGasTipCap" ;;
  sim_ret (mkOpts addr nonce tip (λ _ tx, map_err WithSignatureFailed (signTx tx))).

Definition sendETH (w : TxWorld) (fromKey : PrivateKey) (to : Address) (chainID amount : Z) : sim Receipt :=
  let from := PubkeyToAddress (publicKey fromKey) in
  nonce <- must (tw_nonce w) "PendingNonceAt for funder" ;;
  gasPrice <- must (tw_gasPrice w) "SuggestGasPrice" ;;
  let tx := mkTx chainID nonce gasPrice (10 ^ 9)%Z 21000 (Some to) (Some amount) [] in
  must (tw_sign w) "sign ETH transfer" ;;
  act (ASend "ETH transfer" from tx) ;;
  must (tw_send w) "send ETH transfer" ;;
  waitMined (tw_polls w) "ETH transfer".

Definition deployMockToken (w : TxWorld) (deployerKey : PrivateKey) (chainID : Z) : sim Address :=
  bytecode <- must (match Hex.DecodeString mockTokenBytecode with
                    | Some b => Ok b | None => Err "encoding/hex: invalid byte" end)
                "decode MockToken bytecode" ;;
  let deployer := PubkeyToAddress (publicKey deployerKey) in
  nonce <- must (tw_nonce w) "PendingNonceAt for deployer" ;;
  gasPrice <- must (tw_gasPrice w) "SuggestGasPrice for deploy" ;;
  let tx := mkTx chainID nonce gasPrice (10 ^ 9)%Z 2000000 None None bytecode in
  must (tw_sign w) "sign deploy tx" ;;
  act (ASend "MockToken deploy" deployer tx) ;;
  must (tw_send w) "send deploy tx" ;;
  receipt <- waitMined (tw_polls w) "MockToken deploy" ;;
  sim_ret (Receipt_ContractAddress receipt).

Definition sendContractTx (w : TxWorld) (key : PrivateKey) (to : Address) (data : bytes) (chainID : Z)
    (label : string) : sim unit :=
  let from := PubkeyToAddress (publicKey key) in
  nonce <- must (tw_nonce w) ("PendingNonceAt for " +:+ label) ;;
  gasPrice <- must (tw_gasPrice w) ("SuggestGasPrice for " +:+ label) ;;
  let tx := mkTx chainID nonce gasPrice (10 ^ 9)%Z 500000 (Some to) None data in
  must (tw_sign w) ("sign " +:+ label +:+ " tx") ;;
  act (ASend label from tx) ;;
  must (tw_send w) ("send " +:+ label +:+ " tx") ;;
  waitMined (tw_polls w) label ;;
  sim_ret tt.

(** *** Calldata *)

Definition mintData (to : Address) (amount : Z) : bytes :=
  Hex2Bytes "40c10f19" ++ LeftPadBytes (vec_to_list to) 32 ++ LeftPadBytes (Big_Bytes amount) 32.

Definition callMint (w : TxWorld) (minterKey : PrivateKey) (token to : Address) (amount chainID : Z) : sim unit :=
  sendContractTx w minterKey token (mintData to amount) chainID "mint".

Definition approveData (spender : Address) (amount : Z) : bytes :=
  Hex2Bytes "095ea7b3" ++ LeftPadBytes (vec_to_list spender) 32 ++ LeftPadBytes (Big_Bytes amount) 32.

Definition callApprove (w : TxWorld) (ownerKey : PrivateKey) (token spender : Address) (amount chainID : Z)
    : sim unit :=
  sendContractTx w ownerKey token (approveData spender amount) chainID "approve".

Definition lockIntentData (intentID : Bytes32) (token : Address) (amount : Z) : bytes :=
  Hex2Bytes "47643164" ++ vec_to_list intentID ++ LeftPadBytes (vec_to_list token) 32 ++
  LeftPadBytes (Big_Bytes amount) 32.

Definition callLockIntent (w : TxWorld) (agentKey : PrivateKey) (settlement : Address) (intentID : Bytes32)
    (token : Address) (amount chainID : Z) : sim unit :=
  sendContractTx w agentKey settlement (lockIntentData intentID token amount) chainID "lockIntent".

(** *** The solver goroutine *)

(** What [ReadMessage] delivers: an error, bytes that do not decode, or a
    broadcast. *)
Inductive ws_read :=
| WsReadError
| WsUnparseable (err : string)
| WsMessage (m : wsBroadcast).

(** The reply to a broadcast, if it gets one. *)
Definition bidFor (solver : Address) (m : wsBroadcast) : option wsBidRequest :=
  if negb (bool_decide (ws_Type m = "new_intent")) then None
  else
    match ws_Intent m with
    | Err _ => None
    | Ok id => Some (mkWsBid id (Address_Hex solver) bidAmount bidGas)
    end.

(** The loop over the messages: [None] when it is still reading, else the bid
    it wrote, if any. *)
Fixpoint listen (solver : Address) (msgs : list ws_read) : option (option wsBidRequest) :=
  match msgs with
  | [] => None
  | WsReadError :: _ => Some None
  | WsUnparseable _ :: msgs => listen solver msgs
  | WsMessage m :: msgs =>
      match bidFor solver m with
      | None => listen solver msgs
      | Some bid => Some (Some bid)
      end
  end.

(** *** The intent, its signature and the request *)

Context `{Abi}.

(** [fmt.Sprintf("sim-%d", nanos)] *)
Definition simID (nanos : Z) : string := "sim-" +:+ Big.String (Some nanos).

Definition simIntent (id : string) (user token : Address) (deadline : Time) : Intent :=
  mkIntent id user token token (Big.SetString lockAmount) (Big.SetString minAmount) deadline 1 []
    (mkTime 0 0).

Definition simDomain (settlement : Address) : Domain := mkDomain "VynX" "1" defaultChainID settlement.

Definition simRequest (id : string) (user token : Address) (deadline : Time) (sig : bytes) : intentHTTPRequest :=
  mkHTTPRequest id (Address_Hex user) (Address_Hex token) (Address_Hex token) lockAmount minAmount
    (GoTime.toUnix deadline) 1 ("0x" +:+ Hex.EncodeToString sig).

(** *** main *)

(** Everything the run receives from outside.  [sw_tx k] is the node around
    the k-th transaction; [sw_msgs] what the WebSocket delivers; [sw_post] the
    relayer's answer: an error of [Do], or the status and whether the body
    decodes.  The schedule of the two goroutines is part of it: [sw_steps k] is
    the number of messages the solver goroutine reads in the k-th stretch of
    [contact] below, and [sw_timer] whether the ten seconds of the wait were over
    when the main goroutine took a case of its [select]. *)
Record SimWorld := mkSimWorld {
  sw_env : Env.env;
  sw_DialContext : string → result string Backend;
  sw_userKey : result string PrivateKey;
  sw_solverKey : result string PrivateKey;
  sw_HexToECDSA : string → result string PrivateKey;
  sw_tx : nat → TxWorld;
  sw_nanos : Z;
  sw_ws : string → result string unit;
  sw_now : Time;
  sw_msgs : list ws_read;
  sw_write : result string unit;
  sw_steps : nat → nat;
  sw_timer : bool;
  sw_newRequest : string → result string unit;
  sw_post : string → intentHTTPRequest → result string (Z * result string unit);
  sw_callOpts : CallOpts
}.

Definition lift_signer {A} (r : result SignerError A) : result string A :=
  map_err (λ _, "signer error") r.

(** *** The two goroutines *)

(** The solver goroutine reads [n] more messages, at most up to the one it
    answers; [None] is a goroutine that has returned, otherwise the messages
    it has not read are left. *)
Definition advance (w : SimWorld) (solver : Address) (n : nat) (g : option (list ws_read))
    : sim (option (list ws_read)) :=
  match g with
  | None => sim_ret None
  | Some msgs =>
      match listen solver (take n msgs) with
      | None => sim_ret (Some (drop n msgs))
      | Some None => sim_ret None
      | Some (Some bid) =>
          match sw_write w with
          | Err _ => sim_ret None
          | Ok _ => act (ABid bid) ;; sim_ret None
          end
      end
  end.

(** The request goes out. *)
Definition post (w : SimWorld) (url : string) (r : intentHTTPRequest) : sim unit :=
  must (sw_newRequest w url) "build HTTP request" ;;
  act (APost url r).

(** Its answer comes back. *)
Definition postAnswer (w : SimWorld) (url : string) (r : intentHTTPRequest) : sim unit :=
  match sw_post w url r with
  | Err err => fatalf (PostFailed err)
  | Ok (_, Err err) => fatalf (DecodeFailed err)
  | Ok (st, Ok _) => if (st =? StatusAccepted)%Z then sim_ret tt else fatalf (Rejected st)
  end.

(** The wait for the end of the solver goroutine, for at most ten seconds. *)
Definition awaitBid (w : SimWorld) (g : option (list ws_read)) : sim unit :=
  match g with
  | None => if sw_timer w then fatalf BidTimeout else sim_ret tt
  | Some _ => fatalf BidTimeout
  end.

(** From the start of the solver goroutine to the join.  The goroutine runs
    beside the request: it may answer an announcement before the request is
    sent, while its answer is awaited, before the process ends on a failed
    request, or after it. *)
Definition contact (w : SimWorld) (solver : Address) (url : string) (r : intentHTTPRequest) : sim unit :=
  g0 <- advance w solver (sw_steps w 0) (Some (sw_msgs w)) ;;
  post w url r ;;
  g1 <- advance w solver (sw_steps w 1) g0 ;;
  postAnswer w url r ;;
  g2 <- advance w solver (sw_steps w 2) g1 ;;
  awaitBid w g2.

Definition verifyEscrow (w : SimWorld) (settlementAddr : Address) (ethCl : Backend) (id : Bytes32)
    : sim Escrow :=
  settlement <- must (NewVynxSettlement settlementAddr ethCl) "bind VynxSettlement for verification" ;;
  match Escrows (s_caller settlement) (sw_callOpts w) id with
  | Panic => fatalf SimPanic
  | Ret r =>
      escrow <- must r "read escrow state" ;;
      if Escrow_IsResolved escrow then sim_ret escrow else fatalf NotResolved
  end.

Definition simulate (w : SimWorld) : sim Escrow :=
  let relayerHTTP := envOrDefault (sw_env w) "RELAYER_HTTP" defaultRelayerHTTP in
  let relayerWS := envOrDefault (sw_env w) "RELAYER_WS" defaultRelayerWS in
  let rpcURL := envOrDefault (sw_env w) "BASE_RPC_URL" defaultRPCURL in
  let settlementAddr := HexToAddress (envOrDefault (sw_env w) "SETTLEMENT_CONTRACT_ADDRESS" defaultSettlementAddr) in
  let chainID := defaultChainID in
  ethCl <- must (sw_DialContext w rpcURL) "dial Anvil RPC" ;;
  userKey <- must (sw_userKey w) "generate user key" ;;
  solverKey <- must (sw_solverKey w) "generate solver key" ;;
  funderKey <- must (sw_HexToECDSA w funderKeyHex) "parse funder key" ;;
  let userAddr := PubkeyToAddress (publicKey userKey) in
  let solverAddr := PubkeyToAddress (publicKey solverKey) in
  sendETH (sw_tx w 0) funderKey userAddr chainID (10 ^ 18)%Z ;;
  tokenAddr <- deployMockToken (sw_tx w 1) funderKey chainID ;;
  let amount := default 0%Z (Big.SetString lockAmount) in
  callMint (sw_tx w 2) funderKey tokenAddr userAddr amount chainID ;;
  callApprove (sw_tx w 3) userKey tokenAddr settlementAddr amount chainID ;;
  let intentID := simID (sw_nanos w) in
  let idBytes := copy_array 32 (str_bytes intentID) in
  callLockIntent (sw_tx w 4) userKey settlementAddr idBytes tokenAddr amount chainID ;;
  match sw_ws w (relayerWS +:+ "/v1/ws/solvers") with
  | Err err => fatalf (WSDialFailed err)
  | Ok _ =>
      let deadline := addSeconds (sw_now w) 300 in
      let intent := simIntent intentID userAddr tokenAddr deadline in
      digest <- must (lift_signer (HashIntent (simDomain settlementAddr) intent)) "compute EIP-712 digest" ;;
      sig <- must (crypto_Sign digest userKey) "sign EIP-712 digest" ;;
      contact w solverAddr (relayerHTTP +:+ "/v1/intent") (simRequest intentID userAddr tokenAddr deadline sig) ;;
      verifyEscrow w settlementAddr ethCl idBytes
  end.

End driver.

(** ** Lemmas: calldata *)

Section calldata_lemmas.

Lemma be_bytes_0 n : be_bytes n 0 = replicate n Byte.x00.
Proof. induction n as [|n IH]; [done|]. cbn [be_bytes]. rewrite Z.div_0_l by done. by rewrite IH, replicate_S_end. Qed.

(** Left padding turns the minimal encoding into the fixed-width one. *)
Lemma pad_abs_bytes fuel n z :
  (0 ≤ z < 256 ^ Z.of_nat fuel)%Z → (z < 256 ^ Z.of_nat n)%Z →
  length (abs_bytes fuel z) ≤ n ∧
  replicate (n - length (abs_bytes fuel z)) Byte.x00 ++ abs_bytes fuel z = be_bytes n z.
Proof.
  revert n z. induction fuel as [|fuel IH]; intros n z Hz Hn.
  { assert (z = 0%Z) as -> by (simpl in Hz; lia). simpl. rewrite app_nil_r, be_bytes_0, Nat.sub_0_r. split; [lia|done]. }
  cbn [abs_bytes]. destruct (Z.eqb_spec z 0) as [->|Hz0].
  { simpl. rewrite app_nil_r, be_bytes_0, Nat.sub_0_r. split; [lia|done]. }
  destruct n as [|n]; [simpl in Hn; lia|].
  rewrite Nat2Z.inj_succ, Z.pow_succ_r in Hz, Hn by lia.
  assert (0 ≤ z / 256)%Z by (apply Z.div_pos; lia).
  assert (z / 256 < 256 ^ Z.of_nat fuel)%Z by (apply Z.div_lt_upper_bound; lia).
  assert (z / 256 < 256 ^ Z.of_nat n)%Z by (apply Z.div_lt_upper_bound; lia).
  destruct (IH n (z / 256)%Z) as [Hl E]; [done|done|]. rewrite length_app. simpl. split; [lia|].
  replace (S n - (length (abs_bytes fuel (z / 256)) + 1)) with (n - length (abs_bytes fuel (z / 256))) by lia.
  by rewrite (assoc_L (++)), E.
Qed.

Lemma Big_Bytes_pad `{EthCommonLaws} z :
  (0 ≤ z < 2 ^ 256)%Z → LeftPadBytes (Big_Bytes z) 32 = be_bytes 32 z.
Proof.
  intros Hz. unfold Big_Bytes. rewrite (Z.abs_eq z) by lia.
  set (fuel := S (Z.to_nat (Z.log2 z))).
  assert (z < 256 ^ Z.of_nat fuel)%Z as Hf.
  { unfold fuel. rewrite Nat2Z.inj_succ, Z2Nat.id by apply Z.log2_nonneg.
    destruct (decide (z = 0%Z)) as [->|]; [done|].
    eapply Z.lt_le_trans; [apply Z.log2_spec; lia|].
    apply Z.pow_le_mono_l. lia. }
  destruct (pad_abs_bytes fuel 32 z) as [Hl E]; [lia| |by rewrite left_pad, E].
  change (256 ^ Z.of_nat 32)%Z with (2 ^ 256)%Z. tauto.
Qed.

Lemma words_of_amount z : (0 ≤ z < 2 ^ 256)%Z → abi_word (AbiUint (Some z)) = Some (be_bytes 32 z).
Proof. intros Hz. unfold abi_word. by rewrite decide_True. Qed.

Lemma pad_address `{EthCommonLaws} (a : Address) :
  LeftPadBytes (vec_to_list a) 32 = replicate 12 Byte.x00 ++ vec_to_list a.
Proof. rewrite left_pad; rewrite length_vec_to_list; [done|lia]. Qed.

(** The three selectors decode to the bytes of the source's comments. *)
Lemma selectors `{EthCommonLaws} :
  Hex2Bytes "40c10f19" = [Byte.x40; Byte.xc1; Byte.x0f; Byte.x19] ∧
  Hex2Bytes "095ea7b3" = [Byte.x09; Byte.x5e; Byte.xa7; Byte.xb3] ∧
  Hex2Bytes "47643164" = [Byte.x47; Byte.x64; Byte.x31; Byte.x64].
Proof. split_and!; apply hex2bytes; vm_compute; reflexivity. Qed.

End calldata_lemmas.

(** ** Lemmas: identifiers *)

Section id_lemmas.

Lemma str_bytes_app a b : str_bytes (a +:+ b) = str_bytes a ++ str_bytes b.
Proof. unfold str_bytes, String.list_byte_of_string. induction a as [|c a IH]; [done|]. simpl. by rewrite IH. Qed.

(** A printed number has at most as many bytes as its bound has digits, and
    ends in a digit. *)
Lemma print_digits_shape fuel n k :
  (0 ≤ n < 10 ^ (Z.of_nat k + 1))%Z →
  length (str_bytes (Big.print_digits fuel n)) ≤ S k ∧
  ∃ pre d, (0 ≤ d < 10)%Z ∧ str_bytes (Big.print_digits fuel n) = pre ++ [Ascii.byte_of_ascii (Big.digit_char d)].
Proof.
  revert n k. induction fuel as [|fuel IH]; intros n k Hn; cbn [Big.print_digits];
    pose proof (Z.mod_pos_bound n 10 ltac:(done)) as Hm.
  { split; [simpl; lia|]. by exists [], (n `mod` 10)%Z. }
  destruct (Z.ltb_spec n 10); [split; [simpl; lia|]; by exists [], (n `mod` 10)%Z|].
  rewrite str_bytes_app, length_app. split; [|by eexists _, _].
  destruct k as [|k]; [change (10 ^ (Z.of_nat 0 + 1))%Z with 10%Z in Hn; lia|].
  destruct (IH (n / 10)%Z k) as [Hl _]; [|simpl in *; lia].
  rewrite Nat2Z.inj_succ, Z.add_succ_l, Z.pow_succ_r in Hn by lia.
  split; [apply Z.div_pos; lia|]. apply Z.div_lt_upper_bound; lia.
Qed.

Lemma digit_byte d : (0 ≤ d < 10)%Z → Ascii.byte_of_ascii (Big.digit_char d) ≠ Byte.x00.
Proof.
  intros Hd. assert (d ∈ seqZ 0 10) as Hin by (apply elem_of_seqZ; lia). clear Hd.
  repeat (apply elem_of_cons in Hin as [->|Hin]; [done|]). by apply elem_of_nil in Hin.
Qed.

(** The id fits the 32 bytes of the contract's key without loss. *)
Lemma simID_shape n :
  is_i64 n → length (str_bytes (simID n)) ≤ 32 ∧ last (str_bytes (simID n)) ≠ Some Byte.x00.
Proof.
  intros Hn. unfold simID, Big.String. rewrite str_bytes_app, length_app. unfold is_i64 in Hn.
  assert (∀ m, (0 ≤ m ≤ 2 ^ 63)%Z → length (str_bytes (Big.print_nat m)) ≤ 19 ∧
    ∃ pre d, (0 ≤ d < 10)%Z ∧ str_bytes (Big.print_nat m) = pre ++ [Ascii.byte_of_ascii (Big.digit_char d)]) as Hp.
  { intros m Hm. apply (print_digits_shape _ _ 18). change (10 ^ (Z.of_nat 18 + 1))%Z with (10 ^ 19)%Z. lia. }
  destruct (Z.ltb_spec n 0).
  - destruct (Hp (- n)%Z) as [Hl (pre & d & Hd & E)]; [lia|].
    rewrite str_bytes_app, length_app. simpl length in *. split; [lia|].
    rewrite E, !(assoc_L (++)), last_snoc. by intros [= ?%digit_byte].
  - destruct (Hp n) as [Hl (pre & d & Hd & E)]; [lia|]. simpl length in *. split; [lia|].
    rewrite E, (assoc_L (++)), last_snoc. by intros [= ?%digit_byte].
Qed.

Lemma driver_amounts :
  Big.SetString bidAmount = Some 950000000000000000%Z ∧ Big.SetString bidGas = Some 1000000000%Z ∧
  Big.SetString minAmount = Some 900000000000000000%Z.
Proof. split_and!; vm_compute; reflexivity. Qed.

Lemma simID_inj n n' : simID n = simID n' → n = n'.
Proof.
  unfold simID. intros E%(inj (String.append "sim-")). apply (f_equal Big.SetString) in E.
  rewrite !SetString_String in E. congruence.
Qed.

End id_lemmas.

(** ** Lemmas: the fatal-error monad *)

Section sim_lemmas.

Lemma sim_bind_Ok {A B} (m : sim A) (k : A → sim B) tr b tr' :
  sim_bind m k tr = (Ok b, tr') → ∃ a tr1, m tr = (Ok a, tr1) ∧ k a tr1 = (Ok b, tr').
Proof. unfold sim_bind. destruct (m tr) as [[a|e] tr1]; [eauto|done]. Qed.

Inductive kind := KSend (label : string) | KPost | KBid.

Definition kind_of (a : action) : kind :=
  match a with
  | ASend l _ _ => KSend l
  | APost _ _ => KPost
  | ABid _ => KBid
  end.

(** An operation extends the trace by actions whose kinds are a prefix of
    [req], and by all of them when it succeeds. *)
Definition emits {A} (m : sim A) (req : list kind) : Prop :=
  ∀ tr, ∃ new, (m tr).2 = tr ++ new ∧ (kind_of <$> new) `prefix_of` req ∧
    (is_ok (m tr).1 = true → kind_of <$> new = req).

Lemma emits_ret {A} (a : A) : emits (sim_ret a) [].
Proof. intros tr. exists []. simpl. by rewrite app_nil_r. Qed.

Lemma emits_fatal {A} e req : emits (@fatalf A e) req.
Proof. intros tr. exists []. simpl. rewrite app_nil_r. split_and!; [done|apply prefix_nil|done]. Qed.

Lemma emits_must {A} (r : result string A) c : emits (must r c) [].
Proof. destruct r; [apply emits_ret|apply emits_fatal]. Qed.

Lemma emits_act a : emits (act a) [kind_of a].
Proof. intros tr. by exists [a]. Qed.

Lemma emits_bind {A B} (m : sim A) (k : A → sim B) req req' :
  emits m req → (∀ a, emits (k a) req') → emits (sim_bind m k) (req ++ req').
Proof.
  intros Hm Hk tr. destruct (Hm tr) as (new & E & Hp & Hx). unfold sim_bind.
  destruct (m tr) as [[a|e] tr1]; simpl in *.
  - specialize (Hx eq_refl). destruct (Hk a tr1) as (new' & E' & Hp' & Ho'). exists (new ++ new').
    rewrite fmap_app, Hx. split_and!; [by rewrite E', E, (assoc_L (++))|by apply prefix_app|].
    intros Hok. by rewrite Ho'.
  - exists new. split_and!; [done|by apply prefix_app_r|discriminate].
Qed.

(** A goal about a sequence started after the actions [past]: when its first
    part fails the trace is [past] and a prefix of that part's actions; otherwise
    the goal is about the rest, started after [past] and all of them. *)
Lemma stage_bind {A B} (m : sim A) (k : A → sim B) past req (Φ : result fatal B → list action → Prop) tr :
  emits m req → kind_of <$> tr = past →
  (∀ e tr', (kind_of <$> tr') `prefix_of` (past ++ req) → Φ (Err e) tr') →
  (∀ a tr1, m tr = (Ok a, tr1) → kind_of <$> tr1 = past ++ req → Φ (k a tr1).1 (k a tr1).2) →
  Φ (sim_bind m k tr).1 (sim_bind m k tr).2.
Proof.
  intros Hm <- He Hk. destruct (Hm tr) as (new & E & Hp & Hx). unfold sim_bind.
  destruct (m tr) as [[a|e] tr1]; simpl in *; subst tr1.
  - apply Hk; [done|]. by rewrite fmap_app, Hx.
  - apply He. rewrite fmap_app. by apply prefix_app.
Qed.

Lemma emits_waitMined polls label : emits (waitMined polls label) [].
Proof.
  induction polls as [|[r|e] polls IH]; cbn [waitMined]; [apply emits_fatal| |done].
  destruct (_ =? _)%Z; [apply emits_fatal|apply emits_ret].
Qed.

(** Whether the relayer has been contacted: a request or a bid. *)
Definition contacted (tr : list action) : Prop := ∃ k, k ∈ kind_of <$> tr ∧ (k = KPost ∨ k = KBid).

Lemma must_Ok {A} (r : result string A) c tr a tr' : must r c tr = (Ok a, tr') → r = Ok a ∧ tr' = tr.
Proof. destruct r; [by intros [= -> ->]|done]. Qed.

Lemma act_Ok a tr u tr' : act a tr = (Ok u, tr') → tr' = tr ++ [a].
Proof. by intros [= <-]. Qed.

(** The receipt came after some failed polls, and is not that of a reverted
    transaction. *)
Definition mined (w : TxWorld) (r : Receipt) : Prop :=
  ∃ errs rest, tw_polls w = (Err <$> errs) ++ Ok r :: rest ∧ Receipt_Status r ≠ 0%Z.

Lemma waitMined_Ok w label tr r tr' : waitMined (tw_polls w) label tr = (Ok r, tr') → mined w r ∧ tr' = tr.
Proof.
  unfold mined. induction (tw_polls w) as [|[r'|e] polls IH]; cbn [waitMined]; [done| |].
  - destruct (Z.eqb_spec (Receipt_Status r') 0); [done|]. intros [= -> ->]. split; [|done]. by exists [], polls.
  - intros (( errs & rest & -> & Hs) & ->)%IH. split; [|done]. by exists (e :: errs), rest.
Qed.

End sim_lemmas.

(** Steps through a successful run of a sequence. *)
Ltac sim_inv :=
  repeat match goal with
  | H : sim_bind _ _ _ = (Ok _, _) |- _ =>
      let a := fresh "a" in let tr := fresh "tr" in let H1 := fresh "H" in
      apply sim_bind_Ok in H as (a & tr & H1 & H)
  | H : must _ _ _ = (Ok _, _) |- _ => apply must_Ok in H as [? ->]
  | H : act _ _ = (Ok _, _) |- _ => apply act_Ok in H as ->
  | H : waitMined _ _ _ = (Ok _, _) |- _ => apply waitMined_Ok in H as [? ->]
  | H : sim_ret _ _ = (Ok _, _) |- _ => injection H as <- <-
  end.

Create HintDb sim.
#[export] Hint Resolve emits_ret emits_fatal emits_must emits_act emits_waitMined : sim.

(** A sequence that emits [req]: split off the kinds of its first part. *)
Ltac emits_step :=
  match goal with
  | |- emits (sim_bind (act ?a) _) (_ :: ?l) => apply (emits_bind _ _ [kind_of a] l); [apply emits_act|intros ?]
  | |- emits (sim_bind _ _) ?l => apply (emits_bind _ _ [] l); [auto with sim; fail|intros ?]
  end.

(** Reads the fields of the driver's request. *)
Ltac request_fields :=
  cbn [as_intentRequest simRequest req_ID req_Sender req_TokenIn req_TokenOut req_AmountIn req_MinAmountOut req_Deadline
    req_Nonce req_Signature hr_ID hr_Sender hr_TokenIn hr_TokenOut hr_AmountIn hr_MinAmountOut hr_Deadline hr_Nonce
    hr_Signature] in *.

Section driver_lemmas.
Context `{BindLib} `{EthCommon} `{Abi}.

(** The node took one transaction and it was mined. *)
Definition sent (w : TxWorld) (nonce gasPrice : Z) (r : Receipt) : Prop :=
  tw_nonce w = Ok nonce ∧ tw_gasPrice w = Ok gasPrice ∧ tw_send w = Ok tt ∧ mined w r.

Lemma emits_sendETH w key to chainID amount : emits (sendETH w key to chainID amount) [KSend "ETH transfer"].
Proof. unfold sendETH. repeat emits_step. auto with sim. Qed.

Lemma emits_deploy w key chainID : emits (deployMockToken w key chainID) [KSend "MockToken deploy"].
Proof. unfold deployMockToken. repeat emits_step. auto with sim. Qed.

Lemma emits_contract w key to data chainID label :
  emits (sendContractTx w key to data chainID label) [KSend label].
Proof. unfold sendContractTx. repeat emits_step. auto with sim. Qed.

Lemma sendETH_Ok w key to chainID amount tr r tr' :
  sendETH w key to chainID amount tr = (Ok r, tr') →
  ∃ nonce gp, sent w nonce gp r ∧
    tr' = tr ++ [ASend "ETH transfer" (PubkeyToAddress (publicKey key))
                   (mkTx chainID nonce gp (10 ^ 9) 21000 (Some to) (Some amount) [])].
Proof.
  unfold sendETH. intros Hs. sim_inv. repeat match goal with u : unit |- _ => destruct u end.
  eexists _, _. split; [|done]. done.
Qed.

Lemma deploy_Ok w key chainID tr token tr' :
  deployMockToken w key chainID tr = (Ok token, tr') →
  ∃ nonce gp r code, sent w nonce gp r ∧ token = Receipt_ContractAddress r ∧
    Hex.DecodeString mockTokenBytecode = Some code ∧
    tr' = tr ++ [ASend "MockToken deploy" (PubkeyToAddress (publicKey key))
                   (mkTx chainID nonce gp (10 ^ 9) 2000000 None None code)].
Proof.
  unfold deployMockToken. intros Hs. sim_inv. destruct (Hex.DecodeString _) as [code|]; [|done].
  simplify_eq. repeat match goal with u : unit |- _ => destruct u end.
  eexists _, _, _, _. split_and!; done.
Qed.

Lemma contract_Ok w key to data chainID label tr u tr' :
  sendContractTx w key to data chainID label tr = (Ok u, tr') →
  ∃ nonce gp r, sent w nonce gp r ∧
    tr' = tr ++ [ASend label (PubkeyToAddress (publicKey key))
                   (mkTx chainID nonce gp (10 ^ 9) 500000 (Some to) None data)].
Proof.
  unfold sendContractTx. intros Hs. sim_inv. repeat match goal with u : unit |- _ => destruct u end.
  eexists _, _, _. split; done.
Qed.

#[local] Hint Resolve emits_sendETH emits_deploy emits_contract : sim.

(** *** The solver goroutine beside the request *)

(** Skipped messages do not change the answer. *)
Lemma listen_app solver msgs rest : listen solver msgs = None → listen solver (msgs ++ rest) = listen solver rest.
Proof.
  induction msgs as [|m msgs IH]; [done|]. cbn [app listen]. destruct m as [|e|m]; [done|done|].
  by destruct (bidFor solver m).
Qed.

Lemma listen_stop solver msgs rest o : listen solver msgs = Some o → listen solver (msgs ++ rest) = Some o.
Proof.
  induction msgs as [|m msgs IH]; [done|]. cbn [app listen]. destruct m as [|e|m]; [done|done|].
  by destruct (bidFor solver m).
Qed.

(** A running goroutine has skipped everything it read. *)
Definition listening (solver : Address) (msgs : list ws_read) (g : option (list ws_read)) : Prop :=
  ∀ rest, g = Some rest → listen solver rest = listen solver msgs.

(** A stretch of the goroutine adds nothing, or its answer to the first
    announcement, with which it ends. *)
Definition replied (solver : Address) (msgs : list ws_read) (g g' : option (list ws_read)) (new : list action) : Prop :=
  (new = [] ∧ (g = None → g' = None)) ∨
  ∃ b, new = [ABid b] ∧ listen solver msgs = Some (Some b) ∧ is_Some g ∧ g' = None.

Lemma advance_spec w solver n g tr :
  listening solver (sw_msgs w) g →
  ∃ g' new, advance w solver n g tr = (Ok g', tr ++ new) ∧ listening solver (sw_msgs w) g' ∧
    replied solver (sw_msgs w) g g' new.
Proof.
  intros Hg. assert (∀ g', advance w solver n g tr = (Ok g', tr) → listening solver (sw_msgs w) g' →
    (g = None → g' = None) → ∃ g' new, advance w solver n g tr = (Ok g', tr ++ new) ∧
      listening solver (sw_msgs w) g' ∧ replied solver (sw_msgs w) g g' new) as Hquiet.
  { intros g' -> Hl Hn. exists g', []. rewrite app_nil_r. split_and!; [done|done|by left]. }
  destruct g as [msgs|]; [|by apply (Hquiet None)]. pose proof (Hg msgs eq_refl) as El.
  rewrite <- (take_drop n msgs) in El. cbn [advance] in *.
  destruct (listen solver (take n msgs)) as [[bid|]|] eqn:Et.
  - destruct (sw_write w); [|by apply (Hquiet None)]. exists None, [ABid bid]. split_and!; [done|done|].
    right. exists bid. split_and!; [done| |done|done]. rewrite <- El. by apply listen_stop.
  - by apply (Hquiet None).
  - apply (Hquiet (Some (drop n msgs))); [done| |done]. intros rest [= <-].
    rewrite <- El. symmetry. by apply listen_app.
Qed.

(** There is one answer at most. *)
Lemma replied_once solver msgs g g0 g1 g2 n0 n1 n2 :
  replied solver msgs g g0 n0 → replied solver msgs g0 g1 n1 → replied solver msgs g1 g2 n2 →
  (n0 = [] ∧ n1 ++ n2 = []) ∨
  ∃ b, listen solver msgs = Some (Some b) ∧ ((n0 = [ABid b] ∧ n1 ++ n2 = []) ∨ (n0 = [] ∧ n1 ++ n2 = [ABid b])).
Proof.
  intros [[-> K0]|(b0 & -> & Hb0 & _ & ->)] [[-> K1]|(b1 & -> & Hb1 & [? E1] & ->)]
    [[-> K2]|(b2 & -> & Hb2 & [? E2] & ->)]; simplify_eq.
  - by left.
  - right. exists b2. auto.
  - right. exists b1. auto.
  - right. exists b0. auto.
  - discriminate (K1 eq_refl).
Qed.

(** The answer of the relayer, the last stretch of the goroutine and the
    join. *)
Lemma join_spec w solver url r g tr :
  listening solver (sw_msgs w) g →
  ∃ x g' new,
    sim_bind (postAnswer w url r) (λ _, sim_bind (advance w solver (sw_steps w 2) g) (awaitBid w)) tr = (x, tr ++ new) ∧
    replied solver (sw_msgs w) g g' new ∧ (∀ u, x = Ok u → sw_post w url r = Ok (StatusAccepted, Ok tt)).
Proof.
  intros Hg. unfold postAnswer, sim_bind at 1.
  assert (∀ e : fatal, ∃ x g' new, (@Err fatal unit e, tr) = (x, tr ++ new) ∧
    replied solver (sw_msgs w) g g' new ∧ (∀ u, x = Ok u → sw_post w url r = Ok (StatusAccepted, Ok tt))) as Hfail.
  { intros e. exists (Err e), g, []. rewrite app_nil_r. split_and!; [done|by left|done]. }
  destruct (sw_post w url r) as [[st [[]|er]]|er]; [|apply Hfail..].
  destruct (Z.eqb_spec st StatusAccepted) as [->|]; [|apply Hfail]. cbn [sim_ret]. unfold sim_bind.
  destruct (advance_spec w solver (sw_steps w 2) g tr Hg) as (g2 & n2 & -> & _ & K2).
  exists (awaitBid w g2 (tr ++ n2)).1, g2, n2. split_and!; [|done|done]. unfold awaitBid. by repeat case_match.
Qed.

(** What [contact] adds to the trace: the request and an answer to the first
    announcement, in either order, and the request at least when it
    succeeds. *)
Definition contact_shape (w : SimWorld) (solver : Address) (req : action) (new : list action) : Prop :=
  new `prefix_of` [req] ∨
  ∃ b, listen solver (sw_msgs w) = Some (Some b) ∧ (new `prefix_of` [req; ABid b] ∨ new `prefix_of` [ABid b; req]).

Lemma contact_spec w solver url r tr :
  ∃ x new, contact w solver url r tr = (x, tr ++ new) ∧ contact_shape w solver (APost url r) new ∧
    (∀ u, x = Ok u → APost url r ∈ new ∧ sw_post w url r = Ok (StatusAccepted, Ok tt)).
Proof.
  unfold contact, sim_bind at 1.
  destruct (advance_spec w solver (sw_steps w 0) (Some (sw_msgs w)) tr) as (g0 & n0 & -> & Hg0 & K0);
    [by intros rest [= <-]|].
  unfold post, sim_bind at 1 2. destruct (sw_newRequest w url) as [u|err]; cbn [must sim_ret fatalf act].
  2: { eexists _, n0. split_and!; [done| |done]. destruct K0 as [[-> _]|(b & -> & Hb & _)]; [left; apply prefix_nil|].
       right. exists b. split; [done|]. right. by exists [APost url r]. }
  unfold sim_bind at 1.
  destruct (advance_spec w solver (sw_steps w 1) g0 ((tr ++ n0) ++ [APost url r]) Hg0) as (g1 & n1 & -> & Hg1 & K1).
  destruct (join_spec w solver url r g1 (((tr ++ n0) ++ [APost url r]) ++ n1) Hg1) as (x & g2 & n2 & E & K2 & Hx).
  exists x, (n0 ++ [APost url r] ++ n1 ++ n2). split_and!.
  - etrans; [exact E|]. by rewrite <- !(assoc_L (++)).
  - destruct (replied_once _ _ _ _ _ _ _ _ _ K0 K1 K2) as [[-> ->]|(b & Hb & [[-> ->]|[-> ->]])]; [by left|..];
      right; exists b; (split; [done|]); [by right|by left].
  - intros u' Hu. split; [|by eapply Hx]. apply elem_of_app. right. left.
Qed.

Lemma emits_verify w addr cl id : emits (verifyEscrow w addr cl id) [].
Proof.
  unfold verifyEscrow. repeat emits_step. case_match; [|auto with sim]. emits_step. case_match; auto with sim.
Qed.

Lemma verify_resolved w addr cl id tr e tr' :
  verifyEscrow w addr cl id tr = (Ok e, tr') →
  ∃ settlement, NewVynxSettlement addr cl = Ok settlement ∧
    Escrows (s_caller settlement) (sw_callOpts w) id = Ret (Ok e) ∧ Escrow_IsResolved e = true.
Proof.
  unfold verifyEscrow. intros Hv. sim_inv. case_match eqn:Ec; [|done]. sim_inv. case_match; [|done]. sim_inv.
  eexists. split_and!; [done| |done]. congruence.
Qed.

(** The driver's own addresses and urls. *)
Definition settlementOf (w : SimWorld) : Address :=
  HexToAddress (envOrDefault (sw_env w) "SETTLEMENT_CONTRACT_ADDRESS" defaultSettlementAddr).

Definition intentURL (w : SimWorld) : string := envOrDefault (sw_env w) "RELAYER_HTTP" defaultRelayerHTTP +:+ "/v1/intent".

Definition addressOf (key : PrivateKey) : Address := PubkeyToAddress (publicKey key).

(** The driver's transactions, in order. *)
Definition stages : list kind :=
  [KSend "ETH transfer"; KSend "MockToken deploy"; KSend "mint"; KSend "approve"; KSend "lockIntent"].

(** The trace starts with the five transactions, all mined, that fund and lock
    the escrow of the intent; a request in it is the one of that intent, with
    the user's signature of its digest, to the relayer's endpoint; and a bid
    in it answers the first announcement the WebSocket delivered. *)
Definition escrowed_first (w : SimWorld) (tr : list action) : Prop :=
  let id := simID (sw_nanos w) in
  let amount := (10 ^ 18)%Z in
  let deadline := addSeconds (sw_now w) 300 in
  ∃ user solver funder receipt digest sig tx0 tx1 tx2 tx3 tx4,
    let token := Receipt_ContractAddress receipt in
    [ASend "ETH transfer" (addressOf funder) tx0; ASend "MockToken deploy" (addressOf funder) tx1;
     ASend "mint" (addressOf funder) tx2; ASend "approve" (addressOf user) tx3;
     ASend "lockIntent" (addressOf user) tx4] `prefix_of` tr ∧
    (∀ k, k < 5 → ∃ r, mined (sw_tx w k) r) ∧ mined (sw_tx w 1) receipt ∧
    (tx_To tx0, tx_Value tx0) = (Some (addressOf user), Some amount) ∧
    (tx_To tx2, tx_Data tx2) = (Some token, mintData (addressOf user) amount) ∧
    (tx_To tx3, tx_Data tx3) = (Some token, approveData (settlementOf w) amount) ∧
    (tx_To tx4, tx_Data tx4) = (Some (settlementOf w), lockIntentData (intentIDBytes id) token amount) ∧
    HashIntent (simDomain (settlementOf w)) (simIntent id (addressOf user) token deadline) = Ok digest ∧
    crypto_Sign digest user = Ok sig ∧
    (∀ url r, APost url r ∈ tr → url = intentURL w ∧ r = simRequest id (addressOf user) token deadline sig) ∧
    (∀ b, ABid b ∈ tr → sw_solverKey w = Ok solver ∧ listen (addressOf solver) (sw_msgs w) = Some (Some b)).

(** The relayer accepted the request of the trace, and the contract reports
    the escrow of the intent's id, as resolved. *)
Definition settled (w : SimWorld) (tr : list action) (e : Escrow) : Prop :=
  ∃ r ethCl settlement,
    APost (intentURL w) r ∈ tr ∧ sw_post w (intentURL w) r = Ok (StatusAccepted, Ok tt) ∧
    sw_DialContext w (envOrDefault (sw_env w) "BASE_RPC_URL" defaultRPCURL) = Ok ethCl ∧
    NewVynxSettlement (settlementOf w) ethCl = Ok settlement ∧
    Escrows (s_caller settlement) (sw_callOpts w) (intentIDBytes (simID (sw_nanos w))) = Ret (Ok e) ∧
    Escrow_IsResolved e = true.

(** What holds of the result and the trace of a run. *)
Definition run_ok (w : SimWorld) (r : result fatal Escrow) (tr : list action) : Prop :=
  ((kind_of <$> tr) `prefix_of` (stages ++ [KPost; KBid]) ∨ (kind_of <$> tr) `prefix_of` (stages ++ [KBid; KPost])) ∧
  (contacted tr → escrowed_first w tr) ∧
  (∀ e, r = Ok e → escrowed_first w tr ∧ settled w tr e).

(** A run that ends among its transactions. *)
Lemma run_ok_early w past req e tr :
  (kind_of <$> tr) `prefix_of` (past ++ req) → (past ++ req) `prefix_of` stages → run_ok w (Err e) tr.
Proof.
  intros Hp Hs. assert ((kind_of <$> tr) `prefix_of` stages) as Hp' by by etrans. split_and!; [|..|done].
  - left. by apply prefix_app_r.
  - intros (k & Hk & Hor). eapply elem_of_prefix in Hk; [|exact Hp']. exfalso.
    unfold stages in Hk. set_solver.
Qed.

Lemma shape_kinds w solver url r new :
  contact_shape w solver (APost url r) new →
  (kind_of <$> new) `prefix_of` [KPost; KBid] ∨ (kind_of <$> new) `prefix_of` [KBid; KPost].
Proof.
  intros [[k E]|(b & _ & [[k E]|[k E]])]; apply (f_equal (fmap kind_of)) in E; rewrite fmap_app in E; simpl in E.
  - left. exists ((kind_of <$> k) ++ [KBid]). rewrite (assoc_L (++)), <- E. done.
  - left. by exists (kind_of <$> k).
  - right. by exists (kind_of <$> k).
Qed.

Lemma shape_elem w solver req new a :
  contact_shape w solver req new → a ∈ new → a = req ∨ ∃ b, a = ABid b ∧ listen solver (sw_msgs w) = Some (Some b).
Proof.
  intros Hs Ha. assert (∀ l, new `prefix_of` l → a ∈ l) as Hp by (intros l Hl; by eapply elem_of_prefix).
  destruct Hs as [Hl|(b & Hb & [Hl|Hl])]; apply Hp in Hl.
  - left. by apply list_elem_of_singleton in Hl.
  - apply elem_of_cons in Hl as [->|Hl%list_elem_of_singleton]; [by left|right; by exists b].
  - apply elem_of_cons in Hl as [->|Hl%list_elem_of_singleton]; [right; by exists b|by left].
Qed.

(** The end of a run: the relayer is contacted after the transactions [pre]. *)
Lemma contact_run w pre user solver funder receipt sig tx0 tx1 tx2 tx3 tx4 ethCl (k : unit → sim Escrow) :
  let id := simID (sw_nanos w) in
  let token := Receipt_ContractAddress receipt in
  let deadline := addSeconds (sw_now w) 300 in
  let req := simRequest id (addressOf user) token deadline sig in
  pre = [ASend "ETH transfer" (addressOf funder) tx0; ASend "MockToken deploy" (addressOf funder) tx1;
         ASend "mint" (addressOf funder) tx2; ASend "approve" (addressOf user) tx3;
         ASend "lockIntent" (addressOf user) tx4] →
  sw_solverKey w = Ok solver →
  sw_DialContext w (envOrDefault (sw_env w) "BASE_RPC_URL" defaultRPCURL) = Ok ethCl →
  (∀ tr, (∀ url r, APost url r ∈ tr → url = intentURL w ∧ r = req) →
     (∀ b, ABid b ∈ tr → sw_solverKey w = Ok solver ∧ listen (addressOf solver) (sw_msgs w) = Some (Some b)) →
     pre `prefix_of` tr → escrowed_first w tr) →
  (∀ u, k u = verifyEscrow w (settlementOf w) ethCl (intentIDBytes id)) →
  let m := sim_bind (contact w (addressOf solver) (intentURL w) req) k in
  run_ok w (m pre).1 (m pre).2.
Proof.
  intros id token deadline req Epre Hsk Hcl Hfirst Hk m.
  destruct (contact_spec w (addressOf solver) (intentURL w) req pre) as (x & new & Ec & Hsh & Hx).
  assert (kind_of <$> pre = stages) as Hkinds by by rewrite Epre.
  assert (∀ a, a ∈ pre ++ new → (∃ l f t, a = ASend l f t) ∨ a = APost (intentURL w) req ∨
    ∃ b, a = ABid b ∧ listen (addressOf solver) (sw_msgs w) = Some (Some b)) as Hin.
  { intros a [Ha|Ha]%elem_of_app; [left|right; by eapply shape_elem]. rewrite Epre in Ha.
    repeat (apply elem_of_cons in Ha as [->|Ha]; [by eexists _, _, _|]). by apply elem_of_nil in Ha. }
  assert (escrowed_first w (pre ++ new)) as Hes.
  { apply Hfirst; [intros url r Ha|intros b Ha|by apply prefix_app_r]; apply Hin in Ha.
    - destruct Ha as [(? & ? & ? & [=])|[[= -> ->]|(? & [=] & _)]]. done.
    - destruct Ha as [(? & ? & ? & [=])|[[=]|(? & [= ->] & ?)]]. done. }
  assert (∃ x', m pre = (x', pre ++ new) ∧ ∀ e, x' = Ok e → settled w (pre ++ new) e) as (x' & Em & Hset).
  { unfold m, sim_bind. rewrite Ec. destruct x as [u|er]; [|by exists (Err er)].
    destruct (Hx u eq_refl) as [Hp Hacc]. rewrite Hk.
    destruct (emits_verify w (settlementOf w) ethCl (intentIDBytes id) (pre ++ new)) as (n & En & Hn & _).
    apply prefix_nil_inv, fmap_nil_inv in Hn as ->. rewrite app_nil_r in En.
    destruct (verifyEscrow _ _ _ _ _) as [x' tr'] eqn:Ev. simpl in En. subst tr'. exists x'. split; [done|].
    intros e ->. apply verify_resolved in Ev as (st & Est & Ee & Er).
    exists req, ethCl, st. split_and!; try done. apply elem_of_app. by right. }
  rewrite Em. cbn [fst snd]. split_and!; [|done|intros e He; split; [done|by apply Hset]].
  rewrite fmap_app, Hkinds. destruct (shape_kinds _ _ _ _ _ Hsh); [left|right]; by apply prefix_app.
Qed.

(** Steps over one part of the driver. *)
Ltac stage_step m_emits :=
  eapply (stage_bind _ _ _ _ (run_ok _)); [apply m_emits|eassumption
    |intros ? ? Hp; eapply run_ok_early; [exact Hp|by eexists]|].

Lemma simulate_ok w : run_ok w (simulate w []).1 (simulate w []).2.
Proof.
  unfold simulate, callMint, callApprove, callLockIntent. fold (settlementOf w) (intentURL w).
  assert (kind_of <$> [] = []) as Ek by done.
  stage_step @emits_must. intros cl ? [Hcl ->]%must_Ok _.
  stage_step @emits_must. intros user ? [Hu ->]%must_Ok _.
  stage_step @emits_must. intros solver ? [Hso ->]%must_Ok _.
  stage_step @emits_must. intros funder ? [Hf ->]%must_Ok _.
  stage_step @emits_sendETH. intros ? ? (n0 & g0 & S0 & ->)%sendETH_Ok E0.
  stage_step @emits_deploy. intros ? ? (n1 & g1 & r1 & code & S1 & -> & _ & ->)%deploy_Ok E1.
  stage_step @emits_contract. intros ? ? (n2 & g2 & r2 & S2 & ->)%contract_Ok E2.
  stage_step @emits_contract. intros ? ? (n3 & g3 & r3 & S3 & ->)%contract_Ok E3.
  stage_step @emits_contract. intros ? ? (n4 & g4 & r4 & S4 & ->)%contract_Ok E4.
  destruct (sw_ws w _); [|eapply (run_ok_early _ stages []); by rewrite ?app_nil_r, ?E4].
  stage_step @emits_must. intros digest ? [Hd ->]%must_Ok E5.
  stage_step @emits_must. intros sig ? [Hs ->]%must_Ok E6.
  eapply (contact_run w _ user solver funder r1 sig); [reflexivity|exact Hso|exact Hcl| |done].
  intros tr Hpost Hbid Hpre.
  eexists user, solver, funder, r1, digest, sig, _, _, _, _, _. cbn zeta. split; [exact Hpre|].
  destruct S0 as (_ & _ & _ & M0), S1 as (_ & _ & _ & M1), S2 as (_ & _ & _ & M2),
    S3 as (_ & _ & _ & M3), S4 as (_ & _ & _ & M4). split_and!; try done.
  - intros k Hlt. do 5 (destruct k as [|k]; [by eexists|]). lia.
  - by destruct (HashIntent _ _); [injection Hd as ->|].
Qed.

Lemma deadline_unix now :
  clock_ok now → GoTime.toUnix (addSeconds now 300) = (t_sec now + 300 - GoTime.unixToInternal)%Z.
Proof.
  intros [Hs _]. unfold GoTime.toUnix, addSeconds. cbn [t_sec]. assert (0 < GoTime.unixToInternal < 2 ^ 62)%Z by done.
  rewrite (wrap_i64_id (t_sec now + 300)) by (unfold is_i64; lia). apply wrap_i64_id. unfold is_i64. lia.
Qed.

(** The digest depends on the signed fields, and its errors on the id. *)
Lemma HashIntent_signed_fields d i i' :
  Intent_ID i = Intent_ID i' → signed_fields i = signed_fields i' → HashIntent d i = HashIntent d i'.
Proof.
  intros Hid Hf. assert (intent_values i = intent_values i') as Ev.
  { unfold intent_values. by injection Hf as -> -> -> -> -> -> ->. }
  unfold HashIntent, intentStructHash. by rewrite Hid, Ev.
Qed.

Lemma HashIntent_sim `{!AbiLaws} settlement id user token now :
  clock_ok now → (GoTime.unixToInternal ≤ t_sec now)%Z →
  ∃ digest, HashIntent (simDomain settlement) (simIntent id user token (addSeconds now 300)) = Ok digest.
Proof.
  intros Hc Hs. destruct (domain_words (simDomain settlement)) as [wd Ed]; [done|].
  destruct (intent_words (simIntent id user token (addSeconds now 300))) as [wi Ei].
  { split_and!.
    - exists 1000000000000000000%Z. split; [reflexivity|lia].
    - exists 900000000000000000%Z. split; [reflexivity|lia].
    - cbn [Intent_Deadline simIntent]. rewrite deadline_unix by done. lia.
    - done. }
  eexists. by apply HashIntent_words.
Qed.

Lemma RecoverSigner_Sign `{!CryptoLaws} digest key sig :
  crypto_Sign digest key = Ok sig → RecoverSigner digest sig = Ok (addressOf key).
Proof.
  intros Es. destruct (sign_format _ _ _ Es) as (rs & v & Hl & -> & _). unfold RecoverSigner.
  rewrite length_app, Hl. simpl. by rewrite (sign_recover _ _ _ Es).
Qed.

(** The API reads back what the driver wrote. *)
Lemma simRequest_valid `{!EthCommonLaws} nanos user token now sig later later' :
  clock_ok now → clock_ok later → (GoTime.unixToInternal ≤ t_sec now)%Z → (t_sec later < t_sec now + 300)%Z →
  let id := simID nanos in
  let deadline := addSeconds now 300 in
  ∃ i, parseIntent HexToAddress (as_intentRequest (simRequest id user token deadline sig)) later later' = Ok i ∧
    Intent_ID i = id ∧ signed_fields i = signed_fields (simIntent id user token deadline) ∧
    Intent_Signature i = sig.
Proof.
  intros Hc Hcl Hs Hl id deadline. assert (0 < GoTime.unixToInternal < 2 ^ 62)%Z as Hu by done. pose proof (deadline_unix now Hc) as Hdl.
  change (addSeconds now 300) with deadline in Hdl.
  assert (GoTime.toUnix later = t_sec later - GoTime.unixToInternal)%Z as Hlu.
  { apply wrap_i64_id. destruct Hcl. unfold is_i64. lia. }
  destruct (parseIntent_valid HexToAddress (as_intentRequest (simRequest id user token deadline sig)) later later')
    as (i & Ei & Hi & _); [|done| |].
  { destruct Hc. split; request_fields; [|done].
    rewrite Hdl. unfold is_i64. lia. }
  { destruct Hc. split; request_fields.
    - done.
    - exists 1000000000000000000%Z. split; [reflexivity|lia].
    - exists 900000000000000000%Z. split; [reflexivity|lia].
    - rewrite Hlu, Hdl. unfold max_deadline. lia.
    - right. rewrite TrimPrefix_app, hex_decode_encode. by eexists. }
  exists i. destruct Hi as [Hid Hse Hti Hto Hai Hmi Hde Hno Hsi _].
  request_fields. rewrite TrimPrefix_app, hex_decode_encode in Hsi. rewrite hex_address in Hse, Hti, Hto.
  unfold signed_fields. rewrite Hse, Hti, Hto, Hai, Hmi, Hde, Hno. by split_and!.
Qed.

(** *** The solver goroutine *)

(** A message the loop skips. *)
Definition ignored (solver : Address) (m : ws_read) : Prop :=
  match m with
  | WsReadError => False
  | WsUnparseable _ => True
  | WsMessage m => bidFor solver m = None
  end.

Lemma bidFor_Some solver m bid :
  bidFor solver m = Some bid ↔
  ∃ id, m = mkWsBroadcast "new_intent" (Ok id) ∧ bid = mkWsBid id (Address_Hex solver) bidAmount bidGas.
Proof.
  unfold bidFor. destruct m as [ty [id|e]]; simpl; case_bool_decide as Ht; simpl;
    (split; [intros [= <-]; subst; eauto|intros (? & [=] & ?); by subst]).
Qed.

Lemma listen_reply solver msgs bid :
  listen solver msgs = Some (Some bid) ↔
  ∃ pre id rest, msgs = pre ++ WsMessage (mkWsBroadcast "new_intent" (Ok id)) :: rest ∧
    Forall (ignored solver) pre ∧ bid = mkWsBid id (Address_Hex solver) bidAmount bidGas.
Proof.
  split.
  - induction msgs as [|m msgs IH]; [done|]. cbn [listen]. destruct m as [|e|m]; [done|..].
    + intros (pre & id & rest & -> & Hp & ->)%IH. exists (WsUnparseable e :: pre), id, rest.
      split_and!; [done|by constructor|done].
    + destruct (bidFor solver m) as [b|] eqn:Eb.
      * intros [= ->]. apply bidFor_Some in Eb as (id & -> & ->). by exists [], id, msgs.
      * intros (pre & id & rest & -> & Hp & ->)%IH. exists (WsMessage m :: pre), id, rest.
        split_and!; [done|by constructor|done].
  - intros (pre & id & rest & -> & Hp & ->). induction Hp as [|m pre Hm Hp IH]; [done|].
    destruct m as [|e|m]; [done|done|]. simpl in *. by rewrite Hm.
Qed.

End driver_lemmas.

(** ** Theorems *)

Section theorems.
Context `{BindLib} `{EthCommon} `{Abi}.

(** C28 (safety). The driver's order of events, for every behaviour of the
    node, the relayer and the WebSocket and every interleaving of its two
    goroutines.  Its actions are a prefix of the five transactions, then the
    request and at most one bid of the solver goroutine, in either order.
    When it contacts the relayer, the five transactions are mined, the last one
    locks the amount of the intent, of the token the intent names, under the
    on-chain id of the intent's id, after that token was minted to the user and
    approved for the settlement contract; the request is the one of that
    intent, with the user's signature of its digest; and a bid answers the first announcement the
    WebSocket delivered.  It ends successfully only after that, only when the
    relayer accepted the request, and only when the contract reports the
    escrow of this intent's id as resolved. *)
Theorem escrow_before_intent (w : SimWorld) :
  let (r, tr) := simulate w [] in
  ((kind_of <$> tr) `prefix_of` (stages ++ [KPost; KBid]) ∨ (kind_of <$> tr) `prefix_of` (stages ++ [KBid; KPost])) ∧
  (contacted tr → escrowed_first w tr) ∧
  (∀ e, r = Ok e → escrowed_first w tr ∧ settled w tr e).
Proof. pose proof (simulate_ok w) as Hr. by destruct (simulate w []) as [r tr]. Qed.

(** C30 (equivalence). The calldata the driver assembles by hand is the ABI
    encoding: for every amount that fits a uint256 it is the four-byte
    selector of its comment followed by go-ethereum's packing of the
    arguments, one 32-byte word each.  For lockIntent the arguments have
    the types that the binding's ABI declares; the selectors of mint and
    approve are compared (DUP1 PUSH4 selector EQ) by the token's bytecode. *)
Theorem calldata_is_abi_encoding `{!EthCommonLaws} `{!AbiLaws} (id : Bytes32) (a : Address) (amount : Z) bytes32T addressT uint256T :
  NewType "bytes32" = Ok bytes32T → NewType "address" = Ok addressT → NewType "uint256" = Ok uint256T →
  (0 ≤ amount < 2 ^ 256)%Z →
  (∃ enc, Pack [addressT; uint256T] [AbiAddress a; AbiUint (Some amount)] = Ok enc ∧ length enc = 64 ∧
     mintData a amount = [Byte.x40; Byte.xc1; Byte.x0f; Byte.x19] ++ enc ∧
     approveData a amount = [Byte.x09; Byte.x5e; Byte.xa7; Byte.xb3] ++ enc) ∧
  (∃ enc, Pack [bytes32T; addressT; uint256T] [AbiBytes32 id; AbiAddress a; AbiUint (Some amount)] = Ok enc ∧
     length enc = 96 ∧
     lockIntentData id a amount = [Byte.x47; Byte.x64; Byte.x31; Byte.x64] ++ enc) ∧
  declared "lockIntent" [VBytes32 id; VAddress a; VUint (Some amount)] Nonpayable ∧
  Strings.Contains mockTokenBytecode "806340c10f1914" = true ∧
  Strings.Contains mockTokenBytecode "8063095ea7b314" = true.
Proof.
  intros Hb Ha Hu Hz. pose proof (words_of_amount amount Hz) as Hw. destruct selectors as (S1 & S2 & S3).
  unfold mintData, approveData, lockIntentData. rewrite S1, S2, S3, pad_address, Big_Bytes_pad by done.
  split_and!.
  - exists (concat [replicate 12 Byte.x00 ++ vec_to_list a; be_bytes 32 amount]).
    split; [apply pack_words; [by repeat constructor|by apply mapM_Some; repeat constructor]|].
    cbn [concat]. rewrite app_nil_r, !length_app, length_vec, length_be_bytes. done.
  - exists (concat [vec_to_list id; replicate 12 Byte.x00 ++ vec_to_list a; be_bytes 32 amount]).
    split; [apply pack_words; [by repeat constructor|by apply mapM_Some; repeat constructor]|].
    cbn [concat]. rewrite app_nil_r, !length_app, !length_vec, length_be_bytes. done.
  - eexists. split; [do 3 right; left|done].
  - vm_compute. reflexivity.
  - vm_compute. reflexivity.
Qed.

(** C29 (roundtrip). The driver and the relayer's API agree.  The digest of the
    driver's intent exists; the relayer accepts the request that carries
    its signature whenever it has room and its clock is before the deadline,
    and queues an intent with the same signed fields, so that it has the same
    EIP-712 digest and the signature recovers to its sender. *)
Theorem request_roundtrip `{!EthCommonLaws} `{!AbiLaws} `{!CryptoLaws} (settlement token : Address) key nanos now
    (ch : chan Intent) later later' :
  let id := simID nanos in
  let user := addressOf key in
  let deadline := addSeconds now 300 in
  clock_ok now → (GoTime.unixToInternal ≤ t_sec now)%Z →
  clock_ok later → (t_sec later < t_sec now + 300)%Z →
  closed ch = false → length (buf ch) < cap ch →
  ∃ digest, HashIntent (simDomain settlement) (simIntent id user token deadline) = Ok digest ∧
  ∀ sig, crypto_Sign digest key = Ok sig →
  ∃ i, acceptIntent HexToAddress ch
         (mkRequest "POST" (Ok (as_intentRequest (simRequest id user token deadline sig)))) later later' =
         Ret (mkChan (cap ch) (buf ch ++ [i]) false, inr i) ∧
    Intent_ID i = id ∧ signed_fields i = signed_fields (simIntent id user token deadline) ∧
    HashIntent (simDomain settlement) i = Ok digest ∧
    RecoverSigner digest (Intent_Signature i) = Ok (Intent_Sender i).
Proof.
  intros id user deadline Hc Hs Hcl Hl Ho Hroom.
  destruct (HashIntent_sim settlement id user token now Hc Hs) as [digest Ed]. exists digest. split; [done|].
  intros sig Esig. destruct (simRequest_valid nanos user token now sig later later') as (i & Ei & Hid & Hf & Esg); [done..|].
  exists i. pose proof (HashIntent_signed_fields (simDomain settlement) i (simIntent id user token deadline) Hid Hf) as Eh. split_and!.
  - unfold acceptIntent, id, deadline. cbn [Method Body]. rewrite bool_decide_eq_true_2 by done. cbn [negb].
    rewrite Ei, (proj2 (try_send_Sent ch i _) (conj Ho (conj Hroom eq_refl))). reflexivity.
  - exact Hid.
  - exact Hf.
  - exact (eq_trans Eh Ed).
  - rewrite Esg. injection Hf as -> _ _ _ _ _ _. by eapply RecoverSigner_Sign.
Qed.

(** C31 (functional). The solver goroutine: it answers exactly the first
    decodable announcement of an intent and skips everything before it.  On a
    broadcast of the hub it bids for that intent, in the driver's own name,
    a bid the relayer's read pump accepts and whose amount is at least the
    minimum the driver's intent asks for. *)
Theorem solver_reply `{!EthCommonLaws} (solver : Address) (msgs : list ws_read) (bid : wsBidRequest) :
  (listen solver msgs = Some (Some bid) ↔
   ∃ pre id rest, msgs = pre ++ WsMessage (mkWsBroadcast "new_intent" (Ok id)) :: rest ∧
     Forall (ignored solver) pre ∧ bid = mkWsBid id (Address_Hex solver) bidAmount bidGas) ∧
  (∀ pre i rest now, Forall (ignored solver) pre →
     ∃ bid b, listen solver (pre ++ WsMessage (as_wsBroadcast (broadcastMessage Address_Hex i)) :: rest) = Some (Some bid) ∧
       parsed_bid HexToAddress (Ok (as_bidRequest bid)) now = Some b ∧ valid_bid b ∧
       Bid_IntentID b = Intent_ID i ∧ Bid_Solver b = solver ∧
       ∃ a m, Bid_AmountOut b = Some a ∧ Big.SetString minAmount = Some m ∧ (m ≤ a)%Z).
Proof.
  split.
  - apply listen_reply.
  - intros pre i rest now Hp. destruct driver_amounts as (Ea & Eg & Em).
    exists (mkWsBid (Intent_ID i) (Address_Hex solver) bidAmount bidGas),
      (mkBid (Intent_ID i) solver (Some 950000000000000000%Z) (Some 1000000000%Z) now []).
    split.
    { apply (proj2 (listen_reply solver _ _)). exists pre, (Intent_ID i), rest.
      split; [reflexivity|]. split; [exact Hp|reflexivity]. }
    split.
    { unfold parsed_bid. cbn [as_bidRequest breq_AmountOut breq_GasPrice breq_IntentID breq_Solver
        wb_IntentID wb_Solver wb_AmountOut wb_GasPrice]. by rewrite Ea, Eg, hex_address. }
    split_and!; [|done|done|].
    + exists 950000000000000000%Z, 1000000000%Z. split_and!; [reflexivity|reflexivity|lia|lia].
    + exists 950000000000000000%Z, 900000000000000000%Z. split; [reflexivity|]. split; [exact Em|lia].
Qed.

(** Runs of the driver at different nanoseconds use different
    escrows: the id fits the contract's 32-byte key, so the key under which the executor
    claims it determines the time it was made at. *)
Theorem runs_use_distinct_escrows nanos nanos' :
  is_i64 nanos → is_i64 nanos' →
  intentIDBytes (simID nanos) = intentIDBytes (simID nanos') → nanos = nanos'.
Proof.
  intros Hn Hn' E. apply simID_inj.
  destruct (simID_shape nanos Hn), (simID_shape nanos' Hn'). by apply id_bytes_inj.
Qed.

End theorems.

(** ** A concrete driver *)

Module ToySim.

#[local] Existing Instance Toy.crypto.
#[local] Existing Instance Toy.abi.
#[local] Existing Instance ToyChain.eth.
#[local] Existing Instance ToyBind.lib.

Definition common : EthCommon := {|
  LeftPadBytes := λ s l, replicate (l - length s) Byte.x00 ++ s;
  Hex2Bytes := λ s, (Hex.Decode s).1;
  HexToAddress := λ s, copy_array 20 (Hex.Decode (Strings.TrimPrefix s "0x")).1;
  Address_Hex := λ a, "0x" +:+ Hex.EncodeToString (vec_to_list a)
|}.

#[local] Existing Instance common.

Lemma common_laws : @EthCommonLaws common.
Proof.
  split.
  - done.
  - intros s bs. unfold Hex.DecodeString. cbn [Hex2Bytes common]. destruct (Hex.Decode s) as [b ok]. destruct ok; [|done].
    by intros [= ->].
  - intros a. cbn [HexToAddress Address_Hex common]. rewrite TrimPrefix_app. pose proof (hex_decode_encode (vec_to_list a)) as E. unfold Hex.DecodeString in E.
    destruct (Hex.Decode _) as [b ok]. destruct ok; [|done]. injection E as ->. apply copy_array_vec.
Qed.

(** Every transaction is mined at the second poll. *)
Definition tx : TxWorld :=
  mkTxWorld (Ok 0%Z) (Ok 1000000000%Z) (Ok tt) (Ok tt)
    [Err "not found"; Ok (mkReceipt 1 (vreplicate 20 Byte.x42))].

Definition nanos : Z := 1700000000000000000.
Definition now : Time := GoTime.Unix 1700000000.
Definition msgs : list ws_read :=
  [WsUnparseable "invalid character"; WsMessage (mkWsBroadcast "new_intent" (Ok (simID nanos)))].

Definition world : @SimWorld Toy.crypto ToyChain.eth ToyBind.lib :=
  @mkSimWorld Toy.crypto ToyChain.eth ToyBind.lib ∅ (λ _, Ok tt) (Ok Byte.x01) (Ok Byte.x02) (λ _, Ok Byte.x03) (λ _, tx)
    nanos (λ _, Ok tt) now msgs (Ok tt) (λ k, k) false (λ _, Ok tt) (λ _ _, Ok (202%Z, Ok tt)) tt.

Definition run := @simulate Toy.crypto ToyChain.eth ToyBind.lib common Toy.abi world [].

(** The run succeeds, with all six required actions and the bid. *)
Lemma run_succeeds : is_ok run.1 && (length run.2 =? 7) = true.
Proof. vm_compute. reflexivity. Qed.

(** The same run, but another announcement is there before the request is sent,
    and the request fails: the bid comes first and the process ends. *)
Definition early : @SimWorld Toy.crypto ToyChain.eth ToyBind.lib :=
  @mkSimWorld Toy.crypto ToyChain.eth ToyBind.lib ∅ (λ _, Ok tt) (Ok Byte.x01) (Ok Byte.x02) (λ _, Ok Byte.x03) (λ _, tx)
    nanos (λ _, Ok tt) now [WsMessage (mkWsBroadcast "new_intent" (Ok "other"))] (Ok tt) (λ _, 1) false
    (λ _, Ok tt) (λ _ _, Err "connection refused") tt.

Lemma early_bid :
  let r := @simulate Toy.crypto ToyChain.eth ToyBind.lib common Toy.abi early [] in
  is_ok r.1 = false ∧ kind_of <$> drop 5 r.2 = [KBid; KPost].
Proof. split; vm_compute; reflexivity. Qed.

Lemma clock : clock_ok now.
Proof. split; vm_compute; split; congruence. Defined.

End ToySim.

(** ** Witnesses *)

Section witnesses.
#[local] Existing Instance Toy.crypto.
#[local] Existing Instance Toy.abi.
#[local] Existing Instance ToyChain.eth.
#[local] Existing Instance ToyBind.lib.
#[local] Existing Instance ToySim.common.
#[local] Existing Instance ToySim.common_laws.
#[local] Existing Instance Toy.abi_laws.
#[local] Existing Instance Toy.crypto_laws.

Lemma escrow_before_intent_witness :
  ∃ e, ToySim.run.1 = Ok e ∧ escrowed_first ToySim.world ToySim.run.2 ∧ settled ToySim.world ToySim.run.2 e.
Proof.
  pose proof (escrow_before_intent ToySim.world) as Ht. pose proof ToySim.run_succeeds as Hr.
  unfold ToySim.run in *. destruct (simulate ToySim.world []) as [[e|err] tr].
  - exists e. split; [reflexivity|]. exact (proj2 (proj2 Ht) e eq_refl).
  - discriminate.
Defined.

Lemma calldata_is_abi_encoding_witness :
  declared "lockIntent" [VBytes32 (vreplicate 32 Byte.x05); VAddress (vreplicate 20 Byte.x01); VUint (Some 1000%Z)] Nonpayable ∧
  ∃ enc, lockIntentData (vreplicate 32 Byte.x05) (vreplicate 20 Byte.x01) 1000 = [Byte.x47; Byte.x64; Byte.x31; Byte.x64] ++ enc.
Proof.
  destruct (@calldata_is_abi_encoding ToySim.common Toy.abi _ _ (vreplicate 32 Byte.x05) (vreplicate 20 Byte.x01)
    1000 "bytes32" "address" "uint256") as (_ & (enc & _ & _ & E) & Hd & _); [reflexivity..|lia|].
  split; [exact Hd|exists enc; exact E].
Defined.

Lemma request_roundtrip_witness :
  ∃ digest, ∀ sig, crypto_Sign digest (Byte.x01 : @PrivateKey Toy.crypto) = Ok sig →
    ∃ i, Intent_ID i = simID ToySim.nanos ∧ RecoverSigner digest (Intent_Signature i) = Ok (Intent_Sender i).
Proof.
  destruct (request_roundtrip (vreplicate 20 Byte.x05) (vreplicate 20 Byte.x42) (Byte.x01 : @PrivateKey Toy.crypto)
    ToySim.nanos ToySim.now (make 1) ToySim.now ToySim.now) as (digest & _ & Hd);
    [exact ToySim.clock|vm_compute; congruence|exact ToySim.clock|vm_compute; reflexivity|reflexivity|simpl; lia|].
  exists digest. intros sig Hs. destruct (Hd sig Hs) as (i & _ & Hid & _ & _ & Hr). exists i. split; [exact Hid|exact Hr].
Defined.

Lemma solver_reply_witness :
  ∃ bid, listen (vreplicate 20 Byte.x02) ToySim.msgs = Some (Some bid) ∧ wb_IntentID bid = simID ToySim.nanos.
Proof.
  eexists. split.
  - apply (proj1 (solver_reply (vreplicate 20 Byte.x02) ToySim.msgs _)).
    exists [WsUnparseable "invalid character"], (simID ToySim.nanos), []. split; [reflexivity|].
    split; [constructor; [exact I|constructor]|reflexivity].
  - reflexivity.
Defined.

Lemma runs_use_distinct_escrows_witness : ToySim.nanos = 1700000000000000000%Z.
Proof.
  apply runs_use_distinct_escrows; [split; vm_compute; congruence..|reflexivity].
Defined.

End witnesses.
